(** * algo-approx: scalar approximation kernels over IEEE-754 binary32/binary64

    A shallow embedding of the kernels of [internal/approx] (sqrt, inverse
    sqrt, log, exp, the trigonometric family, power/root/integer power) and
    of the precision dispatch, over the executable IEEE-754 specification of
    the Standard Library ([SpecFloat]): every Go floating-point operation is
    the correctly rounded (round-to-nearest-even) operation of the scalar's
    width, evaluated one operation at a time (no fused multiply-add).
    The wrappers of the public package and the accuracy measurement of
    [internal/reference] are embedded over the same scalars. *)

From Stdlib Require Import ZArith Bool Lia List.
From Stdlib Require Import QArith Qpower Qabs Lqa Morphisms.
From Stdlib Require Import Floats.SpecFloat.
From Stdlib Require String.
Import ListNotations.

Local Open Scope Z_scope.

(** ** Scalars: Go's [float32] and [float64] *)

Module GoFloat.

(** The two instantiations of the type parameter [T Float]. *)
Inductive Width := F32 | F64.

Definition prec (w : Width) : Z := match w with F32 => 24 | F64 => 53 end.
Definition emax (w : Width) : Z := match w with F32 => 128 | F64 => 1024 end.

(** Total number of bits of the encoding. *)
Definition nbits (w : Width) : Z := match w with F32 => 32 | F64 => 64 end.

Definition float := spec_float.

Definition NaN : float := S754_nan.
Definition pInf : float := S754_infinity false.
Definition nInf : float := S754_infinity true.
Definition pZero : float := S754_zero false.
Definition nZero : float := S754_zero true.

(** A value of width [w] as the hardware stores it. *)
Definition valid (w : Width) (x : float) : bool := valid_binary (prec w) (emax w) x.

Definition is_nan (x : float) : bool :=
  match x with S754_nan => true | _ => false end.

Definition is_finite (x : float) : bool :=
  match x with S754_zero _ | S754_finite _ _ _ => true | _ => false end.

(** Arithmetic of width [w]. *)
Definition add (w : Width) := SFadd (prec w) (emax w).
Definition sub (w : Width) := SFsub (prec w) (emax w).
Definition mul (w : Width) := SFmul (prec w) (emax w).
Definition div (w : Width) := SFdiv (prec w) (emax w).
Definition neg (x : float) : float := SFopp x.

(** Go's comparison operators; every ordered comparison with NaN is false
    and [!=] is the negation of [==]. *)
Definition eqb (x y : float) : bool := SFeqb x y.
Definition neb (x y : float) : bool := negb (SFeqb x y).
Definition ltb (x y : float) : bool := SFltb x y.
Definition leb (x y : float) : bool := SFleb x y.
Definition gtb (x y : float) : bool := SFltb y x.
Definition geb (x y : float) : bool := SFleb y x.

(** Rounding of the exact value [(-1)^s * m * 2^e] to width [w]. *)
Definition round (w : Width) (x : float) : float :=
  match x with
  | S754_finite s m e => binary_round (prec w) (emax w) s m e
  | _ => x
  end.

(** [float64(x)] for [x : T] and [T(x)] for [x : float64].  For
    [T = float64] both conversions are the identity. *)
Definition to_f64 (w : Width) (x : float) : float :=
  match w with F64 => x | F32 => round F64 x end.

Definition of_f64 (w : Width) (x : float) : float :=
  match w with F64 => x | F32 => round F32 x end.

(** An untyped constant [p/q] (with [p, q > 0]) converted to width [w]:
    the exact quotient, rounded once. *)
Definition lit (w : Width) (p q : positive) : float :=
  SFdiv (prec w) (emax w) (S754_finite false p 0) (S754_finite false q 0).

(** An integer converted to width [w] ([T(n)], [float64(n)]). *)
Definition of_int (w : Width) (n : Z) : float :=
  binary_normalize (prec w) (emax w) n 0 false.

(** *** Bit patterns *)

Definition exp_field_max (w : Width) : Z := 2 * emax w - 1.
Definition mant_bits (w : Width) : Z := prec w - 1.
Definition exp_bias (w : Width) : Z := emax w - 1.

Definition sign_bit (w : Width) (s : bool) : Z :=
  if s then Z.shiftl 1 (nbits w - 1) else 0.

(** [math.Float32bits] / [math.Float64bits].  NaN payloads are not part of
    the model; a NaN encodes as Go's [math.NaN()] does (quiet bit and bit 0). *)
Definition to_bits (w : Width) (x : float) : Z :=
  match x with
  | S754_zero s => sign_bit w s
  | S754_infinity s => Z.lor (sign_bit w s) (Z.shiftl (exp_field_max w) (mant_bits w))
  | S754_nan =>
      Z.lor (Z.shiftl (exp_field_max w) (mant_bits w))
            (Z.lor (Z.shiftl 1 (mant_bits w - 1)) 1)
  | S754_finite s m e =>
      if Zpos (digits2_pos m) =? prec w then
        Z.lor (sign_bit w s)
              (Z.lor (Z.shiftl (e + mant_bits w + exp_bias w) (mant_bits w))
                     (Zpos m - Z.shiftl 1 (mant_bits w)))
      else Z.lor (sign_bit w s) (Zpos m)
  end.

(** [math.Float32frombits] / [math.Float64frombits]. *)
Definition of_bits (w : Width) (b : Z) : float :=
  let s := Z.testbit b (nbits w - 1) in
  let E := Z.land (Z.shiftr b (mant_bits w)) (exp_field_max w) in
  let f := Z.land b (Z.ones (mant_bits w)) in
  if E =? 0 then
    match f with
    | Zpos m => S754_finite s m (emin (prec w) (emax w))
    | _ => S754_zero s
    end
  else if E =? exp_field_max w then
    (if f =? 0 then S754_infinity s else S754_nan)
  else
    match Z.lor f (Z.shiftl 1 (mant_bits w)) with
    | Zpos m => S754_finite s m (E - exp_bias w - mant_bits w)
    | _ => S754_nan
    end.

(** Unsigned machine arithmetic on the bit patterns wraps around. *)
Definition wrap (w : Width) (n : Z) : Z := n mod 2 ^ nbits w.

(** *** Go's integer conversions and the [math] package

    These are library functions of Go, not of the repository; they are
    modelled by their documented behaviour (exact results, documented
    special cases). *)

Definition min_int64 : Z := - 2 ^ 63.
Definition max_int64 : Z := 2 ^ 63 - 1.

(** Negation of an [int] wraps: [-MinInt64 = MinInt64]. *)
Definition int_neg (n : Z) : Z := if n =? min_int64 then min_int64 else - n.

(** [int(f)] for [f : float64]: truncation toward zero.  Outside the range
    of [int] (and for NaN and the infinities) Go leaves the result to the
    implementation; amd64 yields [MinInt64]. *)
Definition to_int (x : float) : Z :=
  match x with
  | S754_zero _ => 0
  | S754_finite s m e =>
      let a := match e with
               | Zneg p => Z.shiftr (Zpos m) (Zpos p)
               | _ => Z.shiftl (Zpos m) e
               end in
      let n := if s then - a else a in
      if (min_int64 <=? n) && (n <=? max_int64) then n else min_int64
  | _ => min_int64
  end.

(** [math.IsInf(f, sign)]. *)
Definition IsInf (x : float) (sign : Z) : bool :=
  match x with
  | S754_infinity s => if sign >? 0 then negb s else if sign <? 0 then s else true
  | _ => false
  end.

(** [math.Floor]: the greatest integer value not above [x]; [Floor(±0) = ±0],
    [Floor(±Inf) = ±Inf], [Floor(NaN) = NaN]. *)
Definition Floor (x : float) : float :=
  match x with
  | S754_finite s m (Zneg p) =>
      let n := if s then - Zpos m else Zpos m in
      binary_normalize (prec F64) (emax F64) (Z.shiftr n (Zpos p)) 0 s
  | _ => x
  end.

(** [math.Mod(x, y)]: the exact floating-point remainder of [x/y], with the
    sign of [x]; [Mod(±Inf, y) = NaN], [Mod(NaN, y) = NaN], [Mod(x, 0) = NaN],
    [Mod(x, ±Inf) = x], [Mod(x, NaN) = NaN]. *)
Definition Mod (x y : float) : float :=
  match x, y with
  | S754_nan, _ | _, S754_nan => S754_nan
  | S754_infinity _, _ => S754_nan
  | _, S754_zero _ => S754_nan
  | _, S754_infinity _ => x
  | S754_zero _, S754_finite _ _ _ => x
  | S754_finite sx mx ex, S754_finite _ my ey =>
      let ez := Z.min ex ey in
      let r := Z.rem (Z.shiftl (Zpos mx) (ex - ez)) (Z.shiftl (Zpos my) (ey - ez)) in
      binary_normalize (prec F64) (emax F64) (if sx then - r else r) ez sx
  end.

(** [math.Ldexp(frac, exp)]: [frac * 2^exp], rounded once. *)
Definition Ldexp (frac : float) (exp : Z) : float :=
  SFldexp (prec F64) (emax F64) frac exp.

(** [math.Sqrt]: the correctly rounded square root. *)
Definition Sqrt64 (x : float) : float := SFsqrt (prec F64) (emax F64) x.

End GoFloat.

Import GoFloat.

Declare Scope f64_scope.
Delimit Scope f64_scope with f64.
Notation "x + y" := (add F64 x y) : f64_scope.
Notation "x - y" := (sub F64 x y) : f64_scope.
Notation "x * y" := (mul F64 x y) : f64_scope.
Notation "x / y" := (div F64 x y) : f64_scope.
Notation "- x" := (neg x) : f64_scope.

(** A [float64] constant [p/q]. *)
Notation "p // q" := (lit F64 p%positive q%positive) (at level 35, no associativity).

(** ** The kernels of [internal/approx] *)

Module Approx.

(** *** types.go *)

(** [type Precision int]: any [int] can be stored in it. *)
Definition Precision := Z.

Definition PrecisionAuto : Precision := 0.
Definition PrecisionFast : Precision := 1.
Definition PrecisionBalanced : Precision := 2.
Definition PrecisionHigh : Precision := 3.

Definition IsValid (p : Precision) : bool :=
  (p =? PrecisionAuto) || (p =? PrecisionFast) || (p =? PrecisionBalanced) || (p =? PrecisionHigh).

Definition normalizePrecision (p : Precision) : Precision :=
  if p =? PrecisionAuto then PrecisionBalanced
  else if negb (IsValid p) then PrecisionBalanced
  else p.

(** *** dispatch.go *)

Definition selectImpl {A : Type} (fast balanced high : A) (prec : Precision) : A :=
  let n := normalizePrecision prec in
  if n =? PrecisionFast then fast
  else if (n =? PrecisionBalanced) || (n =? PrecisionAuto) then balanced
  else if n =? PrecisionHigh then high
  else balanced.

(** A [for range n] loop whose body updates one variable. *)
Fixpoint repeat_n {A : Type} (n : nat) (body : A -> A) (y : A) : A :=
  match n with
  | O => y
  | S n' => repeat_n n' body (body y)
  end.

(** *** sqrt.go *)

Definition sqrtInitialGuess (w : Width) (x : float) : float :=
  match w with
  | F32 =>
      let ux := to_bits F32 x in
      let ux := wrap F32 (Z.shiftr ux 1 + 0x1fc00000) in
      of_bits F32 ux
  | F64 =>
      let ux := to_bits F64 x in
      let ux := wrap F64 (Z.shiftr ux 1 + 0x1ff8000000000000) in
      of_bits F64 ux
  end.

Definition sqrtBabylonian (w : Width) (x : float) (iterations : nat) : float :=
  if eqb x pZero then pZero
  else if ltb x pZero then NaN
  else if neb x x then x
  else if IsInf (to_f64 w x) 0 then x
  else
    let y := sqrtInitialGuess w x in
    let y := if eqb y pZero then x else y in
    let half := lit w 1 2 in
    repeat_n iterations (fun y => mul w half (add w y (div w x y))) y.

Definition sqrtFast (w : Width) (x : float) : float := sqrtBabylonian w x 1.
Definition sqrtBalanced (w : Width) (x : float) : float := sqrtBabylonian w x 2.
Definition sqrtHigh (w : Width) (x : float) : float := sqrtBabylonian w x 3.

Definition Sqrt (w : Width) (x : float) (prec : Precision) : float :=
  let impl := selectImpl (sqrtFast w) (sqrtBalanced w) (sqrtHigh w) prec in
  impl x.

(** *** invsqrt.go *)

Definition invSqrtQuake (w : Width) (x : float) : float :=
  match w with
  | F32 =>
      let i := to_bits F32 x in
      let i := wrap F32 (0x5f3759df - Z.shiftr i 1) in
      of_bits F32 i
  | F64 =>
      let i := to_bits F64 x in
      let i := wrap F64 (0x5fe6eb50c7b537a9 - Z.shiftr i 1) in
      of_bits F64 i
  end.

Definition invSqrtQuakeNR (w : Width) (x : float) (iters : nat) : float :=
  if eqb x pZero then pInf
  else if ltb x pZero then NaN
  else if neb x x then x
  else if IsInf (to_f64 w x) 0 then pZero
  else
    let y := invSqrtQuake w x in
    let half := lit w 1 2 in
    let threeHalf := lit w 3 2 in
    repeat_n iters
      (fun y => mul w y (sub w threeHalf (mul w (mul w (mul w half x) y) y))) y.

Definition invSqrtFast (w : Width) (x : float) : float := invSqrtQuakeNR w x 1.
Definition invSqrtBalanced (w : Width) (x : float) : float := invSqrtQuakeNR w x 2.
Definition invSqrtHigh (w : Width) (x : float) : float := invSqrtQuakeNR w x 3.

Definition InvSqrt (w : Width) (x : float) (prec : Precision) : float :=
  let impl := selectImpl (invSqrtFast w) (invSqrtBalanced w) (invSqrtHigh w) prec in
  impl x.

(** *** log.go *)

Definition ln2 : float :=
  693147180559945309417232121458176568 // 1000000000000000000000000000000000000.

(** The range reduction of [Log]: the pair [(m, e)] read off the bit
    pattern of [xf], after the conversion to [[0.5, 1)]. *)
Definition logReduce (xf : float) : float * Z :=
  let bits := to_bits F64 xf in
  let expBits := Z.land (Z.shiftr bits 52) 0x7ff - 1023 in
  let mant := Z.land bits (Z.shiftl 1 52 - 1) in
  let m := (1 // 1 + of_int F64 mant * (1 // 4503599627370496))%f64 in
  let e := expBits in
  let m := (m * (1 // 2))%f64 in
  let e := e + 1 in
  (m, e).

(** The unrolled odd-power series in [y], by precision. *)
Definition logSeries (y : float) (prec : Precision) : float :=
  let y2 := (y * y)%f64 in
  let sum := y in
  let p := (y * y2)%f64 in
  let n := normalizePrecision prec in
  if n =? PrecisionFast then
    (sum + p * (1 // 3))%f64
  else if n =? PrecisionHigh then
    let sum := (sum + p * (1 // 3))%f64 in
    let p := (p * y2)%f64 in
    let sum := (sum + p * (1 // 5))%f64 in
    let p := (p * y2)%f64 in
    let sum := (sum + p * (1 // 7))%f64 in
    let p := (p * y2)%f64 in
    let sum := (sum + p * (1 // 9))%f64 in
    let p := (p * y2)%f64 in
    (sum + p * (1 // 11))%f64
  else
    let sum := (sum + p * (1 // 3))%f64 in
    let p := (p * y2)%f64 in
    let sum := (sum + p * (1 // 5))%f64 in
    let p := (p * y2)%f64 in
    (sum + p * (1 // 7))%f64.

Definition Log (w : Width) (x : float) (prec : Precision) : float :=
  if neb x x then x
  else if eqb x pZero then nInf
  else if ltb x pZero then NaN
  else if IsInf (to_f64 w x) 1 then pInf
  else
    let xf := to_f64 w x in
    let '(m, e) := logReduce xf in
    let y := ((m - 1 // 1) / (m + 1 // 1))%f64 in
    let sum := logSeries y prec in
    let lnm := (2 // 1 * sum)%f64 in
    of_f64 w (lnm + of_int F64 e * ln2)%f64.

(** *** exp.go *)

Definition maxLogFloat64 : float := 709782712893384 // 1000000000000.
Definition minLogFloat64 : float := (- (745133219101941 // 1000000000000))%f64.
Definition invLn2 : float :=
  1442695040888963407359924681001892137 // 1000000000000000000000000000000000000.

Definition expPoly (r : float) (prec : Precision) : float :=
  if prec =? PrecisionFast then
    (1 // 1 + r * (1 // 1 + r * (1 // 2 + r * (1 // 6))))%f64
  else if (prec =? PrecisionAuto) || (prec =? PrecisionBalanced) then
    (1 // 1 + r * (1 // 1 + r * (1 // 2 + r * (1 // 6 + r * (1 // 24 + r * (1 // 120))))))%f64
  else if prec =? PrecisionHigh then
    (1 // 1 + r * (1 // 1 + r * (1 // 2 + r * (1 // 6 + r * (1 // 24 + r * (1 // 120
       + r * (1 // 720 + r * (1 // 5040))))))))%f64
  else
    (1 // 1 + r * (1 // 1 + r * (1 // 2 + r * (1 // 6 + r * (1 // 24 + r * (1 // 120))))))%f64.

Definition Exp (w : Width) (x : float) (prec : Precision) : float :=
  if neb x x then x
  else
    let xf := to_f64 w x in
    if IsInf xf 1 then pInf
    else if IsInf xf (-1) then pZero
    else if gtb xf maxLogFloat64 then pInf
    else if ltb xf minLogFloat64 then pZero
    else
      let k := to_int (Floor (xf * invLn2 + 1 // 2)%f64) in
      let r := (xf - of_int F64 k * ln2)%f64 in
      let expr := expPoly r (normalizePrecision prec) in
      let res :=
        if (k >? -1023) && (k <? 1024) then
          let pow2k := of_bits F64 (wrap F64 (Z.shiftl (wrap F64 (k + 1023)) 52)) in
          (expr * pow2k)%f64
        else Ldexp expr k in
      of_f64 w res.

(** *** trig.go *)

Definition pi_num : positive :=
  314159265358979323846264338327950288419716939937510582097494459.
Definition pi_den : positive :=
  100000000000000000000000000000000000000000000000000000000000000.

(** [math.Pi] and the constant expressions [2 * math.Pi], [math.Pi/2] and
    [math.Pi/4], each an exact constant rounded once to [float64]. *)
Definition Pi : float := lit F64 pi_num pi_den.
Definition twoPi : float := lit F64 (2 * pi_num) pi_den.
Definition halfPi : float := lit F64 pi_num (2 * pi_den).
Definition quarterPi : float := lit F64 pi_num (4 * pi_den).

(** The range reduction that every [sinNTerm] performs: modulo [2π], then
    into [[-π, π]], then into [[-π/2, π/2]]. *)
Definition sinReduce (xf : float) : float :=
  let xf := Mod xf twoPi in
  let xf := if gtb xf Pi then (xf - twoPi)%f64
            else if ltb xf (- Pi)%f64 then (xf + twoPi)%f64
            else xf in
  if gtb xf halfPi then (Pi - xf)%f64
  else if ltb xf (- halfPi)%f64 then (- Pi - xf)%f64
  else xf.

(** The range reduction that every [cosNTerm] performs: modulo [2π], then
    into [[0, 2π]], then into [[0, π]]. *)
Definition cosReduce (xf : float) : float :=
  let xf := Mod xf twoPi in
  let xf := if ltb xf pZero then (xf + twoPi)%f64 else xf in
  if gtb xf Pi then (twoPi - xf)%f64 else xf.

Definition sin3Term (w : Width) (x : float) : float :=
  let xf := sinReduce (to_f64 w x) in
  let sign := lit w 1 1 in
  let x2 := (xf * xf)%f64 in
  let x3 := (xf * x2)%f64 in
  let x5 := (x3 * x2)%f64 in
  let result := (xf - x3 / (6 // 1) + x5 / (120 // 1))%f64 in
  mul w sign (of_f64 w result).

Definition cos3Term (w : Width) (x : float) : float :=
  let xf := cosReduce (to_f64 w x) in
  let x2 := (xf * xf)%f64 in
  let x4 := (x2 * x2)%f64 in
  let result := (1 // 1 - x2 / (2 // 1) + x4 / (24 // 1))%f64 in
  of_f64 w result.

Definition sec3Term (w : Width) (x : float) : float :=
  let cosVal := cos3Term w x in
  div w (lit w 1 1) cosVal.

Definition csc3Term (w : Width) (x : float) : float :=
  let sinVal := sin3Term w x in
  div w (lit w 1 1) sinVal.

Definition sin4Term (w : Width) (x : float) : float :=
  let xf := sinReduce (to_f64 w x) in
  let sign := lit w 1 1 in
  let x2 := (xf * xf)%f64 in
  let x3 := (xf * x2)%f64 in
  let x5 := (x3 * x2)%f64 in
  let x7 := (x5 * x2)%f64 in
  let result := (xf - x3 / (6 // 1) + x5 / (120 // 1) - x7 / (5040 // 1))%f64 in
  mul w sign (of_f64 w result).

Definition cos4Term (w : Width) (x : float) : float :=
  let xf := cosReduce (to_f64 w x) in
  let x2 := (xf * xf)%f64 in
  let x4 := (x2 * x2)%f64 in
  let x6 := (x4 * x2)%f64 in
  let result := (1 // 1 - x2 / (2 // 1) + x4 / (24 // 1) - x6 / (720 // 1))%f64 in
  of_f64 w result.

Definition sec4Term (w : Width) (x : float) : float :=
  let cosVal := cos4Term w x in
  div w (lit w 1 1) cosVal.

Definition csc4Term (w : Width) (x : float) : float :=
  let sinVal := sin4Term w x in
  div w (lit w 1 1) sinVal.

Definition sin5Term (w : Width) (x : float) : float :=
  let xf := sinReduce (to_f64 w x) in
  let sign := lit w 1 1 in
  let x2 := (xf * xf)%f64 in
  let x3 := (xf * x2)%f64 in
  let x5 := (x3 * x2)%f64 in
  let x7 := (x5 * x2)%f64 in
  let x9 := (x7 * x2)%f64 in
  let result := (xf - x3 / (6 // 1) + x5 / (120 // 1) - x7 / (5040 // 1) + x9 / (362880 // 1))%f64 in
  mul w sign (of_f64 w result).

Definition cos5Term (w : Width) (x : float) : float :=
  let xf := cosReduce (to_f64 w x) in
  let x2 := (xf * xf)%f64 in
  let x4 := (x2 * x2)%f64 in
  let x6 := (x4 * x2)%f64 in
  let x8 := (x6 * x2)%f64 in
  let result := (1 // 1 - x2 / (2 // 1) + x4 / (24 // 1) - x6 / (720 // 1) + x8 / (40320 // 1))%f64 in
  of_f64 w result.

Definition sec5Term (w : Width) (x : float) : float :=
  let cosVal := cos5Term w x in
  div w (lit w 1 1) cosVal.

Definition csc5Term (w : Width) (x : float) : float :=
  let sinVal := sin5Term w x in
  div w (lit w 1 1) sinVal.

Definition sin6Term (w : Width) (x : float) : float :=
  let xf := sinReduce (to_f64 w x) in
  let sign := lit w 1 1 in
  let x2 := (xf * xf)%f64 in
  let x3 := (xf * x2)%f64 in
  let x5 := (x3 * x2)%f64 in
  let x7 := (x5 * x2)%f64 in
  let x9 := (x7 * x2)%f64 in
  let x11 := (x9 * x2)%f64 in
  let result := (xf - x3 / (6 // 1) + x5 / (120 // 1) - x7 / (5040 // 1) + x9 / (362880 // 1) - x11 / (39916800 // 1))%f64 in
  mul w sign (of_f64 w result).

Definition cos6Term (w : Width) (x : float) : float :=
  let xf := cosReduce (to_f64 w x) in
  let x2 := (xf * xf)%f64 in
  let x4 := (x2 * x2)%f64 in
  let x6 := (x4 * x2)%f64 in
  let x8 := (x6 * x2)%f64 in
  let x10 := (x8 * x2)%f64 in
  let result := (1 // 1 - x2 / (2 // 1) + x4 / (24 // 1) - x6 / (720 // 1) + x8 / (40320 // 1) - x10 / (3628800 // 1))%f64 in
  of_f64 w result.

Definition sec6Term (w : Width) (x : float) : float :=
  let cosVal := cos6Term w x in
  div w (lit w 1 1) cosVal.

Definition csc6Term (w : Width) (x : float) : float :=
  let sinVal := sin6Term w x in
  div w (lit w 1 1) sinVal.

Definition sin7Term (w : Width) (x : float) : float :=
  let xf := sinReduce (to_f64 w x) in
  let sign := lit w 1 1 in
  let x2 := (xf * xf)%f64 in
  let x3 := (xf * x2)%f64 in
  let x5 := (x3 * x2)%f64 in
  let x7 := (x5 * x2)%f64 in
  let x9 := (x7 * x2)%f64 in
  let x11 := (x9 * x2)%f64 in
  let x13 := (x11 * x2)%f64 in
  let result := (xf - x3 / (6 // 1) + x5 / (120 // 1) - x7 / (5040 // 1) + x9 / (362880 // 1) - x11 / (39916800 // 1) + x13 / (6227020800 // 1))%f64 in
  mul w sign (of_f64 w result).

Definition cos7Term (w : Width) (x : float) : float :=
  let xf := cosReduce (to_f64 w x) in
  let x2 := (xf * xf)%f64 in
  let x4 := (x2 * x2)%f64 in
  let x6 := (x4 * x2)%f64 in
  let x8 := (x6 * x2)%f64 in
  let x10 := (x8 * x2)%f64 in
  let x12 := (x10 * x2)%f64 in
  let result := (1 // 1 - x2 / (2 // 1) + x4 / (24 // 1) - x6 / (720 // 1) + x8 / (40320 // 1) - x10 / (3628800 // 1) + x12 / (479001600 // 1))%f64 in
  of_f64 w result.

Definition sec7Term (w : Width) (x : float) : float :=
  let cosVal := cos7Term w x in
  div w (lit w 1 1) cosVal.

Definition csc7Term (w : Width) (x : float) : float :=
  let sinVal := sin7Term w x in
  div w (lit w 1 1) sinVal.

Definition Sin (w : Width) (x : float) (prec : Precision) : float :=
  if (prec =? PrecisionAuto) || (prec =? PrecisionBalanced) then sin5Term w x
  else if prec =? PrecisionFast then sin3Term w x
  else if prec =? PrecisionHigh then sin7Term w x
  else sin5Term w x.

Definition Cos (w : Width) (x : float) (prec : Precision) : float :=
  if (prec =? PrecisionAuto) || (prec =? PrecisionBalanced) then cos5Term w x
  else if prec =? PrecisionFast then cos3Term w x
  else if prec =? PrecisionHigh then cos7Term w x
  else cos5Term w x.

Definition Sec (w : Width) (x : float) (prec : Precision) : float :=
  if (prec =? PrecisionAuto) || (prec =? PrecisionBalanced) then sec5Term w x
  else if prec =? PrecisionFast then sec3Term w x
  else if prec =? PrecisionHigh then sec7Term w x
  else sec5Term w x.

Definition Csc (w : Width) (x : float) (prec : Precision) : float :=
  if (prec =? PrecisionAuto) || (prec =? PrecisionBalanced) then csc5Term w x
  else if prec =? PrecisionFast then csc3Term w x
  else if prec =? PrecisionHigh then csc7Term w x
  else csc5Term w x.

(** *** tan.go *)

(** The range reduction that every [tanNTerm] performs: modulo [π] into
    [[0, π)], into [[0, π/2]] with a sign, into [[0, π/4]] with a reciprocal
    flag.  Returns the reduced argument, the sign and the flag. *)
Definition tanReduce (xf : float) : float * float * bool :=
  let xf := Mod xf Pi in
  let xf := if ltb xf pZero then (xf + Pi)%f64 else xf in
  let '(xf, sign) :=
    if gtb xf halfPi then
      let xf := (xf - halfPi)%f64 in
      let xf := (halfPi - xf)%f64 in
      (xf, (- (1 // 1))%f64)
    else (xf, 1 // 1) in
  if gtb xf quarterPi then ((halfPi - xf)%f64, sign, true)
  else (xf, sign, false).

Definition tan2Term (w : Width) (x : float) : float :=
  let '(xf, sign, reciprocal) := tanReduce (to_f64 w x) in
  let x2 := (xf * xf)%f64 in
  let x3 := (xf * x2)%f64 in
  let result := (xf + x3 / (3 // 1))%f64 in
  let result := if reciprocal then (1 // 1 / result)%f64 else result in
  of_f64 w (sign * result)%f64.

Definition cotan2Term (w : Width) (x : float) : float :=
  let tanVal := tan2Term w x in
  div w (lit w 1 1) tanVal.

Definition tan3Term (w : Width) (x : float) : float :=
  let '(xf, sign, reciprocal) := tanReduce (to_f64 w x) in
  let x2 := (xf * xf)%f64 in
  let x3 := (xf * x2)%f64 in
  let x5 := (x3 * x2)%f64 in
  let result := (xf + x3 / (3 // 1) + 2 // 1 * x5 / (15 // 1))%f64 in
  let result := if reciprocal then (1 // 1 / result)%f64 else result in
  of_f64 w (sign * result)%f64.

Definition cotan3Term (w : Width) (x : float) : float :=
  let tanVal := tan3Term w x in
  div w (lit w 1 1) tanVal.

Definition tan4Term (w : Width) (x : float) : float :=
  let '(xf, sign, reciprocal) := tanReduce (to_f64 w x) in
  let x2 := (xf * xf)%f64 in
  let x3 := (xf * x2)%f64 in
  let x5 := (x3 * x2)%f64 in
  let x7 := (x5 * x2)%f64 in
  let result := (xf + x3 / (3 // 1) + 2 // 1 * x5 / (15 // 1) + 17 // 1 * x7 / (315 // 1))%f64 in
  let result := if reciprocal then (1 // 1 / result)%f64 else result in
  of_f64 w (sign * result)%f64.

Definition cotan4Term (w : Width) (x : float) : float :=
  let tanVal := tan4Term w x in
  div w (lit w 1 1) tanVal.

Definition tan6Term (w : Width) (x : float) : float :=
  let '(xf, sign, reciprocal) := tanReduce (to_f64 w x) in
  let x2 := (xf * xf)%f64 in
  let x3 := (xf * x2)%f64 in
  let x5 := (x3 * x2)%f64 in
  let x7 := (x5 * x2)%f64 in
  let x9 := (x7 * x2)%f64 in
  let x11 := (x9 * x2)%f64 in
  let result := (xf + x3 / (3 // 1) + 2 // 1 * x5 / (15 // 1) + 17 // 1 * x7 / (315 // 1) + 62 // 1 * x9 / (2835 // 1) + 1382 // 1 * x11 / (155925 // 1))%f64 in
  let result := if reciprocal then (1 // 1 / result)%f64 else result in
  of_f64 w (sign * result)%f64.

Definition cotan6Term (w : Width) (x : float) : float :=
  let tanVal := tan6Term w x in
  div w (lit w 1 1) tanVal.

Definition Tan (w : Width) (x : float) (prec : Precision) : float :=
  if prec =? PrecisionFast then tan2Term w x
  else if prec =? PrecisionBalanced then tan3Term w x
  else if prec =? PrecisionHigh then tan6Term w x
  else tan3Term w x.

Definition Cotan (w : Width) (x : float) (prec : Precision) : float :=
  if prec =? PrecisionFast then cotan2Term w x
  else if prec =? PrecisionBalanced then cotan3Term w x
  else if prec =? PrecisionHigh then cotan6Term w x
  else cotan3Term w x.

(** *** arctan.go

    These kernels compute in the scalar's own width [T]. *)

Section InverseTrig.
Variable w : Width.

Declare Scope fT_scope.
Local Notation "x + y" := (add w x y) : fT_scope.
Local Notation "x - y" := (sub w x y) : fT_scope.
Local Notation "x * y" := (mul w x y) : fT_scope.
Local Notation "x / y" := (div w x y) : fT_scope.
Local Notation "# n" := (lit w n%positive 1) (at level 9, n at level 9) : fT_scope.
Local Open Scope fT_scope.

Definition arctan3Term (x : float) : float :=
  let x2 := x * x in
  let x3 := x2 * x in
  let x5 := x3 * x2 in
  x - x3 / #3 + x5 / #5.

Definition arctan6Term (x : float) : float :=
  let x2 := x * x in
  let x3 := x2 * x in
  let x5 := x3 * x2 in
  let x7 := x5 * x2 in
  let x9 := x7 * x2 in
  let x11 := x9 * x2 in
  x - x3 / #3 + x5 / #5 - x7 / #7 + x9 / #9 - x11 / #11.

Definition arccotan3Term (x : float) : float :=
  lit w pi_num pi_den / #2 - arctan3Term x.

Definition arccotan6Term (x : float) : float :=
  lit w pi_num pi_den / #2 - arctan6Term x.

Definition arccos3Term (x : float) : float :=
  if gtb x (neg (lit w 1 2)) && ltb x (lit w 1 2) then
    let x2 := x * x in
    let x3 := x2 * x in
    let x5 := x3 * x2 in
    let arcsinX := x + x3 / #6 + #3 * x5 / #40 in
    lit w pi_num pi_den / #2 - arcsinX
  else
    let arg := of_f64 w (Sqrt64 (to_f64 w ((#1 - x) / #2))) in
    let arg2 := arg * arg in
    let arg3 := arg2 * arg in
    let arg5 := arg3 * arg2 in
    let arcsinArg := arg + arg3 / #6 + #3 * arg5 / #40 in
    #2 * arcsinArg.

Definition arccos6Term (x : float) : float :=
  if gtb x (neg (lit w 1 2)) && ltb x (lit w 1 2) then
    let x2 := x * x in
    let x3 := x2 * x in
    let x5 := x3 * x2 in
    let x7 := x5 * x2 in
    let x9 := x7 * x2 in
    let x11 := x9 * x2 in
    let arcsinX := x + x3 / #6 + #3 * x5 / #40 + #15 * x7 / #336
                   + #105 * x9 / #3456 + #945 * x11 / #42240 in
    lit w pi_num pi_den / #2 - arcsinX
  else
    let arg := of_f64 w (Sqrt64 (to_f64 w ((#1 - x) / #2))) in
    let arg2 := arg * arg in
    let arg3 := arg2 * arg in
    let arg5 := arg3 * arg2 in
    let arg7 := arg5 * arg2 in
    let arg9 := arg7 * arg2 in
    let arg11 := arg9 * arg2 in
    let arcsinArg := arg + arg3 / #6 + #3 * arg5 / #40 + #15 * arg7 / #336
                     + #105 * arg9 / #3456 + #945 * arg11 / #42240 in
    #2 * arcsinArg.

Definition Arctan (x : float) (prec : Precision) : float :=
  if (prec =? PrecisionAuto)%Z || (prec =? PrecisionFast)%Z || (prec =? PrecisionBalanced)%Z
  then arctan3Term x
  else if (prec =? PrecisionHigh)%Z then arctan6Term x
  else arctan3Term x.

Definition Arccotan (x : float) (prec : Precision) : float :=
  if (prec =? PrecisionAuto)%Z || (prec =? PrecisionFast)%Z || (prec =? PrecisionBalanced)%Z
  then arccotan3Term x
  else if (prec =? PrecisionHigh)%Z then arccotan6Term x
  else arccotan3Term x.

Definition Arccos (x : float) (prec : Precision) : float :=
  if (prec =? PrecisionAuto)%Z || (prec =? PrecisionFast)%Z || (prec =? PrecisionBalanced)%Z
  then arccos3Term x
  else if (prec =? PrecisionHigh)%Z then arccos6Term x
  else arccos3Term x.

End InverseTrig.

(** *** power.go

    [Power] and [Root] call [Exp], [Ln] and [Sqrt2] with a single argument;
    these fixed-precision forms of the exponential, logarithm and square-root
    kernels are declared in a file that is not part of the sources at hand,
    so the composition layer is parameterised by them. *)

Section PowerGo.
Variable w : Width.
Variables (Exp Ln Sqrt2 : float -> float).

Definition Power (base exponent : float) : float :=
  if leb base pZero then
    if ltb base pZero then NaN
    else if eqb exponent pZero then lit w 1 1
    else if gtb exponent pZero then pZero
    else pInf
  else if eqb exponent pZero then lit w 1 1
  else if eqb exponent (lit w 1 1) then base
  else Exp (mul w exponent (Ln base)).

Definition Root (value : float) (n : Z) : float :=
  if n =? 0 then NaN
  else if n =? 1 then value
  else if ltb value pZero then NaN
  else if eqb value pZero then pZero
  else if n =? 2 then Sqrt2 value
  else Power value (div w (lit w 1 1) (of_int w n)).

End PowerGo.

(** The loop of [IntPower]; [n] halves at every round, so 64 rounds
    exhaust every positive [int]. *)
Fixpoint intPowerLoop (w : Width) (rounds : nat) (n : Z) (result currentBase : float) : float :=
  match rounds with
  | O => result
  | S rounds' =>
      if n >? 0 then
        let result := if Z.rem n 2 =? 1 then mul w result currentBase else result in
        let currentBase := mul w currentBase currentBase in
        intPowerLoop w rounds' (Z.quot n 2) result currentBase
      else result
  end.

(** [IntPower] calls itself on [-exponent]; [depth] bounds the nesting of
    calls and [None] is the call that has not returned within it. *)
Fixpoint IntPower (depth : nat) (w : Width) (base : float) (exponent : Z) : option float :=
  match depth with
  | O => None
  | S depth' =>
      if exponent =? 0 then Some (lit w 1 1)
      else if exponent =? 1 then Some base
      else if eqb base pZero then
        if exponent >? 0 then Some pZero else Some pInf
      else if exponent <? 0 then
        match IntPower depth' w base (int_neg exponent) with
        | Some r => Some (div w (lit w 1 1) r)
        | None => None
        end
      else Some (intPowerLoop w 64 exponent (lit w 1 1) base)
  end.

End Approx.

Import Approx.

(** ** The public package *)

Module Public.
Import String.

(** *** options.go *)

Definition Precision := Z.

Definition PrecisionAuto : Precision := 0.
Definition PrecisionFast : Precision := 1.
Definition PrecisionBalanced : Precision := 2.
Definition PrecisionHigh : Precision := 3.

Definition String (p : Precision) : string :=
  if p =? PrecisionAuto then "auto"%string
  else if p =? PrecisionFast then "fast"%string
  else if p =? PrecisionBalanced then "balanced"%string
  else if p =? PrecisionHigh then "high"%string
  else "unknown"%string.

Definition IsValid (p : Precision) : bool :=
  (p =? PrecisionAuto) || (p =? PrecisionFast) || (p =? PrecisionBalanced) || (p =? PrecisionHigh).

Definition normalizePrecision (p : Precision) : Precision :=
  if p =? PrecisionAuto then PrecisionBalanced
  else if negb (IsValid p) then PrecisionBalanced
  else p.

(** *** approx.go

    [iapprox.Precision(p)] converts between two [int] types, leaving the
    value as it is. *)

Definition FastSqrtPrec (w : Width) (x : float) (prec : Precision) : float :=
  Approx.Sqrt w x (normalizePrecision prec).
Definition FastSqrt (w : Width) (x : float) : float := FastSqrtPrec w x PrecisionAuto.
Definition FastSqrt32 (x : float) : float := FastSqrt F32 x.
Definition FastSqrt64 (x : float) : float := FastSqrt F64 x.

Definition FastInvSqrtPrec (w : Width) (x : float) (prec : Precision) : float :=
  Approx.InvSqrt w x (normalizePrecision prec).
Definition FastInvSqrt (w : Width) (x : float) : float := FastInvSqrtPrec w x PrecisionAuto.
Definition FastInvSqrt32 (x : float) : float := FastInvSqrt F32 x.
Definition FastInvSqrt64 (x : float) : float := FastInvSqrt F64 x.

Definition FastLogPrec (w : Width) (x : float) (prec : Precision) : float :=
  Approx.Log w x (normalizePrecision prec).
Definition FastLog (w : Width) (x : float) : float := FastLogPrec w x PrecisionAuto.
Definition FastLog32 (x : float) : float := FastLog F32 x.
Definition FastLog64 (x : float) : float := FastLog F64 x.

Definition FastExpPrec (w : Width) (x : float) (prec : Precision) : float :=
  Approx.Exp w x (normalizePrecision prec).
Definition FastExp (w : Width) (x : float) : float := FastExpPrec w x PrecisionAuto.
Definition FastExp32 (x : float) : float := FastExp F32 x.
Definition FastExp64 (x : float) : float := FastExp F64 x.

Definition FastSinPrec (w : Width) (x : float) (prec : Precision) : float :=
  Approx.Sin w x (normalizePrecision prec).
Definition FastSin (w : Width) (x : float) : float := FastSinPrec w x PrecisionAuto.
Definition FastSin32 (x : float) : float := FastSin F32 x.
Definition FastSin64 (x : float) : float := FastSin F64 x.

Definition FastCosPrec (w : Width) (x : float) (prec : Precision) : float :=
  Approx.Cos w x (normalizePrecision prec).
Definition FastCos (w : Width) (x : float) : float := FastCosPrec w x PrecisionAuto.
Definition FastCos32 (x : float) : float := FastCos F32 x.
Definition FastCos64 (x : float) : float := FastCos F64 x.

Definition FastSecPrec (w : Width) (x : float) (prec : Precision) : float :=
  Approx.Sec w x (normalizePrecision prec).
Definition FastSec (w : Width) (x : float) : float := FastSecPrec w x PrecisionAuto.
Definition FastSec32 (x : float) : float := FastSec F32 x.
Definition FastSec64 (x : float) : float := FastSec F64 x.

Definition FastCscPrec (w : Width) (x : float) (prec : Precision) : float :=
  Approx.Csc w x (normalizePrecision prec).
Definition FastCsc (w : Width) (x : float) : float := FastCscPrec w x PrecisionAuto.
Definition FastCsc32 (x : float) : float := FastCsc F32 x.
Definition FastCsc64 (x : float) : float := FastCsc F64 x.

Definition FastTanPrec (w : Width) (x : float) (prec : Precision) : float :=
  Approx.Tan w x (normalizePrecision prec).
Definition FastTan (w : Width) (x : float) : float := FastTanPrec w x PrecisionAuto.
Definition FastTan32 (x : float) : float := FastTan F32 x.
Definition FastTan64 (x : float) : float := FastTan F64 x.

Definition FastCotanPrec (w : Width) (x : float) (prec : Precision) : float :=
  Approx.Cotan w x (normalizePrecision prec).
Definition FastCotan (w : Width) (x : float) : float := FastCotanPrec w x PrecisionAuto.
Definition FastCotan32 (x : float) : float := FastCotan F32 x.
Definition FastCotan64 (x : float) : float := FastCotan F64 x.

Definition FastArctanPrec (w : Width) (x : float) (prec : Precision) : float :=
  Approx.Arctan w x (normalizePrecision prec).
Definition FastArctan (w : Width) (x : float) : float := FastArctanPrec w x PrecisionAuto.
Definition FastArctan32 (x : float) : float := FastArctan F32 x.
Definition FastArctan64 (x : float) : float := FastArctan F64 x.

Definition FastArccotanPrec (w : Width) (x : float) (prec : Precision) : float :=
  Approx.Arccotan w x (normalizePrecision prec).
Definition FastArccotan (w : Width) (x : float) : float := FastArccotanPrec w x PrecisionAuto.
Definition FastArccotan32 (x : float) : float := FastArccotan F32 x.
Definition FastArccotan64 (x : float) : float := FastArccotan F64 x.

Definition FastArccosPrec (w : Width) (x : float) (prec : Precision) : float :=
  Approx.Arccos w x (normalizePrecision prec).
Definition FastArccos (w : Width) (x : float) : float := FastArccosPrec w x PrecisionAuto.
Definition FastArccos32 (x : float) : float := FastArccos F32 x.
Definition FastArccos64 (x : float) : float := FastArccos F64 x.

End Public.

(** ** The reference package: accuracy.go *)

Module Reference.

(** [math.Abs]: the sign bit cleared. *)
Definition Abs (x : float) : float := SFabs x.

Record AccuracyMetrics := {
  MaxAbsError : float;
  MaxRelError : float;
  MeanAbsError : float;
  RMSError : float;
  DecimalDigits : float
}.

Section Accuracy.
(** [math.Log10], a function of Go's library. *)
Variable Log10 : float -> float.
Variable w : Width.

(** One pass of the loop body over the variables [maxAbs], [maxRel],
    [sumAbs] and [sumSq]. *)
Definition accuracyStep (refFn approxFn : float -> float)
    (acc : float * float * float * float) (x : float) : float * float * float * float :=
  let '(maxAbs, maxRel, sumAbs, sumSq) := acc in
  let ref := to_f64 w (refFn x) in
  let got := to_f64 w (approxFn x) in
  let err := (got - ref)%f64 in
  let absErr := Abs err in
  let sumAbs := (sumAbs + absErr)%f64 in
  let sumSq := (sumSq + err * err)%f64 in
  let maxAbs := if gtb absErr maxAbs then absErr else maxAbs in
  let den := Abs ref in
  let rel := if neb den pZero then (absErr / den)%f64 else absErr in
  let maxRel := if gtb rel maxRel then rel else maxRel in
  (maxAbs, maxRel, sumAbs, sumSq).

Definition MeasureAccuracy (samples : list float) (refFn approxFn : float -> float)
    : AccuracyMetrics :=
  match samples with
  | nil => {| MaxAbsError := pZero; MaxRelError := pZero; MeanAbsError := pZero;
              RMSError := pZero; DecimalDigits := pInf |}
  | _ =>
      let '(maxAbs, maxRel, sumAbs, sumSq) :=
        fold_left (accuracyStep refFn approxFn) samples (pZero, pZero, pZero, pZero) in
      let n := of_int F64 (Z.of_nat (length samples)) in
      let meanAbs := (sumAbs / n)%f64 in
      let rms := Sqrt64 (sumSq / n)%f64 in
      let digits := if gtb maxRel pZero then neg (Log10 maxRel) else pInf in
      {| MaxAbsError := maxAbs; MaxRelError := maxRel; MeanAbsError := meanAbs;
         RMSError := rms; DecimalDigits := digits |}
  end.

End Accuracy.

End Reference.

(** * Reference definitions

    The notions that the statements below compare the kernels with. *)

(** The four precision tiers. *)
Definition tiers : list Precision :=
  [PrecisionAuto; PrecisionFast; PrecisionBalanced; PrecisionHigh].

(** Two results are the same scalar: same bits (NaN compares equal to NaN). *)
Definition same_float (w : Width) (x y : float) : bool :=
  to_bits w x =? to_bits w y.

(** A sample argument at which the four tangent kernels give four
    different results. *)
Definition tan_probe : float := 7 // 10.

(** What a call with a positive exponent returns (no nested call). *)
Definition IntPower_positive (w : Width) (base : float) (exponent : Z) : float :=
  if exponent =? 1 then base
  else if eqb base pZero then pZero
  else intPowerLoop w 64 exponent (lit w 1 1) base.

(** The decomposition the specification describes: [x = m * 2^e] with [m]
    in [[0.5, 1)], as [math.Frexp] computes it. *)
Definition frexp64 (xf : float) : float * Z := SFfrexp (prec F64) (emax F64) xf.

(** [Log] as specified: the code's series and reconstruction, on the
    decomposition [x = m * 2^e]. *)
Definition Log_spec (w : Width) (x : float) (prec : Precision) : float :=
  let xf := to_f64 w x in
  let '(m, e) := frexp64 xf in
  let y := ((m - 1 // 1) / (m + 1 // 1))%f64 in
  let sum := logSeries y prec in
  let lnm := (2 // 1 * sum)%f64 in
  of_f64 w (lnm + of_int F64 e * ln2)%f64.

(** The smallest positive [float64], [2^-1074]. *)
Definition smallest_subnormal : float := of_bits F64 1.

(** The overflow and underflow thresholds of [Exp] for each width.  For
    [float64] they are the constants of exp.go, [ln(MaxFloat64)] and
    [ln(2^-1075)], the logarithm of half the smallest subnormal.  exp.go has
    no constant for [float32]; the same two quantities of that width are
    [ln(MaxFloat32)] and [ln(2^-150)]. *)
Definition maxLogFloat32 : float := 8872283905206835 // 100000000000000.
Definition minLogFloat32 : float := (- (10397207708399179 // 100000000000000))%f64.

Definition overflowThreshold (w : Width) : float :=
  match w with F32 => maxLogFloat32 | F64 => maxLogFloat64 end.

Definition underflowThreshold (w : Width) : float :=
  match w with F32 => minLogFloat32 | F64 => minLogFloat64 end.

(** Half of [emax]. *)
Definition half_emax (w : Width) : Z := match w with F32 => 64 | F64 => 512 end.

(** The constant that [sqrtInitialGuess] adds to the halved bit pattern. *)
Definition sqrt_magic (w : Width) : Z :=
  match w with F32 => 0x1fc00000 | F64 => 0x1ff8000000000000 end.

(** The constant from which [invSqrtQuake] subtracts the halved bit pattern. *)
Definition invsqrt_magic (w : Width) : Z :=
  match w with F32 => 0x5f3759df | F64 => 0x5fe6eb50c7b537a9 end.

(** [a] is the opposite of [b], up to the sign of a zero: [a == -b] in Go,
    or both are NaN. *)
Definition opposite (a b : float) : Prop :=
  a = neg b \/ (eqb a pZero = true /\ eqb b pZero = true).

(** ** Floats as rational numbers

    The value of a float and what it means for a float to be the rounding
    of an exact value; the facts on the operations are stated with these. *)

Module FloatSpec.

(** The mantissa that round-to-nearest-even picks for the quotient [m1]
    and the remainder [rem] of a division by [2^n]. *)
Definition rnd_choice (m1 rem n : Z) : Z :=
  if rem =? 0 then m1
  else match 2 * rem ?= 2 ^ n with
       | Lt => m1
       | Eq => if Z.even m1 then m1 else m1 + 1
       | Gt => m1 + 1
       end.

(** Powers of two as rationals. *)
Definition Q2 (e : Z) : Q := (2 ^ e)%Q.

(** The rational value of a float (0 for the infinities and NaN). *)
Definition F2Q (x : spec_float) : Q :=
  match x with
  | S754_finite s m e => inject_Z (cond_Zopp s (Zpos m)) * Q2 e
  | _ => 0
  end.

(** The sign bit of a float (false for NaN). *)
Definition sign_of (x : spec_float) : bool :=
  match x with
  | S754_zero s | S754_infinity s | S754_finite s _ _ => s
  | S754_nan => false
  end.

Section Format.
Variables prec emax : Z.

Local Abbreviation emin := (SpecFloat.emin prec emax).

(** The float of sign [s] and magnitude [m * 2^e], for [0 <= m <= 2^prec]. *)
Definition mk_float (s : bool) (m e : Z) : spec_float :=
  if m =? 0 then S754_zero s
  else if m =? 2 ^ prec then
    (if e + 1 <=? emax - prec then S754_finite s (Z.to_pos (2 ^ (prec - 1))) (e + 1)
     else S754_infinity s)
  else if e <=? emax - prec then S754_finite s (Z.to_pos m) e
  else S754_infinity s.

(** [R] is a float of the format with sign [s] and magnitude [q], or the
    infinity of sign [s] when [q] is beyond the format. *)
Definition is_rounding (R : spec_float) (s : bool) (q : Q) : Prop :=
  match R with
  | S754_zero s' => s' = s /\ (q == 0)%Q
  | S754_finite s' m e =>
      s' = s /\ bounded prec emax m e = true /\ (inject_Z (Zpos m) * Q2 e == q)%Q
  | S754_infinity s' => s' = s /\ (Q2 emax <= q)%Q
  | S754_nan => False
  end.

(** [m1 * 2^e1] and [(m1 + 1) * 2^e1] are neighbours on the grid of the
    format: [m1] has [prec] digits unless [e1] is [emin]. *)
Definition on_grid (m1 e1 : Z) : Prop :=
  emin <= e1 /\ 0 <= m1 < 2 ^ prec /\ (emin < e1 -> 2 ^ (prec - 1) <= m1).

(** [q] is the magnitude that rounding gives to the exact magnitude [v]. *)
Record rounded_magnitude (v q : Q) : Prop := {
  rm_lower : forall mc ec, bounded prec emax mc ec = true ->
      (inject_Z (Zpos mc) * Q2 ec <= v)%Q -> (inject_Z (Zpos mc) * Q2 ec <= q)%Q;
  rm_upper : forall mc ec, bounded prec emax mc ec = true ->
      (v <= inject_Z (Zpos mc) * Q2 ec)%Q -> (q <= inject_Z (Zpos mc) * Q2 ec)%Q;
  rm_overflow : (Q2 emax <= v)%Q -> (Q2 emax <= q)%Q;
  rm_tiny : (2 * v <= Q2 emin)%Q -> (q == 0)%Q;
  rm_rel : (Q2 (emin + prec - 1) <= v)%Q ->
      (v - v * Q2 (1 - prec) <= q <= v + v * Q2 (1 - prec))%Q;
  rm_nonneg : (0 <= q)%Q
}.

(** A finite value of the format: a zero or a float with a canonical mantissa. *)
Definition canonf (x : spec_float) : Prop :=
  valid_binary prec emax x = true /\ is_finite x = true.

(** [R] is what the exact value [u] rounds to. *)
Record rounds (u : Q) (R : spec_float) : Prop := {
  r_class : R <> S754_nan /\ valid_binary prec emax R = true;
  r_lower : forall c, canonf c -> (F2Q c <= u)%Q ->
      R = S754_infinity false \/ (is_finite R = true /\ (F2Q c <= F2Q R)%Q);
  r_upper : forall c, canonf c -> (u <= F2Q c)%Q ->
      R = S754_infinity true \/ (is_finite R = true /\ (F2Q R <= F2Q c)%Q);
  r_pos : (0 < u)%Q -> sign_of R = false;
  r_neg : (u < 0)%Q -> sign_of R = true;
  r_over : (Q2 emax <= u)%Q -> R = S754_infinity false;
  r_under : (u <= - Q2 emax)%Q -> R = S754_infinity true;
  r_tiny : (2 * Qabs u <= Q2 emin)%Q -> exists s, R = S754_zero s;
  r_rel : is_finite R = true -> (Q2 (emin + prec - 1) <= Qabs u)%Q ->
      (Qabs (F2Q R - u) <= Qabs u * Q2 (1 - prec))%Q
}.

End Format.

(** The float64 instances. *)
Abbreviation c64 := (canonf 53 1024).
Abbreviation r64 := (rounds 53 1024).

(** The unit roundoff of float64 operations, [2^-52]. *)
Definition eps64 : Q := 1 # 4503599627370496.

(** The values of the constants of exp.go. *)
Definition invLn2_Q : Q := 6497320848556798 # 4503599627370496.
Definition ln2_Q : Q := 6243314768165359 # 9007199254740992.
Definition maxLog_Q : Q := 6243314768165359 # 8796093022208.
Definition minLog_Q : Q := - (6554261109157968 # 8796093022208).

(** A small integer or half-integer as a float64. *)
Definition halves (n : Z) : float := binary_normalize 53 1024 n (-1) false.

(** The float32 neighbours of the float32 thresholds: [0x42b17218] is the
    smallest float32 above [maxLogFloat32], [0xc2cff1b5] the largest one
    below [minLogFloat32]. *)
Definition X0_Q : Q := 11629080 # 131072.
Definition X1_Q : Q := - (13627829 # 131072).

(** The Horner scheme [c + r * (c1 + r * (c2 + ...))] of [expPoly]. *)
Fixpoint horner (r c : float) (cs : list float) : float :=
  match cs with
  | nil => c
  | c' :: cs' => (c + r * horner r c' cs')%f64
  end.

(** Coefficients between 0 and 1. *)
Definition coeff_ok (c : float) : Prop := c64 c /\ (0 <= F2Q c <= 1)%Q.

(** Coefficients that at most double from one to the previous one. *)
Fixpoint chain_ok (c : float) (cs : list float) : Prop :=
  c64 c /\ (0 <= F2Q c)%Q /\
  match cs with
  | nil => True
  | c' :: cs' => (F2Q c' <= 2 * F2Q c)%Q /\ chain_ok c' cs'
  end.

(** The rounding of a quotient, from the location of its remainder. *)

(** The location of the fraction [num/den], [0 <= num < den]. *)
Definition loc_frac (num den : Z) : location :=
  if num =? 0 then loc_Exact else loc_Inexact (2 * num ?= den).

(** Round-to-nearest-even of [m + num/den]. *)
Definition rnd_frac (m num den : Z) : Z :=
  if num =? 0 then m
  else match 2 * num ?= den with
       | Lt => m
       | Eq => if Z.even m then m else m + 1
       | Gt => m + 1
       end.

(** [m' * 2^e1] is the rounding to nearest (even on a tie) of the
    magnitude [v]: [v] lies between the neighbours [m1 * 2^e1] and
    [(m1 + 1) * 2^e1] of the format and [m'] is the nearer of [m1] and
    [m1 + 1]. *)
Definition RNE (prec emax : Z) (v : Q) (m' e1 : Z) : Prop :=
  exists m1 : Z,
    on_grid prec emax m1 e1 /\
    (inject_Z m1 * Q2 e1 <= v /\ v < inject_Z (m1 + 1) * Q2 e1)%Q /\
    (m' = m1 \/ m' = m1 + 1) /\
    ((2 * (v - inject_Z m1 * Q2 e1) < Q2 e1)%Q -> m' = m1) /\
    ((Q2 e1 < 2 * (v - inject_Z m1 * Q2 e1))%Q -> m' = m1 + 1) /\
    ((2 * (v - inject_Z m1 * Q2 e1) == Q2 e1)%Q -> Z.even m' = true).

(** The Babylonian iteration of sqrt.go on values. *)

(** The value of the magnitude [Y] at exponent [e]. *)
Definition pval (Y e : Z) : Q := (inject_Z Y * Q2 e)%Q.

(** A magnitude of full precision above the lowest binade. *)
Definition normal_pair (prec emax Y e : Z) : Prop :=
  2 ^ (prec - 1) <= Y < 2 ^ prec /\ emin prec emax < e.

(** [f] is the value of [0.5 * (y + x / y)], each operation rounded. *)
Definition StepV (prec emax : Z) (x y f : Q) : Prop :=
  exists mA eA mS eS : Z,
    RNE prec emax (x / y) mA eA /\
    RNE prec emax (y + inject_Z mA * Q2 eA) mS eS /\
    (f == (1 # 2) * (inject_Z mS * Q2 eS))%Q.

(** The position of a normal magnitude among the floats. *)
Definition pidx (prec Y e : Z) : Z := e * 2 ^ (prec - 1) + Y.

(** [y = Y * 2^e] is a normal float whose successor has a square above [x],
    and [y] is at most [2^(hc + 1)], where [emax = 2 * hc]. *)
Definition sqrt_invariant (prec emax hc : Z) (x : Q) (Y e : Z) : Prop :=
  normal_pair prec emax Y e /\
  (x < pval (Y + 1) e * pval (Y + 1) e)%Q /\
  (pval Y e <= Q2 (hc + 1))%Q.

End FloatSpec.

Import FloatSpec.

(** * Properties *)

(** ** Rounding: magnitude of the result

    Facts on the rounding of [SpecFloat] that the kernels' edge cases rest
    on: a non-zero exact value whose exponent is within the format never
    rounds to zero. *)

Module Rounding.

Lemma digits2_pos_size (m : positive) : digits2_pos m = Pos.size m.
Proof. induction m; cbn; congruence. Qed.

Lemma digits2_bounds (m : positive) :
  2 ^ (Zpos (digits2_pos m) - 1) <= Zpos m < 2 ^ Zpos (digits2_pos m).
Proof.
  rewrite digits2_pos_size. split.
  - pose proof (Pos.size_le m) as H.
    apply Pos2Z.pos_le_pos in H. rewrite Pos2Z.inj_pow in H.
    replace (Zpos (Pos.size m)) with (Z.succ (Zpos (Pos.size m) - 1)) in H by lia.
    rewrite Z.pow_succ_r in H by lia. lia.
  - pose proof (Pos.size_gt m) as H.
    apply Pos2Z.pos_lt_pos in H. now rewrite Pos2Z.inj_pow in H.
Qed.

Lemma Zdigits2_log2 (m : Z) : 0 < m -> Zdigits2 m = Z.log2 m + 1.
Proof.
  intros H. destruct m as [|p|p]; try lia. cbn [Zdigits2].
  pose proof (digits2_bounds p) as [Hl Hu].
  symmetry. apply Z.add_move_r. apply Z.log2_unique; [lia|].
  split; [exact Hl|].
  replace (Z.succ (Z.pos (digits2_pos p) - 1)) with (Z.pos (digits2_pos p)) by lia. exact Hu.
Qed.

Lemma shr_1_m (mrs : shr_record) : 0 <= shr_m mrs -> shr_m (shr_1 mrs) = shr_m mrs / 2.
Proof.
  destruct mrs as [m r s]. cbn [shr_m]. intros H.
  destruct m as [|[p|p|]|p]; cbn [shr_1 shr_m]; try lia; try reflexivity.
  - rewrite Pos2Z.inj_xI. apply Z.div_unique with 1; lia.
  - rewrite Pos2Z.inj_xO. apply Z.div_unique with 0; lia.
Qed.

Lemma shr_m_iter (p : positive) (mrs : shr_record) :
  0 <= shr_m mrs -> shr_m (iter_pos shr_1 p mrs) = shr_m mrs / 2 ^ Zpos p.
Proof.
  revert mrs. induction p as [p IH | p IH | ]; intros mrs H; cbn [iter_pos].
  - assert (H1 : 0 <= shr_m (shr_1 mrs)) by (rewrite shr_1_m by easy; apply Z.div_pos; lia).
    assert (H2 : 0 <= shr_m (iter_pos shr_1 p (shr_1 mrs))) by (rewrite IH by easy; apply Z.div_pos; lia).
    rewrite IH, IH, shr_1_m by easy.
    rewrite !Z.div_div by lia. f_equal.
    rewrite Pos2Z.inj_xI, Z.pow_add_r, Z.pow_mul_r by lia.
    change (2 ^ 2) with 4. change (2 ^ 1) with 2.
    replace (4 ^ Zpos p) with (2 ^ Zpos p * 2 ^ Zpos p); [lia|].
    rewrite <- Z.pow_add_r by lia. replace (Zpos p + Zpos p) with (2 * Zpos p) by lia.
    now rewrite Z.pow_mul_r by lia.
  - assert (H2 : 0 <= shr_m (iter_pos shr_1 p mrs)) by (rewrite IH by easy; apply Z.div_pos; lia).
    rewrite IH, IH by easy.
    rewrite !Z.div_div by lia. f_equal.
    rewrite Pos2Z.inj_xO, <- Z.pow_add_r by lia. f_equal. lia.
  - rewrite shr_1_m by easy. reflexivity.
Qed.

Lemma Pos_iter_xO (m d : positive) : Zpos (Pos.iter xO m d) = Zpos m * 2 ^ Zpos d.
Proof.
  induction d as [|d IH] using Pos.peano_ind.
  - cbn. lia.
  - rewrite Pos.iter_succ, Pos2Z.inj_succ, Z.pow_succ_r by lia.
    rewrite Pos2Z.inj_xO, IH. lia.
Qed.

Lemma Zdigits2_mul_pow2 (m n : Z) : 0 < m -> 0 <= n -> Zdigits2 (m * 2 ^ n) = Zdigits2 m + n.
Proof.
  intros Hm Hn.
  assert (0 < 2 ^ n) by (apply Z.pow_pos_nonneg; lia).
  rewrite !Zdigits2_log2 by nia.
  rewrite <- Z.shiftl_mul_pow2, Z.log2_shiftl by lia. lia.
Qed.

Section Magnitude.
Variables prec emax : Z.
Hypothesis prec_pos : 0 < prec.

Local Abbreviation emin := (SpecFloat.emin prec emax).
Local Abbreviation fexp := (SpecFloat.fexp prec emax).

Lemma shr_record_of_loc_m (m : Z) (l : location) : shr_m (shr_record_of_loc m l) = m.
Proof. destruct l as [|[]]; reflexivity. Qed.

Lemma Zdigits2_div_pow2 (m n : Z) :
  0 < m -> 0 <= n < Zdigits2 m -> 0 < m / 2 ^ n /\ Zdigits2 (m / 2 ^ n) = Zdigits2 m - n.
Proof.
  intros Hm Hn. rewrite (Zdigits2_log2 m Hm) in *.
  assert (Hle : 2 ^ n <= m).
  { apply Z.le_trans with (2 ^ Z.log2 m).
    - apply Z.pow_le_mono_r; lia.
    - apply Z.log2_spec; lia. }
  assert (Hq : 0 < m / 2 ^ n) by (apply Z.div_str_pos; split; [apply Z.pow_pos_nonneg; lia | exact Hle]).
  split; [exact Hq|].
  rewrite (Zdigits2_log2 _ Hq), <- Z.shiftr_div_pow2 by lia.
  rewrite Z.log2_shiftr by lia. lia.
Qed.

(** One cut of rounding: a mantissa of more than [prec] digits loses the
    digits in excess, when the exponent is not below [emin]. *)
Lemma shr_fexp_cut (m e : Z) (l : location) :
  0 < m -> emin <= e ->
  shr_m (fst (shr_fexp prec emax m e l)) = m / 2 ^ Z.max 0 (Zdigits2 m - prec) /\
  snd (shr_fexp prec emax m e l) = e + Z.max 0 (Zdigits2 m - prec).
Proof.
  intros Hm He. unfold shr_fexp, shr.
  destruct (fexp (Zdigits2 m + e) - e) as [|p|p] eqn:Hn; cbn [fst snd];
    rewrite ?shr_record_of_loc_m; unfold SpecFloat.fexp in Hn.
  - replace (Z.max 0 (Zdigits2 m - prec)) with 0 by lia. now rewrite Z.div_1_r, Z.add_0_r.
  - rewrite shr_m_iter by (rewrite shr_record_of_loc_m; lia).
    rewrite shr_record_of_loc_m.
    replace (Z.max 0 (Zdigits2 m - prec)) with (Zpos p) by lia. split; reflexivity.
  - replace (Z.max 0 (Zdigits2 m - prec)) with 0 by lia. now rewrite Z.div_1_r, Z.add_0_r.
Qed.

Lemma shr_fexp_mag (m e : Z) (l : location) :
  0 < m -> emin <= e ->
  0 < shr_m (fst (shr_fexp prec emax m e l)) /\
  Zdigits2 (shr_m (fst (shr_fexp prec emax m e l))) = Z.min prec (Zdigits2 m) /\
  snd (shr_fexp prec emax m e l) = e + Z.max 0 (Zdigits2 m - prec).
Proof.
  intros Hm He. destruct (shr_fexp_cut m e l Hm He) as [-> ->].
  assert (Hd : 0 < Zdigits2 m) by (rewrite Zdigits2_log2 by easy; pose proof (Z.log2_nonneg m); lia).
  destruct (Zdigits2_div_pow2 m (Z.max 0 (Zdigits2 m - prec))) as [Hq Hdq]; [easy | lia | ].
  repeat split; lia.
Qed.

Lemma round_nearest_even_bounds (m : Z) (l : location) :
  m <= round_nearest_even m l <= m + 1.
Proof. destruct l as [|[]]; cbn; try destruct (Z.even m); lia. Qed.

Lemma Zdigits2_succ (m m' : Z) :
  0 < m -> m <= m' <= m + 1 -> Zdigits2 m <= Zdigits2 m' <= Zdigits2 m + 1.
Proof.
  intros Hm H. rewrite !Zdigits2_log2 by lia.
  pose proof (Z.log2_le_mono m m' ltac:(lia)).
  pose proof (Z.log2_le_mono m' (Z.succ m) ltac:(lia)).
  pose proof (Z.log2_succ_le m). lia.
Qed.

(** Rounding a positive mantissa whose exponent is not below [emin] never
    gives zero: the result is finite, or infinite when the exponent leaves
    the format; its magnitude grows by at most one binade. *)
Lemma binary_round_aux_mag (s : bool) (m e : Z) (l : location) :
  0 < m -> emin <= e ->
  exists m' e',
    binary_round_aux prec emax s m e l =
      (if e' <=? emax - prec then S754_finite s m' e' else S754_infinity s) /\
    emin <= e' /\ e <= e' /\
    (e' = e \/ Zpos (digits2_pos m') = prec) /\
    Zdigits2 m + e <= Zpos (digits2_pos m') + e' <= Zdigits2 m + e + 1.
Proof.
  intros Hm He. unfold binary_round_aux.
  destruct (shr_fexp_mag m e l Hm He) as (H1 & H2 & H3).
  destruct (shr_fexp prec emax m e l) as [mrs1 e1]. cbn [fst snd] in *.
  set (m1 := round_nearest_even (shr_m mrs1) (loc_of_shr_record mrs1)).
  pose proof (round_nearest_even_bounds (shr_m mrs1) (loc_of_shr_record mrs1)) as Hr.
  fold m1 in Hr.
  pose proof (Zdigits2_succ (shr_m mrs1) m1 H1 Hr) as Hd1.
  destruct (shr_fexp_mag m1 e1 loc_Exact ltac:(lia) ltac:(lia)) as (K1 & K2 & K3).
  destruct (shr_fexp prec emax m1 e1 loc_Exact) as [mrs2 e2]. cbn [fst snd] in *.
  destruct (shr_m mrs2) as [|m2|m2] eqn:Hm2; try lia.
  exists m2, e2. cbn [Zdigits2] in *. split; [reflexivity|].
  repeat split; lia.
Qed.



Lemma binary_round_mag (s : bool) (m : positive) (e : Z) :
  emin <= e ->
  exists m' e',
    binary_round prec emax s m e =
      (if e' <=? emax - prec then S754_finite s m' e' else S754_infinity s) /\
    emin <= e' /\
    Zpos (digits2_pos m) + e <= Zpos (digits2_pos m') + e' <= Zpos (digits2_pos m) + e + 1.
Proof.
  intros He. unfold binary_round, shl_align.
  destruct (fexp (Zpos (digits2_pos m) + e) - e) as [|d|d] eqn:Hd.
  - destruct (binary_round_aux_mag s (Zpos m) e loc_Exact) as (m' & e' & H & H1 & H2 & H3);
      [lia | lia | ]. exists m', e'. cbn [Zdigits2] in *. repeat split; (assumption || lia).
  - destruct (binary_round_aux_mag s (Zpos m) e loc_Exact) as (m' & e' & H & H1 & H2 & H3);
      [lia | lia | ]. exists m', e'. cbn [Zdigits2] in *. repeat split; (assumption || lia).
  - assert (Hf : emin <= fexp (Zpos (digits2_pos m) + e)) by (unfold SpecFloat.fexp; lia).
    destruct (binary_round_aux_mag s (Zpos (Pos.iter xO m d))
                (fexp (Zpos (digits2_pos m) + e)) loc_Exact) as (m' & e' & H & H1 & H2 & H3);
      [lia | lia | ].
    exists m', e'. rewrite Pos_iter_xO, Zdigits2_mul_pow2 in H3 by lia.
    cbn [Zdigits2] in *. repeat split; (assumption || lia).
Qed.


End Magnitude.

End Rounding.
(** ** Precision dispatch *)

Lemma selectImpl_cases {A : Type} (fast balanced high : A) (prec : Precision) :
  selectImpl fast balanced high prec = fast \/
  selectImpl fast balanced high prec = balanced \/
  selectImpl fast balanced high prec = high.
Proof.
  unfold selectImpl.
  destruct (normalizePrecision prec =? PrecisionFast); [now left|].
  destruct ((normalizePrecision prec =? PrecisionBalanced)
            || (normalizePrecision prec =? PrecisionAuto)); [now right; left|].
  destruct (normalizePrecision prec =? PrecisionHigh); [now right; right|now right; left].
Qed.

(** Whatever the precision, [Sqrt] runs the Babylonian kernel with one, two
    or three iterations, and [InvSqrt] the Newton-Raphson kernel likewise. *)
Lemma Sqrt_kernel (w : Width) (x : float) (prec : Precision) :
  exists n : nat, Sqrt w x prec = sqrtBabylonian w x n.
Proof.
  unfold Sqrt.
  destruct (selectImpl_cases (sqrtFast w) (sqrtBalanced w) (sqrtHigh w) prec)
    as [-> | [-> | ->]]; eexists; reflexivity.
Qed.

Lemma InvSqrt_kernel (w : Width) (x : float) (prec : Precision) :
  exists n : nat, InvSqrt w x prec = invSqrtQuakeNR w x n.
Proof.
  unfold InvSqrt.
  destruct (selectImpl_cases (invSqrtFast w) (invSqrtBalanced w) (invSqrtHigh w) prec)
    as [-> | [-> | ->]]; eexists; reflexivity.
Qed.

(** ** Comparisons against zero *)

Lemma ltb_zero_inv (x : float) :
  ltb x pZero = true -> x = nInf \/ exists m e, x = S754_finite true m e.
Proof.
  destruct x as [s | [|] | | [|] m e]; cbn; try discriminate; eauto.
Qed.

Lemma eqb_zero_inv (x : float) :
  eqb x pZero = true -> exists s, x = S754_zero s.
Proof.
  destruct x as [s | [|] | | [|] m e]; cbn; try discriminate; eauto.
Qed.

Lemma gtb_zero_inv (x : float) :
  gtb x pZero = true -> x = pInf \/ exists m e, x = S754_finite false m e.
Proof.
  destruct x as [s | [|] | | [|] m e]; cbn; try discriminate; eauto.
Qed.

(** ** Edge cases of the square-root family *)

Lemma sqrtBabylonian_edge (w : Width) (n : nat) :
  sqrtBabylonian w NaN n = NaN /\
  (forall x, ltb x pZero = true -> sqrtBabylonian w x n = NaN) /\
  (forall x, eqb x pZero = true -> sqrtBabylonian w x n = pZero) /\
  sqrtBabylonian w pInf n = pInf.
Proof.
  split; [reflexivity | split; [ | split]].
  - intros x H. destruct (ltb_zero_inv x H) as [-> | (m & e & ->)]; reflexivity.
  - intros x H. destruct (eqb_zero_inv x H) as (s & ->). reflexivity.
  - destruct w; reflexivity.
Qed.

Lemma invSqrtQuakeNR_edge (w : Width) (n : nat) :
  invSqrtQuakeNR w NaN n = NaN /\
  (forall x, ltb x pZero = true -> invSqrtQuakeNR w x n = NaN) /\
  (forall x, eqb x pZero = true -> invSqrtQuakeNR w x n = pInf) /\
  invSqrtQuakeNR w pInf n = pZero.
Proof.
  split; [reflexivity | split; [ | split]].
  - intros x H. destruct (ltb_zero_inv x H) as [-> | (m & e & ->)]; reflexivity.
  - intros x H. destruct (eqb_zero_inv x H) as (s & ->). reflexivity.
  - destruct w; reflexivity.
Qed.

(** C2: for every precision and both widths, [Sqrt] maps NaN to NaN, negative
    inputs to NaN, zero to 0 and +Inf to +Inf; [InvSqrt] maps NaN to NaN,
    negative inputs to NaN, zero to +Inf and +Inf to 0. *)
Theorem Sqrt_InvSqrt_edge_cases (w : Width) (prec : Precision) :
  (Sqrt w NaN prec = NaN /\
   (forall x, ltb x pZero = true -> Sqrt w x prec = NaN) /\
   (forall x, eqb x pZero = true -> Sqrt w x prec = pZero) /\
   Sqrt w pInf prec = pInf) /\
  (InvSqrt w NaN prec = NaN /\
   (forall x, ltb x pZero = true -> InvSqrt w x prec = NaN) /\
   (forall x, eqb x pZero = true -> InvSqrt w x prec = pInf) /\
   InvSqrt w pInf prec = pZero).
Proof.
  split.
  - split; [ | split; [ | split]]; intros;
      match goal with |- Sqrt _ ?x _ = _ => destruct (Sqrt_kernel w x prec) as [n ->] end;
      destruct (sqrtBabylonian_edge w n) as (Hnan & Hneg & Hzero & Hinf); auto.
  - split; [ | split; [ | split]]; intros;
      match goal with |- InvSqrt _ ?x _ = _ => destruct (InvSqrt_kernel w x prec) as [n ->] end;
      destruct (invSqrtQuakeNR_edge w n) as (Hnan & Hneg & Hzero & Hinf); auto.
Qed.

Lemma Sqrt_InvSqrt_edge_cases_witness :
  Sqrt F32 (neg (lit F32 4 1)) PrecisionFast = NaN /\
  Sqrt F64 nZero PrecisionHigh = pZero /\
  InvSqrt F64 (neg (9 // 4)) PrecisionAuto = NaN /\
  InvSqrt F32 pZero PrecisionBalanced = pInf.
Proof.
  split; [ | split; [ | split]].
  - apply (proj1 (proj2 (proj1 (Sqrt_InvSqrt_edge_cases F32 PrecisionFast)))). reflexivity.
  - apply (proj1 (proj2 (proj2 (proj1 (Sqrt_InvSqrt_edge_cases F64 PrecisionHigh))))). reflexivity.
  - apply (proj1 (proj2 (proj2 (Sqrt_InvSqrt_edge_cases F64 PrecisionAuto)))). reflexivity.
  - apply (proj1 (proj2 (proj2 (proj2 (Sqrt_InvSqrt_edge_cases F32 PrecisionBalanced))))). reflexivity.
Defined.

(** ** Power with a non-positive base *)

Lemma gtb_zero_not_eqb (x : float) : gtb x pZero = true -> eqb x pZero = false.
Proof. intros H. destruct (gtb_zero_inv x H) as [-> | (m & e & ->)]; reflexivity. Qed.

Lemma ltb_zero_not_eqb (x : float) : ltb x pZero = true -> eqb x pZero = false.
Proof. intros H. destruct (ltb_zero_inv x H) as [-> | (m & e & ->)]; reflexivity. Qed.

Lemma ltb_zero_not_gtb (x : float) : ltb x pZero = true -> gtb x pZero = false.
Proof. intros H. destruct (ltb_zero_inv x H) as [-> | (m & e & ->)]; reflexivity. Qed.

(** C5: whatever the exponent, [Power] returns NaN for a base below zero;
    for a base equal to zero it returns 1 when the exponent is 0, 0 when the
    exponent is positive and +Inf when the exponent is negative. *)
Theorem Power_nonpositive_base (w : Width) (Exp Ln : float -> float) (base exponent : float) :
  (ltb base pZero = true -> Power w Exp Ln base exponent = NaN) /\
  (eqb base pZero = true ->
     (eqb exponent pZero = true -> Power w Exp Ln base exponent = lit w 1 1) /\
     (gtb exponent pZero = true -> Power w Exp Ln base exponent = pZero) /\
     (ltb exponent pZero = true -> Power w Exp Ln base exponent = pInf)).
Proof.
  split.
  - intros H. destruct (ltb_zero_inv base H) as [-> | (m & e & ->)]; reflexivity.
  - intros H. destruct (eqb_zero_inv base H) as (s & ->).
    unfold Power. cbn [leb ltb]. change (SFleb (S754_zero s) pZero) with true.
    change (SFltb (S754_zero s) pZero) with false. cbv iota.
    split; [ | split]; intros He.
    + now rewrite He.
    + now rewrite (gtb_zero_not_eqb _ He), He.
    + now rewrite (ltb_zero_not_eqb _ He), (ltb_zero_not_gtb _ He).
Qed.

Lemma Power_nonpositive_base_witness :
  Power F64 (fun x => Exp F64 x PrecisionAuto) (fun x => Log F64 x PrecisionAuto)
        (neg (2 // 1)) (1 // 2) = NaN /\
  Power F32 (fun x => Exp F32 x PrecisionAuto) (fun x => Log F32 x PrecisionAuto)
        nZero (neg (lit F32 3 1)) = pInf.
Proof.
  split.
  - apply (proj1 (Power_nonpositive_base F64 _ _ (neg (2 // 1)) (1 // 2))). reflexivity.
  - apply (proj2 (Power_nonpositive_base F32 _ _ nZero (neg (lit F32 3 1)))); reflexivity.
Defined.

(** ** Reciprocal functions *)

(** C9: for every input and every precision, [Sec] is 1 divided by [Cos],
    [Csc] is 1 divided by [Sin] and [Cotan] is 1 divided by [Tan], the
    division being the one of the scalar's width applied to the result of the
    kernel with the same term count. *)
Theorem reciprocal_kernels (w : Width) (x : float) (prec : Precision) :
  Sec w x prec = div w (lit w 1 1) (Cos w x prec) /\
  Csc w x prec = div w (lit w 1 1) (Sin w x prec) /\
  Cotan w x prec = div w (lit w 1 1) (Tan w x prec).
Proof.
  unfold Sec, Cos, Csc, Sin, Cotan, Tan.
  destruct ((prec =? PrecisionAuto) || (prec =? PrecisionBalanced));
    destruct (prec =? PrecisionFast); destruct (prec =? PrecisionBalanced);
    destruct (prec =? PrecisionHigh); repeat split.
Qed.

(** ** Root *)

(** C10: [Root(value, 1)] is [value] itself, whatever [value] is (negative
    values and NaN included): the test [n == 1] comes before the test
    [value < 0]. *)
Theorem Root_one_identity (w : Width) (Exp Ln Sqrt2 : float -> float) (value : float) :
  Root w Exp Ln Sqrt2 value 1 = value.
Proof. reflexivity. Qed.

(** ** Tangent dispatch *)




(** C8, as stated, needs some tier whose [Tan] is the 4-term kernel; at
    [tan_probe] no tier returns what [tan4Term] returns, while the 2-, 3- and
    6-term kernels are each returned by a tier. *)
Lemma Tan_no_tier_selects_tan4Term :
  existsb (fun p => same_float F64 (Tan F64 tan_probe p) (tan4Term F64 tan_probe)) tiers = false /\
  existsb (fun p => same_float F64 (Tan F64 tan_probe p) (tan2Term F64 tan_probe)) tiers = true /\
  existsb (fun p => same_float F64 (Tan F64 tan_probe p) (tan3Term F64 tan_probe)) tiers = true /\
  existsb (fun p => same_float F64 (Tan F64 tan_probe p) (tan6Term F64 tan_probe)) tiers = true.
Proof. vm_compute. repeat split. Qed.

(** C8 (amended): the precision dispatch of [Tan] uses the kernels with 2, 3
    and 6 terms: Fast selects the 2-term kernel, Balanced the 3-term kernel,
    High the 6-term kernel, and Auto, like every value other than Fast and
    High, the 3-term kernel. *)
Theorem Tan_dispatch (w : Width) (x : float) (prec : Precision) :
  Tan w x PrecisionFast = tan2Term w x /\
  Tan w x PrecisionBalanced = tan3Term w x /\
  Tan w x PrecisionHigh = tan6Term w x /\
  Tan w x PrecisionAuto = tan3Term w x /\
  (Tan w x prec = tan2Term w x \/ Tan w x prec = tan3Term w x \/ Tan w x prec = tan6Term w x) /\
  (prec <> PrecisionFast -> prec <> PrecisionHigh -> Tan w x prec = tan3Term w x).
Proof.
  split; [reflexivity|]. split; [reflexivity|]. split; [reflexivity|]. split; [reflexivity|].
  unfold Tan. split.
  - destruct (prec =? PrecisionFast); [now left | ].
    destruct (prec =? PrecisionBalanced); [now right; left | ].
    destruct (prec =? PrecisionHigh); [now right; right | now right; left].
  - intros HF HH.
    destruct (Z.eqb_spec prec PrecisionFast) as [E | _]; [contradiction|].
    destruct (prec =? PrecisionBalanced); [reflexivity|].
    destruct (Z.eqb_spec prec PrecisionHigh) as [E | _]; [contradiction | reflexivity].
Qed.

(** ** Integer power *)

Lemma one_is_finite (w : Width) :
  lit w 1 1 = S754_finite false (Z.to_pos (2 ^ (prec w - 1))) (1 - prec w).
Proof. destruct w; reflexivity. Qed.

Lemma div_one_zero (w : Width) (s : bool) :
  div w (lit w 1 1) (S754_zero s) = S754_infinity s.
Proof. rewrite one_is_finite. destruct s; reflexivity. Qed.



Lemma mul_nan_l (w : Width) (x : float) : mul w NaN x = NaN.
Proof. reflexivity. Qed.


Lemma IntPower_of_positive (depth : nat) (w : Width) (base : float) (exponent : Z) :
  0 < exponent ->
  IntPower (S depth) w base exponent = Some (IntPower_positive w base exponent).
Proof.
  intros H. cbn [IntPower]. unfold IntPower_positive.
  destruct (exponent =? 0) eqn:E0; [lia|].
  destruct (exponent =? 1); [reflexivity|].
  destruct (eqb base pZero).
  - destruct (exponent >? 0) eqn:E; [reflexivity | lia].
  - destruct (exponent <? 0) eqn:E; [lia | reflexivity].
Qed.

Lemma IntPower_of_negative (depth : nat) (w : Width) (base : float) (n : Z) :
  1 <= n <= max_int64 ->
  IntPower (S (S depth)) w base (- n) =
    Some (if eqb base pZero then pInf
          else div w (lit w 1 1) (IntPower_positive w base n)).
Proof.
  intros H. unfold max_int64 in H.
  change (IntPower (S (S depth)) w base (- n)) with
    (if - n =? 0 then Some (lit w 1 1)
     else if - n =? 1 then Some base
     else if eqb base pZero then
       if - n >? 0 then Some pZero else Some pInf
     else if - n <? 0 then
       match IntPower (S depth) w base (int_neg (- n)) with
       | Some r => Some (div w (lit w 1 1) r)
       | None => None
       end
     else Some (intPowerLoop w 64 (- n) (lit w 1 1) base)).
  destruct (- n =? 0) eqn:E0; [lia|].
  destruct (- n =? 1) eqn:E1; [lia|].
  destruct (eqb base pZero).
  - destruct (- n >? 0) eqn:E; [lia | reflexivity].
  - destruct (- n <? 0) eqn:E; [|lia].
    unfold int_neg, min_int64. destruct (- n =? - 2 ^ 63) eqn:Em; [lia|].
    rewrite Z.opp_involutive, IntPower_of_positive by lia. reflexivity.
Qed.

(** The call on [MinInt64] with a non-zero base never returns: [-exponent]
    wraps to [MinInt64] again. *)
Lemma IntPower_min_int_diverges (depth : nat) (w : Width) (base : float) :
  eqb base pZero = false -> IntPower depth w base min_int64 = None.
Proof.
  intros Hb. induction depth as [|depth IH]; [reflexivity|].
  cbn [IntPower]. change (min_int64 =? 0) with false. change (min_int64 =? 1) with false.
  rewrite Hb. change (min_int64 <? 0) with true. change (int_neg min_int64) with min_int64.
  cbv iota. now rewrite IH.
Qed.

(** C6, as stated, fails at base -0 and n = 1: [IntPower(-0, -1)] is +Inf
    (the zero-base rule) while [1 / IntPower(-0, 1)] is [1 / -0 = -Inf]. *)
Lemma IntPower_reciprocal_negative_zero :
  IntPower 2 F64 nZero (-1) = Some pInf /\
  IntPower 2 F64 nZero 1 = Some nZero /\
  div F64 (lit F64 1 1) nZero = nInf.
Proof. repeat split. Qed.

(** C6 (amended): for every base and every positive integer [n], except the
    base -0 with [n = 1], [IntPower(base, -n)] is [1 / IntPower(base, n)]:
    both calls return, and the first result is 1 divided by the second. *)
Theorem IntPower_reciprocal (depth : nat) (w : Width) (base : float) (n : Z) :
  1 <= n <= max_int64 ->
  ~ (base = nZero /\ n = 1) ->
  exists r,
    IntPower (S (S depth)) w base n = Some r /\
    IntPower (S (S depth)) w base (- n) = Some (div w (lit w 1 1) r).
Proof.
  intros Hn Hex. exists (IntPower_positive w base n).
  rewrite IntPower_of_positive, IntPower_of_negative by lia.
  split; [reflexivity|]. f_equal.
  destruct (eqb base pZero) eqn:Hb; [|reflexivity].
  destruct (eqb_zero_inv base Hb) as (s & ->). unfold IntPower_positive.
  destruct (n =? 1) eqn:E1.
  - rewrite div_one_zero. destruct s; [|reflexivity].
    exfalso. apply Hex. split; [reflexivity | lia].
  - change (eqb (S754_zero s) pZero) with true. cbv iota.
    symmetry. exact (div_one_zero w false).
Qed.

Lemma IntPower_reciprocal_witness :
  exists r,
    IntPower 2 F64 (neg (3 // 1)) 5 = Some r /\
    IntPower 2 F64 (neg (3 // 1)) (- 5) = Some (div F64 (lit F64 1 1) r).
Proof.
  apply (IntPower_reciprocal 0 F64 (neg (3 // 1)) 5).
  - unfold max_int64. lia.
  - intros [H _]. discriminate H.
Defined.

(** ** NaN inputs *)




(** An [int] other than 0 converts to a finite, non-zero scalar. *)
Lemma of_int_finite (w : Width) (n : Z) :
  n <> 0 -> min_int64 <= n <= max_int64 ->
  exists s m e, of_int w n = S754_finite s m e /\
                emin (prec w) (emax w) <= e /\ Zpos (digits2_pos m) + e <= 65.
Proof.
  intros H0 Hn. unfold min_int64, max_int64 in Hn.
  assert (Hprec : 0 < prec w) by (destruct w; reflexivity).
  assert (Hemin : emin (prec w) (emax w) <= 0) by (destruct w; discriminate).
  assert (Hd : forall p, Zpos p <= 2 ^ 63 -> Zpos (digits2_pos p) <= 64).
  { intros p Hp. pose proof (Rounding.digits2_bounds p) as [Hl _].
    destruct (Z.le_gt_cases (Zpos (digits2_pos p)) 64) as [H|H]; [exact H|].
    assert (2 ^ 64 <= 2 ^ (Zpos (digits2_pos p) - 1)) by (apply Z.pow_le_mono_r; lia).
    lia. }
  unfold of_int, binary_normalize.
  destruct n as [|p|p]; [easy | | ].
  - destruct (Rounding.binary_round_mag (prec w) (emax w) Hprec false p 0 Hemin)
      as (m' & e' & -> & He & Hm).
    specialize (Hd p ltac:(lia)).
    exists false, m', e'. replace (e' <=? emax w - prec w) with true.
    + repeat split; lia.
    + symmetry. apply Z.leb_le.
      assert (71 <= emax w - prec w) by (destruct w; discriminate). lia.
  - destruct (Rounding.binary_round_mag (prec w) (emax w) Hprec true p 0 Hemin)
      as (m' & e' & -> & He & Hm).
    specialize (Hd p ltac:(lia)).
    exists true, m', e'. replace (e' <=? emax w - prec w) with true.
    + repeat split; lia.
    + symmetry. apply Z.leb_le.
      assert (71 <= emax w - prec w) by (destruct w; discriminate). lia.
Qed.


Section PowerNaN.
Variable w : Width.
Variables (Exp1 Ln Sqrt2 : float -> float).
Hypothesis Exp1_nan : Exp1 NaN = NaN.
Hypothesis Ln_nan : Ln NaN = NaN.
Hypothesis Sqrt2_nan : Sqrt2 NaN = NaN.




End PowerNaN.









(** ** Logarithm: the range reduction on subnormal inputs *)




(** C3 at the subnormal input [2^-1074]: the bit extraction of [Log] reads
    the exponent field 0 as the exponent [-1023] and adds the implicit
    leading bit that a subnormal does not have, so it returns
    [m = (1 + 2^-52)/2] and [e = -1022], and [m * 2^e] is [2^-1023], not the
    input; the decomposition [x = m * 2^e] is [m = 0.5], [e = -1073].  The
    result of [Log] differs from the specified one at every tier (about
    -709.09 instead of about -744.44), whereas the two agree on a normal
    input such as 10. *)
Lemma Log_subnormal_decomposition :
  valid F64 smallest_subnormal = true /\
  gtb smallest_subnormal pZero = true /\
  logReduce smallest_subnormal = (S754_finite false 4503599627370497 (-53), -1022) /\
  frexp64 smallest_subnormal = (S754_finite false 4503599627370496 (-53), -1073) /\
  Ldexp (fst (logReduce smallest_subnormal)) (snd (logReduce smallest_subnormal))
    = S754_finite false 2251799813685248 (-1074) /\
  Ldexp (fst (frexp64 smallest_subnormal)) (snd (frexp64 smallest_subnormal))
    = smallest_subnormal /\
  forallb (fun p => negb (same_float F64 (Log F64 smallest_subnormal p)
                                         (Log_spec F64 smallest_subnormal p))) tiers = true /\
  forallb (fun p => same_float F64 (Log F64 (10 // 1) p) (Log_spec F64 (10 // 1) p)) tiers = true /\
  Log F64 smallest_subnormal PrecisionBalanced = S754_finite true 6237217671811206 (-43) /\
  Log_spec F64 smallest_subnormal PrecisionBalanced = S754_finite true 6548164012803817 (-43).
Proof. vm_compute. repeat split. Qed.

(** ** Exponential: edge cases *)

Lemma neb_refl_finite (x : float) : is_finite x = true -> neb x x = false.
Proof.
  destruct x as [s | s | | s m e]; try discriminate; intros _.
  - reflexivity.
  - unfold neb, SFeqb, SFcompare. rewrite Z.compare_refl.
    replace (Pos.compare_cont Eq m m) with Eq by (symmetry; apply Pos.compare_cont_refl).
    destruct s; reflexivity.
Qed.

Lemma Exp_clamp (w : Width) (prec : Precision) (x : float) :
  is_finite x = true ->
  (gtb (to_f64 w x) maxLogFloat64 = true -> Exp w x prec = pInf) /\
  (ltb (to_f64 w x) minLogFloat64 = true -> Exp w x prec = pZero).
Proof.
  intros Hx. unfold Exp. rewrite (neb_refl_finite x Hx).
  split; intros H.
  - destruct (IsInf (to_f64 w x) 1); [reflexivity|].
    destruct (IsInf (to_f64 w x) (-1)) eqn:Hn.
    + destruct (to_f64 w x) as [s | [|] | | s m e]; discriminate.
    + now rewrite H.
  - destruct (IsInf (to_f64 w x) 1) eqn:Hp.
    { destruct (to_f64 w x) as [s | [|] | | s m e]; discriminate. }
    destruct (IsInf (to_f64 w x) (-1)); [reflexivity|].
    replace (gtb (to_f64 w x) maxLogFloat64) with false; [now rewrite H|].
    destruct (to_f64 w x) as [s | [|] | | [|] m e]; try discriminate; reflexivity.
Qed.

Lemma Exp_special (w : Width) (prec : Precision) :
  Exp w NaN prec = NaN /\ Exp w pInf prec = pInf /\ Exp w nInf prec = pZero.
Proof. destruct w; repeat split. Qed.

Import Rounding.

(** ** Rounding: the value of the result

    Every operation of [SpecFloat] returns the rounding of the exact
    result: between any two floats that bracket the exact value, infinite
    beyond the range, zero below half the smallest subnormal, and within a
    relative error of [2^(1-prec)] on normal values. *)

(** Shifting with the round and sticky bits *)

Lemma iter_pos_nat {A : Type} (f : A -> A) (p : positive) (x : A) :
  iter_pos f p x = Nat.iter (Pos.to_nat p) f x.
Proof.
  revert x. induction p as [p IH | p IH | ]; intros x; cbn [iter_pos].
  - rewrite !IH, Pos2Nat.inj_xI, Nat.iter_succ_r.
    replace (2 * Pos.to_nat p)%nat with (Pos.to_nat p + Pos.to_nat p)%nat by lia.
    now rewrite Nat.iter_add.
  - rewrite !IH, Pos2Nat.inj_xO.
    replace (2 * Pos.to_nat p)%nat with (Pos.to_nat p + Pos.to_nat p)%nat by lia.
    now rewrite Nat.iter_add.
  - reflexivity.
Qed.

Lemma shr_1_fields (mrs : shr_record) :
  0 <= shr_m mrs ->
  shr_1 mrs = {| shr_m := shr_m mrs / 2; shr_r := Z.odd (shr_m mrs);
                 shr_s := shr_r mrs || shr_s mrs |}.
Proof.
  destruct mrs as [m r s]. cbn [shr_m shr_r shr_s]. intros H.
  destruct m as [|[p|p|]|p]; cbn [shr_1]; try lia; f_equal.
  - rewrite Pos2Z.inj_xI. apply Z.div_unique with 1; lia.
  - rewrite Pos2Z.inj_xO. apply Z.div_unique with 0; lia.
Qed.

Lemma shr_iter_exact (m : Z) (k : nat) :
  0 <= m ->
  Nat.iter (S k) shr_1 {| shr_m := m; shr_r := false; shr_s := false |} =
  {| shr_m := m / 2 ^ Z.of_nat (S k);
     shr_r := 2 ^ Z.of_nat k <=? m mod 2 ^ Z.of_nat (S k);
     shr_s := negb ((m mod 2 ^ Z.of_nat (S k)) mod 2 ^ Z.of_nat k =? 0) |}.
Proof.
  intros Hm. induction k as [|k IH].
  - cbn [Nat.iter nat_rect]. rewrite shr_1_fields by (cbn; lia). cbn [shr_m shr_r shr_s].
    change (2 ^ Z.of_nat 1) with 2. change (2 ^ Z.of_nat 0) with 1.
    rewrite Z.mod_1_r. f_equal.
    rewrite Zmod_odd. destruct (Z.odd m); reflexivity.
  - change (Nat.iter (S (S k)) shr_1 ?x) with (shr_1 (Nat.iter (S k) shr_1 x)).
    rewrite IH.
    assert (Hp : 0 < 2 ^ Z.of_nat (S k)) by (apply Z.pow_pos_nonneg; lia).
    assert (Hpk : 0 < 2 ^ Z.of_nat k) by (apply Z.pow_pos_nonneg; lia).
    rewrite shr_1_fields by (cbn [shr_m]; apply Z.div_pos; lia).
    cbn [shr_m shr_r shr_s].
    assert (E2 : 2 ^ Z.of_nat (S (S k)) = 2 ^ Z.of_nat (S k) * 2)
      by (rewrite (Nat2Z.inj_succ (S k)), Z.pow_succ_r by lia; lia).
    assert (E1 : 2 ^ Z.of_nat (S k) = 2 ^ Z.of_nat k * 2)
      by (rewrite (Nat2Z.inj_succ k), Z.pow_succ_r by lia; lia).
    pose proof (Z.div_mod m (2 ^ Z.of_nat (S k)) ltac:(lia)) as D1.
    pose proof (Z.mod_pos_bound m (2 ^ Z.of_nat (S k)) ltac:(lia)) as B1.
    set (q := m / 2 ^ Z.of_nat (S k)) in *. set (r := m mod 2 ^ Z.of_nat (S k)) in *.
    pose proof (Z.div_mod q 2 ltac:(lia)) as D2.
    pose proof (Z.mod_pos_bound q 2 ltac:(lia)) as B2.
    assert (Hq2 : m / 2 ^ Z.of_nat (S (S k)) = q / 2).
    { rewrite E2. unfold q. now rewrite Z.div_div by lia. }
    assert (Hr2 : m mod 2 ^ Z.of_nat (S (S k)) = r + 2 ^ Z.of_nat (S k) * (q mod 2)).
    { symmetry. apply Z.mod_unique with (q / 2); rewrite E2; nia. }
    rewrite Hq2, Hr2. f_equal.
    + rewrite (Zmod_odd q) in *.
      destruct (Z.odd q), (Z.leb_spec (2 ^ Z.of_nat (S k)) (r + 2 ^ Z.of_nat (S k) * 1)),
        (Z.leb_spec (2 ^ Z.of_nat (S k)) (r + 2 ^ Z.of_nat (S k) * 0)); try reflexivity; lia.
    + pose proof (Z.div_mod r (2 ^ Z.of_nat k) ltac:(lia)) as D3.
      pose proof (Z.mod_pos_bound r (2 ^ Z.of_nat k) ltac:(lia)) as B3.
      assert (Hm3 : (r + 2 ^ Z.of_nat (S k) * (q mod 2)) mod 2 ^ Z.of_nat (S k) = r).
      { symmetry. apply Z.mod_unique with (q mod 2); nia. }
      rewrite Hm3.
      destruct (Z.leb_spec (2 ^ Z.of_nat k) r), (Z.eqb_spec (r mod 2 ^ Z.of_nat k) 0), (Z.eqb_spec r 0);
        cbn; try reflexivity; try nia.
      all: try (exfalso; assert (r / 2 ^ Z.of_nat k = 0) by (apply Z.div_small; lia); nia).

Qed.


Lemma rnd_choice_bounds (m1 rem n : Z) :
  m1 <= rnd_choice m1 rem n <= m1 + 1 /\ (rem = 0 -> rnd_choice m1 rem n = m1).
Proof.
  unfold rnd_choice. split.
  - destruct (rem =? 0); [lia|]. destruct (2 * rem ?= 2 ^ n); try destruct (Z.even m1); lia.
  - intros ->. reflexivity.
Qed.

(** Powers of two as rationals *)


Lemma Q2_pos (e : Z) : (0 < Q2 e)%Q.
Proof. apply Qpower_0_lt. reflexivity. Qed.

Lemma Q2_add (a b : Z) : (Q2 (a + b) == Q2 a * Q2 b)%Q.
Proof. apply Qpower_plus. discriminate. Qed.

Lemma Q2_inject (n : Z) : 0 <= n -> (inject_Z (2 ^ n) == Q2 n)%Q.
Proof. intros H. unfold Q2. now rewrite Zpower_Qpower. Qed.

Lemma Q2_le (a b : Z) : a <= b -> (Q2 a <= Q2 b)%Q.
Proof.
  intros H. replace b with (a + (b - a)) by lia. rewrite Q2_add.
  assert (1 <= Q2 (b - a))%Q.
  { rewrite <- Q2_inject by lia. change 1%Q with (inject_Z 1). rewrite <- Zle_Qle.
    pose proof (Z.pow_pos_nonneg 2 (b - a) ltac:(lia) ltac:(lia)). lia. }
  pose proof (Q2_pos a). nra.
Qed.

Lemma Q2_lt (a b : Z) : a < b -> (Q2 a < Q2 b)%Q.
Proof.
  intros H. replace b with (a + (b - a)) by lia. rewrite Q2_add.
  assert (2 <= Q2 (b - a))%Q.
  { rewrite <- Q2_inject by lia. change 2%Q with (inject_Z 2). rewrite <- Zle_Qle.
    change 2 with (2 ^ 1) at 1. apply Z.pow_le_mono_r; lia. }
  pose proof (Q2_pos a). nra.
Qed.

Lemma Q2_le_inv (a b : Z) : (Q2 a <= Q2 b)%Q -> a <= b.
Proof.
  intros H. destruct (Z.le_gt_cases a b) as [|Hlt]; [easy|].
  apply Q2_lt in Hlt. lra.
Qed.

Lemma Q2_lt_inv (a b : Z) : (Q2 a < Q2 b)%Q -> a < b.
Proof.
  intros H. destruct (Z.lt_ge_cases a b) as [|Hge]; [easy|].
  apply Q2_le in Hge. lra.
Qed.

Lemma Q2_0 : (Q2 0 == 1)%Q.
Proof. reflexivity. Qed.

Lemma Q2_succ (a : Z) : (Q2 (a + 1) == 2 * Q2 a)%Q.
Proof. rewrite Q2_add. change (Q2 1) with 2%Q. ring. Qed.

(** The magnitude of a mantissa *)
Lemma digits_Q (p : positive) (e : Z) :
  (Q2 (Zpos (digits2_pos p) - 1 + e) <= inject_Z (Zpos p) * Q2 e
   /\ inject_Z (Zpos p) * Q2 e < Q2 (Zpos (digits2_pos p) + e))%Q.
Proof.
  pose proof (digits2_bounds p) as [Hl Hu].
  rewrite !Q2_add. pose proof (Q2_pos e).
  rewrite <- (Q2_inject (Zpos (digits2_pos p) - 1)), <- (Q2_inject (Zpos (digits2_pos p))) by lia.
  rewrite Zle_Qle in Hl. rewrite Zlt_Qlt in Hu.
  split.
  - apply Qmult_le_compat_r; [exact Hl | lra].
  - apply Qmult_lt_compat_r; [exact H | exact Hu].
Qed.


Lemma Zdigits2_to_pos (x : Z) : 0 < x -> Zpos (digits2_pos (Z.to_pos x)) = Zdigits2 x.
Proof. destruct x; try lia. reflexivity. Qed.

Lemma F2Q_finite (s : bool) (m : positive) (e : Z) :
  (F2Q (S754_finite s m e) == (if s then - (inject_Z (Zpos m) * Q2 e) else inject_Z (Zpos m) * Q2 e))%Q.
Proof.
  unfold F2Q. destruct s; cbn [cond_Zopp].
  - change (- Zpos m) with (Z.opp (Zpos m)). rewrite inject_Z_opp. ring.
  - reflexivity.
Qed.

Lemma mantissa_Q_pos (m : positive) (e : Z) : (0 < inject_Z (Zpos m) * Q2 e)%Q.
Proof.
  apply Qmult_lt_0_compat; [|apply Q2_pos].
  change 0%Q with (inject_Z 0). rewrite <- Zlt_Qlt. lia.
Qed.



Section Format.
Variables prec emax : Z.
Hypothesis prec_pos : 0 < prec.
Hypothesis emax_big : prec < emax.

Local Abbreviation emin := (SpecFloat.emin prec emax).
Local Abbreviation fexp := (SpecFloat.fexp prec emax).
Local Abbreviation mk_float := (FloatSpec.mk_float prec emax).
Local Abbreviation is_rounding := (FloatSpec.is_rounding prec emax).
Local Abbreviation on_grid := (FloatSpec.on_grid prec emax).
Local Abbreviation rounded_magnitude := (FloatSpec.rounded_magnitude prec emax).
Local Abbreviation canonf := (FloatSpec.canonf prec emax).
Local Abbreviation rounds := (FloatSpec.rounds prec emax).

(** The first cut of rounding, from an exact mantissa. *)
Lemma shr_fexp_exact (M E : Z) :
  0 < M -> E <= fexp (Zdigits2 M + E) ->
  let n := fexp (Zdigits2 M + E) - E in
  let rem := M mod 2 ^ n in
  snd (shr_fexp prec emax M E loc_Exact) = fexp (Zdigits2 M + E) /\
  shr_m (fst (shr_fexp prec emax M E loc_Exact)) = M / 2 ^ n /\
  round_nearest_even (shr_m (fst (shr_fexp prec emax M E loc_Exact)))
                     (loc_of_shr_record (fst (shr_fexp prec emax M E loc_Exact)))
    = rnd_choice (M / 2 ^ n) rem n.
Proof.
  intros HM HE n rem. unfold shr_fexp, shr. fold n.
  destruct n as [|p|p] eqn:Hn; try lia.
  - cbn [fst snd shr_record_of_loc shr_m loc_of_shr_record round_nearest_even].
    subst rem. rewrite Z.pow_0_r, Z.div_1_r, Z.mod_1_r. unfold rnd_choice. cbn.
    repeat split. lia.
  - cbn [fst snd shr_record_of_loc]. rewrite iter_pos_nat.
    destruct (Pos.to_nat p) as [|k] eqn:Hk; [lia|].
    rewrite shr_iter_exact by lia.
    assert (Hpk : Z.of_nat (S k) = Zpos p) by lia.
    rewrite Hpk. cbn [shr_m]. fold rem.
    split; [lia|]. split; [reflexivity|].
    assert (Hk2 : 2 ^ Zpos p = 2 * 2 ^ Z.of_nat k).
    { rewrite <- Hpk, Nat2Z.inj_succ, Z.pow_succ_r by lia. reflexivity. }
    assert (Hpos : 0 < 2 ^ Z.of_nat k) by (apply Z.pow_pos_nonneg; lia).
    pose proof (Z.mod_pos_bound M (2 ^ Zpos p) ltac:(lia)) as B. fold rem in B.
    unfold rnd_choice, loc_of_shr_record. cbn [shr_r shr_s].
    destruct (Z.leb_spec (2 ^ Z.of_nat k) rem) as [H1|H1].
    + assert (Hr : rem mod 2 ^ Z.of_nat k = rem - 2 ^ Z.of_nat k).
      { symmetry. apply Z.mod_unique with 1; lia. }
      rewrite Hr. destruct (Z.eqb_spec rem 0) as [H0|H0]; [lia|].
      destruct (Z.eqb_spec (rem - 2 ^ Z.of_nat k) 0) as [H2|H2]; cbn [negb round_nearest_even].
      * replace (2 * rem ?= 2 ^ Zpos p) with Eq by (symmetry; apply Z.compare_eq_iff; lia).
        reflexivity.
      * replace (2 * rem ?= 2 ^ Zpos p) with Gt by (symmetry; apply Z.compare_gt_iff; lia).
        reflexivity.
    + rewrite (Z.mod_small rem) by lia.
      destruct (Z.eqb_spec rem 0) as [H0|H0]; cbn [negb round_nearest_even]; [reflexivity|].
      replace (2 * rem ?= 2 ^ Zpos p) with Lt by (symmetry; apply Z.compare_lt_iff; lia).
      reflexivity.
Qed.


Lemma Zdigits2_le (m : Z) : 0 < m -> m < 2 ^ prec -> Zdigits2 m <= prec.
Proof.
  intros H0 H. rewrite Zdigits2_log2 by easy.
  apply Z.log2_lt_pow2 in H; lia.
Qed.

Lemma Zdigits2_pow2 (k : Z) : 0 <= k -> Zdigits2 (2 ^ k) = k + 1.
Proof.
  intros H. rewrite Zdigits2_log2 by (apply Z.pow_pos_nonneg; lia).
  now rewrite Z.log2_pow2.
Qed.

(** The second cut and the packing of the result. *)
Lemma finish_spec (s : bool) (m e : Z) :
  0 <= m <= 2 ^ prec -> emin <= e ->
  (let '(mrs, e') := shr_fexp prec emax m e loc_Exact in
   match shr_m mrs with
   | Z0 => S754_zero s
   | Zpos m' => if e' <=? emax - prec then S754_finite s m' e' else S754_infinity s
   | Zneg _ => S754_nan
   end) = mk_float s m e.
Proof.
  intros Hm He. unfold FloatSpec.mk_float.
  destruct (Z.eqb_spec m 0) as [-> | H0].
  - unfold shr_fexp, shr. cbn [Zdigits2].
    destruct (fexp (0 + e) - e) as [|p|p] eqn:Hn; try reflexivity.
    unfold SpecFloat.fexp in Hn. lia.
  - destruct (shr_fexp_cut prec emax m e loc_Exact ltac:(lia) He) as [H1 H2].
    destruct (shr_fexp prec emax m e loc_Exact) as [mrs e']. cbn [fst snd] in *.
    destruct (Z.eqb_spec m (2 ^ prec)) as [-> | Hp].
    + rewrite Zdigits2_pow2 in * by lia.
      replace (Z.max 0 (prec + 1 - prec)) with 1 in * by lia.
      rewrite H1, H2. change (2 ^ 1) with 2.
      replace (2 ^ prec / 2) with (2 ^ (prec - 1)).
      * pose proof (Z.pow_pos_nonneg 2 (prec - 1) ltac:(lia) ltac:(lia)).
        destruct (2 ^ (prec - 1)) as [|q|q]; try lia. reflexivity.
      * replace prec with (Z.succ (prec - 1)) at 2 by lia.
        rewrite Z.pow_succ_r by lia. apply Z.div_unique with 0; lia.
    + pose proof (Zdigits2_le m ltac:(lia) ltac:(lia)).
      replace (Z.max 0 (Zdigits2 m - prec)) with 0 in * by lia.
      rewrite Z.pow_0_r, Z.div_1_r in H1. rewrite H1, H2, Z.add_0_r.
      destruct m as [|q|q]; try lia. reflexivity.
Qed.

(** Rounding an exact positive mantissa whose exponent is not above the
    canonical one: cut to the canonical exponent, choose the nearest (even
    on a tie) of the two neighbours, pack. *)
Lemma round_aux_spec (s : bool) (M E : Z) :
  0 < M -> E <= fexp (Zdigits2 M + E) ->
  let e1 := fexp (Zdigits2 M + E) in
  let n := e1 - E in
  binary_round_aux prec emax s M E loc_Exact
    = mk_float s (rnd_choice (M / 2 ^ n) (M mod 2 ^ n) n) e1.
Proof.
  intros HM HE e1 n. unfold binary_round_aux.
  destruct (shr_fexp_exact M E HM HE) as (H1 & H2 & H3).
  destruct (shr_fexp prec emax M E loc_Exact) as [mrs1 e1']. cbn [fst snd] in *.
  rewrite H3, H1. fold e1 n.
  apply finish_spec; [ | unfold e1, SpecFloat.fexp; lia].
  pose proof (rnd_choice_bounds (M / 2 ^ n) (M mod 2 ^ n) n) as [Hb _].
  assert (Hn : 0 <= n) by (unfold n, e1; lia).
  assert (Hq : 0 <= M / 2 ^ n) by (apply Z.div_pos; [lia | apply Z.pow_pos_nonneg; lia]).
  split; [lia|].
  assert (M / 2 ^ n < 2 ^ prec); [ | lia].
  apply Z.div_lt_upper_bound; [apply Z.pow_pos_nonneg; lia|].
  rewrite <- Z.pow_add_r by lia.
  destruct M as [|p|p]; try lia. cbn [Zdigits2] in *.
  pose proof (digits2_bounds p) as [_ Hu].
  apply Z.lt_le_trans with (1 := Hu).
  apply Z.pow_le_mono_r; [lia|]. unfold n, e1, SpecFloat.fexp. lia.
Qed.


Lemma bounded_iff (m : positive) (e : Z) :
  bounded prec emax m e = true <->
  (e = emin /\ Zpos (digits2_pos m) <= prec \/ emin < e /\ Zpos (digits2_pos m) = prec)
  /\ e <= emax - prec.
Proof.
  unfold bounded, canonical_mantissa, SpecFloat.fexp.
  rewrite andb_true_iff, Z.eqb_eq, Z.leb_le.
  assert (0 < Zpos (digits2_pos m)) by lia. lia.
Qed.

Lemma mk_float_rounding (s : bool) (m e : Z) :
  0 <= m <= 2 ^ prec -> emin <= e -> (emin < e -> 2 ^ (prec - 1) <= m) ->
  is_rounding (mk_float s m e) s (inject_Z m * Q2 e).
Proof.
  intros Hm He Hn. unfold FloatSpec.mk_float.
  assert (Hemin : emin <= emax - prec) by (unfold SpecFloat.emin; lia).
  assert (Hpp : 0 < 2 ^ (prec - 1)) by (apply Z.pow_pos_nonneg; lia).
  assert (H2p : 2 ^ prec = 2 * 2 ^ (prec - 1)).
  { replace prec with (Z.succ (prec - 1)) at 1 by lia. now rewrite Z.pow_succ_r by lia. }
  destruct (Z.eqb_spec m 0) as [-> | H0].
  - cbn. split; [reflexivity | ring].
  - destruct (Z.eqb_spec m (2 ^ prec)) as [-> | Hp].
    + destruct (Z.leb_spec (e + 1) (emax - prec)) as [Hle | Hgt]; cbn [is_rounding].
      * split; [reflexivity|]. rewrite Z2Pos.id by lia. split.
        -- apply bounded_iff. split; [|lia]. right. split; [lia|].
           rewrite Zdigits2_to_pos, Zdigits2_pow2 by lia. lia.
        -- rewrite H2p, Q2_succ, inject_Z_mult. ring.
      * split; [reflexivity|]. rewrite Q2_inject, <- Q2_add by lia. apply Q2_le. lia.
    + destruct (Z.leb_spec e (emax - prec)) as [Hle | Hgt]; cbn [is_rounding].
      * split; [reflexivity|]. rewrite Z2Pos.id by lia. split; [|reflexivity].
        apply bounded_iff. split; [|lia].
        rewrite Zdigits2_to_pos by lia.
        pose proof (Zdigits2_le m ltac:(lia) ltac:(lia)) as Hd.
        destruct (Z.eq_dec e emin) as [-> | Hne]; [left; lia | right].
        split; [lia|]. specialize (Hn ltac:(lia)).
        destruct m as [|q|q]; try lia. cbn [Zdigits2] in *.
        pose proof (digits2_bounds q) as [_ Hu].
        assert (prec - 1 < Zpos (digits2_pos q)); [|lia].
        apply (Z.pow_lt_mono_r_iff 2); lia.
      * split; [reflexivity|]. specialize (Hn ltac:(lia)).
        apply Qle_trans with (inject_Z (2 ^ (prec - 1)) * Q2 e)%Q.
        -- rewrite Q2_inject, <- Q2_add by lia. apply Q2_le. lia.
        -- apply Qmult_le_compat_r; [now rewrite <- Zle_Qle | apply Qlt_le_weak, Q2_pos].
Qed.

(** Rounding an exact positive value [v = M * 2^E]: the result has sign
    [s] and magnitude [m' * 2^e1], one of the two neighbours [m1], [m1 + 1]
    of [v] on the grid of step [2^e1]. *)
Theorem round_aux_Q (s : bool) (M E : Z) :
  0 < M -> E <= fexp (Zdigits2 M + E) ->
  exists m1 m' e1,
    is_rounding (binary_round_aux prec emax s M E loc_Exact) s (inject_Z m' * Q2 e1) /\
    emin <= e1 /\ 0 <= m1 < 2 ^ prec /\ (emin < e1 -> 2 ^ (prec - 1) <= m1) /\
    m1 <= m' <= m1 + 1 /\
    (inject_Z m1 * Q2 e1 <= inject_Z M * Q2 E)%Q /\
    (inject_Z M * Q2 E < inject_Z (m1 + 1) * Q2 e1)%Q /\
    (m' = m1 + 1 -> (inject_Z m1 * Q2 e1 < inject_Z M * Q2 E)%Q) /\
    ((2 * (inject_Z M * Q2 E - inject_Z m1 * Q2 e1) <= Q2 e1)%Q -> Z.even m1 = true -> m' = m1).
Proof.
  intros HM HE.
  set (e1 := fexp (Zdigits2 M + E)). set (n := e1 - E).
  assert (Hn : 0 <= n) by (unfold n, e1; lia).
  assert (Hpn : 0 < 2 ^ n) by (apply Z.pow_pos_nonneg; lia).
  set (m1 := M / 2 ^ n). set (rem := M mod 2 ^ n).
  pose proof (Z.div_mod M (2 ^ n) ltac:(lia)) as HD. fold m1 rem in HD.
  pose proof (Z.mod_pos_bound M (2 ^ n) ltac:(lia)) as HR. fold rem in HR.
  assert (Hm1 : 0 <= m1) by (apply Z.div_pos; lia).
  pose proof (rnd_choice_bounds m1 rem n) as [Hb Hex].
  assert (He1 : emin <= e1) by (unfold e1, SpecFloat.fexp; lia).
  assert (Hlt : m1 < 2 ^ prec).
  { apply Z.div_lt_upper_bound; [lia|]. rewrite <- Z.pow_add_r by lia.
    destruct M as [|p|p]; try lia. cbn [Zdigits2] in *.
    pose proof (digits2_bounds p) as [_ Hu]. apply Z.lt_le_trans with (1 := Hu).
    apply Z.pow_le_mono_r; [lia|]. unfold n, e1, SpecFloat.fexp. lia. }
  assert (Hnorm : emin < e1 -> 2 ^ (prec - 1) <= m1).
  { intros Hgt. apply Z.div_le_lower_bound; [lia|]. rewrite <- Z.pow_add_r by lia.
    destruct M as [|p|p]; try lia. cbn [Zdigits2] in *.
    pose proof (digits2_bounds p) as [Hl _]. apply Z.le_trans with (2 := Hl).
    apply Z.pow_le_mono_r; [lia|]. unfold n, e1, SpecFloat.fexp in *. lia. }
  exists m1, (rnd_choice m1 rem n), e1.
  (* rational view *)
  assert (QE : (Q2 e1 == inject_Z (2 ^ n) * Q2 E)%Q).
  { replace e1 with (n + E) by (unfold n; lia). rewrite Q2_add, Q2_inject by lia. reflexivity. }
  assert (QM : (inject_Z M == inject_Z (2 ^ n) * inject_Z m1 + inject_Z rem)%Q).
  { rewrite HD at 1. now rewrite inject_Z_plus, inject_Z_mult. }
  pose proof (Q2_pos E) as HX.
  assert (Qr0 : (0 <= inject_Z rem)%Q) by (change 0%Q with (inject_Z 0); rewrite <- Zle_Qle; lia).
  assert (Qr1 : (inject_Z rem < inject_Z (2 ^ n))%Q) by (rewrite <- Zlt_Qlt; lia).
  assert (Qv : (inject_Z M * Q2 E - inject_Z m1 * Q2 e1 == inject_Z rem * Q2 E)%Q).
  { rewrite QE, QM. ring. }
  split.
  { rewrite (round_aux_spec s M E HM HE). fold e1 n m1 rem.
    apply mk_float_rounding; [lia | exact He1 | intros; specialize (Hnorm ltac:(lia)); lia]. }
  split; [exact He1|]. split; [lia|]. split; [exact Hnorm|]. split; [exact Hb|].
  split; [| split; [| split]].
  - assert (0 <= inject_Z rem * Q2 E)%Q by (apply Qmult_le_0_compat; lra). lra.
  - rewrite inject_Z_plus. change (inject_Z 1) with 1%Q.
    assert (inject_Z rem * Q2 E < inject_Z (2 ^ n) * Q2 E)%Q
      by (apply Qmult_lt_compat_r; assumption).
    rewrite QE in *. lra.
  - intros Heq. assert (rem <> 0) by (intros H0; specialize (Hex H0); lia).
    assert (1 <= inject_Z rem)%Q by (change 1%Q with (inject_Z 1); rewrite <- Zle_Qle; lia).
    assert (Q2 E <= inject_Z rem * Q2 E)%Q by nra. lra.
  - intros Hhalf Hev. rewrite Qv, QE in Hhalf.
    assert (Hz : 2 * rem <= 2 ^ n).
    { rewrite Zle_Qle, inject_Z_mult. change (inject_Z 2) with 2%Q.
      apply Qmult_le_r with (Q2 E); [exact HX|]. lra. }
    unfold rnd_choice. destruct (rem =? 0); [reflexivity|].
    destruct (Z.compare_spec (2 * rem) (2 ^ n)); [now rewrite Hev | reflexivity | lia].
Qed.

(** The magnitude of a float of the format, in [Q]. *)
Lemma bounded_Q (mc : positive) (ec : Z) :
  bounded prec emax mc ec = true ->
  emin <= ec /\ (inject_Z (Zpos mc) * Q2 ec < Q2 (prec + ec))%Q /\
  (inject_Z (Zpos mc) * Q2 ec < Q2 emax)%Q /\ (Q2 emin <= inject_Z (Zpos mc) * Q2 ec)%Q.
Proof.
  intros H. apply bounded_iff in H. destruct H as [Hc He].
  pose proof (digits_Q mc ec) as [Hl Hu].
  assert (emin <= ec) by lia.
  assert (Hup : (inject_Z (Zpos mc) * Q2 ec < Q2 (prec + ec))%Q).
  { apply Qlt_le_trans with (1 := Hu). apply Q2_le. lia. }
  repeat split; try assumption.
  - apply Qlt_le_trans with (1 := Hup). apply Q2_le. lia.
  - apply Qle_trans with (2 := Hl). apply Q2_le. lia.
Qed.

(** A value [K * 2^j] with [j >= e1] is a multiple of the step [2^e1]. *)
Lemma grid_multiple (K j e1 : Z) :
  e1 <= j -> (inject_Z K * Q2 j == inject_Z (K * 2 ^ (j - e1)) * Q2 e1)%Q.
Proof.
  intros H. replace j with ((j - e1) + e1) at 1 by lia.
  rewrite Q2_add, <- Q2_inject, inject_Z_mult by lia. ring.
Qed.

Lemma Zlt_Q_mult (a b : Z) (e : Z) :
  (inject_Z a * Q2 e < inject_Z b * Q2 e)%Q -> a < b.
Proof.
  intros H. rewrite Zlt_Qlt. apply Qmult_lt_r with (Q2 e); [apply Q2_pos | exact H].
Qed.

Lemma Zle_Q_mult (a b : Z) (e : Z) :
  (inject_Z a * Q2 e <= inject_Z b * Q2 e)%Q -> a <= b.
Proof.
  intros H. rewrite Zle_Qle. apply Qmult_le_r with (Q2 e); [apply Q2_pos | exact H].
Qed.


Lemma normal_lower (m1 e1 j : Z) :
  on_grid m1 e1 ->
  emin <= j -> j < e1 -> (Q2 (prec + j) <= inject_Z m1 * Q2 e1)%Q.
Proof.
  intros (He1 & Hm1 & Hnorm) Hj0 Hj. specialize (Hnorm ltac:(lia)).
  apply Qle_trans with (inject_Z (2 ^ (prec - 1)) * Q2 e1)%Q.
  - rewrite Q2_inject, <- Q2_add by lia. apply Q2_le. lia.
  - apply Qmult_le_compat_r; [now rewrite <- Zle_Qle | apply Qlt_le_weak, Q2_pos].
Qed.

(** A float of the format that is not above [v] is not above the lower neighbour. *)
Lemma below_lower (m1 e1 : Z) (mc : positive) (ec : Z) (v : Q) :
  on_grid m1 e1 ->
  bounded prec emax mc ec = true ->
  (v < inject_Z (m1 + 1) * Q2 e1)%Q ->
  (inject_Z (Zpos mc) * Q2 ec <= v)%Q ->
  (inject_Z (Zpos mc) * Q2 ec <= inject_Z m1 * Q2 e1)%Q.
Proof.
  intros Hg Hb Hv Hc. destruct (bounded_Q mc ec Hb) as (Hec & Hu & _ & _).
  destruct (Z.le_gt_cases e1 ec) as [Hle | Hgt].
  - rewrite (grid_multiple (Zpos mc) ec e1 Hle) in *.
    apply Qmult_le_compat_r; [|apply Qlt_le_weak, Q2_pos].
    rewrite <- Zle_Qle.
    assert (Zpos mc * 2 ^ (ec - e1) < m1 + 1); [|lia].
    apply (Zlt_Q_mult _ _ e1). lra.
  - pose proof (normal_lower m1 e1 ec Hg Hec Hgt). lra.
Qed.

(** A float of the format above the lower neighbour is not below the upper one. *)
Lemma above_upper (m1 e1 : Z) (mc : positive) (ec : Z) :
  on_grid m1 e1 ->
  bounded prec emax mc ec = true ->
  (inject_Z m1 * Q2 e1 < inject_Z (Zpos mc) * Q2 ec)%Q ->
  (inject_Z (m1 + 1) * Q2 e1 <= inject_Z (Zpos mc) * Q2 ec)%Q.
Proof.
  intros Hg Hb Hc. destruct (bounded_Q mc ec Hb) as (Hec & Hu & _ & _).
  destruct (Z.le_gt_cases e1 ec) as [Hle | Hgt].
  - rewrite (grid_multiple (Zpos mc) ec e1 Hle) in *.
    apply Qmult_le_compat_r; [|apply Qlt_le_weak, Q2_pos].
    rewrite <- Zle_Qle.
    assert (m1 < Zpos mc * 2 ^ (ec - e1)); [|lia].
    apply (Zlt_Q_mult _ _ e1). lra.
  - pose proof (normal_lower m1 e1 ec Hg Hec Hgt). lra.
Qed.

(** The same for a power of two within the range of the format. *)
Lemma pow2_below_lower (m1 e1 j : Z) (v : Q) :
  on_grid m1 e1 ->
  emin <= j ->
  (v < inject_Z (m1 + 1) * Q2 e1)%Q -> (Q2 j <= v)%Q -> (Q2 j <= inject_Z m1 * Q2 e1)%Q.
Proof.
  intros Hg Hj Hv Hc.
  destruct (Z.le_gt_cases e1 j) as [Hle | Hgt].
  - assert (E : (Q2 j == inject_Z (2 ^ (j - e1)) * Q2 e1)%Q).
    { replace j with ((j - e1) + e1) at 1 by lia. rewrite Q2_add, Q2_inject by lia. reflexivity. }
    rewrite E in *. apply Qmult_le_compat_r; [|apply Qlt_le_weak, Q2_pos].
    rewrite <- Zle_Qle.
    assert (2 ^ (j - e1) < m1 + 1); [|lia].
    apply (Zlt_Q_mult _ _ e1). lra.
  - pose proof (normal_lower m1 e1 j Hg Hj Hgt).
    assert (Q2 j <= Q2 (prec + j))%Q by (apply Q2_le; lia). lra.
Qed.


(** ** What rounding guarantees about the magnitude *)


Theorem round_aux_magnitude (s : bool) (M E : Z) :
  0 < M -> E <= fexp (Zdigits2 M + E) ->
  exists q, is_rounding (binary_round_aux prec emax s M E loc_Exact) s q /\
            rounded_magnitude (inject_Z M * Q2 E) q.
Proof.
  intros HM HE.
  destruct (round_aux_Q s M E HM HE)
    as (m1 & m' & e1 & HR & He1 & Hm1 & Hnorm & Hm' & Hlo & Hhi & Hup & Hhalf).
  exists (inject_Z m' * Q2 e1)%Q. split; [exact HR|].
  pose proof (Q2_pos e1) as HX.
  assert (Hg : on_grid m1 e1) by (repeat split; (assumption || lia)).
  assert (Hq1 : (inject_Z m1 * Q2 e1 <= inject_Z m' * Q2 e1)%Q).
  { apply Qmult_le_compat_r; [rewrite <- Zle_Qle; lia | lra]. }
  assert (Hq2 : (inject_Z m' * Q2 e1 <= inject_Z (m1 + 1) * Q2 e1)%Q).
  { apply Qmult_le_compat_r; [rewrite <- Zle_Qle; lia | lra]. }
  assert (Hm1Q : (inject_Z (m1 + 1) * Q2 e1 == inject_Z m1 * Q2 e1 + Q2 e1)%Q).
  { rewrite inject_Z_plus. change (inject_Z 1) with 1%Q. ring. }
  constructor.
  - intros mc ec Hb Hc.
    pose proof (below_lower m1 e1 mc ec _ Hg Hb Hhi Hc). lra.
  - intros mc ec Hb Hc.
    destruct (Z.eq_dec m' m1) as [-> | Hne]; [lra|].
    assert (Hm'1 : m' = m1 + 1) by lia. specialize (Hup Hm'1).
    pose proof (above_upper m1 e1 mc ec Hg Hb ltac:(lra)). subst m'. lra.
  - intros Hv.
    assert (emin <= emax) by (unfold SpecFloat.emin; lia).
    pose proof (pow2_below_lower m1 e1 emax _ Hg ltac:(lia) Hhi Hv). lra.
  - intros Hv.
    assert (Hz : m1 = 0).
    { assert (m1 < 1); [|lia]. apply (Zlt_Q_mult _ _ e1).
      change (inject_Z 1) with 1%Q.
      pose proof (Q2_le emin e1 He1). pose proof (Q2_pos E).
      assert (0 < inject_Z M * Q2 E)%Q.
      { apply Qmult_lt_0_compat; [|assumption]. change 0%Q with (inject_Z 0). now rewrite <- Zlt_Qlt. }
      lra. }
    subst m1.
    assert (He : e1 = emin).
    { destruct (Z.eq_dec e1 emin); [easy|]. specialize (Hnorm ltac:(lia)).
      pose proof (Z.pow_pos_nonneg 2 (prec - 1) ltac:(lia) ltac:(lia)). lia. }
    rewrite Hhalf; [ring | | reflexivity].
    rewrite He. change (inject_Z 0) with 0%Q. lra.
  - intros Hv.
    assert (Hn : 2 ^ (prec - 1) <= m1).
    { destruct (Z.eq_dec e1 emin) as [He | Hne]; [|apply Hnorm; lia].
      assert (2 ^ (prec - 1) < m1 + 1); [|lia].
      apply (Zlt_Q_mult _ _ e1). rewrite Q2_inject, <- Q2_add, He by lia.
      replace (prec - 1 + emin) with (emin + prec - 1) by lia. rewrite <- He at 2. lra. }
    assert (Hs : (Q2 e1 <= inject_Z m1 * Q2 e1 * Q2 (1 - prec))%Q).
    { assert (E1 : (Q2 e1 == inject_Z (2 ^ (prec - 1)) * Q2 e1 * Q2 (1 - prec))%Q).
      { rewrite Q2_inject by lia.
        transitivity (Q2 (prec - 1 + (1 - prec)) * Q2 e1)%Q.
        - replace (prec - 1 + (1 - prec)) with 0 by lia. rewrite Q2_0. ring.
        - rewrite Q2_add. ring. }
      rewrite E1 at 1. pose proof (Q2_pos (1 - prec)).
      apply Qmult_le_compat_r; [|lra]. apply Qmult_le_compat_r; [|lra].
      now rewrite <- Zle_Qle. }
    pose proof (Q2_pos (1 - prec)) as Hp.
    assert (inject_Z m1 * Q2 e1 * Q2 (1 - prec) <= inject_Z M * Q2 E * Q2 (1 - prec))%Q
      by (apply Qmult_le_compat_r; lra).
    split; lra.
  - apply Qmult_le_0_compat; [|lra]. change 0%Q with (inject_Z 0). rewrite <- Zle_Qle. lia.
Qed.




Lemma canonf_cases (c : spec_float) :
  canonf c ->
  (exists s, c = S754_zero s) \/
  (exists s m e, c = S754_finite s m e /\ bounded prec emax m e = true).
Proof.
  intros [Hv Hf]. destruct c as [s | s | | s m e]; try discriminate.
  - left. eauto.
  - right. exists s, m, e. split; [reflexivity | exact Hv].
Qed.

Lemma rounds_of_magnitude (s : bool) (v q : Q) (R : spec_float) :
  (0 < v)%Q -> is_rounding R s q -> rounded_magnitude v q ->
  rounds (if s then - v else v)%Q R.
Proof.
  intros Hv HR [Hlo Hhi Hov Htiny Hrel Hnn].
  assert (Hemax : (0 < Q2 emax)%Q) by apply Q2_pos.
  (* the three shapes of R *)
  assert (Hshape :
    (R = S754_zero s /\ q == 0)%Q \/
    (exists m e, R = S754_finite s m e /\ bounded prec emax m e = true /\
                 (inject_Z (Zpos m) * Q2 e == q)%Q) \/
    (R = S754_infinity s /\ (Q2 emax <= q)%Q)).
  { destruct R as [s' | s' | | s' m e]; cbn in HR.
    - destruct HR as [-> H]. now left.
    - destruct HR as [-> H]. now right; right.
    - contradiction.
    - destruct HR as (-> & Hb & H). right; left. eauto. }
  assert (HF : is_finite R = true -> (F2Q R == (if s then - q else q))%Q).
  { intros Hf. destruct Hshape as [[-> Hq] | [(m & e & -> & Hb & Hq) | [-> Hq]]]; try discriminate.
    - cbn. destruct s; rewrite Hq; reflexivity.
    - rewrite F2Q_finite. destruct s; rewrite Hq; reflexivity. }
  assert (Hqfin : is_finite R = true -> (q < Q2 emax)%Q).
  { intros Hf. destruct Hshape as [[-> Hq] | [(m & e & -> & Hb & Hq) | [-> Hq]]]; try discriminate.
    - lra.
    - destruct (bounded_Q m e Hb) as (_ & _ & H & _). lra. }
  assert (Hsign : sign_of R = s).
  { destruct Hshape as [[-> Hq] | [(m & e & -> & Hb & Hq) | [-> Hq]]]; reflexivity. }
  assert (Hcls : R <> S754_nan /\ valid_binary prec emax R = true).
  { destruct Hshape as [[-> Hq] | [(m & e & -> & Hb & Hq) | [-> Hq]]]; split;
      (discriminate || reflexivity || assumption). }
  assert (Hinf : is_finite R = false -> R = S754_infinity s /\ (Q2 emax <= q)%Q).
  { intros Hf. destruct Hshape as [[-> Hq] | [(m & e & -> & Hb & Hq) | [-> Hq]]]; try discriminate.
    now split. }
  (* comparison with a float of the format *)
  assert (Hc_pos : forall c, canonf c -> (0 < F2Q c)%Q ->
            exists mc ec, bounded prec emax mc ec = true /\
                          (F2Q c == inject_Z (Zpos mc) * Q2 ec)%Q).
  { intros c Hc Hp. destruct (canonf_cases c Hc) as [[s' ->] | (s' & m & e & -> & Hb)].
    - cbn in Hp. lra.
    - exists m, e. split; [exact Hb|]. rewrite F2Q_finite in *.
      pose proof (mantissa_Q_pos m e). destruct s'; [lra | reflexivity]. }
  assert (Hc_neg : forall c, canonf c -> (F2Q c < 0)%Q ->
            exists mc ec, bounded prec emax mc ec = true /\
                          (F2Q c == - (inject_Z (Zpos mc) * Q2 ec))%Q).
  { intros c Hc Hp. destruct (canonf_cases c Hc) as [[s' ->] | (s' & m & e & -> & Hb)].
    - cbn in Hp. lra.
    - exists m, e. split; [exact Hb|]. rewrite F2Q_finite in *.
      pose proof (mantissa_Q_pos m e). destruct s'; [reflexivity | lra]. }
  destruct (is_finite R) eqn:Hfin.
  - specialize (HF eq_refl). specialize (Hqfin eq_refl).
    destruct s; constructor; try exact Hcls; try (intros; exact Hsign); try (intros; lra).
    + (* lower, negative *)
      intros c Hc Hcu. right. split; [exact Hfin|]. rewrite HF.
      destruct (Hc_neg c Hc ltac:(lra)) as (mc & ec & Hb & Hq).
      specialize (Hhi mc ec Hb ltac:(lra)). lra.
    + (* upper, negative *)
      intros c Hc Hcu. right. split; [exact Hfin|]. rewrite HF.
      destruct (Qlt_le_dec (F2Q c) 0) as [Hn | Hp]; [|lra].
      destruct (Hc_neg c Hc Hn) as (mc & ec & Hb & Hq).
      specialize (Hlo mc ec Hb ltac:(lra)). lra.
    + intros Hu. rewrite Qabs_opp, Qabs_pos in Hu by lra. specialize (Htiny Hu).
      destruct Hshape as [[-> Hq] | [(m & e & -> & Hb & Hq) | [-> Hq]]]; try discriminate; eauto.
      pose proof (mantissa_Q_pos m e). exfalso. lra.
    + intros _ Hu. assert (Ha : (Qabs (- v) == v)%Q) by (rewrite Qabs_opp; apply Qabs_pos; lra).
      rewrite Ha in Hu |- *. specialize (Hrel Hu).
      rewrite HF. apply Qabs_Qle_condition. split; lra.
    + (* lower, positive *)
      intros c Hc Hcu. right. split; [exact Hfin|]. rewrite HF.
      destruct (Qlt_le_dec 0 (F2Q c)) as [Hp | Hn]; [|lra].
      destruct (Hc_pos c Hc Hp) as (mc & ec & Hb & Hq).
      specialize (Hlo mc ec Hb ltac:(lra)). lra.
    + (* upper, positive *)
      intros c Hc Hcu. right. split; [exact Hfin|]. rewrite HF.
      destruct (Hc_pos c Hc ltac:(lra)) as (mc & ec & Hb & Hq).
      specialize (Hhi mc ec Hb ltac:(lra)). lra.
    + intros Hu. rewrite Qabs_pos in Hu by lra. specialize (Htiny Hu).
      destruct Hshape as [[-> Hq] | [(m & e & -> & Hb & Hq) | [-> Hq]]]; try discriminate; eauto.
      pose proof (mantissa_Q_pos m e). exfalso. lra.
    + intros _ Hu. assert (Ha : (Qabs v == v)%Q) by (apply Qabs_pos; lra).
      rewrite Ha in Hu |- *. specialize (Hrel Hu).
      rewrite HF. apply Qabs_Qle_condition. split; lra.
  - destruct (Hinf eq_refl) as [-> Hq].
    destruct s; constructor; try exact Hcls; try reflexivity; try discriminate; try (intros; lra).
    + intros c Hc Hcu. exfalso.
      destruct (Hc_neg c Hc ltac:(lra)) as (mc & ec & Hb & Hqc).
      specialize (Hhi mc ec Hb ltac:(lra)).
      destruct (bounded_Q mc ec Hb) as (_ & _ & H & _). lra.
    + intros c Hc Hcu. now left.
    + intros Hu. rewrite Qabs_opp, Qabs_pos in Hu by lra. specialize (Htiny Hu). exfalso. lra.
    + intros c Hc Hcu. now left.
    + intros c Hc Hcu. exfalso.
      destruct (Hc_pos c Hc ltac:(lra)) as (mc & ec & Hb & Hqc).
      specialize (Hhi mc ec Hb ltac:(lra)).
      destruct (bounded_Q mc ec Hb) as (_ & _ & H & _). lra.
    + intros Hu. rewrite Qabs_pos in Hu by lra. specialize (Htiny Hu). exfalso. lra.
Qed.


Lemma rounds_zero (s : bool) : rounds 0 (S754_zero s).
Proof.
  pose proof (Q2_pos emax). pose proof (Q2_pos emin).
  constructor; try (intros; lra).
  - split; [discriminate | reflexivity].
  - intros c Hc Hcu. right. split; [reflexivity | exact Hcu].
  - intros c Hc Hcu. right. split; [reflexivity | exact Hcu].
  - intros _. eauto.
  - intros _ Hu. pose proof (Q2_pos (emin + prec - 1)). cbn in Hu. lra.
Qed.

(** A float of the format rounds to itself. *)
Lemma rounds_exact (x : spec_float) : canonf x -> rounds (F2Q x) x.
Proof.
  intros Hx. destruct (canonf_cases x Hx) as [[s ->] | (s & m & e & -> & Hb)].
  - apply rounds_zero.
  - destruct (bounded_Q m e Hb) as (He & _ & Hmax & Hmin).
    pose proof (mantissa_Q_pos m e) as Hp. pose proof (Q2_pos emax).
    assert (HQ := F2Q_finite s m e).
    constructor.
    + split; [discriminate | exact Hb].
    + intros c Hc Hcu. right. split; [reflexivity | exact Hcu].
    + intros c Hc Hcu. right. split; [reflexivity | exact Hcu].
    + intros Hu. destruct s; [exfalso; lra | reflexivity].
    + intros Hu. destruct s; [reflexivity | exfalso; lra].
    + intros Hu. exfalso. destruct s; lra.
    + intros Hu. exfalso. destruct s; lra.
    + intros Hu. exfalso.
      assert (Qabs (F2Q (S754_finite s m e)) == inject_Z (Zpos m) * Q2 e)%Q.
      { rewrite HQ. destruct s; [rewrite Qabs_opp|]; apply Qabs_pos; lra. }
      lra.
    + intros _ _. setoid_replace (F2Q (S754_finite s m e) - F2Q (S754_finite s m e))%Q with 0%Q by ring.
      cbn [Qabs]. apply Qmult_le_0_compat; [apply Qabs_nonneg | apply Qlt_le_weak, Q2_pos].
Qed.

(** Alignment to the canonical exponent keeps the value. *)
Lemma shl_align_fexp_spec (m : positive) (e : Z) :
  let '(mz, ez) := shl_align m e (fexp (Zpos (digits2_pos m) + e)) in
  (inject_Z (Zpos mz) * Q2 ez == inject_Z (Zpos m) * Q2 e)%Q /\
  ez <= fexp (Zpos (digits2_pos mz) + ez).
Proof.
  unfold shl_align.
  destruct (fexp (Zpos (digits2_pos m) + e) - e) as [|k|k] eqn:Hk.
  - split; [reflexivity | lia].
  - split; [reflexivity | lia].
  - assert (Hd : Zpos (digits2_pos (Pos.iter xO m k)) = Zpos (digits2_pos m) + Zpos k).
    { change (Zpos (digits2_pos (Pos.iter xO m k))) with (Zdigits2 (Zpos (Pos.iter xO m k))).
      rewrite Pos_iter_xO, Zdigits2_mul_pow2 by lia. reflexivity. }
    split.
    + rewrite Pos_iter_xO, inject_Z_mult, Q2_inject by lia.
      replace e with (Zpos k + fexp (Zpos (digits2_pos m) + e)) at 2 by lia.
      rewrite Q2_add. ring.
    + rewrite Hd.
      replace (Zpos (digits2_pos m) + Zpos k + fexp (Zpos (digits2_pos m) + e))
        with (Zpos (digits2_pos m) + e) by lia. lia.
Qed.

Theorem binary_round_rounds (s : bool) (m : positive) (e : Z) :
  rounds (if s then - (inject_Z (Zpos m) * Q2 e) else inject_Z (Zpos m) * Q2 e)%Q
         (binary_round prec emax s m e).
Proof.
  unfold binary_round. pose proof (shl_align_fexp_spec m e) as H.
  destruct (shl_align m e (fexp (Zpos (digits2_pos m) + e))) as [mz ez].
  destruct H as [Hv He].
  destruct (round_aux_magnitude s (Zpos mz) ez ltac:(lia) He) as (q & HR & Hm).
  pose proof (rounds_of_magnitude s _ q _ (mantissa_Q_pos mz ez) HR Hm) as Hr.
  destruct s.
  - destruct Hr as [R1 R2 R3 R4 R5 R6 R7 R8 R9].
    constructor; try assumption; intros; rewrite <- ?Hv in *; eauto.
  - destruct Hr as [R1 R2 R3 R4 R5 R6 R7 R8 R9].
    constructor; try assumption; intros; rewrite <- ?Hv in *; eauto.
Qed.

Lemma rounds_ext (u u' : Q) (R : spec_float) : (u == u')%Q -> rounds u R -> rounds u' R.
Proof.
  intros E [R1 R2 R3 R4 R5 R6 R7 R8 R9].
  constructor; try assumption; intros; rewrite <- ?E in *; eauto.
Qed.

Theorem binary_normalize_rounds (n e : Z) (sz : bool) :
  rounds (inject_Z n * Q2 e) (binary_normalize prec emax n e sz).
Proof.
  destruct n as [|p|p]; cbn [binary_normalize].
  - apply rounds_ext with 0%Q; [ring | apply rounds_zero].
  - apply (binary_round_rounds false).
  - apply rounds_ext with (2 := binary_round_rounds true p e).
    change (Zneg p) with (- Zpos p). rewrite inject_Z_opp. ring.
Qed.


(** ** The operations on floats of the format *)

Lemma mul_exponent_ok (mx my : positive) (ex ey : Z) :
  bounded prec emax mx ex = true -> bounded prec emax my ey = true ->
  ex + ey <= fexp (Zdigits2 (Zpos (mx * my)) + (ex + ey)).
Proof.
  intros Hx Hy. apply bounded_iff in Hx. apply bounded_iff in Hy.
  assert (Hd : Zpos (digits2_pos mx) + Zpos (digits2_pos my) - 1 <= Zdigits2 (Zpos (mx * my))).
  { rewrite Pos2Z.inj_mul, Zdigits2_log2 by lia.
    change (Zpos (digits2_pos mx)) with (Zdigits2 (Zpos mx)).
    change (Zpos (digits2_pos my)) with (Zdigits2 (Zpos my)).
    rewrite !Zdigits2_log2 by lia.
    pose proof (Z.log2_mul_below (Zpos mx) (Zpos my) ltac:(lia) ltac:(lia)). lia. }
  assert (0 < Zpos (digits2_pos mx)) by lia. assert (0 < Zpos (digits2_pos my)) by lia.
  unfold SpecFloat.fexp, SpecFloat.emin in *. lia.
Qed.

Theorem mul_rounds (x y : spec_float) :
  canonf x -> canonf y -> rounds (F2Q x * F2Q y) (SFmul prec emax x y).
Proof.
  intros Hx Hy.
  destruct (canonf_cases x Hx) as [[sx ->] | (sx & mx & ex & -> & Hbx)];
    destruct (canonf_cases y Hy) as [[sy ->] | (sy & my & ey & -> & Hby)];
    cbn [SFmul]; try (apply rounds_ext with 0%Q; [cbn [F2Q]; ring | apply rounds_zero]).
  pose proof (mul_exponent_ok mx my ex ey Hbx Hby) as He.
  destruct (round_aux_magnitude (xorb sx sy) (Zpos (mx * my)) (ex + ey) ltac:(lia) He)
    as (q & HR & Hm).
  pose proof (rounds_of_magnitude (xorb sx sy) _ q _ (mantissa_Q_pos (mx * my) (ex + ey)) HR Hm) as Hr.
  apply rounds_ext with (2 := Hr).
  rewrite !F2Q_finite.
  destruct sx, sy; cbn [xorb]; rewrite Pos2Z.inj_mul, inject_Z_mult, Q2_add; ring.
Qed.

Lemma shl_align_value (m : positive) (e ez : Z) :
  ez <= e -> Zpos (fst (shl_align m e ez)) = Zpos m * 2 ^ (e - ez).
Proof.
  intros H. unfold shl_align.
  destruct (ez - e) as [|d|d] eqn:Hd; cbn [fst].
  - replace (e - ez) with 0 by lia. lia.
  - lia.
  - rewrite Pos_iter_xO. f_equal. f_equal. lia.
Qed.

Lemma aligned_value (s : bool) (m : positive) (e ez : Z) :
  ez <= e ->
  (inject_Z (cond_Zopp s (Zpos (fst (shl_align m e ez)))) * Q2 ez == F2Q (S754_finite s m e))%Q.
Proof.
  intros H. rewrite shl_align_value by exact H. cbn [F2Q].
  replace e with ((e - ez) + ez) at 2 by lia. rewrite Q2_add, <- (Q2_inject (e - ez)) by lia.
  destruct s; cbn [cond_Zopp].
  - rewrite !inject_Z_opp, inject_Z_mult. ring.
  - rewrite inject_Z_mult. ring.
Qed.

Theorem add_rounds (x y : spec_float) :
  canonf x -> canonf y -> rounds (F2Q x + F2Q y) (SFadd prec emax x y).
Proof.
  intros Hx Hy.
  destruct (canonf_cases x Hx) as [[sx ->] | (sx & mx & ex & -> & Hbx)];
    destruct (canonf_cases y Hy) as [[sy ->] | (sy & my & ey & -> & Hby)];
    cbn [SFadd].
  - apply rounds_ext with 0%Q; [cbn [F2Q]; ring|].
    destruct sx, sy; apply rounds_zero.
  - apply rounds_ext with (F2Q (S754_finite sy my ey)); [cbn [F2Q]; ring|].
    now apply rounds_exact.
  - apply rounds_ext with (F2Q (S754_finite sx mx ex)); [cbn [F2Q]; ring|].
    now apply rounds_exact.
  - apply rounds_ext with (2 := binary_normalize_rounds _ _ _).
    rewrite inject_Z_plus, Qmult_plus_distr_l.
    rewrite !aligned_value by lia. reflexivity.
Qed.

Theorem sub_rounds (x y : spec_float) :
  canonf x -> canonf y -> rounds (F2Q x - F2Q y) (SFsub prec emax x y).
Proof.
  intros Hx Hy.
  destruct (canonf_cases x Hx) as [[sx ->] | (sx & mx & ex & -> & Hbx)];
    destruct (canonf_cases y Hy) as [[sy ->] | (sy & my & ey & -> & Hby)];
    cbn [SFsub].
  - apply rounds_ext with 0%Q; [cbn [F2Q]; ring|].
    destruct sx, sy; apply rounds_zero.
  - apply rounds_ext with (F2Q (S754_finite (negb sy) my ey)).
    + rewrite !F2Q_finite. cbn [F2Q]. destruct sy; cbn [negb]; ring.
    + apply rounds_exact. split; [exact Hby | reflexivity].
  - apply rounds_ext with (F2Q (S754_finite sx mx ex)); [cbn [F2Q]; ring|].
    now apply rounds_exact.
  - apply rounds_ext with (2 := binary_normalize_rounds _ _ _).
    unfold Z.sub. rewrite inject_Z_plus, inject_Z_opp, Qmult_plus_distr_l.
    setoid_replace (- inject_Z (cond_Zopp sy (Zpos (fst (shl_align my ey (Z.min ex ey))))) * Q2 (Z.min ex ey))%Q
      with (- (inject_Z (cond_Zopp sy (Zpos (fst (shl_align my ey (Z.min ex ey))))) * Q2 (Z.min ex ey)))%Q by ring.
    rewrite !aligned_value by lia. reflexivity.
Qed.

(** ** Comparison *)

Lemma magnitude_lt (m1 m2 : positive) (e1 e2 : Z) :
  bounded prec emax m1 e1 = true -> bounded prec emax m2 e2 = true ->
  e1 < e2 -> (inject_Z (Zpos m1) * Q2 e1 < inject_Z (Zpos m2) * Q2 e2)%Q.
Proof.
  intros H1 H2 He.
  destruct (bounded_Q m1 e1 H1) as (He1 & Hu & _ & _).
  apply bounded_iff in H2. destruct H2 as [[[-> _] | [_ Hd]] _]; [lia|].
  pose proof (digits_Q m2 e2) as [Hl _]. rewrite Hd in Hl.
  assert (Q2 (prec + e1) <= Q2 (prec - 1 + e2))%Q by (apply Q2_le; lia). lra.
Qed.

Lemma magnitude_compare (m1 m2 : positive) (e1 e2 : Z) :
  bounded prec emax m1 e1 = true -> bounded prec emax m2 e2 = true ->
  match Z.compare e1 e2 with
  | Lt => Lt
  | Gt => Gt
  | Eq => Pos.compare_cont Eq m1 m2
  end = (inject_Z (Zpos m1) * Q2 e1 ?= inject_Z (Zpos m2) * Q2 e2)%Q.
Proof.
  intros H1 H2. symmetry.
  destruct (Z.compare_spec e1 e2) as [-> | Hlt | Hgt].
  - change (Pos.compare_cont Eq m1 m2) with (Pos.compare m1 m2).
    pose proof (Q2_pos e2).
    destruct (Pos.compare_spec m1 m2) as [-> | Hm | Hm].
    + rewrite <- Qeq_alt. reflexivity.
    + rewrite <- Qlt_alt. apply Qmult_lt_compat_r; [assumption|]. rewrite <- Zlt_Qlt. lia.
    + rewrite <- Qgt_alt. apply Qmult_lt_compat_r; [assumption|]. rewrite <- Zlt_Qlt. lia.
  - rewrite <- Qlt_alt. now apply magnitude_lt.
  - rewrite <- Qgt_alt. now apply magnitude_lt.
Qed.

Theorem SFcompare_Q (x y : spec_float) :
  canonf x -> canonf y -> SFcompare x y = Some (F2Q x ?= F2Q y)%Q.
Proof.
  intros Hx Hy.
  destruct (canonf_cases x Hx) as [[sx ->] | (sx & mx & ex & -> & Hbx)];
    destruct (canonf_cases y Hy) as [[sy ->] | (sy & my & ey & -> & Hby)];
    cbn [SFcompare].
  - reflexivity.
  - f_equal. symmetry. rewrite F2Q_finite. pose proof (mantissa_Q_pos my ey). cbn [F2Q].
    destruct sy; [rewrite <- Qgt_alt | rewrite <- Qlt_alt]; lra.
  - f_equal. symmetry. rewrite F2Q_finite. pose proof (mantissa_Q_pos mx ex). cbn [F2Q].
    destruct sx; [rewrite <- Qlt_alt | rewrite <- Qgt_alt]; lra.
  - f_equal. pose proof (mantissa_Q_pos mx ex). pose proof (mantissa_Q_pos my ey).
    rewrite !F2Q_finite.
    destruct sx, sy.
    + pose proof (magnitude_compare mx my ex ey Hbx Hby) as Hc.
      transitivity (CompOpp (inject_Z (Zpos mx) * Q2 ex ?= inject_Z (Zpos my) * Q2 ey)%Q);
        [rewrite <- Hc; destruct (ex ?= ey); reflexivity|].
      destruct (Qcompare_spec (inject_Z (Zpos mx) * Q2 ex) (inject_Z (Zpos my) * Q2 ey)) as [E|E|E];
        cbn [CompOpp]; symmetry; [rewrite <- Qeq_alt | rewrite <- Qgt_alt | rewrite <- Qlt_alt]; lra.
    + symmetry. rewrite <- Qlt_alt. lra.
    + symmetry. rewrite <- Qgt_alt. lra.
    + apply magnitude_compare; assumption.
Qed.

Lemma SFltb_Q (x y : spec_float) :
  canonf x -> canonf y -> (SFltb x y = true <-> (F2Q x < F2Q y)%Q).
Proof.
  intros Hx Hy. unfold SFltb. rewrite (SFcompare_Q x y Hx Hy).
  rewrite Qlt_alt. destruct (F2Q x ?= F2Q y)%Q; split; (reflexivity || discriminate).
Qed.

Lemma SFleb_Q (x y : spec_float) :
  canonf x -> canonf y -> (SFleb x y = true <-> (F2Q x <= F2Q y)%Q).
Proof.
  intros Hx Hy. unfold SFleb. rewrite (SFcompare_Q x y Hx Hy).
  rewrite Qle_alt. destruct (F2Q x ?= F2Q y)%Q; split; try reflexivity; try discriminate;
    intros H; exfalso; now apply H.
Qed.

End Format.

(** ** Derived facts *)

#[global] Instance rounds_proper (prec emax : Z) :
  Proper (Qeq ==> eq ==> iff) (rounds prec emax).
Proof.
  intros u u' E R R' <-. split; apply rounds_ext; [exact E | symmetry; exact E].
Qed.

Section Derived.
Variables prec emax : Z.
Hypothesis prec_pos : 0 < prec.
Hypothesis emax_big : prec < emax.

Lemma rounds_between (u : Q) (R lo hi : spec_float) :
  rounds prec emax u R -> canonf prec emax lo -> canonf prec emax hi ->
  (F2Q lo <= u)%Q -> (u <= F2Q hi)%Q ->
  canonf prec emax R /\ (F2Q lo <= F2Q R <= F2Q hi)%Q.
Proof.
  intros HR Hlo Hhi H1 H2.
  destruct (r_lower _ _ _ _ HR lo Hlo H1) as [-> | [Hf Hl]];
    destruct (r_upper _ _ _ _ HR hi Hhi H2) as [E | [Hf' Hu]]; try discriminate;
    try (subst R; discriminate).
  split; [|split; assumption]. split; [apply (r_class _ _ _ _ HR) | exact Hf].
Qed.

Lemma rounds_lower (u : Q) (R lo : spec_float) :
  rounds prec emax u R -> canonf prec emax lo -> (F2Q lo <= u)%Q ->
  R = S754_infinity false \/ (canonf prec emax R /\ (F2Q lo <= F2Q R)%Q).
Proof.
  intros HR Hlo H1.
  destruct (r_lower _ _ _ _ HR lo Hlo H1) as [-> | [Hf Hl]]; [now left | right].
  split; [|assumption]. split; [apply (r_class _ _ _ _ HR) | exact Hf].
Qed.

Lemma rounds_representable (u : Q) (R c : spec_float) :
  rounds prec emax u R -> canonf prec emax c -> (F2Q c == u)%Q ->
  canonf prec emax R /\ (F2Q R == u)%Q.
Proof.
  intros HR Hc E.
  destruct (rounds_between u R c c HR Hc Hc ltac:(lra) ltac:(lra)) as [H1 H2].
  split; [exact H1 | lra].
Qed.

(** An integer of at most [prec] bits is a float of the format. *)
Lemma int_representable (n : Z) :
  Z.abs n < 2 ^ prec -> exists c, canonf prec emax c /\ (F2Q c == inject_Z n)%Q.
Proof.
  intros Hn. destruct (Z.eq_dec n 0) as [-> | H0].
  - exists (S754_zero false). split; [split; reflexivity | reflexivity].
  - set (a := Z.abs n). assert (Ha : 0 < a) by (unfold a; lia).
    set (k := prec - Zdigits2 a).
    assert (Hd : Zdigits2 a <= prec) by (apply Zdigits2_le; [exact Ha | exact Hn]).
    assert (Hd0 : 0 < Zdigits2 a).
    { rewrite Zdigits2_log2 by exact Ha. pose proof (Z.log2_nonneg a). lia. }
    assert (Hk : 0 <= k) by (unfold k; lia).
    assert (Hp : 0 < a * 2 ^ k) by (pose proof (Z.pow_pos_nonneg 2 k ltac:(lia) Hk); nia).
    exists (S754_finite (n <? 0) (Z.to_pos (a * 2 ^ k)) (- k)). split.
    + split; [|reflexivity]. cbn [valid_binary]. apply bounded_iff.
      rewrite Zdigits2_to_pos, Zdigits2_mul_pow2 by lia.
      unfold SpecFloat.emin. unfold k. split; [|lia].
      destruct (Z.eq_dec (- (prec - Zdigits2 a)) (3 - emax - prec)); [left | right]; lia.
    + cbn [F2Q].
      assert (E : (Q2 k * Q2 (- k) == 1)%Q).
      { rewrite <- Q2_add. replace (k + - k) with 0 by lia. reflexivity. }
      destruct (Z.ltb_spec n 0); cbn [cond_Zopp]; rewrite Z2Pos.id by lia.
      * rewrite inject_Z_opp, inject_Z_mult, (Q2_inject k) by lia.
        setoid_replace (- (inject_Z a * Q2 k) * Q2 (- k))%Q with (- inject_Z a * (Q2 k * Q2 (- k)))%Q by ring.
        rewrite E. unfold a. rewrite Z.abs_neq by lia. rewrite inject_Z_opp. ring.
      * rewrite inject_Z_mult, (Q2_inject k) by lia.
        setoid_replace (inject_Z a * Q2 k * Q2 (- k))%Q with (inject_Z a * (Q2 k * Q2 (- k)))%Q by ring.
        rewrite E. unfold a. rewrite Z.abs_eq by lia. ring.
Qed.

End Derived.

(** ** float64 instances *)


Lemma p64 : 0 < 53. Proof. reflexivity. Qed.
Lemma e64 : 53 < 1024. Proof. reflexivity. Qed.

Lemma inj_Z_eq (a b : Z) : (inject_Z a == inject_Z b)%Q -> a = b.
Proof. apply inject_Z_injective. Qed.

Lemma Q2_neg_mul (p : positive) (z n : Z) :
  (inject_Z z * Q2 (Zneg p) == inject_Z n)%Q <-> z = n * 2 ^ Zpos p.
Proof.
  assert (E : (Q2 (Zneg p) * Q2 (Zpos p) == 1)%Q).
  { rewrite <- Q2_add. replace (Zneg p + Zpos p) with 0 by lia. reflexivity. }
  split; intros H.
  - apply inj_Z_eq. rewrite inject_Z_mult, Q2_inject by lia.
    rewrite <- H. setoid_replace (inject_Z z * Q2 (Zneg p) * Q2 (Zpos p))%Q
      with (inject_Z z * (Q2 (Zneg p) * Q2 (Zpos p)))%Q by ring.
    rewrite E. ring.
  - subst z. rewrite inject_Z_mult, Q2_inject by lia.
    setoid_replace (inject_Z n * Q2 (Zpos p) * Q2 (Zneg p))%Q
      with (inject_Z n * (Q2 (Zneg p) * Q2 (Zpos p)))%Q by ring.
    rewrite E. ring.
Qed.

(** [int(f)] of a float that holds an integer of the range is that integer. *)
Lemma to_int_Q (x : float) (n : Z) :
  is_finite x = true -> (F2Q x == inject_Z n)%Q ->
  min_int64 <= n <= max_int64 -> to_int x = n.
Proof.
  intros Hf E Hn. destruct x as [s | s | | s m e]; try discriminate.
  - change (F2Q (S754_zero s)) with (inject_Z 0) in E.
    apply inj_Z_eq in E. cbn. lia.
  - assert (Hr : forall a, (if s then - a else a) = n ->
       (if (min_int64 <=? (if s then - a else a)) && ((if s then - a else a) <=? max_int64)
        then (if s then - a else a) else min_int64) = n).
    { intros a <-. destruct (Z.leb_spec min_int64 (if s then - a else a)); [|lia].
      destruct (Z.leb_spec (if s then - a else a) max_int64); [reflexivity | lia]. }
    cbn [to_int]. apply Hr. cbn [F2Q] in E.
    destruct e as [| p | p].
    + rewrite Q2_0 in E. rewrite Z.shiftl_0_r.
      assert (E' : (inject_Z (cond_Zopp s (Zpos m)) == inject_Z n)%Q) by (rewrite <- E; ring).
      apply inj_Z_eq in E'. destruct s; exact E'.
    + rewrite <- Q2_inject, <- inject_Z_mult in E by lia.
      apply inj_Z_eq in E. rewrite Z.shiftl_mul_pow2 by lia.
      destruct s; cbn [cond_Zopp] in E; lia.
    + apply Q2_neg_mul in E. rewrite Z.shiftr_div_pow2 by lia.
      assert (0 < 2 ^ Zpos p) by (apply Z.pow_pos_nonneg; lia).
      destruct s; cbn [cond_Zopp] in E.
      * assert (Zpos m = (- n) * 2 ^ Zpos p) by lia.
        rewrite H0, Z.div_mul by lia. lia.
      * rewrite E, Z.div_mul by lia. reflexivity.
Qed.

(** [math.Floor] returns the integer part as a float, exactly, for every
    float below [2^52] in magnitude. *)
Lemma Floor_spec (t : float) :
  c64 t ->
  exists n : Z, (inject_Z n <= F2Q t < inject_Z n + 1)%Q /\
    (Z.abs n < 2 ^ 53 -> c64 (Floor t) /\ (F2Q (Floor t) == inject_Z n)%Q).
Proof.
  intros Ht. destruct t as [s | s | | s m e]; try (destruct Ht; discriminate).
  - exists 0. split; [change (F2Q (S754_zero s)) with 0%Q; change (inject_Z 0) with 0%Q; lra | intros _; split; [exact Ht | reflexivity]].
  - destruct e as [| p | p].
    + exists (cond_Zopp s (Zpos m)). split.
      * cbn [F2Q]. rewrite Q2_0. lra.
      * intros _. split; [exact Ht|]. cbn [Floor F2Q]. rewrite Q2_0. ring.
    + exists (cond_Zopp s (Zpos m) * 2 ^ Zpos p). split.
      * cbn [F2Q]. rewrite inject_Z_mult, Q2_inject by lia. lra.
      * intros _. split; [exact Ht|]. cbn [Floor F2Q].
        rewrite inject_Z_mult, Q2_inject by lia. reflexivity.
    + set (z := cond_Zopp s (Zpos m)).
      assert (H2 : 0 < 2 ^ Zpos p) by (apply Z.pow_pos_nonneg; lia).
      exists (z / 2 ^ Zpos p). split.
      * cbn [F2Q]. fold z.
        pose proof (Z.div_mod z (2 ^ Zpos p) ltac:(lia)) as Hd.
        pose proof (Z.mod_pos_bound z (2 ^ Zpos p) H2) as Hm.
        set (n := z / 2 ^ Zpos p) in *.
        assert (E : (inject_Z n == inject_Z (n * 2 ^ Zpos p) * Q2 (Zneg p))%Q).
        { symmetry. apply Q2_neg_mul. reflexivity. }
        assert (E1 : (inject_Z n + 1 == inject_Z ((n + 1) * 2 ^ Zpos p) * Q2 (Zneg p))%Q).
        { symmetry. change (inject_Z n + 1)%Q with (inject_Z n + inject_Z 1)%Q.
          rewrite <- inject_Z_plus. apply Q2_neg_mul. reflexivity. }
        rewrite E1, E. split.
        -- apply Qmult_le_compat_r; [|apply Qlt_le_weak, Q2_pos]. rewrite <- Zle_Qle. lia.
        -- apply Qmult_lt_compat_r; [apply Q2_pos|]. rewrite <- Zlt_Qlt. lia.
      * intros Hn. cbn [Floor].
        replace (if s then - Zpos m else Zpos m) with z by (destruct s; reflexivity).
        rewrite Z.shiftr_div_pow2 by lia.
        destruct (int_representable 53 1024 p64 e64 (z / 2 ^ Zpos p) Hn) as (c & Hc & Ec).
        destruct (rounds_representable 53 1024 _ _ c
                    (binary_normalize_rounds 53 1024 p64 e64 (z / 2 ^ Zpos p) 0 s) Hc) as [H1 H3].
        { rewrite Ec, Q2_0. ring. }
        split; [exact H1 | rewrite H3, Q2_0; ring].
Qed.

Lemma of_int_exact (n : Z) :
  Z.abs n < 2 ^ 53 -> c64 (of_int F64 n) /\ (F2Q (of_int F64 n) == inject_Z n)%Q.
Proof.
  intros Hn. destruct (int_representable 53 1024 p64 e64 n Hn) as (c & Hc & Ec).
  destruct (rounds_representable 53 1024 _ _ c
              (binary_normalize_rounds 53 1024 p64 e64 n 0 false) Hc) as [H1 H3].
  { rewrite Ec, Q2_0. ring. }
  split; [exact H1 | rewrite H3, Q2_0; ring].
Qed.

(** [int(math.Floor(t))] for a float of moderate size. *)
Lemma floor_to_int (t : float) (B : Z) :
  c64 t -> 0 <= B < 2 ^ 52 -> (- inject_Z B <= F2Q t <= inject_Z B)%Q ->
  let k := to_int (Floor t) in
  (inject_Z k <= F2Q t < inject_Z k + 1)%Q /\ - B - 1 <= k <= B.
Proof.
  intros Ht HB Hb. destruct (Floor_spec t Ht) as (n & Hn & Hfl).
  assert (Hk : - B - 1 <= n <= B).
  { split.
    - assert (- B < n + 1); [|lia]. rewrite Zlt_Qlt, inject_Z_opp, inject_Z_plus.
      change (inject_Z 1) with 1%Q. lra.
    - rewrite Zle_Qle. lra. }
  assert (Ha : Z.abs n < 2 ^ 53).
  { assert (2 ^ 53 = 2 * 2 ^ 52) by reflexivity. lia. }
  destruct (Hfl Ha) as [Hc Ef].
  assert (E : to_int (Floor t) = n).
  { apply to_int_Q; [apply Hc | exact Ef |].
    unfold min_int64, max_int64. assert (2 ^ 63 = 2048 * 2 ^ 52) by reflexivity. lia. }
  cbv zeta. rewrite E. split; assumption.
Qed.

(** A float of a narrower format is a float of a wider one: it is
    renormalised to the wider precision without loss. *)
Lemma finite_representable (prec emax : Z) (s : bool) (m : positive) (e : Z) :
  0 < prec -> prec < emax ->
  Zpos (digits2_pos m) <= prec ->
  SpecFloat.emin prec emax + prec <= Zpos (digits2_pos m) + e <= emax ->
  exists c, canonf prec emax c /\ (F2Q c == F2Q (S754_finite s m e))%Q.
Proof.
  intros Hp He Hd Hr. set (d := Zpos (digits2_pos m)) in *.
  set (k := prec - d). assert (Hk : 0 <= k) by (unfold k; lia).
  assert (H2 : 0 < 2 ^ k) by (apply Z.pow_pos_nonneg; lia).
  exists (S754_finite s (Z.to_pos (Zpos m * 2 ^ k)) (e - k)). split.
  - split; [|reflexivity]. cbn [valid_binary]. apply bounded_iff.
    rewrite Zdigits2_to_pos, Zdigits2_mul_pow2 by lia.
    change (Zdigits2 (Zpos m)) with d. unfold k. split; [|lia].
    destruct (Z.eq_dec (e - (prec - d)) (SpecFloat.emin prec emax)); [left | right]; lia.
  - cbn [F2Q]. 
    assert (E : (inject_Z (cond_Zopp s (Zpos (Z.to_pos (Zpos m * 2 ^ k))))
                 == inject_Z (cond_Zopp s (Zpos m)) * Q2 k)%Q).
    { rewrite Z2Pos.id by lia. rewrite <- Q2_inject, <- inject_Z_mult by lia.
      destruct s; cbn [cond_Zopp]; apply inject_Z_injective; lia. }
    rewrite E. replace e with (k + (e - k)) at 2 by lia. rewrite (Q2_add k). ring.
Qed.

(** ** Conversions between the widths *)

Lemma widen_exact (x : float) :
  valid F32 x = true -> is_finite x = true ->
  c64 (to_f64 F32 x) /\ (F2Q (to_f64 F32 x) == F2Q x)%Q.
Proof.
  intros Hv Hf. destruct x as [s | s | | s m e]; try discriminate.
  - split; [split; reflexivity | reflexivity].
  - cbn [to_f64 round]. change (prec F64) with 53. change (emax F64) with 1024.
    unfold valid in Hv. cbn [valid_binary] in Hv. apply bounded_iff in Hv.
    change (prec F32) with 24 in Hv. change (emax F32) with 128 in Hv.
    change (SpecFloat.emin 24 128) with (-149) in Hv.
    assert (Hd : 0 < Zpos (digits2_pos m)) by lia.
    destruct (finite_representable 53 1024 s m e p64 e64) as (c & Hc & Ec).
    { lia. }
    { change (SpecFloat.emin 53 1024) with (-1074). lia. }
    destruct (rounds_representable 53 1024 _ _ c (binary_round_rounds 53 1024 p64 e64 s m e) Hc)
      as [H1 H3].
    { rewrite Ec. apply F2Q_finite. }
    split; [exact H1 | rewrite H3; symmetry; apply F2Q_finite].
Qed.

(** Narrowing a float64 to the width [w] rounds its value. *)
Lemma narrow_rounds (w : Width) (y : float) :
  c64 y -> rounds (prec w) (emax w) (F2Q y) (of_f64 w y).
Proof.
  intros Hy. destruct w.
  - destruct y as [s | s | | s m e]; try (destruct Hy; discriminate).
    + apply rounds_zero.
    + cbn [of_f64 round]. eapply rounds_ext; [symmetry; apply F2Q_finite|].
      apply binary_round_rounds; reflexivity.
  - apply rounds_exact. exact Hy.
Qed.

(** ** The power of two that the exponent field encodes *)

Lemma pow2k_bits (k : Z) :
  -1023 < k < 1024 ->
  of_bits F64 (wrap F64 (Z.shiftl (wrap F64 (k + 1023)) 52))
  = S754_finite false 4503599627370496 (k - 52).
Proof.
  intros Hk. unfold wrap. change (nbits F64) with 64.
  assert (P64 : 2 ^ 64 = 18446744073709551616) by reflexivity.
  assert (P52 : 2 ^ 52 = 4503599627370496) by reflexivity.
  rewrite (Z.mod_small (k + 1023)) by lia.
  rewrite Z.shiftl_mul_pow2 by lia.
  rewrite Z.mod_small by lia.
  set (b := (k + 1023) * 2 ^ 52).
  unfold of_bits. change (nbits F64 - 1) with 63. change (mant_bits F64) with 52.
  change (exp_field_max F64) with (Z.ones 11). change (exp_bias F64) with 1023.
  assert (Hs : Z.testbit b 63 = false).
  { apply Z.bits_above_log2; [unfold b; lia|]. apply Z.log2_lt_pow2; [unfold b; lia|].
    assert (2 ^ 63 = 2048 * 2 ^ 52) by reflexivity. unfold b. lia. }
  assert (HE : Z.land (Z.shiftr b 52) (Z.ones 11) = k + 1023).
  { rewrite Z.shiftr_div_pow2 by lia. unfold b. rewrite Z.div_mul by lia.
    rewrite Z.land_ones by lia. apply Z.mod_small. change (2 ^ 11) with 2048. lia. }
  assert (Hf : Z.land b (Z.ones 52) = 0).
  { rewrite Z.land_ones by lia. unfold b. apply Z.mod_mul. lia. }
  rewrite Hs, HE, Hf. cbv zeta.
  destruct (Z.eqb_spec (k + 1023) 0); [lia|].
  destruct (Z.eqb_spec (k + 1023) (Z.ones 11)); [change (Z.ones 11) with 2047 in *; lia|].
  change (Z.lor 0 (Z.shiftl 1 52)) with 4503599627370496. cbv beta iota.
  f_equal. lia.
Qed.

Lemma pow2k_value (k : Z) :
  -1023 < k < 1024 ->
  c64 (S754_finite false 4503599627370496 (k - 52)) /\
  (F2Q (S754_finite false 4503599627370496 (k - 52)) == Q2 k)%Q.
Proof.
  intros Hk. split.
  - split; [|reflexivity]. cbn [valid_binary]. apply bounded_iff.
    change (Zpos (digits2_pos 4503599627370496)) with 53.
    change (SpecFloat.emin 53 1024) with (-1074). lia.
  - cbn [F2Q cond_Zopp]. change (Zpos 4503599627370496) with (2 ^ 52).
    rewrite Q2_inject, <- Q2_add by lia. replace (52 + (k - 52)) with k by lia. reflexivity.
Qed.

Lemma Ldexp_rounds (y : float) (k : Z) :
  c64 y -> r64 (F2Q y * Q2 k) (Ldexp y k).
Proof.
  intros Hy. destruct y as [s | s | | s m e]; try (destruct Hy; discriminate).
  - eapply rounds_ext; [|apply rounds_zero].
    change (F2Q (S754_zero s)) with 0%Q. ring.
  - unfold Ldexp, SFldexp. eapply rounds_ext; [|apply binary_round_rounds; reflexivity].
    rewrite F2Q_finite. destruct s; rewrite Q2_add; ring.
Qed.

(** ** Relative error of a float64 operation away from the subnormals *)


Lemma rel_err_pos (u : Q) (R : float) :
  r64 u R -> c64 R -> (1 <= u)%Q ->
  (u - u * eps64 <= F2Q R <= u + u * eps64)%Q.
Proof.
  intros HR [_ Hf] Hu.
  pose proof (r_rel _ _ _ _ HR Hf) as H.
  assert (Ha : (Qabs u == u)%Q) by (apply Qabs_pos; lra).
  rewrite Ha in H.
  assert (E : (Q2 (1 - 53) == eps64)%Q) by reflexivity. rewrite E in H.
  assert (E1 : (Q2 (SpecFloat.emin 53 1024 + 53 - 1) <= 1)%Q).
  { change 1%Q with (Q2 0). apply (Q2_le (SpecFloat.emin 53 1024 + 53 - 1) 0). discriminate. }
  specialize (H ltac:(lra)). apply Qabs_Qle_condition in H. lra.
Qed.

Lemma rel_err_neg (u : Q) (R : float) :
  r64 u R -> c64 R -> (u <= -1)%Q ->
  (u + u * eps64 <= F2Q R <= u - u * eps64)%Q.
Proof.
  intros HR [_ Hf] Hu.
  pose proof (r_rel _ _ _ _ HR Hf) as H.
  assert (Ha : (Qabs u == - u)%Q) by (apply Qabs_neg; lra).
  rewrite Ha in H.
  assert (E : (Q2 (1 - 53) == eps64)%Q) by reflexivity. rewrite E in H.
  assert (E1 : (Q2 (SpecFloat.emin 53 1024 + 53 - 1) <= 1)%Q).
  { change 1%Q with (Q2 0). apply (Q2_le (SpecFloat.emin 53 1024 + 53 - 1) 0). discriminate. }
  specialize (H ltac:(lra)). apply Qabs_Qle_condition in H. lra.
Qed.

(** ** The constants of exp.go *)

Ltac closed_c64 := split; vm_compute; reflexivity.


Lemma invLn2_c : c64 invLn2 /\ (F2Q invLn2 == invLn2_Q)%Q.
Proof. split; [closed_c64 | vm_compute; reflexivity]. Qed.
Lemma ln2_c : c64 ln2 /\ (F2Q ln2 == ln2_Q)%Q.
Proof. split; [closed_c64 | vm_compute; reflexivity]. Qed.
Lemma maxLog_c : c64 maxLogFloat64 /\ (F2Q maxLogFloat64 == maxLog_Q)%Q.
Proof. split; [closed_c64 | vm_compute; reflexivity]. Qed.
Lemma minLog_c : c64 minLogFloat64 /\ (F2Q minLogFloat64 == minLog_Q)%Q.
Proof. split; [closed_c64 | vm_compute; reflexivity]. Qed.
Lemma half_c : c64 (1 // 2) /\ (F2Q (1 // 2) == 1 # 2)%Q.
Proof. split; [closed_c64 | vm_compute; reflexivity]. Qed.


Lemma halves_c (n : Z) :
  Z.abs n < 2 ^ 53 -> c64 (halves n) /\ (F2Q (halves n) == inject_Z n * (1 # 2))%Q.
Proof.
  intros Hn. destruct (Z.eq_dec n 0) as [-> | H0].
  { split; [closed_c64 | reflexivity]. }
  destruct (finite_representable 53 1024 (n <? 0) (Z.to_pos (Z.abs n)) (-1) p64 e64)
    as (c & Hc & Ec).
  { rewrite Zdigits2_to_pos by lia. apply Zdigits2_le; lia. }
  { rewrite Zdigits2_to_pos by lia. change (SpecFloat.emin 53 1024) with (-1074).
    pose proof (Zdigits2_le 53 (Z.abs n) ltac:(lia) Hn).
    assert (0 < Zdigits2 (Z.abs n)).
    { rewrite Zdigits2_log2 by lia. pose proof (Z.log2_nonneg (Z.abs n)). lia. }
    lia. }
  assert (Ev : (F2Q (S754_finite (n <? 0) (Z.to_pos (Z.abs n)) (-1)) == inject_Z n * Q2 (-1))%Q).
  { cbn [F2Q]. rewrite Z2Pos.id by lia.
    destruct (Z.ltb_spec n 0); cbn [cond_Zopp]; apply Qmult_comp; try reflexivity;
      apply inject_Z_injective; lia. }
  destruct (rounds_representable 53 1024 _ _ c
              (binary_normalize_rounds 53 1024 p64 e64 n (-1) false) Hc) as [H1 H3].
  { rewrite Ec, Ev. reflexivity. }
  split; [exact H1 | rewrite H3; reflexivity].
Qed.

Lemma mul64 (x y : float) : c64 x -> c64 y -> r64 (F2Q x * F2Q y) (mul F64 x y).
Proof. exact (mul_rounds 53 1024 p64 e64 x y). Qed.

Lemma add64 (x y : float) : c64 x -> c64 y -> r64 (F2Q x + F2Q y) (add F64 x y).
Proof. exact (add_rounds 53 1024 p64 e64 x y). Qed.

Lemma sub64 (x y : float) : c64 x -> c64 y -> r64 (F2Q x - F2Q y) (sub F64 x y).
Proof. exact (sub_rounds 53 1024 p64 e64 x y). Qed.

(** ** Range reduction of [Exp] near the float32 overflow threshold *)



Lemma reduce_overflow (xf : float) :
  c64 xf -> (X0_Q <= F2Q xf <= maxLog_Q)%Q ->
  let k := to_int (Floor (xf * invLn2 + 1 // 2)%f64) in
  let r := (xf - of_int F64 k * ln2)%f64 in
  128 <= k <= 1101 /\ c64 r /\ (- (1 # 2) <= F2Q r <= 1 # 2)%Q /\
  (k = 128 -> (0 <= F2Q r)%Q).
Proof.
  intros Hx HX. destruct invLn2_c as [HcC EC]. destruct ln2_c as [HcL EL].
  destruct half_c as [HcH EH].
  set (X := F2Q xf) in *.
  (* t1 = xf * invLn2 *)
  pose proof (mul64 xf invLn2 Hx HcC) as R1.
  fold X in R1. rewrite EC in R1.
  destruct (halves_c 256 ltac:(reflexivity)) as [Hc128 E128].
  destruct (halves_c 2200 ltac:(reflexivity)) as [Hc1100 E1100].
  unfold inject_Z in E128, E1100.
  destruct (rounds_between 53 1024 _ _ _ _ R1 Hc128 Hc1100) as [Hct1 B1].
  { rewrite E128. unfold X0_Q, maxLog_Q, invLn2_Q in *. lra. }
  { rewrite E1100. unfold X0_Q, maxLog_Q, invLn2_Q in *. lra. }
  pose proof (rel_err_pos _ _ R1 Hct1) as Q1.
  set (t1 := (xf * invLn2)%f64) in *. set (T1 := F2Q t1) in *.
  (* t2 = t1 + 1/2 *)
  pose proof (add64 t1 (1 // 2) Hct1 HcH) as R2.
  fold T1 in R2. rewrite EH in R2.
  destruct (halves_c 257 ltac:(reflexivity)) as [Hc128h E128h].
  destruct (halves_c 2201 ltac:(reflexivity)) as [Hc1100h E1100h].
  unfold inject_Z in E128h, E1100h.
  destruct (rounds_between 53 1024 _ _ _ _ R2 Hc128h Hc1100h) as [Hct2 B2].
  { rewrite E128h. rewrite E128 in B1. lra. }
  { rewrite E1100h. rewrite E1100 in B1. lra. }
  pose proof (rel_err_pos _ _ R2 Hct2) as Q2'.
  set (t2 := (t1 + 1 // 2)%f64) in *. set (T2 := F2Q t2) in *.
  (* k = int(floor t2) *)
  destruct (floor_to_int t2 1101 Hct2 ltac:(split; [discriminate | reflexivity])) as [HK Hkr].
  { fold T2. unfold inject_Z. rewrite E128h, E1100h in B2. lra. }
  set (k := to_int (Floor t2)) in *. cbv zeta.
  assert (Hk128 : 128 <= k).
  { assert (128 < k + 1); [|lia]. rewrite Zlt_Qlt, inject_Z_plus.
    unfold inject_Z at 1 3. fold T2 in HK. rewrite E128h in B2. lra. }
  destruct (of_int_exact k) as [Hckf Ekf].
  { assert (2 ^ 53 = 8192 * 2 ^ 40) by reflexivity. lia. }
  (* kl = k * ln2 *)
  pose proof (mul64 (of_int F64 k) ln2 Hckf HcL) as R3.
  rewrite Ekf, EL in R3.
  assert (HKq : (128 <= inject_Z k <= 1101)%Q).
  { split; [change (128%Q) with (inject_Z 128) | change (1101%Q) with (inject_Z 1101)];
      rewrite <- Zle_Qle; lia. }
  destruct (halves_c 2 ltac:(reflexivity)) as [Hc1 E1].
  unfold inject_Z in E1.
  destruct (rounds_between 53 1024 _ _ _ _ R3 Hc1 Hc1100) as [Hckl B3].
  { rewrite E1. unfold ln2_Q. lra. }
  { rewrite E1100. unfold ln2_Q. lra. }
  pose proof (rel_err_pos _ _ R3 Hckl) as Q3.
  set (kl := (of_int F64 k * ln2)%f64) in *. set (KL := F2Q kl) in *.
  (* r = xf - kl *)
  pose proof (sub64 xf kl Hx Hckl) as R4.
  fold X KL in R4.
  fold T2 in HK. rewrite E128, E1100 in B1. rewrite E128h, E1100h in B2.
  rewrite E1, E1100 in B3.
  unfold eps64, invLn2_Q, ln2_Q, X0_Q, maxLog_Q in *.
  specialize (Q1 ltac:(lra)). specialize (Q2' ltac:(lra)). specialize (Q3 ltac:(lra)).
  destruct (halves_c (-1) ltac:(reflexivity)) as [Hcmh Emh].
  destruct (halves_c 1 ltac:(reflexivity)) as [Hcph Eph].
  destruct (halves_c 0 ltac:(reflexivity)) as [Hcz Ez].
  unfold inject_Z in Emh, Eph, Ez.
  destruct (rounds_between 53 1024 _ _ _ _ R4 Hcmh Hcph) as [Hcr B4].
  { rewrite Emh. lra. }
  { rewrite Eph. lra. }
  rewrite Emh, Eph in B4.
  split; [lia|]. split; [exact Hcr|]. split; [lra|].
  intros E128k. rewrite E128k in *. unfold inject_Z in *.
  destruct (rounds_lower 53 1024 _ _ _ R4 Hcz) as [Hinf | [_ Hl]].
  { rewrite Ez. lra. }
  { destruct Hcr as [_ Hfin]. fold kl in Hinf. rewrite Hinf in Hfin. discriminate. }
  rewrite Ez in Hl. lra.
Qed.

(** ** Range reduction of [Exp] near the float32 underflow threshold *)


Lemma reduce_underflow (xf : float) :
  c64 xf -> (minLog_Q <= F2Q xf <= X1_Q)%Q ->
  let k := to_int (Floor (xf * invLn2 + 1 // 2)%f64) in
  let r := (xf - of_int F64 k * ln2)%f64 in
  -1102 <= k <= -150 /\ c64 r /\ (- (1 # 2) <= F2Q r <= 1 # 2)%Q /\
  (k = -150 -> (F2Q r <= 0)%Q).
Proof.
  intros Hx HX. destruct invLn2_c as [HcC EC]. destruct ln2_c as [HcL EL].
  destruct half_c as [HcH EH].
  set (X := F2Q xf) in *.
  (* t1 = xf * invLn2 *)
  pose proof (mul64 xf invLn2 Hx HcC) as R1.
  fold X in R1. rewrite EC in R1.
  destruct (halves_c (-300) ltac:(reflexivity)) as [Hc150 E150].
  destruct (halves_c (-2200) ltac:(reflexivity)) as [Hc1100 E1100].
  unfold inject_Z in E150, E1100.
  destruct (rounds_between 53 1024 _ _ _ _ R1 Hc1100 Hc150) as [Hct1 B1].
  { rewrite E1100. unfold X1_Q, minLog_Q, invLn2_Q in *. lra. }
  { rewrite E150. unfold X1_Q, minLog_Q, invLn2_Q in *. lra. }
  pose proof (rel_err_neg _ _ R1 Hct1) as Q1.
  set (t1 := (xf * invLn2)%f64) in *. set (T1 := F2Q t1) in *.
  (* t2 = t1 + 1/2 *)
  pose proof (add64 t1 (1 // 2) Hct1 HcH) as R2.
  fold T1 in R2. rewrite EH in R2.
  destruct (halves_c (-299) ltac:(reflexivity)) as [Hc150h E150h].
  destruct (halves_c (-2199) ltac:(reflexivity)) as [Hc1100h E1100h].
  unfold inject_Z in E150h, E1100h.
  destruct (rounds_between 53 1024 _ _ _ _ R2 Hc1100h Hc150h) as [Hct2 B2].
  { rewrite E1100h. rewrite E1100 in B1. lra. }
  { rewrite E150h. rewrite E150 in B1. lra. }
  pose proof (rel_err_neg _ _ R2 Hct2) as Q2'.
  set (t2 := (t1 + 1 // 2)%f64) in *. set (T2 := F2Q t2) in *.
  (* k = int(floor t2) *)
  destruct (floor_to_int t2 1101 Hct2 ltac:(split; [discriminate | reflexivity])) as [HK Hkr].
  { fold T2. unfold inject_Z. rewrite E150h, E1100h in B2. lra. }
  set (k := to_int (Floor t2)) in *. cbv zeta.
  assert (Hk150 : k <= -150).
  { assert (k < -149); [|lia]. rewrite Zlt_Qlt.
    unfold inject_Z at 2. fold T2 in HK. rewrite E150h in B2. lra. }
  destruct (of_int_exact k) as [Hckf Ekf].
  { assert (2 ^ 53 = 8192 * 2 ^ 40) by reflexivity. lia. }
  (* kl = k * ln2 *)
  pose proof (mul64 (of_int F64 k) ln2 Hckf HcL) as R3.
  rewrite Ekf, EL in R3.
  assert (HKq : (- (1102) <= inject_Z k <= - (150))%Q).
  { split; [change (- (1102))%Q with (inject_Z (-1102)) | change (- (150))%Q with (inject_Z (-150))];
      rewrite <- Zle_Qle; lia. }
  destruct (halves_c (-2) ltac:(reflexivity)) as [Hc1 E1].
  unfold inject_Z in E1.
  destruct (rounds_between 53 1024 _ _ _ _ R3 Hc1100 Hc1) as [Hckl B3].
  { rewrite E1100. unfold ln2_Q. lra. }
  { rewrite E1. unfold ln2_Q. lra. }
  pose proof (rel_err_neg _ _ R3 Hckl) as Q3.
  set (kl := (of_int F64 k * ln2)%f64) in *. set (KL := F2Q kl) in *.
  (* r = xf - kl *)
  pose proof (sub64 xf kl Hx Hckl) as R4.
  fold X KL in R4.
  fold T2 in HK. rewrite E150, E1100 in B1. rewrite E150h, E1100h in B2.
  rewrite E1, E1100 in B3.
  unfold eps64, invLn2_Q, ln2_Q, X1_Q, minLog_Q in *.
  specialize (Q1 ltac:(lra)). specialize (Q2' ltac:(lra)). specialize (Q3 ltac:(lra)).
  destruct (halves_c (-1) ltac:(reflexivity)) as [Hcmh Emh].
  destruct (halves_c 1 ltac:(reflexivity)) as [Hcph Eph].
  destruct (halves_c 0 ltac:(reflexivity)) as [Hcz Ez].
  unfold inject_Z in Emh, Eph, Ez.
  destruct (rounds_between 53 1024 _ _ _ _ R4 Hcmh Hcph) as [Hcr B4].
  { rewrite Emh. lra. }
  { rewrite Eph. lra. }
  rewrite Emh, Eph in B4.
  split; [lia|]. split; [exact Hcr|]. split; [lra|].
  intros E150k. rewrite E150k in *. unfold inject_Z in *.
  destruct (rounds_between 53 1024 _ _ _ _ R4 Hcmh Hcz) as [_ [_ Hl]].
  { rewrite Emh. lra. }
  { rewrite Ez. lra. }
  rewrite Ez in Hl. lra.
Qed.

(** ** The Horner evaluation of the polynomial *)


Lemma expPoly_horner (r : float) (prec : Precision) :
  expPoly r prec = horner r (1 // 1) (1 // 1 :: 1 // 2 :: 1 // 6 :: nil) \/
  expPoly r prec =
    horner r (1 // 1) (1 // 1 :: 1 // 2 :: 1 // 6 :: 1 // 24 :: 1 // 120 :: nil) \/
  expPoly r prec =
    horner r (1 // 1)
      (1 // 1 :: 1 // 2 :: 1 // 6 :: 1 // 24 :: 1 // 120 :: 1 // 720 :: 1 // 5040 :: nil).
Proof.
  unfold expPoly. destruct (prec =? PrecisionFast); [left; reflexivity|].
  destruct ((prec =? PrecisionAuto) || (prec =? PrecisionBalanced));
    [right; left; reflexivity|].
  destruct (prec =? PrecisionHigh); [right; right; reflexivity | right; left; reflexivity].
Qed.

Lemma opp_c (c : float) : c64 c -> c64 (SFopp c) /\ (F2Q (SFopp c) == - F2Q c)%Q.
Proof.
  intros Hc. destruct c as [s | s | | s m e]; try (destruct Hc; discriminate).
  - split; [split; reflexivity | reflexivity].
  - split; [exact Hc|]. cbn [SFopp]. rewrite !F2Q_finite.
    destruct s; cbn [negb]; ring.
Qed.

Lemma two_c : c64 (2 // 1) /\ (F2Q (2 // 1) == 2)%Q.
Proof. split; [closed_c64 | vm_compute; reflexivity]. Qed.

Lemma zero_c : c64 pZero /\ (F2Q pZero == 0)%Q.
Proof. split; [closed_c64 | reflexivity]. Qed.

Lemma horner_step_pos (c q r : float) :
  c64 r -> (0 <= F2Q r <= 1 # 2)%Q ->
  c64 q -> (0 <= F2Q q <= 2)%Q ->
  c64 c -> (0 <= F2Q c <= 1)%Q ->
  c64 (c + r * q)%f64 /\ (F2Q c <= F2Q (c + r * q)%f64 <= 2)%Q.
Proof.
  intros Hr Br Hq Bq Hc Bc.
  destruct two_c as [Hc2 E2]. destruct zero_c as [Hc0 E0].
  destruct (halves_c 2 ltac:(reflexivity)) as [Hc1 E1]. unfold inject_Z in E1.
  pose proof (mul64 r q Hr Hq) as R1.
  assert (P1 : (F2Q r * F2Q q <= (1 # 2) * F2Q q)%Q) by (apply Qmult_le_compat_r; lra).
  assert (P0 : (0 <= F2Q r * F2Q q)%Q) by (apply Qmult_le_0_compat; lra).
  destruct (rounds_between 53 1024 _ _ _ _ R1 Hc0 Hc1) as [Hcp Bp].
  { rewrite E0. exact P0. }
  { rewrite E1. lra. }
  rewrite E0, E1 in Bp.
  pose proof (add64 c (r * q)%f64 Hc Hcp) as R2.
  destruct (rounds_between 53 1024 _ _ _ _ R2 Hc Hc2) as [Hcs Bs].
  { lra. }
  { rewrite E2. lra. }
  rewrite E2 in Bs. split; assumption.
Qed.

Lemma horner_step_neg (c q r : float) :
  c64 r -> (- (1 # 2) <= F2Q r <= 0)%Q ->
  c64 q -> (0 <= F2Q q <= 2 * F2Q c)%Q ->
  c64 c ->
  c64 (c + r * q)%f64 /\ (0 <= F2Q (c + r * q)%f64 <= F2Q c)%Q.
Proof.
  intros Hr Br Hq Bq Hc.
  destruct zero_c as [Hc0 E0]. destruct (opp_c c Hc) as [Hcn En].
  pose proof (mul64 r q Hr Hq) as R1.
  assert (P1 : (- (1 # 2) * F2Q q <= F2Q r * F2Q q)%Q) by (apply Qmult_le_compat_r; lra).
  assert (P0 : (F2Q r * F2Q q <= 0 * F2Q q)%Q) by (apply Qmult_le_compat_r; lra).
  destruct (rounds_between 53 1024 _ _ _ _ R1 Hcn Hc0) as [Hcp Bp].
  { rewrite En. lra. }
  { rewrite E0. lra. }
  rewrite E0, En in Bp.
  pose proof (add64 c (r * q)%f64 Hc Hcp) as R2.
  destruct (rounds_between 53 1024 _ _ _ _ R2 Hc0 Hc) as [Hcs Bs].
  { rewrite E0. lra. }
  { lra. }
  rewrite E0 in Bs. split; assumption.
Qed.

(** The last step for a non-positive argument: [1 + r * q] does not fall
    below one half. *)
Lemma horner_last_neg (c q r : float) :
  c64 r -> (- (1 # 2) <= F2Q r <= 0)%Q ->
  c64 q -> (0 <= F2Q q <= 1)%Q ->
  c64 c -> (F2Q c == 1)%Q ->
  c64 (c + r * q)%f64 /\ ((1 # 2) <= F2Q (c + r * q)%f64 <= 1)%Q.
Proof.
  intros Hr Br Hq Bq Hc Ec.
  destruct zero_c as [Hc0 E0].
  destruct (halves_c (-1) ltac:(reflexivity)) as [Hcn En]. unfold inject_Z in En.
  destruct (halves_c 1 ltac:(reflexivity)) as [Hch Eh]. unfold inject_Z in Eh.
  pose proof (mul64 r q Hr Hq) as R1.
  assert (P1 : (- (1 # 2) * F2Q q <= F2Q r * F2Q q)%Q) by (apply Qmult_le_compat_r; lra).
  assert (P0 : (F2Q r * F2Q q <= 0 * F2Q q)%Q) by (apply Qmult_le_compat_r; lra).
  destruct (rounds_between 53 1024 _ _ _ _ R1 Hcn Hc0) as [Hcp Bp].
  { rewrite En. lra. }
  { rewrite E0. lra. }
  rewrite E0, En in Bp.
  pose proof (add64 c (r * q)%f64 Hc Hcp) as R2.
  destruct (rounds_between 53 1024 _ _ _ _ R2 Hch Hc) as [Hcs Bs].
  { rewrite Eh. lra. }
  { lra. }
  rewrite Eh in Bs. split; [assumption | lra].
Qed.


Lemma horner_pos (r : float) (cs : list float) :
  c64 r -> (0 <= F2Q r <= 1 # 2)%Q ->
  forall c, coeff_ok c -> Forall coeff_ok cs ->
  c64 (horner r c cs) /\ (F2Q c <= F2Q (horner r c cs) <= 2)%Q.
Proof.
  intros Hr Br. induction cs as [| c' cs IH]; intros c [Hc Bc] Hcs.
  - cbn. split; [exact Hc | lra].
  - inversion Hcs as [| ? ? Hc' Hcs']; subst.
    destruct (IH c' Hc' Hcs') as [Hq Bq]. cbn [horner].
    destruct Hc' as [_ Bc'].
    apply horner_step_pos; try assumption. lra.
Qed.


Lemma horner_neg (r : float) (cs : list float) :
  c64 r -> (- (1 # 2) <= F2Q r <= 0)%Q ->
  forall c, chain_ok c cs ->
  c64 (horner r c cs) /\ (0 <= F2Q (horner r c cs) <= F2Q c)%Q.
Proof.
  intros Hr Br. induction cs as [| c' cs IH]; intros c Hc.
  - destruct Hc as (Hc & Bc & _). cbn. split; [exact Hc | lra].
  - destruct Hc as (Hc & Bc & Hd & Hc'). destruct (IH c' Hc') as [Hq Bq].
    cbn [horner]. apply horner_step_neg; try assumption. lra.
Qed.

Ltac closed_Q := vm_compute; try reflexivity; intros; discriminate.
Ltac closed_coeff := split; [closed_c64 | split; closed_Q].

Lemma exp_coeffs_ok :
  Forall coeff_ok
    (1 // 1 :: 1 // 2 :: 1 // 6 :: 1 // 24 :: 1 // 120 :: 1 // 720 :: 1 // 5040 :: nil).
Proof. repeat (constructor; [closed_coeff|]). constructor. Qed.

Lemma one_c : c64 (1 // 1) /\ (F2Q (1 // 1) == 1)%Q.
Proof. split; [closed_c64 | vm_compute; reflexivity]. Qed.

Ltac closed_chain :=
  repeat (split; [closed_c64 | split; [closed_Q | try (split; [closed_Q|])]]); exact I.

Lemma exp_chain3 : chain_ok (1 // 1) (1 // 2 :: 1 // 6 :: nil).
Proof. closed_chain. Qed.

Lemma exp_chain5 : chain_ok (1 // 1) (1 // 2 :: 1 // 6 :: 1 // 24 :: 1 // 120 :: nil).
Proof. closed_chain. Qed.

Lemma exp_chain7 :
  chain_ok (1 // 1) (1 // 2 :: 1 // 6 :: 1 // 24 :: 1 // 120 :: 1 // 720 :: 1 // 5040 :: nil).
Proof. closed_chain. Qed.

Lemma horner_exp_bounds (r : float) (cs : list float) :
  Forall coeff_ok cs -> chain_ok (1 // 1) cs ->
  c64 r -> (- (1 # 2) <= F2Q r <= 1 # 2)%Q ->
  let e := horner r (1 // 1) (1 // 1 :: cs) in
  c64 e /\ ((1 # 2) <= F2Q e <= 2)%Q /\
  ((0 <= F2Q r)%Q -> (1 <= F2Q e)%Q) /\ ((F2Q r <= 0)%Q -> (F2Q e <= 1)%Q).
Proof.
  intros Hcs Hch Hr Br e. destruct one_c as [Hc1 E1].
  assert (Hok1 : coeff_ok (1 // 1)) by (split; [exact Hc1 | rewrite E1; lra]).
  destruct (Qlt_le_dec (F2Q r) 0) as [Hneg | Hpos].
  - destruct (horner_neg r cs Hr ltac:(lra) (1 // 1) Hch) as [Hq Bq].
    rewrite E1 in Bq.
    destruct (horner_last_neg (1 // 1) (horner r (1 // 1) cs) r Hr ltac:(lra) Hq Bq Hc1 E1)
      as [He Be].
    subst e. cbn [horner]. split; [exact He|]. split; [lra|]. split; intros; lra.
  - destruct (horner_pos r (1 // 1 :: cs) Hr ltac:(lra) (1 // 1) Hok1) as [He Be].
    { constructor; assumption. }
    rewrite E1 in Be. subst e. split; [exact He|]. split; [lra|].
    split; intros; [lra|].
    assert (E0 : (F2Q r == 0)%Q) by lra.
    (* r is zero: the polynomial is exactly one *)
    destruct (horner_neg r cs Hr ltac:(lra) (1 // 1) Hch) as [Hq Bq].
    rewrite E1 in Bq.
    destruct (horner_last_neg (1 // 1) (horner r (1 // 1) cs) r Hr ltac:(lra) Hq Bq Hc1 E1)
      as [_ Be']. cbn [horner]. lra.
Qed.

Lemma expPoly_bounds (r : float) (prec : Precision) :
  c64 r -> (- (1 # 2) <= F2Q r <= 1 # 2)%Q ->
  c64 (expPoly r prec) /\ ((1 # 2) <= F2Q (expPoly r prec) <= 2)%Q /\
  ((0 <= F2Q r)%Q -> (1 <= F2Q (expPoly r prec))%Q) /\
  ((F2Q r <= 0)%Q -> (F2Q (expPoly r prec) <= 1)%Q).
Proof.
  intros Hr Br. pose proof exp_coeffs_ok as Hall.
  inversion Hall as [| c1 l1 _ H1]; subst.
  destruct (expPoly_horner r prec) as [-> | [-> | ->]].
  - apply (horner_exp_bounds r (1 // 2 :: 1 // 6 :: nil)); try assumption;
      [repeat (constructor; [closed_coeff|]); constructor | exact exp_chain3].
  - apply (horner_exp_bounds r (1 // 2 :: 1 // 6 :: 1 // 24 :: 1 // 120 :: nil));
      try assumption;
      [repeat (constructor; [closed_coeff|]); constructor | exact exp_chain5].
  - apply (horner_exp_bounds r _ H1 exp_chain7 Hr Br).
Qed.

(** ** Scaling by [2^k] and the conversion back to the width *)

Lemma scale_rounds (expr : float) (k : Z) :
  c64 expr ->
  r64 (F2Q expr * Q2 k)
    (if (k >? -1023) && (k <? 1024)
     then (expr * of_bits F64 (wrap F64 (Z.shiftl (wrap F64 (k + 1023)) 52)))%f64
     else Ldexp expr k).
Proof.
  intros He. destruct ((k >? -1023) && (k <? 1024)) eqn:Hk.
  - apply andb_prop in Hk. destruct Hk as [H1 H2].
    assert (Hr : -1023 < k < 1024) by lia.
    rewrite (pow2k_bits k Hr). destruct (pow2k_value k Hr) as [Hc Ev].
    rewrite <- Ev. apply mul64; assumption.
  - apply Ldexp_rounds. exact He.
Qed.

Lemma overflow_final (u : Q) (res : float) :
  r64 u res -> (Q2 128 <= u)%Q -> of_f64 F32 res = pInf.
Proof.
  intros HR Hu. destruct (pow2k_value 128 ltac:(lia)) as [Hc Ev].
  destruct (rounds_lower 53 1024 _ _ _ HR Hc) as [-> | [Hres Hl]].
  { rewrite Ev. exact Hu. }
  { reflexivity. }
  rewrite Ev in Hl. apply (r_over _ _ _ _ (narrow_rounds F32 res Hres)). exact Hl.
Qed.

Lemma underflow_final (u : Q) (res : float) :
  r64 u res -> (0 < u <= Q2 (-150))%Q -> of_f64 F32 res = pZero.
Proof.
  intros HR Hu. destruct (pow2k_value (-150) ltac:(lia)) as [Hc Ev].
  destruct zero_c as [Hc0 E0].
  destruct (rounds_between 53 1024 _ _ _ _ HR Hc0 Hc) as [Hres [Hl Hh]].
  { rewrite E0. lra. }
  { rewrite Ev. lra. }
  rewrite Ev in Hh. rewrite E0 in Hl.
  pose proof (r_pos _ _ _ _ HR ltac:(lra)) as Hs.
  pose proof (narrow_rounds F32 res Hres) as HN.
  destruct res as [s | s | | s m e]; try (destruct Hres; discriminate).
  - cbn in Hs. subst s. reflexivity.
  - cbn in Hs. subst s.
    assert (Hp : (0 < F2Q (S754_finite false m e))%Q).
    { rewrite F2Q_finite. apply mantissa_Q_pos. }
    destruct (r_tiny _ _ _ _ HN) as [s' Hz].
    { rewrite Qabs_pos by lra.
      change (SpecFloat.emin (prec F32) (emax F32)) with (-150 + 1).
      rewrite Q2_succ. lra. }
    pose proof (r_pos _ _ _ _ HN Hp) as Hs'. rewrite Hz in Hs' |- *.
    cbn in Hs'. subst s'. reflexivity.
Qed.

(** ** The float32 thresholds *)


Lemma maxLog32_c : c64 maxLogFloat32 /\ (F2Q maxLogFloat32 == 6243314763971055 # 70368744177664)%Q.
Proof. split; [closed_c64 | vm_compute; reflexivity]. Qed.

Lemma minLog32_c :
  c64 minLogFloat32 /\ (F2Q minLogFloat32 == - (7316384493943780 # 70368744177664))%Q.
Proof. split; [closed_c64 | vm_compute; reflexivity]. Qed.

Lemma p32 : 0 < 24. Proof. reflexivity. Qed.

(** The smallest float32 above the overflow threshold is [0x42b17218]. *)
Lemma above_maxLog32 (x : float) :
  valid F32 x = true -> is_finite x = true ->
  (F2Q maxLogFloat32 < F2Q x)%Q -> (X0_Q <= F2Q x)%Q.
Proof.
  intros Hv Hf Hx. destruct maxLog32_c as [_ E]. rewrite E in Hx.
  destruct x as [s | s | | s m e]; [| discriminate | discriminate |].
  - change (F2Q (S754_zero s)) with 0%Q in Hx. lra.
  - rewrite F2Q_finite in Hx |- *. pose proof (mantissa_Q_pos m e) as Hp.
    destruct s; [lra|].
    assert (G : on_grid 24 128 11629079 (-17)).
    { split; [discriminate|]. split; [split; [discriminate | reflexivity]|].
      intros _. discriminate. }
    pose proof (above_upper 24 128 p32 11629079 (-17) m e G Hv) as H.
    assert (E0 : (inject_Z (11629079 + 1) * Q2 (-17) == X0_Q)%Q) by reflexivity.
    assert (E1 : (inject_Z 11629079 * Q2 (-17) == 11629079 # 131072)%Q) by reflexivity.
    rewrite E0, E1 in H. apply H. lra.
Qed.

(** The largest float32 below the underflow threshold is [0xc2cff1b5]. *)
Lemma below_minLog32 (x : float) :
  valid F32 x = true -> is_finite x = true ->
  (F2Q x < F2Q minLogFloat32)%Q -> (F2Q x <= X1_Q)%Q.
Proof.
  intros Hv Hf Hx. destruct minLog32_c as [_ E]. rewrite E in Hx.
  destruct x as [s | s | | s m e]; [| discriminate | discriminate |].
  - change (F2Q (S754_zero s)) with 0%Q in Hx. lra.
  - rewrite F2Q_finite in Hx |- *. pose proof (mantissa_Q_pos m e) as Hp.
    destruct s; [|lra].
    assert (G : on_grid 24 128 13627828 (-17)).
    { split; [discriminate|]. split; [split; [discriminate | reflexivity]|].
      intros _. discriminate. }
    pose proof (above_upper 24 128 p32 13627828 (-17) m e G Hv) as H.
    assert (E0 : (inject_Z (13627828 + 1) * Q2 (-17) == - X1_Q)%Q) by reflexivity.
    assert (E1 : (inject_Z 13627828 * Q2 (-17) == 13627828 # 131072)%Q) by reflexivity.
    rewrite E0, E1 in H. specialize (H ltac:(lra)). lra.
Qed.

Lemma IsInf_finite (y : float) (sign : Z) : is_finite y = true -> IsInf y sign = false.
Proof. destruct y; try discriminate; reflexivity. Qed.

Lemma ltb_Q64 (x y : float) : c64 x -> c64 y -> ltb x y = true <-> (F2Q x < F2Q y)%Q.
Proof. apply SFltb_Q. Qed.

(** ** [Exp] at float32, beyond the thresholds of float32 *)

Theorem Exp_F32_overflow (x : float) (prec : Precision) :
  valid F32 x = true -> is_finite x = true ->
  gtb (to_f64 F32 x) maxLogFloat32 = true -> Exp F32 x prec = pInf.
Proof.
  intros Hv Hf Hgt. destruct (widen_exact x Hv Hf) as [Hxf Ex].
  destruct maxLog32_c as [Hc32 E32]. destruct maxLog_c as [HcM EM].
  destruct minLog_c as [Hcm Em].
  apply (ltb_Q64 _ _ Hc32 Hxf) in Hgt.
  assert (HX0 : (X0_Q <= F2Q (to_f64 F32 x))%Q).
  { rewrite Ex. apply above_maxLog32; try assumption. rewrite <- Ex. exact Hgt. }
  unfold Exp. rewrite (neb_refl_finite x Hf).
  set (xf := to_f64 F32 x) in *.
  rewrite !IsInf_finite by apply Hxf.
  destruct (gtb xf maxLogFloat64) eqn:Hg; [reflexivity|].
  destruct (ltb xf minLogFloat64) eqn:Hl.
  { apply (ltb_Q64 _ _ Hxf Hcm) in Hl. rewrite Em in Hl.
    unfold minLog_Q, X0_Q in *. lra. }
  assert (HXM : (F2Q xf <= maxLog_Q)%Q).
  { rewrite <- EM. apply Qnot_lt_le. intros H. apply (ltb_Q64 _ _ HcM Hxf) in H.
    unfold gtb in Hg. unfold ltb in H. rewrite H in Hg. discriminate. }
  destruct (reduce_overflow xf Hxf (conj HX0 HXM)) as (Hk & Hr & Br & Hk128).
  set (k := to_int (Floor (xf * invLn2 + 1 // 2)%f64)) in *.
  set (r := (xf - of_int F64 k * ln2)%f64) in *.
  destruct (expPoly_bounds r (normalizePrecision prec) Hr Br) as (He & Be & Bpos & _).
  set (expr := expPoly r (normalizePrecision prec)) in *.
  cbv zeta. apply (overflow_final _ _ (scale_rounds expr k He)).
  destruct (Z.eq_dec k 128) as [E | N].
  - rewrite E. specialize (Bpos (Hk128 E)).
    assert (0 < Q2 128)%Q by apply Q2_pos.
    setoid_replace (Q2 128) with (1 * Q2 128)%Q at 1 by ring.
    apply Qmult_le_compat_r; lra.
  - assert (Hq : (Q2 129 <= Q2 k)%Q) by (apply Q2_le; lia).
    change 129 with (128 + 1) in Hq. rewrite Q2_succ in Hq.
    assert (0 < Q2 k)%Q by apply Q2_pos.
    assert ((1 # 2) * Q2 k <= F2Q expr * Q2 k)%Q by (apply Qmult_le_compat_r; lra).
    lra.
Qed.

Theorem Exp_F32_underflow (x : float) (prec : Precision) :
  valid F32 x = true -> is_finite x = true ->
  ltb (to_f64 F32 x) minLogFloat32 = true -> Exp F32 x prec = pZero.
Proof.
  intros Hv Hf Hlt. destruct (widen_exact x Hv Hf) as [Hxf Ex].
  destruct minLog32_c as [Hc32 E32]. destruct maxLog_c as [HcM EM].
  destruct minLog_c as [Hcm Em].
  apply (ltb_Q64 _ _ Hxf Hc32) in Hlt.
  assert (HX1 : (F2Q (to_f64 F32 x) <= X1_Q)%Q).
  { rewrite Ex. apply below_minLog32; try assumption. rewrite <- Ex. exact Hlt. }
  unfold Exp. rewrite (neb_refl_finite x Hf).
  set (xf := to_f64 F32 x) in *.
  rewrite !IsInf_finite by apply Hxf.
  destruct (gtb xf maxLogFloat64) eqn:Hg.
  { apply (ltb_Q64 _ _ HcM Hxf) in Hg. rewrite EM in Hg.
    unfold maxLog_Q, X1_Q in *. lra. }
  destruct (ltb xf minLogFloat64) eqn:Hl; [reflexivity|].
  assert (HXm : (minLog_Q <= F2Q xf)%Q).
  { rewrite <- Em. apply Qnot_lt_le. intros H. apply (ltb_Q64 _ _ Hxf Hcm) in H.
    rewrite H in Hl. discriminate. }
  destruct (reduce_underflow xf Hxf (conj HXm HX1)) as (Hk & Hr & Br & Hk150).
  set (k := to_int (Floor (xf * invLn2 + 1 // 2)%f64)) in *.
  set (r := (xf - of_int F64 k * ln2)%f64) in *.
  destruct (expPoly_bounds r (normalizePrecision prec) Hr Br) as (He & Be & _ & Bneg).
  set (expr := expPoly r (normalizePrecision prec)) in *.
  cbv zeta. apply (underflow_final _ _ (scale_rounds expr k He)).
  assert (Hk0 : (0 < Q2 k)%Q) by apply Q2_pos.
  split.
  - apply Qmult_lt_0_compat; lra.
  - destruct (Z.eq_dec k (-150)) as [E | N].
    + rewrite E in *. specialize (Bneg (Hk150 eq_refl)).
      assert (F2Q expr * Q2 (-150) <= 1 * Q2 (-150))%Q by (apply Qmult_le_compat_r; lra).
      lra.
    + assert (Hq : (Q2 k <= Q2 (-151))%Q) by (apply Q2_le; lia).
      assert (Hs : (Q2 (-151 + 1) == 2 * Q2 (-151))%Q) by apply Q2_succ.
      change (-151 + 1) with (-150) in Hs.
      assert (F2Q expr * Q2 k <= 2 * Q2 k)%Q by (apply Qmult_le_compat_r; lra).
      lra.
Qed.


(** C4: for every precision value and both widths, [Exp] returns NaN on
    NaN, [+Inf] on [+Inf] and [0] on [-Inf]; and on every finite scalar of
    the width above the overflow threshold of the width it returns [+Inf],
    on every one below the underflow threshold it returns [0].  For
    [float32] no clamp of exp.go applies between the float32 and the
    float64 thresholds: there the result is computed, and its conversion
    to [float32] overflows or underflows. *)
Theorem Exp_edge_cases (w : Width) (prec : Precision) :
  Exp w NaN prec = NaN /\ Exp w pInf prec = pInf /\ Exp w nInf prec = pZero /\
  forall x : float, valid w x = true -> is_finite x = true ->
    (gtb (to_f64 w x) (overflowThreshold w) = true -> Exp w x prec = pInf) /\
    (ltb (to_f64 w x) (underflowThreshold w) = true -> Exp w x prec = pZero).
Proof.
  destruct (Exp_special w prec) as (H1 & H2 & H3).
  repeat (split; [assumption|]).
  intros x Hv Hf. destruct w.
  - split; [apply Exp_F32_overflow | apply Exp_F32_underflow]; assumption.
  - apply Exp_clamp. exact Hf.
Qed.

Lemma Exp_edge_cases_witness :
  Exp F32 (of_bits F32 0x42b17218) PrecisionBalanced = pInf /\
  Exp F32 (of_bits F32 0xc2cff1b5) PrecisionBalanced = pZero /\
  Exp F64 (710 // 1) PrecisionHigh = pInf /\
  Exp F64 (- (746 // 1))%f64 PrecisionFast = pZero.
Proof.
  split; [|split; [|split]].
  - apply (proj1 (proj2 (proj2 (proj2 (Exp_edge_cases F32 PrecisionBalanced)))
                   (of_bits F32 0x42b17218) eq_refl eq_refl)).
    vm_compute. reflexivity.
  - apply (proj2 (proj2 (proj2 (proj2 (Exp_edge_cases F32 PrecisionBalanced)))
                   (of_bits F32 0xc2cff1b5) eq_refl eq_refl)).
    vm_compute. reflexivity.
  - apply (proj1 (proj2 (proj2 (proj2 (Exp_edge_cases F64 PrecisionHigh)))
                   (710 // 1) eq_refl eq_refl)).
    vm_compute. reflexivity.
  - apply (proj2 (proj2 (proj2 (proj2 (Exp_edge_cases F64 PrecisionFast)))
                   (- (746 // 1))%f64 eq_refl eq_refl)).
    vm_compute. reflexivity.
Defined.

(** The float32 thresholds are sharp: on the float32 just inside each of
    them, [Exp] returns a finite non-zero value. *)
Lemma Exp_F32_thresholds_sharp :
  Exp F32 (of_bits F32 0x42b17217) PrecisionBalanced = S754_finite false 16777092 104 /\
  Exp F32 (of_bits F32 0xc2cff1b4) PrecisionBalanced = S754_finite false 1 (-149).
Proof. vm_compute. split; reflexivity. Qed.

(** * The square root is monotone *)

Lemma prec_two_pos (p : Z) : 2 <= p -> 0 < p.
Proof. lia. Qed.

Lemma prec_three_two (p : Z) : 3 <= p -> 2 <= p.
Proof. lia. Qed.

Lemma emax_room_big (p e : Z) : p + 5 <= e -> p < e.
Proof. lia. Qed.

(** ** Rounding a quotient: the location of the remainder *)

Lemma rnd_frac_bounds (m num den : Z) : m <= rnd_frac m num den <= m + 1.
Proof.
  unfold rnd_frac. destruct (num =? 0); [lia|].
  destruct (2 * num ?= den); try destruct (Z.even m); lia.
Qed.

Lemma round_nearest_even_frac (m num den : Z) :
  round_nearest_even m (loc_frac num den) = rnd_frac m num den.
Proof.
  unfold loc_frac, rnd_frac. destruct (num =? 0); [reflexivity|].
  destruct (2 * num ?= den); reflexivity.
Qed.

Lemma loc_of_shr_record_of_loc (m : Z) (l : location) :
  loc_of_shr_record (shr_record_of_loc m l) = l /\ shr_m (shr_record_of_loc m l) = m.
Proof. destruct l as [|[| |]]; split; reflexivity. Qed.

Lemma shr_1_frac (m num den : Z) :
  0 <= m -> 0 <= num < den ->
  shr_1 (shr_record_of_loc m (loc_frac num den))
  = shr_record_of_loc (m / 2) (loc_frac ((m mod 2) * den + num) (2 * den)).
Proof.
  intros Hm Hn. rewrite shr_1_fields by (rewrite (proj2 (loc_of_shr_record_of_loc _ _)); exact Hm).
  rewrite (proj2 (loc_of_shr_record_of_loc _ _)).
  rewrite Zmod_odd. unfold loc_frac.
  destruct (Z.odd m) eqn:Ho.
  - destruct (Z.eqb_spec num 0) as [-> | H0].
    + destruct (Z.eqb_spec (1 * den + 0) 0); [lia|].
      replace (2 * (1 * den + 0) ?= 2 * den) with Eq by (symmetry; apply Z.compare_eq_iff; lia).
      reflexivity.
    + destruct (Z.eqb_spec (1 * den + num) 0); [lia|].
      replace (2 * (1 * den + num) ?= 2 * den) with Gt by (symmetry; apply Z.compare_gt_iff; lia).
      destruct (2 * num ?= den); reflexivity.
  - destruct (Z.eqb_spec num 0) as [-> | H0].
    + destruct (Z.eqb_spec (0 * den + 0) 0); [reflexivity | lia].
    + destruct (Z.eqb_spec (0 * den + num) 0); [lia|].
      replace (2 * (0 * den + num) ?= 2 * den) with Lt by (symmetry; apply Z.compare_lt_iff; lia).
      destruct (2 * num ?= den); reflexivity.
Qed.

Lemma shr_iter_frac (M num den : Z) (k : nat) :
  0 <= M -> 0 <= num < den ->
  Nat.iter k shr_1 (shr_record_of_loc M (loc_frac num den))
  = shr_record_of_loc (M / 2 ^ Z.of_nat k)
      (loc_frac ((M mod 2 ^ Z.of_nat k) * den + num) (2 ^ Z.of_nat k * den)).
Proof.
  intros HM Hn. induction k as [|k IH].
  - cbn [Nat.iter nat_rect]. change (2 ^ Z.of_nat 0) with 1.
    rewrite Z.div_1_r, Z.mod_1_r. f_equal. f_equal; lia.
  - rewrite Nat.iter_succ, IH.
    assert (Hp : 0 < 2 ^ Z.of_nat k) by (apply Z.pow_pos_nonneg; lia).
    assert (Hs : 2 ^ Z.of_nat (S k) = 2 ^ Z.of_nat k * 2).
    { rewrite Nat2Z.inj_succ, Z.pow_succ_r by lia. lia. }
    pose proof (Z.mod_pos_bound M (2 ^ Z.of_nat k) Hp) as Hb.
    rewrite shr_1_frac.
    + f_equal.
      * rewrite Hs, Z.div_div by lia. reflexivity.
      * f_equal; [|lia]. rewrite Hs, Z.rem_mul_r by lia. lia.
    + apply Z.div_pos; lia.
    + nia.
Qed.

Section RoundLoc.
Variables prec emax : Z.
Hypothesis prec_pos : 0 < prec.
Hypothesis emax_big : prec < emax.

Local Abbreviation emin := (SpecFloat.emin prec emax).
Local Abbreviation fexp := (SpecFloat.fexp prec emax).

Lemma shr_fexp_loc (M E num den : Z) :
  0 <= M -> 0 <= num < den -> E <= fexp (Zdigits2 M + E) ->
  let n := fexp (Zdigits2 M + E) - E in
  snd (shr_fexp prec emax M E (loc_frac num den)) = fexp (Zdigits2 M + E) /\
  shr_m (fst (shr_fexp prec emax M E (loc_frac num den))) = M / 2 ^ n /\
  round_nearest_even (shr_m (fst (shr_fexp prec emax M E (loc_frac num den))))
                     (loc_of_shr_record (fst (shr_fexp prec emax M E (loc_frac num den))))
    = rnd_frac (M / 2 ^ n) ((M mod 2 ^ n) * den + num) (2 ^ n * den).
Proof.
  intros HM Hn HE n. unfold shr_fexp, shr. fold n.
  destruct n as [|p|p] eqn:En; try lia.
  - cbn [fst snd]. destruct (loc_of_shr_record_of_loc M (loc_frac num den)) as [-> ->].
    rewrite round_nearest_even_frac, Z.pow_0_r, Z.div_1_r, Z.mod_1_r.
    split; [lia|]. split; [reflexivity|]. f_equal; lia.
  - cbn [fst snd]. rewrite iter_pos_nat, shr_iter_frac by assumption.
    rewrite positive_nat_Z.
    destruct (loc_of_shr_record_of_loc (M / 2 ^ Zpos p)
      (loc_frac (M mod 2 ^ Zpos p * den + num) (2 ^ Zpos p * den))) as [-> ->].
    rewrite round_nearest_even_frac. split; [lia|]. split; reflexivity.
Qed.

(** Rounding a mantissa with a located remainder: cut to the canonical
    exponent, choose the nearest (even on a tie) neighbour, pack. *)
Lemma round_aux_loc_spec (s : bool) (M E num den : Z) :
  0 <= M -> 0 <= num < den -> E <= fexp (Zdigits2 M + E) ->
  let e1 := fexp (Zdigits2 M + E) in
  let n := e1 - E in
  binary_round_aux prec emax s M E (loc_frac num den)
    = mk_float prec emax s (rnd_frac (M / 2 ^ n) ((M mod 2 ^ n) * den + num) (2 ^ n * den)) e1.
Proof.
  intros HM Hn HE e1 n. unfold binary_round_aux.
  destruct (shr_fexp_loc M E num den HM Hn HE) as (H1 & H2 & H3).
  destruct (shr_fexp prec emax M E (loc_frac num den)) as [mrs1 e1']. cbn [fst snd] in *.
  rewrite H3, H1. fold e1 n.
  apply (finish_spec prec emax prec_pos); [ | unfold e1, SpecFloat.fexp; lia].
  pose proof (rnd_frac_bounds (M / 2 ^ n) ((M mod 2 ^ n) * den + num) (2 ^ n * den)) as Hb.
  assert (Hn0 : 0 <= n) by (unfold n, e1; lia).
  assert (Hq : 0 <= M / 2 ^ n) by (apply Z.div_pos; [lia | apply Z.pow_pos_nonneg; lia]).
  split; [lia|].
  assert (M / 2 ^ n < 2 ^ prec); [ | lia].
  destruct (Z.eq_dec M 0) as [-> | HM0].
  { rewrite Z.div_0_l by (apply Z.pow_nonzero; lia). apply Z.pow_pos_nonneg; lia. }
  apply Z.div_lt_upper_bound; [apply Z.pow_pos_nonneg; lia|].
  rewrite <- Z.pow_add_r by lia.
  destruct M as [|p|p]; try lia. cbn [Zdigits2] in *.
  pose proof (digits2_bounds p) as [_ Hu].
  apply Z.lt_le_trans with (1 := Hu).
  apply Z.pow_le_mono_r; [lia|]. unfold n, e1, SpecFloat.fexp. lia.
Qed.

End RoundLoc.

(** ** Round to nearest, ties to even, on the rationals *)

Lemma rnd_frac_rule (m num den : Z) :
  0 <= num < den ->
  let m' := rnd_frac m num den in
  let t := (inject_Z num / inject_Z den)%Q in
  (m' = m \/ m' = m + 1) /\
  ((2 * t < 1)%Q -> m' = m) /\ ((1 < 2 * t)%Q -> m' = m + 1) /\
  ((2 * t == 1)%Q -> Z.even m' = true).
Proof.
  intros Hn m' t.
  assert (Hd : (0 < inject_Z den)%Q) by (change 0%Q with (inject_Z 0); rewrite <- Zlt_Qlt; lia).
  assert (Et : (t * inject_Z den == inject_Z num)%Q).
  { unfold t. field. intros E. rewrite E in Hd. apply (Qlt_irrefl _ Hd). }
  assert (C : forall c, (2 * num ?= den) = c ->
     match c with Lt => (2 * t < 1)%Q | Eq => (2 * t == 1)%Q | Gt => (1 < 2 * t)%Q end).
  { intros c Hc. destruct c.
    - apply Z.compare_eq_iff in Hc.
      assert (E : (inject_Z 2 * inject_Z num == inject_Z den)%Q)
        by (rewrite <- inject_Z_mult, Hc; reflexivity).
      change (inject_Z 2) with 2%Q in E. rewrite <- Et in E.
      apply Qmult_inj_r with (inject_Z den); [intros E'; rewrite E' in Hd; apply (Qlt_irrefl _ Hd)|].
      rewrite <- E at 2. ring.
    - assert (Hc' : 2 * num < den) by (apply Z.compare_lt_iff; exact Hc).
      clear Hc. rename Hc' into Hc. rewrite Zlt_Qlt, inject_Z_mult in Hc.
      change (inject_Z 2) with 2%Q in Hc. rewrite <- Et in Hc.
      apply Qmult_lt_r with (inject_Z den); [exact Hd|]. lra.
    - assert (Hc' : den < 2 * num) by (apply Z.compare_gt_iff; exact Hc).
      clear Hc. rename Hc' into Hc. rewrite Zlt_Qlt, inject_Z_mult in Hc.
      change (inject_Z 2) with 2%Q in Hc. rewrite <- Et in Hc.
      apply Qmult_lt_r with (inject_Z den); [exact Hd|]. lra. }
  unfold m', rnd_frac. destruct (Z.eqb_spec num 0) as [E0 | N0].
  - assert (Ez : (t == 0)%Q) by (unfold t; rewrite E0; reflexivity).
    split; [now left|]. split; [reflexivity|]. split; intros H; rewrite Ez in H; lra.
  - specialize (C (2 * num ?= den) eq_refl).
    destruct (2 * num ?= den).
    + split; [destruct (Z.even m); [now left | now right]|].
      split; [intros; lra|]. split; [intros; lra|]. intros _.
      destruct (Z.even m) eqn:Ev; [exact Ev|].
      rewrite Z.even_add, Ev. reflexivity.
    + split; [now left|]. split; [reflexivity|]. split; intros; lra.
    + split; [now right|]. split; [intros; lra|]. split; [reflexivity | intros; lra].
Qed.

Section RoundQ.
Variables prec emax : Z.
Hypothesis prec_pos : 0 < prec.
Hypothesis emax_big : prec < emax.

Local Abbreviation emin := (SpecFloat.emin prec emax).
Local Abbreviation fexp := (SpecFloat.fexp prec emax).

Theorem round_aux_RNE (s : bool) (M E num den : Z) :
  0 <= M -> 0 <= num < den -> E <= fexp (Zdigits2 M + E) ->
  exists m' e1,
    binary_round_aux prec emax s M E (loc_frac num den) = mk_float prec emax s m' e1 /\
    RNE prec emax ((inject_Z M + inject_Z num / inject_Z den) * Q2 E) m' e1.
Proof.
  intros HM Hn HE.
  set (e1 := fexp (Zdigits2 M + E)). set (n := e1 - E).
  assert (Hn0 : 0 <= n) by (unfold n, e1; lia).
  assert (Hpn : 0 < 2 ^ n) by (apply Z.pow_pos_nonneg; lia).
  set (m1 := M / 2 ^ n). set (rem := M mod 2 ^ n).
  pose proof (Z.div_mod M (2 ^ n) ltac:(lia)) as HD. fold m1 rem in HD.
  pose proof (Z.mod_pos_bound M (2 ^ n) ltac:(lia)) as HR. fold rem in HR.
  assert (Hm1 : 0 <= m1) by (apply Z.div_pos; lia).
  set (num1 := rem * den + num). set (den1 := 2 ^ n * den).
  assert (Hn1 : 0 <= num1 < den1) by (unfold num1, den1; nia).
  exists (rnd_frac m1 num1 den1), e1. split.
  { apply (round_aux_loc_spec prec emax prec_pos s M E num den HM Hn HE). }
  assert (He1 : emin <= e1) by (unfold e1, SpecFloat.fexp; lia).
  assert (Hlt : m1 < 2 ^ prec).
  { destruct (Z.eq_dec M 0) as [EM | HM0].
    { unfold m1. rewrite EM, Z.div_0_l by lia. apply Z.pow_pos_nonneg; lia. }
    apply Z.div_lt_upper_bound; [lia|]. rewrite <- Z.pow_add_r by lia.
    destruct M as [|p|p]; try lia. cbn [Zdigits2] in *.
    pose proof (digits2_bounds p) as [_ Hu]. apply Z.lt_le_trans with (1 := Hu).
    apply Z.pow_le_mono_r; [lia|]. unfold n, e1, SpecFloat.fexp. lia. }
  assert (Hnorm : emin < e1 -> 2 ^ (prec - 1) <= m1).
  { intros Hgt. apply Z.div_le_lower_bound; [lia|]. rewrite <- Z.pow_add_r by lia.
    destruct M as [|p|p]; try lia.
    { unfold e1, SpecFloat.fexp in *. cbn [Zdigits2] in *. lia. }
    cbn [Zdigits2] in *.
    pose proof (digits2_bounds p) as [Hl _]. apply Z.le_trans with (2 := Hl).
    apply Z.pow_le_mono_r; [lia|]. unfold n, e1, SpecFloat.fexp in *. lia. }
  exists m1.
  assert (Hdq : (0 < inject_Z den)%Q) by (change 0%Q with (inject_Z 0); rewrite <- Zlt_Qlt; lia).
  assert (Hdn : ~ (inject_Z den == 0)%Q) by (intros E'; rewrite E' in Hdq; apply (Qlt_irrefl _ Hdq)).
  assert (Hpq : (0 < inject_Z (2 ^ n))%Q) by (change 0%Q with (inject_Z 0); rewrite <- Zlt_Qlt; lia).
  assert (Hpn' : ~ (inject_Z (2 ^ n) == 0)%Q) by (intros E'; rewrite E' in Hpq; apply (Qlt_irrefl _ Hpq)).
  assert (QE : (Q2 e1 == inject_Z (2 ^ n) * Q2 E)%Q).
  { replace e1 with (n + E) by (unfold n; lia). rewrite Q2_add, Q2_inject by lia. reflexivity. }
  set (t := (inject_Z num1 / inject_Z den1)%Q).
  assert (Qv : ((inject_Z M + inject_Z num / inject_Z den) * Q2 E - inject_Z m1 * Q2 e1
                == t * Q2 e1)%Q).
  { unfold t, num1, den1. rewrite QE. rewrite HD at 1.
    rewrite !inject_Z_plus, !inject_Z_mult. field. split; assumption. }
  assert (Ht : (0 <= t /\ t < 1)%Q).
  { assert (Et : (t * inject_Z den1 == inject_Z num1)%Q).
    { unfold t. field. unfold den1. rewrite inject_Z_mult.
      intros E'. apply Qmult_integral in E'. tauto. }
    assert (Hd1 : (0 < inject_Z den1)%Q) by (change 0%Q with (inject_Z 0); rewrite <- Zlt_Qlt; lia).
    split.
    - apply Qmult_le_r with (inject_Z den1); [exact Hd1|]. rewrite Et.
      setoid_replace (0 * inject_Z den1)%Q with (inject_Z 0) by (change (inject_Z 0) with 0%Q; ring).
      rewrite <- Zle_Qle. lia.
    - apply Qmult_lt_r with (inject_Z den1); [exact Hd1|]. rewrite Et.
      setoid_replace (1 * inject_Z den1)%Q with (inject_Z den1) by ring.
      rewrite <- Zlt_Qlt. lia. }
  pose proof (Q2_pos e1) as He1p.
  destruct (rnd_frac_rule m1 num1 den1 Hn1) as (R1 & R2 & R3 & R4). fold t in R2, R3, R4.
  split; [split; [exact He1 | split; [lia | exact Hnorm]]|].
  split.
  { rewrite inject_Z_plus. change (inject_Z 1) with 1%Q.
    assert (0 <= t * Q2 e1)%Q by (apply Qmult_le_0_compat; lra).
    assert (t * Q2 e1 < 1 * Q2 e1)%Q by (apply Qmult_lt_compat_r; lra).
    split; lra. }
  split; [exact R1|].
  split; [|split].
  - intros H. apply R2. rewrite Qv in H.
    apply Qmult_lt_r with (Q2 e1); [exact He1p|]. lra.
  - intros H. apply R3. rewrite Qv in H.
    apply Qmult_lt_r with (Q2 e1); [exact He1p|]. lra.
  - intros H. apply R4. rewrite Qv in H.
    apply Qmult_inj_r with (Q2 e1); [lra|]. lra.
Qed.

End RoundQ.

(** ** Consequences of the characterisation *)

Section RNEFacts.
Variables prec emax : Z.
Hypothesis prec_pos : 0 < prec.
Hypothesis emax_big : prec < emax.

Local Abbreviation emin := (SpecFloat.emin prec emax).
Local Abbreviation fexp := (SpecFloat.fexp prec emax).
Local Abbreviation RNE := (RNE prec emax).
Local Abbreviation on_grid := (on_grid prec emax).

(** The magnitudes of the format at one exponent: below [2^(prec + e)],
    and not below [2^(prec - 1 + e)] unless [e] is [emin]. *)
Lemma on_grid_upper (m e : Z) :
  on_grid m e -> (inject_Z (m + 1) * Q2 e <= Q2 (prec + e))%Q.
Proof.
  intros (He & Hm & _). rewrite Q2_add, <- (Q2_inject prec) by lia.
  apply Qmult_le_compat_r; [rewrite <- Zle_Qle; lia | apply Qlt_le_weak, Q2_pos].
Qed.

Lemma on_grid_lower (m e : Z) :
  on_grid m e -> emin < e -> (Q2 (prec - 1 + e) <= inject_Z m * Q2 e)%Q.
Proof.
  intros (He & Hm & Hn) Hlt. specialize (Hn Hlt). rewrite Q2_add, <- (Q2_inject (prec - 1)) by lia.
  apply Qmult_le_compat_r; [rewrite <- Zle_Qle; lia | apply Qlt_le_weak, Q2_pos].
Qed.

(** The exponent of the bracket grows with the value. *)
Lemma bracket_exponent_mono (v w : Q) (m1 e1 n1 f1 : Z) :
  on_grid m1 e1 -> on_grid n1 f1 ->
  (inject_Z m1 * Q2 e1 <= v)%Q -> (w < inject_Z (n1 + 1) * Q2 f1)%Q ->
  (v <= w)%Q -> e1 <= f1.
Proof.
  intros G1 G2 Hv Hw Hle.
  destruct (Z.le_gt_cases e1 f1) as [H | H]; [exact H | exfalso].
  pose proof (on_grid_upper n1 f1 G2) as Hu.
  assert (Hl : (Q2 (prec - 1 + e1) <= inject_Z m1 * Q2 e1)%Q).
  { apply on_grid_lower; [exact G1|]. destruct G2 as (He & _). lia. }
  assert (Q2 (prec + f1) <= Q2 (prec - 1 + e1))%Q by (apply Q2_le; lia).
  lra.
Qed.

Lemma RNE_range (v : Q) (m' e1 : Z) :
  RNE v m' e1 -> 0 <= m' <= 2 ^ prec /\ emin <= e1 /\ (emin < e1 -> 2 ^ (prec - 1) <= m').
Proof.
  intros (m1 & (He & Hm & Hn) & _ & Hc & _). split; [lia|]. split; [exact He|].
  intros H. specialize (Hn H). lia.
Qed.

(** The error of rounding is at most half the step. *)
Lemma RNE_half (v : Q) (m' e1 : Z) :
  RNE v m' e1 ->
  (v - Q2 e1 * (1 # 2) <= inject_Z m' * Q2 e1 /\ inject_Z m' * Q2 e1 <= v + Q2 e1 * (1 # 2))%Q.
Proof.
  intros (m1 & _ & [Hl Hu] & Hc & R1 & R2 & _).
  rewrite inject_Z_plus in Hu. change (inject_Z 1) with 1%Q in Hu.
  pose proof (Q2_pos e1) as Hp.
  destruct (Qlt_le_dec (2 * (v - inject_Z m1 * Q2 e1)) (Q2 e1)) as [H | H].
  - rewrite (R1 H). split; lra.
  - destruct (Qlt_le_dec (Q2 e1) (2 * (v - inject_Z m1 * Q2 e1))) as [H' | H'].
    + rewrite (R2 H'), inject_Z_plus. change (inject_Z 1) with 1%Q. split; lra.
    + destruct Hc as [-> | ->]; [|rewrite inject_Z_plus; change (inject_Z 1) with 1%Q];
        split; lra.
Qed.

(** Rounding is monotone. *)
Lemma RNE_mono (v w : Q) (m' e1 n' f1 : Z) :
  RNE v m' e1 -> RNE w n' f1 -> (v <= w)%Q ->
  (inject_Z m' * Q2 e1 <= inject_Z n' * Q2 f1)%Q.
Proof.
  intros (m1 & G1 & [Hl1 Hu1] & Hc1 & A1 & A2 & A3) (n1 & G2 & [Hl2 Hu2] & Hc2 & B1 & B2 & B3) Hle.
  pose proof (bracket_exponent_mono v w m1 e1 n1 f1 G1 G2 Hl1 Hu2 Hle) as He.
  pose proof (Q2_pos e1) as Hp1. pose proof (Q2_pos f1) as Hp2.
  destruct (Z.eq_dec e1 f1) as [E | N].
  - subst f1. apply Qmult_le_compat_r; [|lra]. rewrite <- Zle_Qle.
    assert (Hm : m1 <= n1).
    { assert (m1 < n1 + 1); [|lia]. apply (Zlt_Q_mult _ _ e1). lra. }
    destruct (Z.eq_dec m1 n1) as [E | N]; [subst n1 | lia].
    destruct Hc1 as [-> | ->]; [lia|].
    destruct Hc2 as [-> | ->]; [|lia]. exfalso.
    (* v rounds up, w rounds down, in the same bracket *)
    destruct (Qlt_le_dec (2 * (v - inject_Z m1 * Q2 e1)) (Q2 e1)) as [H | H].
    { specialize (A1 H). lia. }
    destruct (Qlt_le_dec (Q2 e1) (2 * (w - inject_Z m1 * Q2 e1))) as [H' | H'].
    { specialize (B2 H'). lia. }
    assert (E1 : (2 * (v - inject_Z m1 * Q2 e1) == Q2 e1)%Q) by lra.
    assert (E2 : (2 * (w - inject_Z m1 * Q2 e1) == Q2 e1)%Q) by lra.
    specialize (A3 E1). specialize (B3 E2).
    rewrite Z.even_add in A3. rewrite B3 in A3. discriminate.
  - assert (Hlt : e1 < f1) by lia.
    apply Qle_trans with (inject_Z (m1 + 1) * Q2 e1)%Q.
    { apply Qmult_le_compat_r; [|lra]. rewrite <- Zle_Qle. lia. }
    apply Qle_trans with (1 := on_grid_upper m1 e1 G1).
    apply Qle_trans with (Q2 (prec - 1 + f1)); [apply Q2_le; lia|].
    apply Qle_trans with (inject_Z n1 * Q2 f1)%Q.
    { apply on_grid_lower; [exact G2|]. destruct G1 as (H1 & _). lia. }
    apply Qmult_le_compat_r; [|lra]. rewrite <- Zle_Qle. lia.
Qed.

(** A magnitude of the format rounds to itself. *)
Lemma RNE_exact (m e m' e1 : Z) :
  on_grid m e -> RNE (inject_Z m * Q2 e) m' e1 ->
  (inject_Z m' * Q2 e1 == inject_Z m * Q2 e)%Q.
Proof.
  intros G (m1 & G1 & [Hl Hu] & Hc & A1 & A2 & A3).
  pose proof (Q2_pos e1) as Hp1. pose proof (Q2_pos e) as Hp.
  assert (He : e1 = e).
  { apply Z.le_antisymm.
    - apply (bracket_exponent_mono (inject_Z m * Q2 e) (inject_Z m * Q2 e) m1 e1 m e);
        try assumption; [|lra].
      apply Qmult_lt_compat_r; [exact Hp|]. rewrite <- Zlt_Qlt. lia.
    - apply (bracket_exponent_mono (inject_Z m * Q2 e) (inject_Z m * Q2 e) m e m1 e1);
        try assumption; lra. }
  subst e1.
  assert (Hm : m1 = m).
  { assert (m1 <= m) by (apply (Zle_Q_mult _ _ e); lra).
    assert (m < m1 + 1) by (apply (Zlt_Q_mult _ _ e); lra). lia. }
  subst m1. rewrite A1; [reflexivity | lra].
Qed.

(** The float that [mk_float] packs, when the magnitude is in range. *)
Lemma mk_float_value (m e : Z) :
  0 <= m <= 2 ^ prec -> emin <= e -> (emin < e -> 2 ^ (prec - 1) <= m) ->
  (inject_Z m * Q2 e < Q2 emax)%Q ->
  canonf prec emax (mk_float prec emax false m e) /\
  (F2Q (mk_float prec emax false m e) == inject_Z m * Q2 e)%Q.
Proof.
  intros Hm He Hn Hlt.
  pose proof (mk_float_rounding prec emax prec_pos emax_big false m e Hm He Hn) as H.
  destruct (mk_float prec emax false m e) as [s | s | | s m0 e0]; cbn [is_rounding] in H.
  - destruct H as [_ H]. split; [split; reflexivity|]. cbn [F2Q]. lra.
  - destruct H as [_ H]. lra.
  - contradiction.
  - destruct H as (-> & Hb & Hv). split; [split; [exact Hb | reflexivity]|].
    rewrite F2Q_finite. exact Hv.
Qed.

(** ** The operations on positive floats *)

Lemma new_location_frac (m2 r : Z) :
  0 <= r < m2 -> new_location m2 r = loc_frac r m2.
Proof.
  intros H. unfold new_location, loc_frac, new_location_even, new_location_odd.
  destruct (Z.even m2) eqn:Ev.
  - reflexivity.
  - destruct (r =? 0); [reflexivity|]. f_equal.
    assert (Ho : Z.odd m2 = true) by (rewrite <- Z.negb_even, Ev; reflexivity).
    apply Z.odd_spec in Ho. destruct Ho as [k Hk].
    destruct (Z.compare_spec (2 * r + 1) m2); destruct (Z.compare_spec (2 * r) m2);
      try reflexivity; lia.
Qed.

Theorem div_RNE (mx my : positive) (ex ey : Z) :
  exists m' e1,
    SFdiv prec emax (S754_finite false mx ex) (S754_finite false my ey)
      = mk_float prec emax false m' e1 /\
    RNE (inject_Z (Zpos mx) * Q2 ex / (inject_Z (Zpos my) * Q2 ey)) m' e1.
Proof.
  cbn [SFdiv xorb]. unfold SFdiv_core_binary. cbn [Zdigits2].
  set (dx := Zpos (digits2_pos mx)). set (dy := Zpos (digits2_pos my)).
  set (e' := Z.min (fexp (dx + ex - (dy + ey))) (ex - ey)).
  set (sft := ex - ey - e').
  assert (Hs : 0 <= sft) by (unfold sft, e'; lia).
  set (mz := match sft with Zpos _ => Z.shiftl (Zpos mx) sft | 0 => Zpos mx | Zneg _ => 0 end).
  assert (Hmz : mz = Zpos mx * 2 ^ sft).
  { unfold mz. destruct sft as [|k|k] eqn:Ek; [lia | | lia].
    rewrite Z.shiftl_mul_pow2 by lia. reflexivity. }
  pose proof (Z.div_eucl_eq mz (Zpos my) ltac:(lia)) as HD.
  pose proof (Z.mod_pos_bound mz (Zpos my) ltac:(lia)) as HR.
  unfold Z.modulo in HR. destruct (Z.div_eucl mz (Zpos my)) as [q r] eqn:Hqr.
  assert (H2s : 0 < 2 ^ sft) by (apply Z.pow_pos_nonneg; lia).
  assert (Hq : 0 <= q) by nia.
  rewrite (new_location_frac (Zpos my) r HR).
  pose proof (digits2_bounds mx) as [Hxl Hxu]. fold dx in Hxl, Hxu.
  pose proof (digits2_bounds my) as [Hyl Hyu]. fold dy in Hyl, Hyu.
  assert (HE : e' <= fexp (Zdigits2 q + e')).
  { destruct (Z.le_gt_cases (dy + 1) (dx + sft)) as [Hbig | Hsmall].
    - (* the quotient has at least dx + sft - dy digits *)
      assert (Hql : 2 ^ (dx + sft - dy - 1) <= q).
      { assert (Hx' : 2 ^ (dx - 1 + sft) <= mz).
        { rewrite Hmz, Z.pow_add_r by lia. nia. }
        assert (E2 : 2 ^ (dx - 1 + sft) = 2 ^ (dx + sft - dy - 1) * 2 ^ dy).
        { rewrite <- Z.pow_add_r by lia. f_equal. lia. }
        assert (0 < 2 ^ (dx + sft - dy - 1)) by (apply Z.pow_pos_nonneg; lia).
        assert (2 ^ (dx + sft - dy - 1) < q + 1); [|lia]. nia. }
      assert (Hdq : dx + sft - dy <= Zdigits2 q).
      { assert (0 < q) by (pose proof (Z.pow_pos_nonneg 2 (dx + sft - dy - 1)); lia).
        rewrite Zdigits2_log2 by lia.
        pose proof (Z.log2_le_pow2 q (dx + sft - dy - 1) ltac:(lia)). lia. }
      unfold e', SpecFloat.fexp in *. lia.
    - unfold e', SpecFloat.fexp in *. unfold sft, e', SpecFloat.fexp in Hsmall. lia. }
  destruct (round_aux_RNE prec emax prec_pos false q e' r (Zpos my) Hq HR HE)
    as (m' & e1 & H1 & H2).
  exists m', e1. split; [exact H1|].
  destruct H2 as (m1 & G & HB & Hrest). exists m1. split; [exact G|].
  assert (Ev : ((inject_Z q + inject_Z r / inject_Z (Zpos my)) * Q2 e'
               == inject_Z (Zpos mx) * Q2 ex / (inject_Z (Zpos my) * Q2 ey))%Q).
  { assert (Hy0 : ~ (inject_Z (Zpos my) == 0)%Q) by discriminate.
    pose proof (Q2_pos ey) as Py. pose proof (Q2_pos e') as Pe.
    assert (Eq1 : (inject_Z (Zpos mx) * Q2 sft ==
                   inject_Z (Zpos my) * inject_Z q + inject_Z r)%Q).
    { rewrite <- Q2_inject, <- !inject_Z_mult, <- inject_Z_plus by lia.
      rewrite <- Hmz, HD. reflexivity. }
    assert (Eq2 : (Q2 ex == Q2 sft * Q2 e' * Q2 ey)%Q).
    { rewrite <- !Q2_add. replace (sft + e' + ey) with ex by (unfold sft; lia). reflexivity. }
    rewrite Eq2.
    setoid_replace (inject_Z (Zpos mx) * (Q2 sft * Q2 e' * Q2 ey))%Q
      with ((inject_Z (Zpos mx) * Q2 sft) * (Q2 e' * Q2 ey))%Q by ring.
    rewrite Eq1. field. split; [lra | exact Hy0]. }
  rewrite <- Ev. split; [exact HB | exact Hrest].
Qed.

End RNEFacts.

Section Ops.
Variables prec emax : Z.
Hypothesis prec_pos : 0 < prec.
Hypothesis emax_big : prec < emax.

Local Abbreviation emin := (SpecFloat.emin prec emax).
Local Abbreviation fexp := (SpecFloat.fexp prec emax).
Local Abbreviation RNE := (RNE prec emax).
Local Abbreviation on_grid := (on_grid prec emax).

Theorem binary_round_RNE (m : positive) (e : Z) :
  exists m' e1,
    binary_round prec emax false m e = mk_float prec emax false m' e1 /\
    RNE (inject_Z (Zpos m) * Q2 e) m' e1.
Proof.
  unfold binary_round. pose proof (shl_align_fexp_spec prec emax m e) as H.
  destruct (shl_align m e (fexp (Zpos (digits2_pos m) + e))) as [mz ez].
  destruct H as [Hv He].
  destruct (round_aux_RNE prec emax prec_pos false (Zpos mz) ez 0 1
              ltac:(lia) ltac:(lia) He) as (m' & e1 & H1 & H2).
  exists m', e1. split; [exact H1|].
  destruct H2 as (m1 & G & HB & Hrest). exists m1. split; [exact G|].
  assert (Ev : ((inject_Z (Zpos mz) + inject_Z 0 / inject_Z 1) * Q2 ez
                == inject_Z (Zpos m) * Q2 e)%Q).
  { rewrite <- Hv. change (inject_Z 0 / inject_Z 1)%Q with 0%Q. ring. }
  rewrite <- Ev. split; [exact HB | exact Hrest].
Qed.

Theorem add_RNE (mx my : positive) (ex ey : Z) :
  exists m' e1,
    SFadd prec emax (S754_finite false mx ex) (S754_finite false my ey)
      = mk_float prec emax false m' e1 /\
    RNE (inject_Z (Zpos mx) * Q2 ex + inject_Z (Zpos my) * Q2 ey) m' e1.
Proof.
  cbn [SFadd cond_Zopp]. set (ez := Z.min ex ey).
  assert (E : Zpos (fst (shl_align mx ex ez)) + Zpos (fst (shl_align my ey ez))
              = Zpos (fst (shl_align mx ex ez) + fst (shl_align my ey ez))) by reflexivity.
  rewrite E. cbn [binary_normalize].
  destruct (binary_round_RNE (fst (shl_align mx ex ez) + fst (shl_align my ey ez)) ez)
    as (m' & e1 & H1 & H2).
  exists m', e1. split; [exact H1|].
  destruct H2 as (m1 & G & HB & Hrest). exists m1. split; [exact G|].
  assert (Ev : (inject_Z (Zpos (fst (shl_align mx ex ez) + fst (shl_align my ey ez))) * Q2 ez
                == inject_Z (Zpos mx) * Q2 ex + inject_Z (Zpos my) * Q2 ey)%Q).
  { rewrite Pos2Z.inj_add, inject_Z_plus, Qmult_plus_distr_l.
    pose proof (aligned_value false mx ex ez ltac:(unfold ez; lia)) as A1.
    pose proof (aligned_value false my ey ez ltac:(unfold ez; lia)) as A2.
    cbn [cond_Zopp F2Q] in A1, A2. rewrite A1, A2. reflexivity. }
  rewrite <- Ev. split; [exact HB | exact Hrest].
Qed.

(** A positive canonical float, as a magnitude of the grid. *)
Lemma bounded_on_grid (m : positive) (e : Z) :
  bounded prec emax m e = true -> on_grid (Zpos m) e.
Proof.
  intros H. apply bounded_iff in H. destruct H as [Hc He].
  pose proof (digits2_bounds m) as [Hl Hu].
  split; [lia|]. split.
  - split; [lia|]. apply Z.lt_le_trans with (1 := Hu). apply Z.pow_le_mono_r; lia.
  - intros Hgt. destruct Hc as [[Hc _] | [_ Hc]]; [lia|]. rewrite Hc in Hl. exact Hl.
Qed.

(** The constant one half. *)
Lemma half_value :
  3 - emax <= 0 ->
  canonf prec emax (SFdiv prec emax (S754_finite false 1 0) (S754_finite false 2 0)) /\
  (F2Q (SFdiv prec emax (S754_finite false 1 0) (S754_finite false 2 0)) == 1 # 2)%Q.
Proof.
  intros Hemax.
  destruct (div_RNE prec emax prec_pos 1 2 0 0) as (m' & e1 & -> & H).
  assert (G : on_grid (2 ^ (prec - 1)) (- prec)).
  { assert (0 < 2 ^ (prec - 1)) by (apply Z.pow_pos_nonneg; lia).
    split; [unfold SpecFloat.emin; lia|]. split; [|lia].
    split; [lia|]. apply Z.pow_lt_mono_r; lia. }
  assert (Ev : (inject_Z 1 * Q2 0 / (inject_Z 2 * Q2 0) == inject_Z (2 ^ (prec - 1)) * Q2 (- prec))%Q).
  { rewrite Q2_inject, <- Q2_add by lia. replace (prec - 1 + - prec) with (-1) by lia.
    reflexivity. }
  assert (H' : RNE (inject_Z (2 ^ (prec - 1)) * Q2 (- prec)) m' e1).
  { destruct H as (m1 & G1 & HB & Hr). exists m1. split; [exact G1|].
    rewrite <- Ev. split; [exact HB | exact Hr]. }
  pose proof (RNE_exact prec emax prec_pos (2 ^ (prec - 1)) (- prec) m' e1 G H') as Ex.
  destruct (RNE_range prec emax prec_pos _ m' e1 H') as (R1 & R2 & R3).
  destruct (mk_float_value prec emax prec_pos emax_big m' e1 R1 R2 R3) as [C V].
  { rewrite Ex, <- Ev. apply Qlt_le_trans with (Q2 0); [reflexivity | apply Q2_le; lia]. }
  split; [exact C|]. rewrite V, Ex, <- Ev. reflexivity.
Qed.

(** Halving a normal float above the lowest binade is exact. *)
Lemma halve_exact (h : spec_float) (m : positive) (e : Z) :
  canonf prec emax h -> (F2Q h == 1 # 2)%Q ->
  bounded prec emax m e = true -> Zpos (digits2_pos m) = prec -> emin < e ->
  SFmul prec emax h (S754_finite false m e) = S754_finite false m (e - 1).
Proof.
  intros Hh Eh Hb Hd He.
  assert (Hc : canonf prec emax (S754_finite false m (e - 1))).
  { split; [|reflexivity]. cbn [valid_binary]. apply bounded_iff.
    apply bounded_iff in Hb. destruct Hb as [_ Hb]. split; [|lia].
    destruct (Z.eq_dec (e - 1) emin); [left | right]; lia. }
  assert (Hx : canonf prec emax (S754_finite false m e)) by (split; [exact Hb | reflexivity]).
  pose proof (mul_rounds prec emax prec_pos emax_big h _ Hh Hx) as HR.
  destruct (rounds_representable prec emax _ _ _ HR Hc) as [HcR Ev].
  { rewrite Eh. cbn [F2Q cond_Zopp]. replace e with ((e - 1) + 1) at 2 by lia.
    rewrite Q2_succ. ring. }
  (* two canonical floats of the same positive value are the same float *)
  assert (EvV : (F2Q (SFmul prec emax h (S754_finite false m e))
                 == inject_Z (Zpos m) * Q2 (e - 1))%Q).
  { rewrite Ev, Eh. cbn [F2Q cond_Zopp]. replace e with ((e - 1) + 1) at 1 by lia.
    rewrite Q2_succ. ring. }
  clear Ev HR.
  pose proof (mantissa_Q_pos m (e - 1)) as P.
  destruct (canonf_cases prec emax _ HcR) as [[s Hz] | (s & m2 & e2 & Hf & Hb2)].
  - rewrite Hz in EvV. change (F2Q (S754_zero s)) with 0%Q in EvV. lra.
  - rewrite Hf in EvV |- *.
    pose proof (mantissa_Q_pos m2 e2) as P2.
    rewrite F2Q_finite in EvV. destruct s; [lra|].
    pose proof (bounded_on_grid m2 e2 Hb2) as G2.
    destruct Hc as [Hb1 _]. cbn [valid_binary] in Hb1.
    pose proof (bounded_on_grid m (e - 1) Hb1) as G1.
    assert (E2 : e2 = e - 1).
    { apply Z.le_antisymm.
      - apply (bracket_exponent_mono prec emax prec_pos
                 (inject_Z (Zpos m2) * Q2 e2) (inject_Z (Zpos m) * Q2 (e - 1)) _ _ _ _ G2 G1);
          [lra | | lra].
        apply Qmult_lt_compat_r; [apply Q2_pos | rewrite <- Zlt_Qlt; lia].
      - apply (bracket_exponent_mono prec emax prec_pos
                 (inject_Z (Zpos m) * Q2 (e - 1)) (inject_Z (Zpos m2) * Q2 e2) _ _ _ _ G1 G2);
          [lra | | lra].
        apply Qmult_lt_compat_r; [apply Q2_pos | rewrite <- Zlt_Qlt; lia]. }
    subst e2. f_equal.
    assert (Zpos m2 = Zpos m); [|congruence].
    apply inj_Z_eq. apply Qmult_inj_r with (Q2 (e - 1)); [|exact EvV].
    pose proof (Q2_pos (e - 1)). lra.
Qed.

End Ops.

(** ** Divisibility by a power of two *)

Lemma pow2_divides_odd_factor (p k Y : Z) :
  0 <= p -> (2 ^ p | (2 * k + 1) * Y) -> (2 ^ p | Y).
Proof.
  intros Hp H. apply Z.gauss with (2 * k + 1); [exact H|].
  apply Z.coprime_pow_l; [exact Hp|].
  apply Z.coprime_Bezout. exists (- k), 1. lia.
Qed.

Lemma RNE_ext (prec emax : Z) (v w : Q) (m e : Z) :
  (v == w)%Q -> RNE prec emax v m e -> RNE prec emax w m e.
Proof.
  intros E (m1 & G & [HB1 HB2] & Hc & R1 & R2 & R3). exists m1.
  split; [exact G|]. split; [split; rewrite <- E; assumption|].
  split; [exact Hc|].
  split; [|split]; intros H; [apply R1 | apply R2 | apply R3]; rewrite E; exact H.
Qed.

#[global] Instance RNE_proper (prec emax : Z) :
  Proper (Qeq ==> eq ==> eq ==> iff) (RNE prec emax).
Proof.
  intros v w E m m' <- e e' <-.
  split; apply RNE_ext; [exact E | symmetry; exact E].
Qed.

Section Grid.
Variables prec emax : Z.
Hypothesis prec_big : 2 <= prec.
Hypothesis emax_big : prec < emax.

Local Abbreviation emin := (SpecFloat.emin prec emax).
Local Abbreviation RNE := (RNE prec emax).
Local Abbreviation on_grid := (on_grid prec emax).

Local Abbreviation prec_pos := (prec_two_pos prec prec_big).

(** A magnitude of the grid rounds to itself. *)
Lemma RNE_self (m e : Z) : on_grid m e -> RNE (inject_Z m * Q2 e) m e.
Proof using prec_big emax_big.
  intros G. exists m. pose proof (Q2_pos e) as Hp. split; [exact G|].
  split.
  { split; [lra|]. rewrite inject_Z_plus. change (inject_Z 1) with 1%Q. lra. }
  split; [now left|]. split; [reflexivity|]. split; intros H; exfalso; lra.
Qed.

(** A float that rounds a value not below a magnitude of the grid is not
    below that magnitude. *)
Lemma RNE_ge_grid (v : Q) (m' e1 m e : Z) :
  RNE v m' e1 -> on_grid m e -> (inject_Z m * Q2 e <= v)%Q ->
  (inject_Z m * Q2 e <= inject_Z m' * Q2 e1)%Q.
Proof using prec_big emax_big.
  intros H G Hle. apply (RNE_mono prec emax prec_pos (inject_Z m * Q2 e) v m e m' e1); [|exact H|exact Hle].
  apply RNE_self. exact G.
Qed.

Lemma RNE_le_grid (v : Q) (m' e1 m e : Z) :
  RNE v m' e1 -> on_grid m e -> (v <= inject_Z m * Q2 e)%Q ->
  (inject_Z m' * Q2 e1 <= inject_Z m * Q2 e)%Q.
Proof using prec_big emax_big.
  intros H G Hle. apply (RNE_mono prec emax prec_pos v (inject_Z m * Q2 e) m' e1 m e); [exact H| |exact Hle].
  apply RNE_self. exact G.
Qed.

(** The neighbours of a value at one exponent are unique. *)
Lemma bracket_unique (v : Q) (m n e : Z) :
  (inject_Z m * Q2 e <= v)%Q -> (v < inject_Z (m + 1) * Q2 e)%Q ->
  (inject_Z n * Q2 e <= v)%Q -> (v < inject_Z (n + 1) * Q2 e)%Q -> m = n.
Proof using.
  intros H1 H2 H3 H4.
  assert (m < n + 1) by (apply (Zlt_Q_mult _ _ e); lra).
  assert (n < m + 1) by (apply (Zlt_Q_mult _ _ e); lra). lia.
Qed.

(** Anchoring: a float [x] above [2^i * Y * 2^e], with [Y] of full
    precision, is a multiple of [2^(i+e)], so it is at least
    [2^i * (Y + 1) * 2^e]. *)
Lemma anchoring (X ex Y e i : Z) :
  on_grid X ex -> 2 ^ (prec - 1) <= Y ->
  (Q2 i * (inject_Z Y * Q2 e) < inject_Z X * Q2 ex)%Q ->
  (Q2 i * (inject_Z (Y + 1) * Q2 e) <= inject_Z X * Q2 ex)%Q.
Proof using prec_big emax_big.
  intros (Hex & HX & _) HY Hlt.
  assert (E : forall K, (Q2 i * (inject_Z K * Q2 e) == inject_Z K * Q2 (i + e))%Q).
  { intros K. rewrite Q2_add. ring. }
  rewrite E in *.
  assert (Hj : i + e <= ex).
  { assert (Q2 (prec - 1 + (i + e)) < Q2 (prec + ex))%Q; [|apply Q2_lt_inv in H; lia].
    apply Qle_lt_trans with (inject_Z Y * Q2 (i + e))%Q.
    - rewrite Q2_add, <- (Q2_inject (prec - 1)) by lia.
      apply Qmult_le_compat_r; [rewrite <- Zle_Qle; lia | apply Qlt_le_weak, Q2_pos].
    - apply Qlt_le_trans with (1 := Hlt).
      rewrite (Q2_add prec), <- (Q2_inject prec) by lia.
      apply Qmult_le_compat_r; [rewrite <- Zle_Qle; lia | apply Qlt_le_weak, Q2_pos]. }
  rewrite (grid_multiple X ex (i + e) Hj) in *.
  apply Qmult_le_compat_r; [|apply Qlt_le_weak, Q2_pos].
  rewrite <- Zle_Qle. apply Zlt_Q_mult in Hlt. lia.
Qed.

(** A value above the midpoint of a grid magnitude and its successor is
    rounded to the successor or higher. *)
Lemma RNE_above_half (v : Q) (m' e1 m e : Z) :
  RNE v m' e1 -> on_grid m e -> (inject_Z m * Q2 e + Q2 e * (1 # 2) < v)%Q ->
  (inject_Z (m + 1) * Q2 e <= inject_Z m' * Q2 e1)%Q.
Proof using prec_big emax_big.
  intros R G Hv. pose proof (Q2_pos e) as Hp.
  assert (P2 : 2 ^ prec = 2 * 2 ^ (prec - 1)).
  { replace prec with ((prec - 1) + 1) at 1 by lia. rewrite Z.pow_add_r; lia. }
  assert (P1 : 0 < 2 ^ (prec - 1)) by (apply Z.pow_pos_nonneg; lia).
  destruct (Qlt_le_dec v (inject_Z (m + 1) * Q2 e)) as [Hlt | Hge].
  - destruct R as (m1 & G1 & [Hl Hu] & Hc & A1 & A2 & A3).
    assert (Hml : (inject_Z m * Q2 e <= v)%Q) by lra.
    assert (E1 : e1 = e).
    { pose proof (bracket_exponent_mono prec emax prec_pos v v m1 e1 m e G1 G Hl Hlt (Qle_refl v)).
      pose proof (bracket_exponent_mono prec emax prec_pos v v m e m1 e1 G G1 Hml Hu (Qle_refl v)).
      lia. }
    subst e1.
    assert (E2 : m1 = m) by (apply (bracket_unique v m1 m e); assumption).
    subst m1. rewrite (A2 ltac:(lra)). apply Qle_refl.
  - destruct G as (Ge & Gm & Gn).
    destruct (Z.eq_dec (m + 1) (2 ^ prec)) as [E | E].
    + assert (Ev : (inject_Z (m + 1) * Q2 e == inject_Z (2 ^ (prec - 1)) * Q2 (e + 1))%Q).
      { rewrite E, P2, Q2_succ, inject_Z_mult. change (inject_Z 2) with 2%Q. ring. }
      rewrite Ev in *. apply (RNE_ge_grid v m' e1 _ _ R); [|exact Hge].
      split; [lia|]. split; lia.
    + apply (RNE_ge_grid v m' e1 _ _ R); [|exact Hge].
      split; [lia|]. split; [lia|]. intros H. specialize (Gn H). lia.
Qed.

End Grid.

(** ** One step up in [y]: [y + RN(x/y)] does not decrease

    For a float [x] and a normal float [y = Y * 2^e] that is not below the
    largest float under the square root of [x], the rounded quotients
    [A = RN(x / y)] and [B = RN(x / y')] at [y] and at its successor
    [y' = (Y + 1) * 2^e] satisfy [A - B <= 2^e]. *)

Section StepUp.
Variables prec emax : Z.
Hypothesis prec_big : 2 <= prec.
Hypothesis emax_big : prec < emax.

Local Abbreviation emin := (SpecFloat.emin prec emax).
Local Abbreviation RNE := (RNE prec emax).
Local Abbreviation on_grid := (on_grid prec emax).

Variables X ex Y e : Z.
Hypothesis GX : on_grid X ex.
Hypothesis HX : 0 < X.
Hypothesis HY : 2 ^ (prec - 1) <= Y < 2 ^ prec.
Hypothesis He : emin < e.

Local Abbreviation g := (Q2 e).
Local Abbreviation x := (inject_Z X * Q2 ex)%Q.
Local Abbreviation y := (inject_Z Y * Q2 e)%Q.
Local Abbreviation y' := (inject_Z (Y + 1) * Q2 e)%Q.
Local Abbreviation a := (x / y)%Q.
Local Abbreviation b := (x / y')%Q.

Hypothesis Hsq : (x < y' * y')%Q.

Local Abbreviation prec_pos := (prec_two_pos prec prec_big).

Lemma step_basic :
  (0 < g /\ 0 < x /\ 0 < y /\ y' == y + g /\ a * y == x /\ b * y' == x /\
   0 < b /\ b < a /\ b < y' /\
   (a - b) * inject_Z (Y + 1) == a /\ (a - b) * inject_Z Y == b /\
   2 <= inject_Z Y /\ inject_Z (Y + 1) == inject_Z Y + 1)%Q.
Proof using All.
  pose proof (Q2_pos e) as Hg. pose proof (Q2_pos ex) as Hgx.
  assert (P2 : 2 <= 2 ^ (prec - 1)).
  { change 2 with (2 ^ 1) at 1. apply Z.pow_le_mono_r; lia. }
  assert (HYq : (2 <= inject_Z Y)%Q) by (change 2%Q with (inject_Z 2); rewrite <- Zle_Qle; lia).
  assert (HY1 : (inject_Z (Y + 1) == inject_Z Y + 1)%Q) by (rewrite inject_Z_plus; reflexivity).
  assert (HXq : (0 < inject_Z X)%Q) by (change 0%Q with (inject_Z 0); rewrite <- Zlt_Qlt; lia).
  assert (Hx : (0 < x)%Q) by (apply Qmult_lt_0_compat; assumption).
  assert (Hy : (0 < y)%Q) by (apply Qmult_lt_0_compat; lra).
  assert (Hy' : (0 < y')%Q) by (apply Qmult_lt_0_compat; lra).
  assert (Ea : (a * y == x)%Q) by (field; lra).
  assert (Eb : (b * y' == x)%Q) by (field; lra).
  assert (Hb : (0 < b)%Q).
  { apply Qlt_shift_div_l; [exact Hy' | lra]. }
  assert (Hby : (b < y')%Q).
  { apply Qlt_shift_div_r; [exact Hy' | exact Hsq]. }
  assert (Ey : (y' == y + g)%Q) by (rewrite HY1; ring).
  assert (Eab : ((a - b) * inject_Z (Y + 1) == a)%Q).
  { rewrite HY1. field. split; lra. }
  assert (Eab' : ((a - b) * inject_Z Y == b)%Q).
  { rewrite HY1. field. split; lra. }
  assert (Hab : (b < a)%Q).
  { assert (0 < (a - b) * inject_Z Y)%Q by lra.
    assert (0 < a - b)%Q; [|lra].
    destruct (Qlt_le_dec 0 (a - b)) as [H1 | H1]; [exact H1 | exfalso].
    assert ((a - b) * inject_Z Y <= 0 * inject_Z Y)%Q by (apply Qmult_le_compat_r; lra). lra. }
  repeat split; try assumption; lra.
Qed.

Variables mA eA mB eB : Z.
Hypothesis RA : RNE a mA eA.
Hypothesis RB : RNE b mB eB.

Lemma step_exponents : eB <= eA.
Proof using All.
  destruct step_basic as (_ & _ & _ & _ & _ & _ & _ & Hab & _).
  destruct RA as (m1A & GA & [LA UA] & _). destruct RB as (m1B & GB & [LB UB] & _).
  apply (bracket_exponent_mono prec emax prec_pos b a m1B eB m1A eA GB GA LB UA). lra.
Qed.


(** Both quotients on one grid, finer than the grid of [y]. *)
Lemma step_same_fine : eA = eB -> eA < e ->
  (inject_Z mA * Q2 eA <= inject_Z mB * Q2 eB + g)%Q.
Proof using All.
  intros E Hlt. subst eB.
  destruct step_basic as (Hg & Hx & Hy & Ey & Ea & Eb & Hb & Hab & Hby & Eab & Eab' & HYq & HY1).
  pose proof (RNE_half prec emax _ _ _ RA) as [_ HA].
  pose proof (RNE_half prec emax _ _ _ RB) as [HB _].
  destruct RA as (m1A & GA & [LA UA] & _).
  pose proof (on_grid_upper prec emax prec_pos m1A eA GA) as HU.
  pose proof (Q2_pos eA) as Hs.
  (* a - b < 2 * s *)
  assert (Hd : (a - b < 2 * Q2 eA)%Q).
  { destruct (Qlt_le_dec (a - b) (2 * Q2 eA)) as [H | H]; [exact H | exfalso].
    assert (H1 : (2 * Q2 eA * inject_Z (Y + 1) <= (a - b) * inject_Z (Y + 1))%Q)
      by (apply Qmult_le_compat_r; lra).
    assert (H2 : (Q2 (prec + eA) == 2 * Q2 eA * inject_Z (2 ^ (prec - 1)))%Q).
    { replace (prec + eA) with (1 + eA + (prec - 1)) by lia.
      rewrite !Q2_add, (Q2_inject (prec - 1)) by lia. change (Q2 1) with 2%Q. ring. }
    assert (H3 : (inject_Z (2 ^ (prec - 1)) < inject_Z (Y + 1))%Q) by (rewrite <- Zlt_Qlt; lia).
    assert (H4 : (2 * Q2 eA * inject_Z (2 ^ (prec - 1)) < 2 * Q2 eA * inject_Z (Y + 1))%Q).
    { rewrite !(Qmult_comm (2 * Q2 eA)). apply Qmult_lt_compat_r; lra. }
    lra. }
  assert (Hm : mA <= mB + 2).
  { assert (mA < mB + 3); [|lia]. apply (Zlt_Q_mult _ _ eA).
    rewrite inject_Z_plus. change (inject_Z 3) with 3%Q. lra. }
  assert (H2s : (2 * Q2 eA <= g)%Q).
  { rewrite <- Q2_succ. apply Q2_le. lia. }
  assert (inject_Z mA * Q2 eA <= inject_Z (mB + 2) * Q2 eA)%Q.
  { apply Qmult_le_compat_r; [rewrite <- Zle_Qle; lia | lra]. }
  rewrite inject_Z_plus in H. change (inject_Z 2) with 2%Q in H. lra.
Qed.


(** Both quotients on the grid of [y]: a gap of two steps would put
    [2 * x / 2^(2e)], a multiple of [2^prec], at [Y * (2Y + 3)] or at
    [(Y + 1) * (2Y + 1)]. *)
Lemma step_same_grid : eA = e -> eB = e ->
  (inject_Z mA * Q2 eA <= inject_Z mB * Q2 eB + g)%Q.
Proof using All.
  intros EA EB. subst eA eB.
  destruct step_basic as (Hg & Hx & Hy & Ey & Ea & Eb & Hb & Hab & Hby & Eab & Eab' & HYq & HY1).
  pose proof (RNE_half prec emax _ _ _ RA) as [_ HA].
  pose proof (RNE_half prec emax _ _ _ RB) as [HB _].
  destruct (Z.le_gt_cases mA (mB + 1)) as [Hle | Hgt].
  { assert (inject_Z mA * g <= inject_Z (mB + 1) * g)%Q.
    { apply Qmult_le_compat_r; [rewrite <- Zle_Qle; lia | lra]. }
    rewrite inject_Z_plus in H. change (inject_Z 1) with 1%Q in H. lra. }
  exfalso.
  destruct RA as (m1A & GA & [LA UA] & cA & _).
  destruct RB as (m1B & GB & [LB UB] & cB & _).
  set (va := a) in *. set (vb := b) in *. clearbody va vb.
  rewrite HY1 in Eab, Hby, Eb.
  assert (HmAB : (inject_Z mB + 2 <= inject_Z mA)%Q).
  { change 2%Q with (inject_Z 2). rewrite <- inject_Z_plus, <- Zle_Qle. lia. }
  (* the quotients are at least one step apart *)
  assert (H1 : (g <= va - vb)%Q).
  { assert ((inject_Z mB + 2) * g <= inject_Z mA * g)%Q by (apply Qmult_le_compat_r; lra). lra. }
  assert (H2 : (y <= vb)%Q).
  { assert (g * inject_Z Y <= (va - vb) * inject_Z Y)%Q by (apply Qmult_le_compat_r; lra). lra. }
  assert (H3 : m1B = Y) by (apply (bracket_unique vb m1B Y e); rewrite ?HY1; assumption).
  subst m1B.
  assert (H4 : (va * inject_Z Y < (inject_Z Y + 1) * (inject_Z Y + 1) * g)%Q).
  { assert (vb * (inject_Z Y + 1) < (inject_Z Y + 1) * g * (inject_Z Y + 1))%Q
      by (apply Qmult_lt_compat_r; lra).
    lra. }
  assert (H5 : (va < (inject_Z Y + (5 # 2)) * g)%Q).
  { apply Qmult_lt_r with (inject_Z Y); [lra|].
    assert (2 * g <= inject_Z Y * g)%Q by (apply Qmult_le_compat_r; lra).
    lra. }
  assert (H6 : mA <= Y + 2).
  { assert (mA < Y + 3); [|lia]. apply (Zlt_Q_mult _ _ e).
    rewrite inject_Z_plus. change (inject_Z 3) with 3%Q. lra. }
  assert (HmA : mA = Y + 2) by lia. assert (HmB : mB = Y) by lia. subst mA mB.
  rewrite inject_Z_plus in HA. change (inject_Z 2) with 2%Q in HA.
  assert (Ha : ((inject_Z Y + (3 # 2)) * g <= va)%Q) by lra.
  assert (Hb' : (vb <= (inject_Z Y + (1 # 2)) * g)%Q) by lra.
  (* 2 * x between Y * (2Y + 3) and (Y + 1) * (2Y + 1), in units of 2^(2e) *)
  assert (Hxl : (inject_Z ((2 * (Y + 1) + 1) * Y) * Q2 (2 * e) <= 2 * x)%Q).
  { replace (2 * e) with (e + e) by lia. rewrite Q2_add, inject_Z_mult, !inject_Z_plus, inject_Z_mult.
    change (inject_Z 2) with 2%Q. change (inject_Z 1) with 1%Q. rewrite HY1.
    assert ((inject_Z Y + (3 # 2)) * g * y <= va * y)%Q by (apply Qmult_le_compat_r; lra).
    lra. }
  assert (Hxu : (2 * x <= inject_Z ((2 * Y + 1) * (Y + 1)) * Q2 (2 * e))%Q).
  { replace (2 * e) with (e + e) by lia. rewrite Q2_add, inject_Z_mult, !inject_Z_plus, inject_Z_mult.
    change (inject_Z 2) with 2%Q. change (inject_Z 1) with 1%Q. rewrite ?HY1.
    assert (vb * ((inject_Z Y + 1) * g) <= (inject_Z Y + (1 # 2)) * g * ((inject_Z Y + 1) * g))%Q
      by (apply Qmult_le_compat_r; [lra|]; apply Qlt_le_weak, Qmult_lt_0_compat; lra).
    lra. }
  (* x is a multiple of 2^(prec - 1 + 2e) *)
  destruct GX as (Hex & HXr & _).
  assert (P1 : 0 < 2 ^ (prec - 1)) by (apply Z.pow_pos_nonneg; lia).
  assert (Hd : prec - 1 + 2 * e <= ex).
  { assert (Q2 (2 * prec - 1 + 2 * e) < Q2 (prec + 1 + ex))%Q; [|apply Q2_lt_inv in H; lia].
    apply Qle_lt_trans with (2 * x)%Q.
    - apply Qle_trans with (2 := Hxl).
      replace (2 * prec - 1 + 2 * e) with (1 + (prec - 1) + (prec - 1) + 2 * e) by lia.
      rewrite !Q2_add, <- !(Q2_inject (prec - 1)) by lia. change (Q2 1) with (inject_Z 2).
      rewrite <- !inject_Z_mult.
      apply Qmult_le_compat_r; [rewrite <- Zle_Qle; nia | apply Qlt_le_weak, Q2_pos].
    - replace (prec + 1 + ex) with (1 + (prec + ex)) by lia.
      rewrite (Q2_add 1). change (Q2 1) with 2%Q.
      assert (x < Q2 (prec + ex))%Q; [|lra].
      rewrite (Q2_add prec), <- (Q2_inject prec) by lia.
      apply Qmult_lt_compat_r; [apply Q2_pos | rewrite <- Zlt_Qlt; lia]. }
  set (T := X * 2 ^ (ex + 1 - 2 * e)).
  assert (ET : (2 * x == inject_Z T * Q2 (2 * e))%Q).
  { unfold T. rewrite <- (grid_multiple X (ex + 1) (2 * e)) by lia.
    rewrite Q2_succ. ring. }
  rewrite ET in Hxl, Hxu. apply Zle_Q_mult in Hxl. apply Zle_Q_mult in Hxu.
  assert (HdT : (2 ^ prec | T)).
  { unfold T. apply Z.divide_mul_r.
    replace (ex + 1 - 2 * e) with ((ex + 1 - 2 * e - prec) + prec) by lia.
    rewrite Z.pow_add_r by lia. apply Z.divide_factor_r. }
  assert (HT : T = (2 * (Y + 1) + 1) * Y \/ T = (2 * Y + 1) * (Y + 1)) by nia.
  destruct HT as [HT | HT]; rewrite HT in HdT.
  - apply pow2_divides_odd_factor in HdT; [|lia].
    apply Z.divide_pos_le in HdT; lia.
  - apply pow2_divides_odd_factor in HdT; [|lia].
    apply Z.divide_pos_le in HdT; [|lia].
    assert (EY : Y + 1 = 2 ^ prec) by lia.
    pose proof (on_grid_upper prec emax prec_pos m1A e GA) as HU.
    assert (Q2 (prec + e) == inject_Z (Y + 1) * g)%Q
      by (rewrite EY, Q2_add, (Q2_inject prec) by lia; reflexivity).
    rewrite HY1 in H. lra.
Qed.


(** The quotients on two different grids: [x / y] is then a power of two,
    by anchoring, and [x / y'] is within one step of [y] below it. *)
Lemma step_straddle : eB < eA ->
  (inject_Z mA * Q2 eA <= inject_Z mB * Q2 eB + g)%Q.
Proof using All.
  intros Hlt.
  destruct step_basic as (Hg & Hx & Hy & Ey & Ea & Eb & Hb & Hab & Hby & Eab & Eab' & HYq & HY1).
  pose proof RA as (m1A & GA & [LA UA] & _).
  pose proof RB as (m1B & GB & [LB UB] & _).
  assert (HeB : emin <= eB) by (destruct GB; assumption).
  pose proof (on_grid_lower prec emax prec_pos m1A eA GA ltac:(lia)) as HlA.
  pose proof (on_grid_upper prec emax prec_pos m1B eB GB) as HuB.
  assert (Hpw : (Q2 (prec + eB) <= Q2 (prec - 1 + eA))%Q) by (apply Q2_le; lia).
  assert (P2 : 2 ^ prec = 2 * 2 ^ (prec - 1)).
  { replace prec with ((prec - 1) + 1) at 1 by lia. rewrite Z.pow_add_r; lia. }
  assert (P1 : 2 <= 2 ^ (prec - 1)).
  { change 2 with (2 ^ 1) at 1. apply Z.pow_le_mono_r; lia. }
  assert (GY : on_grid Y e) by (split; [lia|]; split; lia).
  assert (Gt : on_grid (2 ^ (prec - 1)) eA) by (split; [lia|]; split; lia).
  assert (Et : (Q2 (prec - 1 + eA) == inject_Z (2 ^ (prec - 1)) * Q2 eA)%Q).
  { rewrite Q2_add, Q2_inject by lia. reflexivity. }
  pose proof (Q2_pos (prec - 1 + eA)) as Ht.
  pose proof (Q2_pos eA) as HsA.
  pose proof RA as RA'. pose proof RB as RB'.
  set (t := Q2 (prec - 1 + eA)) in *.
  set (va := a) in *. set (vb := b) in *. clearbody va vb.
  rewrite HY1 in Eab, Hby, Eb.
  (* anchoring: x is exactly t * y *)
  assert (Exa : (x == t * y)%Q).
  { destruct (Qlt_le_dec (t * y) x) as [H | H].
    - exfalso.
      pose proof (anchoring prec emax prec_big emax_big X ex Y e (prec - 1 + eA) GX (proj1 HY) H) as Han.
      fold t in Han. rewrite HY1 in Han.
      assert (vb * ((inject_Z Y + 1) * g) < t * ((inject_Z Y + 1) * g))%Q
        by (apply Qmult_lt_compat_r; [apply Qmult_lt_0_compat|]; lra).
      lra.
    - assert (t * y <= va * y)%Q by (apply Qmult_le_compat_r; lra). lra. }
  assert (Ea' : (va == t)%Q).
  { apply (Qmult_inj_r va t y); [intros E0; lra|]. rewrite Ea, Exa. reflexivity. }
  assert (EA : (inject_Z mA * Q2 eA == t)%Q).
  { rewrite Et. apply (RNE_exact prec emax prec_pos (2 ^ (prec - 1)) eA mA eA Gt).
    apply RNE_ext with va; [rewrite Ea', Et; reflexivity | exact RA']. }
  rewrite EA.
  assert (Hinv : (t * inject_Z Y < (inject_Z Y + 1) * (inject_Z Y + 1) * g)%Q).
  { apply Qmult_lt_r with g; [lra|].
    pose proof Hsq as Inv'. rewrite HY1 in Inv'. lra. }
  assert (Htb : ((t - vb) * (inject_Z Y + 1) == t)%Q).
  { rewrite Ea' in Eab. exact Eab. }
  destruct (Z.le_gt_cases eA e) as [Hc | Hc].
  - (* the grid of x / y is not coarser than the grid of y *)
    assert (Hs : (Q2 eA <= g)%Q) by (apply Q2_le; exact Hc).
    assert (Hgrid : on_grid (2 ^ prec - 2) (eA - 1)) by (split; [lia|]; split; lia).
    assert (E1 : (Q2 eA == 2 * Q2 (eA - 1))%Q).
    { rewrite <- Q2_succ. replace (eA - 1 + 1) with eA by lia. reflexivity. }
    assert (E2 : (t == inject_Z (2 ^ prec) * Q2 (eA - 1))%Q).
    { unfold t. replace (prec - 1 + eA) with (prec + (eA - 1)) by lia.
      rewrite Q2_add, Q2_inject by lia. reflexivity. }
    assert (Ev : (inject_Z (2 ^ prec - 2) * Q2 (eA - 1) == t - Q2 eA)%Q).
    { rewrite E1, E2. unfold Z.sub. rewrite inject_Z_plus. change (inject_Z (- (2))) with (- (2))%Q. ring. }
    assert (Hbv : (t - Q2 eA <= vb)%Q).
    { destruct (Qlt_le_dec vb (t - Q2 eA)) as [H | H]; [exfalso | exact H].
      assert (Q2 eA * (inject_Z Y + 1) < (t - vb) * (inject_Z Y + 1))%Q
        by (apply Qmult_lt_compat_r; lra).
      assert (inject_Z (2 ^ (prec - 1)) * Q2 eA <= inject_Z Y * Q2 eA)%Q
        by (apply Qmult_le_compat_r; [rewrite <- Zle_Qle; lia | lra]).
      lra. }
    rewrite <- Ev in Hbv.
    pose proof (RNE_ge_grid prec emax prec_big emax_big vb mB eB _ _ RB' Hgrid Hbv) as HB.
    rewrite Ev in HB. lra.
  - destruct (Z.eq_dec eA (e + 1)) as [Hc1 | Hc1].
    + (* one grid coarser: Y is one of the two largest magnitudes *)
      assert (Et2 : (t == inject_Z (2 ^ prec) * g)%Q).
      { unfold t. rewrite Hc1. replace (prec - 1 + (e + 1)) with (prec + e) by lia.
        rewrite Q2_add, Q2_inject by lia. reflexivity. }
      assert (HZ : 2 ^ prec * Y < (Y + 1) * (Y + 1)).
      { apply (Zlt_Q_mult _ _ e). rewrite !inject_Z_mult, HY1. rewrite Et2 in Hinv. lra. }
      assert (HYc : Y = 2 ^ prec - 2 \/ Y = 2 ^ prec - 1).
      { destruct (Z.le_gt_cases Y (2 ^ prec - 3)) as [HYs | HYs]; [exfalso | lia].
        assert (0 <= (Y + 1) * (2 ^ prec - 2 - (Y + 1))) by (apply Z.mul_nonneg_nonneg; lia).
        nia. }
      assert (E2p : (inject_Z (2 ^ prec) == inject_Z Y + 1 \/ inject_Z (2 ^ prec) == inject_Z Y + 2)%Q).
      { destruct HYc as [HYc | HYc]; [right | left].
        - replace (2 ^ prec) with (Y + 2) by lia. rewrite inject_Z_plus. reflexivity.
        - replace (2 ^ prec) with (Y + 1) by lia. exact HY1. }
      assert (H2g : (2 * g <= inject_Z Y * g)%Q) by (apply Qmult_le_compat_r; lra).
      destruct E2p as [E2p | E2p]; rewrite E2p in Et2.
      * (* Y + 1 = 2^prec: x / y' is y itself *)
        assert (Hyb : (y <= vb)%Q).
        { destruct (Qlt_le_dec vb y) as [H | H]; [exfalso | exact H].
          assert (vb * (inject_Z Y + 1) < y * (inject_Z Y + 1))%Q
            by (apply Qmult_lt_compat_r; lra).
          assert (Ety : (t * inject_Z Y == (inject_Z Y + 1) * g * inject_Z Y)%Q)
            by (rewrite Et2; reflexivity).
          lra. }
        pose proof (RNE_ge_grid prec emax prec_big emax_big vb mB eB _ _ RB' GY Hyb) as HB.
        lra.
      * (* Y + 2 = 2^prec: x / y' is above the midpoint of y and y' *)
        assert (Hyb : (y + g * (1 # 2) < vb)%Q).
        { destruct (Qlt_le_dec (y + g * (1 # 2)) vb) as [H | H]; [exact H | exfalso].
          assert (vb * (inject_Z Y + 1) <= (y + g * (1 # 2)) * (inject_Z Y + 1))%Q
            by (apply Qmult_le_compat_r; lra).
          assert (Ety : (t * inject_Z Y == (inject_Z Y + 2) * g * inject_Z Y)%Q)
            by (rewrite Et2; reflexivity).
          lra. }
        pose proof (RNE_above_half prec emax prec_big emax_big vb mB eB _ _ RB' GY Hyb) as HB.
        rewrite HY1 in HB. lra.
    + (* two grids coarser is excluded by the invariant *)
      exfalso.
      assert (Hq : (Q2 (prec + 1 + e) <= t)%Q) by (apply Q2_le; lia).
      assert (Eq : (Q2 (prec + 1 + e) == inject_Z (2 * 2 ^ prec) * g)%Q).
      { replace (prec + 1 + e) with ((prec + 1) + e) by lia.
        rewrite Q2_add, <- (Q2_inject (prec + 1)), Z.pow_add_r by lia.
        rewrite (Z.mul_comm (2 ^ prec)). reflexivity. }
      assert (HZ : 2 * 2 ^ prec * Y < (Y + 1) * (Y + 1)).
      { apply (Zlt_Q_mult _ _ e). rewrite (inject_Z_mult _ Y), (inject_Z_mult (Y + 1)), HY1.
        rewrite Eq in Hq.
        assert (inject_Z (2 * 2 ^ prec) * g * inject_Z Y <= t * inject_Z Y)%Q
          by (apply Qmult_le_compat_r; lra).
        lra. }
      assert ((Y + 1) * (Y + 1) <= (Y + 1) * 2 ^ prec) by (apply Z.mul_le_mono_nonneg_l; lia).
      nia.
Qed.

(** The quotient [x / y'] is below [y'], so its grid is not coarser than
    the grid of [y]. *)
Lemma step_same_coarse : eA = eB -> e < eA ->
  (inject_Z mA * Q2 eA <= inject_Z mB * Q2 eB + g)%Q.
Proof using All.
  intros E Hlt. exfalso.
  destruct step_basic as (Hg & Hx & Hy & Ey & Ea & Eb & Hb & Hab & Hby & Eab & Eab' & HYq & HY1).
  pose proof RB as (m1B & GB & [LB UB] & _).
  pose proof (on_grid_lower prec emax prec_pos m1B eB GB ltac:(lia)) as HlB.
  assert (GY : on_grid Y e) by (split; [lia|]; split; lia).
  pose proof (on_grid_upper prec emax prec_pos Y e GY) as HuY.
  assert (Hpw : (Q2 (prec + e) <= Q2 (prec - 1 + eB))%Q) by (apply Q2_le; lia).
  set (vb := b) in *. clearbody vb. lra.
Qed.

(** One step up in [y] lowers the rounded quotient by at most one step of
    [y]. *)
Lemma step_up : (inject_Z mA * Q2 eA <= inject_Z mB * Q2 eB + g)%Q.
Proof using All.
  pose proof step_exponents as H1.
  destruct (Z.eq_dec eA eB) as [E | E].
  - destruct (Z.lt_ge_cases eA e) as [H | H].
    + apply step_same_fine; assumption.
    + destruct (Z.eq_dec eA e) as [E' | E'].
      * apply step_same_grid; congruence.
      * apply step_same_coarse; [exact E | lia].
  - apply step_straddle. lia.
Qed.

End StepUp.

(** ** The Babylonian step on values *)

Section StepValues.
Variables prec emax : Z.
Hypothesis prec_big : 2 <= prec.
Hypothesis emax_big : prec < emax.

Local Abbreviation emin := (SpecFloat.emin prec emax).
Local Abbreviation RNE := (RNE prec emax).
Local Abbreviation on_grid := (on_grid prec emax).
Local Abbreviation normal_pair := (normal_pair prec emax).
Local Abbreviation StepV := (StepV prec emax).
Local Abbreviation pidx := (pidx prec).

Local Abbreviation prec_pos := (prec_two_pos prec prec_big).

Lemma pval_pos (Y e : Z) : 0 < Y -> (0 < pval Y e)%Q.
Proof using.
  intros H. apply Qmult_lt_0_compat; [|apply Q2_pos].
  change 0%Q with (inject_Z 0). rewrite <- Zlt_Qlt. exact H.
Qed.

Lemma pval_le (Y Y' e : Z) : Y <= Y' -> (pval Y e <= pval Y' e)%Q.
Proof using.
  intros H. apply Qmult_le_compat_r; [rewrite <- Zle_Qle; exact H | apply Qlt_le_weak, Q2_pos].
Qed.

Lemma pval_succ (Y e : Z) : (pval (Y + 1) e == pval Y e + Q2 e)%Q.
Proof using.
  unfold pval. rewrite inject_Z_plus. change (inject_Z 1) with 1%Q. ring.
Qed.

Lemma pval_shift (Y e : Z) : (pval (2 * Y) e == pval Y (e + 1))%Q.
Proof using.
  unfold pval. rewrite inject_Z_mult, Q2_succ. change (inject_Z 2) with 2%Q. ring.
Qed.

Lemma pow2_prec : 2 ^ prec = 2 * 2 ^ (prec - 1).
Proof using prec_big.
  replace prec with ((prec - 1) + 1) at 1 by lia. rewrite Z.pow_add_r; lia.
Qed.

Lemma pow2_prec_pos : 2 <= 2 ^ (prec - 1).
Proof using prec_big.
  change 2 with (2 ^ 1) at 1. apply Z.pow_le_mono_r; lia.
Qed.

Lemma normal_on_grid (Y e : Z) : normal_pair Y e -> on_grid Y e.
Proof using prec_big.
  intros [HY He]. pose proof pow2_prec_pos. split; [lia|]. split; lia.
Qed.

Lemma normal_pval_bounds (Y e : Z) :
  normal_pair Y e -> (Q2 (prec - 1 + e) <= pval Y e /\ pval (Y + 1) e <= Q2 (prec + e))%Q.
Proof using prec_big.
  intros H. pose proof (normal_on_grid Y e H) as G. destruct H as [HY He]. split.
  - apply (on_grid_lower prec emax prec_pos Y e G He).
  - apply (on_grid_upper prec emax prec_pos Y e G).
Qed.

(** The rounded value is unique. *)
Lemma RNE_unique (v : Q) (m e m' e' : Z) :
  RNE v m e -> RNE v m' e' -> (inject_Z m * Q2 e == inject_Z m' * Q2 e')%Q.
Proof using prec_big.
  intros H1 H2.
  pose proof (RNE_mono prec emax prec_pos v v m e m' e' H1 H2 (Qle_refl v)).
  pose proof (RNE_mono prec emax prec_pos v v m' e' m e H2 H1 (Qle_refl v)).
  lra.
Qed.

Lemma RNE_nonneg (v : Q) (m e : Z) : RNE v m e -> (0 <= inject_Z m * Q2 e)%Q.
Proof using prec_big.
  intros H. destruct (RNE_range prec emax prec_pos v m e H) as ([Hm _] & _).
  apply Qmult_le_0_compat; [|apply Qlt_le_weak, Q2_pos].
  change 0%Q with (inject_Z 0). rewrite <- Zle_Qle. exact Hm.
Qed.

(** The exponent of a rounded value is at most the exponent of the rounding
    of a larger one. *)
Lemma RNE_exp_le (v w : Q) (m e n f : Z) :
  RNE v m e -> RNE w n f -> (inject_Z m * Q2 e <= w)%Q -> e <= f.
Proof using prec_big.
  intros Hv Hw Hle.
  destruct (RNE_range prec emax prec_pos v m e Hv) as (Hm & He & Hn).
  destruct Hw as (n1 & G & [Hl Hu] & _).
  destruct (Z.eq_dec e emin) as [E | E].
  - destruct G as (Hf & _). lia.
  - assert (Hlt : emin < e) by lia. specialize (Hn Hlt).
    pose proof (on_grid_upper prec emax prec_pos n1 f G) as HU.
    assert (Q2 (prec - 1 + e) <= inject_Z m * Q2 e)%Q.
    { rewrite Q2_add, <- (Q2_inject (prec - 1)) by lia.
      apply Qmult_le_compat_r; [rewrite <- Zle_Qle; lia | apply Qlt_le_weak, Q2_pos]. }
    assert (Q2 (prec - 1 + e) < Q2 (prec + f))%Q by lra.
    apply Q2_lt_inv in H0. lia.
Qed.

(** Quotients and sums of positive magnitudes have a rounding. *)
Lemma RNE_div_exists (X ex Y e : Z) :
  0 < X -> 0 < Y -> exists mA eA, RNE (pval X ex / pval Y e) mA eA.
Proof using prec_big.
  intros HX HY.
  destruct (div_RNE prec emax prec_pos (Z.to_pos X) (Z.to_pos Y) ex e) as (m & e1 & _ & H).
  rewrite !Z2Pos.id in H by assumption. exists m, e1. exact H.
Qed.

Lemma RNE_sum_exists (Y e mA eA : Z) :
  0 < Y -> 0 <= mA -> exists mS eS, RNE (pval Y e + inject_Z mA * Q2 eA) mS eS.
Proof using prec_big.
  intros HY HA. set (ez := Z.min e eA).
  set (M := Y * 2 ^ (e - ez) + mA * 2 ^ (eA - ez)).
  assert (P1 : 0 < 2 ^ (e - ez)) by (apply Z.pow_pos_nonneg; unfold ez; lia).
  assert (P2 : 0 < 2 ^ (eA - ez)) by (apply Z.pow_pos_nonneg; unfold ez; lia).
  assert (HM : 0 < M) by (unfold M; nia).
  destruct (binary_round_RNE prec emax prec_pos (Z.to_pos M) ez) as (m & e1 & _ & H).
  rewrite Z2Pos.id in H by exact HM. exists m, e1.
  apply RNE_ext with (2 := H). unfold M, pval.
  rewrite inject_Z_plus, Qmult_plus_distr_l.
  rewrite <- (grid_multiple Y e ez), <- (grid_multiple mA eA ez) by (unfold ez; lia).
  reflexivity.
Qed.

Lemma StepV_exists (X ex Y e : Z) :
  0 < X -> 0 < Y -> exists f, StepV (pval X ex) (pval Y e) f.
Proof using prec_big.
  intros HX HY.
  destruct (RNE_div_exists X ex Y e HX HY) as (mA & eA & HA).
  destruct (RNE_range prec emax prec_pos _ _ _ HA) as ([HmA _] & _).
  destruct (RNE_sum_exists Y e mA eA HY HmA) as (mS & eS & HS).
  exists ((1 # 2) * (inject_Z mS * Q2 eS))%Q, mA, eA, mS, eS.
  split; [exact HA|]. split; [exact HS | reflexivity].
Qed.

Lemma StepV_ext (x y y' f f' : Q) :
  (y == y')%Q -> (f == f')%Q -> StepV x y f -> StepV x y' f'.
Proof using.
  intros Ey Ef (mA & eA & mS & eS & HA & HS & Hf).
  exists mA, eA, mS, eS. split; [|split].
  - apply RNE_ext with (2 := HA). rewrite Ey. reflexivity.
  - apply RNE_ext with (2 := HS). rewrite Ey. reflexivity.
  - rewrite <- Ef. exact Hf.
Qed.

(** The step is monotone in [x]. *)
Lemma StepV_mono_x (x x' y f f' : Q) :
  (0 < y)%Q -> (x <= x')%Q -> StepV x y f -> StepV x' y f' -> (f <= f')%Q.
Proof using prec_big.
  intros Hy Hx (mA & eA & mS & eS & HA & HS & Hf) (mB & eB & mT & eT & HB & HT & Hf').
  assert (Hq : (x / y <= x' / y)%Q).
  { unfold Qdiv. apply Qmult_le_compat_r; [exact Hx|]. apply Qlt_le_weak, Qinv_lt_0_compat, Hy. }
  pose proof (RNE_mono prec emax prec_pos _ _ _ _ _ _ HA HB Hq) as H1.
  assert (Hs : (y + inject_Z mA * Q2 eA <= y + inject_Z mB * Q2 eB)%Q) by lra.
  pose proof (RNE_mono prec emax prec_pos _ _ _ _ _ _ HS HT Hs) as H2.
  rewrite Hf, Hf'. lra.
Qed.

(** The step does not decrease from a float [y] to its successor, when the
    square of the successor is above [x]. *)
Lemma StepV_succ (X ex Y e : Z) (f f' : Q) :
  on_grid X ex -> 0 < X -> normal_pair Y e ->
  (pval X ex < pval (Y + 1) e * pval (Y + 1) e)%Q ->
  StepV (pval X ex) (pval Y e) f -> StepV (pval X ex) (pval (Y + 1) e) f' ->
  (f <= f')%Q.
Proof using prec_big emax_big.
  intros GX HX [HY He] Inv (mA & eA & mS & eS & HA & HS & Hf) (mB & eB & mT & eT & HB & HT & Hf').
  pose proof (step_up prec emax prec_big emax_big X ex Y e GX HX HY He Inv mA eA mB eB HA HB) as H.
  pose proof (pval_succ Y e) as Es.
  assert (Hs : (pval Y e + inject_Z mA * Q2 eA <= pval (Y + 1) e + inject_Z mB * Q2 eB)%Q) by lra.
  pose proof (RNE_mono prec emax prec_pos _ _ _ _ _ _ HS HT Hs) as H2.
  rewrite Hf, Hf'. lra.
Qed.

(** The order of normal magnitudes is the order of their positions. *)
Lemma pidx_le (Y e Y2 e2 : Z) :
  normal_pair Y e -> normal_pair Y2 e2 -> (pval Y e <= pval Y2 e2)%Q ->
  pidx Y e <= pidx Y2 e2.
Proof using prec_big.
  intros N1 N2 H. unfold FloatSpec.pidx.
  destruct (normal_pval_bounds Y e N1) as [L1 U1].
  destruct (normal_pval_bounds Y2 e2 N2) as [L2 U2].
  pose proof (pval_succ Y2 e2) as E2. pose proof (Q2_pos e2) as P2.
  destruct N1 as [HY1 _], N2 as [HY2 _].
  pose proof pow2_prec as PP. set (H2 := 2 ^ (prec - 1)) in *.
  destruct (Z.lt_trichotomy e e2) as [Hlt | [Heq | Hgt]].
  - assert ((e + 1) * H2 <= e2 * H2) by (apply Z.mul_le_mono_nonneg_r; lia). lia.
  - subst e2. assert (Y <= Y2) by (apply (Zle_Q_mult _ _ e); exact H). lia.
  - exfalso. assert (Q2 (prec + e2) <= Q2 (prec - 1 + e))%Q by (apply Q2_le; lia). lra.
Qed.

Lemma pidx_inj (Y e Y2 e2 : Z) :
  normal_pair Y e -> normal_pair Y2 e2 -> pidx Y e = pidx Y2 e2 -> Y = Y2 /\ e = e2.
Proof using prec_big.
  intros [HY1 _] [HY2 _] H. unfold FloatSpec.pidx in H.
  pose proof pow2_prec as PP. set (H2 := 2 ^ (prec - 1)) in *.
  destruct (Z.lt_trichotomy e e2) as [Hlt | [Heq | Hgt]].
  - assert ((e + 1) * H2 <= e2 * H2) by (apply Z.mul_le_mono_nonneg_r; lia). lia.
  - subst e2. lia.
  - assert ((e2 + 1) * H2 <= e * H2) by (apply Z.mul_le_mono_nonneg_r; lia). lia.
Qed.

(** The step is monotone in [y], at a fixed float [x], from any float whose
    successor has a square above [x]. *)
Lemma StepV_chain (X ex : Z) (n : nat) :
  on_grid X ex -> 0 < X ->
  forall Y e Y2 e2 f f2,
    normal_pair Y e -> normal_pair Y2 e2 ->
    pidx Y2 e2 = pidx Y e + Z.of_nat n ->
    (pval X ex < pval (Y + 1) e * pval (Y + 1) e)%Q ->
    StepV (pval X ex) (pval Y e) f -> StepV (pval X ex) (pval Y2 e2) f2 ->
    (f <= f2)%Q.
Proof using prec_big emax_big.
  intros GX HX. pose proof pow2_prec as PP. pose proof pow2_prec_pos as P1.
  induction n as [|n IH]; intros Y e Y2 e2 f f2 N1 N2 Hi Inv S1 S2.
  - destruct (pidx_inj Y2 e2 Y e N2 N1) as [-> ->]; [cbn in Hi; lia|].
    apply (StepV_mono_x (pval X ex) (pval X ex) (pval Y e) f f2); try assumption.
    + apply pval_pos. destruct N1; lia.
    + apply Qle_refl.
  - destruct N1 as [HY He].
    assert (Hsucc : exists Ys es, normal_pair Ys es /\ (pval Ys es == pval (Y + 1) e)%Q /\
                                  pidx Ys es = pidx Y e + 1).
    { destruct (Z.eq_dec (Y + 1) (2 ^ prec)) as [E | E].
      - exists (2 ^ (prec - 1)), (e + 1). split; [split; lia|]. split.
        + rewrite E, PP. apply Qeq_sym, pval_shift.
        + unfold FloatSpec.pidx. lia.
      - exists (Y + 1), e. split; [split; lia|]. split; [reflexivity|].
        unfold FloatSpec.pidx. lia. }
    destruct Hsucc as (Ys & es & Ns & Es & Is).
    assert (HYs : 0 < Ys) by (destruct Ns; lia).
    destruct (StepV_exists X ex Ys es HX HYs) as (f1 & S3).
    apply Qle_trans with f1.
    + apply (StepV_succ X ex Y e f f1 GX HX (conj HY He) Inv S1).
      apply StepV_ext with (3 := S3); [exact Es | reflexivity].
    + apply (IH Ys es Y2 e2 f1 f2 Ns N2); try assumption; [lia|].
      apply Qlt_le_trans with (1 := Inv).
      assert (H0 : (0 < pval (Y + 1) e)%Q) by (apply pval_pos; lia).
      assert (H1 : (pval (Y + 1) e <= pval (Ys + 1) es)%Q).
      { rewrite <- Es. apply pval_le. lia. }
      apply Qle_trans with (pval (Y + 1) e * pval (Ys + 1) es)%Q.
      * apply Qmult_le_l; assumption.
      * apply Qmult_le_compat_r; lra.
Qed.

Theorem StepV_mono_y (X ex Y e Y2 e2 : Z) (f f2 : Q) :
  on_grid X ex -> 0 < X -> normal_pair Y e -> normal_pair Y2 e2 ->
  (pval Y e <= pval Y2 e2)%Q ->
  (pval X ex < pval (Y + 1) e * pval (Y + 1) e)%Q ->
  StepV (pval X ex) (pval Y e) f -> StepV (pval X ex) (pval Y2 e2) f2 ->
  (f <= f2)%Q.
Proof using prec_big emax_big.
  intros GX HX N1 N2 Hle Inv S1 S2.
  pose proof (pidx_le Y e Y2 e2 N1 N2 Hle) as Hi.
  apply (StepV_chain X ex (Z.to_nat (pidx Y2 e2 - pidx Y e)) GX HX Y e Y2 e2 f f2);
    try assumption.
  rewrite Z2Nat.id by lia. lia.
Qed.

End StepValues.

(** ** The invariant of the iteration *)

Lemma Qsquare_le (w u : Q) : (0 <= w)%Q -> (w <= u)%Q -> (w * w <= u * u)%Q.
Proof.
  intros H0 H. apply Qle_trans with (w * u)%Q.
  - rewrite (Qmult_comm w u). apply Qmult_le_compat_r; assumption.
  - apply Qmult_le_compat_r; lra.
Qed.

Lemma Qsquare_lt (w u : Q) : (0 <= w)%Q -> (w < u)%Q -> (w * w < u * u)%Q.
Proof.
  intros H0 H. apply Qle_lt_trans with (w * u)%Q.
  - rewrite (Qmult_comm w u). apply Qmult_le_compat_r; lra.
  - apply Qmult_lt_compat_r; lra.
Qed.

Lemma Qsquare_nonneg (z : Q) : (0 <= z * z)%Q.
Proof.
  destruct (Qlt_le_dec z 0) as [H | H].
  - setoid_replace (z * z)%Q with ((- z) * (- z))%Q by ring.
    apply Qmult_le_0_compat; lra.
  - apply Qmult_le_0_compat; assumption.
Qed.

Lemma Qsquare_pos (z : Q) : ~ (z == 0)%Q -> (0 < z * z)%Q.
Proof.
  intros Hz. destruct (Qlt_le_dec z 0) as [H | H].
  - setoid_replace (z * z)%Q with ((- z) * (- z))%Q by ring.
    apply Qmult_lt_0_compat; lra.
  - assert (0 < z)%Q.
    { destruct (Qlt_le_dec 0 z) as [H1 | H1]; [exact H1 | exfalso]. apply Hz. lra. }
    apply Qmult_lt_0_compat; assumption.
Qed.

Section Invariant.
Variables prec emax hc : Z.
Hypothesis prec_big : 3 <= prec.
Hypothesis emax_even : emax = 2 * hc.
Hypothesis emax_room : prec + 5 <= emax.

Local Abbreviation emin := (SpecFloat.emin prec emax).
Local Abbreviation RNE := (RNE prec emax).
Local Abbreviation on_grid := (on_grid prec emax).
Local Abbreviation normal_pair := (normal_pair prec emax).
Local Abbreviation StepV := (StepV prec emax).
Local Abbreviation Inv := (sqrt_invariant prec emax hc).

Local Abbreviation prec_two := (prec_three_two prec prec_big).
Local Abbreviation prec_pos := (prec_two_pos prec prec_two).
Local Abbreviation emax_big := (emax_room_big prec emax emax_room).

(** A power of two of the normal range, as a magnitude of the grid. *)
Lemma pow2_on_grid (k : Z) :
  emin + prec - 1 <= k ->
  on_grid (2 ^ (prec - 1)) (k - (prec - 1)) /\
  (pval (2 ^ (prec - 1)) (k - (prec - 1)) == Q2 k)%Q.
Proof using prec_big.
  intros Hk. pose proof (pow2_prec prec prec_two). pose proof (pow2_prec_pos prec prec_two).
  split.
  - split; [lia|]. split; lia.
  - unfold pval. rewrite Q2_inject, <- Q2_add by lia.
    replace (prec - 1 + (k - (prec - 1))) with k by lia. reflexivity.
Qed.

Lemma RNE_le_pow2 (v : Q) (m e k : Z) :
  emin + prec - 1 <= k -> RNE v m e -> (v <= Q2 k)%Q -> (inject_Z m * Q2 e <= Q2 k)%Q.
Proof using prec_big emax_room emax_even.
  intros Hk H Hv. destruct (pow2_on_grid k Hk) as [G E]. rewrite <- E in *.
  apply (RNE_le_grid prec emax prec_two emax_big v m e _ _ H G Hv).
Qed.

(** A float whose successor has a square above a positive float is not in
    the two lowest binades. *)
Lemma Inv_exp_lower (X ex Y e : Z) :
  on_grid X ex -> 0 < X -> normal_pair Y e ->
  (pval X ex < pval (Y + 1) e * pval (Y + 1) e)%Q -> emin + 2 <= e.
Proof using prec_big emax_room emax_even.
  intros (Hex & _) HX N Hlt.
  destruct (Z.le_gt_cases (emin + 2) e) as [H | H]; [exact H | exfalso].
  destruct (normal_pval_bounds prec emax prec_two Y e N) as [_ HU].
  assert (H0 : (0 <= pval (Y + 1) e)%Q) by (apply Qlt_le_weak, pval_pos; destruct N; lia).
  pose proof (Qsquare_le _ _ H0 HU) as Hsq.
  rewrite <- Q2_add in Hsq.
  assert (Hx : (Q2 emin <= pval X ex)%Q).
  { apply Qle_trans with (Q2 ex); [apply Q2_le; lia|].
    unfold pval. rewrite <- (Qmult_1_l (Q2 ex)) at 1.
    apply Qmult_le_compat_r; [|apply Qlt_le_weak, Q2_pos].
    change 1%Q with (inject_Z 1). rewrite <- Zle_Qle. lia. }
  assert (Q2 (prec + e + (prec + e)) <= Q2 emin)%Q by (apply Q2_le; unfold SpecFloat.emin in *; lia).
  lra.
Qed.

Section Step.
Variables X ex Y e mA eA mS eS : Z.
Hypothesis GX : on_grid X ex.
Hypothesis HX : 0 < X.
Hypothesis Hmax : (pval X ex < Q2 emax)%Q.
Hypothesis HInv : Inv (pval X ex) Y e.
Hypothesis HA : RNE (pval X ex / pval Y e) mA eA.
Hypothesis HS : RNE (pval Y e + inject_Z mA * Q2 eA) mS eS.

Local Abbreviation x := (pval X ex).
Local Abbreviation y := (pval Y e).
Local Abbreviation g := (Q2 e).
Local Abbreviation a := (pval X ex / pval Y e)%Q.
Local Abbreviation A := (inject_Z mA * Q2 eA)%Q.
Local Abbreviation S := (inject_Z mS * Q2 eS)%Q.

Lemma step_values :
  (0 < g /\ 0 < x /\ 0 < y /\ 4 * g <= y /\ a * y == x /\ 0 < a /\ a < y + 3 * g /\ 0 <= A)%Q.
Proof using All.
  destruct HInv as ([HY He] & Hlt & HU).
  pose proof (Q2_pos e) as Hg.
  pose proof (pow2_prec_pos prec prec_two) as P1.
  assert (Hx : (0 < x)%Q) by (apply pval_pos; exact HX).
  assert (Hy : (0 < y)%Q) by (apply pval_pos; lia).
  assert (H4 : (4 * g <= y)%Q).
  { unfold pval. apply Qmult_le_compat_r; [|lra].
    change 4%Q with (inject_Z 4). rewrite <- Zle_Qle.
    assert (2 ^ 2 <= 2 ^ (prec - 1)) by (apply Z.pow_le_mono_r; lia). lia. }
  assert (Ea : (a * y == x)%Q).
  { rewrite Qmult_comm. apply Qmult_div_r. intros E0. lra. }
  assert (Ha : (0 < a)%Q).
  { unfold Qdiv. apply Qmult_lt_0_compat; [exact Hx | apply Qinv_lt_0_compat, Hy]. }
  pose proof (RNE_nonneg prec emax prec_two _ _ _ HA) as HA0.
  rewrite pval_succ in Hlt.
  set (va := a) in *. clearbody va.
  assert (Hgg : (g * g <= y * g)%Q) by (apply Qmult_le_compat_r; lra).
  assert (Hay : (va < y + 3 * g)%Q).
  { apply Qmult_lt_r with y; [exact Hy|]. lra. }
  repeat split; assumption.
Qed.

Lemma step_exponents_le : eA <= eS /\ e <= eS.
Proof using All.
  destruct step_values as (Hg & Hx & Hy & H4 & Ea & Ha & Hay & HA0).
  destruct HInv as (N & _).
  split.
  - apply (RNE_exp_le prec emax prec_two _ _ _ _ _ _ HA HS). lra.
  - apply (RNE_exp_le prec emax prec_two y (y + A) Y e mS eS); [|exact HS|unfold pval in *; lra].
    apply (RNE_self prec emax prec_two emax_big). apply (normal_on_grid prec emax prec_two); assumption.
Qed.

Lemma step_sum_bounds : (A <= Q2 (hc + 2) /\ y <= S /\ S <= Q2 (hc + 2))%Q.
Proof using All.
  destruct step_values as (Hg & Hx & Hy & H4 & Ea & Ha & Hay & HA0).
  destruct HInv as (N & Hlt & HU).
  pose proof (normal_on_grid prec emax prec_two Y e N) as GY.
  assert (Hhc : emin + prec - 1 <= hc) by (unfold SpecFloat.emin; lia).
  assert (Ey2 : (pval Y (e + 1) == 2 * y)%Q).
  { unfold pval. rewrite Q2_succ. ring. }
  assert (GY2 : on_grid Y (e + 1)).
  { destruct N as [HY He]. split; [lia|]. split; lia. }
  assert (HyS : (y <= S)%Q).
  { apply (RNE_ge_grid prec emax prec_two emax_big _ mS eS Y e HS GY). unfold pval in *. lra. }
  split; [|split; [exact HyS|]].
  - apply (RNE_le_pow2 _ mA eA (hc + 2) ltac:(lia) HA).
    replace (hc + 2) with (hc + 1 + 1) by lia. rewrite (Q2_succ (hc + 1)).
    set (va := a) in *. clearbody va. lra.
  - destruct (Qlt_le_dec y a) as [Hya | Hya].
    + (* y is below the square root: y < 2^hc *)
      assert (Hyh : (y < Q2 hc)%Q).
      { destruct (Qlt_le_dec y (Q2 hc)) as [H | H]; [exact H | exfalso].
        pose proof (Qsquare_le (Q2 hc) y (Qlt_le_weak _ _ (Q2_pos hc)) H) as Hsq.
        rewrite <- Q2_add in Hsq. replace (hc + hc) with emax in Hsq by lia.
        assert (y * y < a * y)%Q by (apply Qmult_lt_compat_r; assumption).
        lra. }
      assert (HAh : (A <= Q2 (hc + 1))%Q).
      { apply (RNE_le_pow2 _ mA eA (hc + 1) ltac:(lia) HA).
        rewrite Q2_succ. set (va := a) in *. clearbody va. lra. }
      apply (RNE_le_pow2 _ mS eS (hc + 2) ltac:(lia) HS).
      replace (hc + 2) with (hc + 1 + 1) by lia. rewrite (Q2_succ (hc + 1)), Q2_succ in *.
      unfold pval in *. lra.
    + assert (HAy : (A <= y)%Q).
      { apply (RNE_le_grid prec emax prec_two emax_big _ mA eA Y e HA GY Hya). }
      assert (HS2 : (S <= pval Y (e + 1))%Q).
      { apply (RNE_le_grid prec emax prec_two emax_big _ mS eS Y (e + 1) HS GY2).
        rewrite Ey2. unfold pval in *. lra. }
      replace (hc + 2) with (hc + 1 + 1) by lia. rewrite Q2_succ. lra.
Qed.

(** The successor of half the sum is at least the arithmetic mean of [y]
    and [x / y], so its square is above [x]. *)
Lemma step_mean : (4 * x < (S + Q2 eS) * (S + Q2 eS))%Q.
Proof using All.
  destruct step_values as (Hg & Hx & Hy & H4 & Ea & Ha & Hay & HA0).
  destruct step_exponents_le as [HeA HeS].
  destruct HInv as (N & Hlt & HU).
  pose proof (normal_on_grid prec emax prec_two Y e N) as GY.
  pose proof (RNE_half prec emax _ _ _ HA) as [HAl _].
  pose proof (RNE_half prec emax _ _ _ HS) as [HSl _].
  pose proof (Q2_le eA eS HeA) as HsA.
  pose proof (Q2_pos eS) as HsS. pose proof (Q2_pos eA) as HsA0.
  set (va := a) in *. clearbody va.
  assert (Hu : (y + va <= S + Q2 eS)%Q) by lra.
  assert (Esq : ((y + va) * (y + va) == (y - va) * (y - va) + 4 * (va * y))%Q) by ring.
  rewrite Ea in Esq.
  destruct (Qeq_dec y va) as [E | E].
  - (* x / y = y: every operation is exact *)
    assert (EA : (A == y)%Q).
    { apply (RNE_exact prec emax prec_pos Y e mA eA GY).
      apply RNE_ext with (2 := HA). rewrite <- E. reflexivity. }
    assert (GY2 : on_grid Y (e + 1)).
    { destruct N as [HY He]. split; [lia|]. split; lia. }
    assert (ES : (S == pval Y (e + 1))%Q).
    { apply (RNE_exact prec emax prec_pos Y (e + 1) mS eS GY2).
      apply RNE_ext with (2 := HS). rewrite EA. unfold pval. rewrite Q2_succ. ring. }
    assert (Ey2 : (pval Y (e + 1) == 2 * y)%Q).
    { unfold pval. rewrite Q2_succ. ring. }
    assert (Hlt2 : (y + va < S + Q2 eS)%Q) by lra.
    assert (H0 : (0 <= y + va)%Q) by lra.
    pose proof (Qsquare_lt _ _ H0 Hlt2) as Hsq.
    pose proof (Qsquare_nonneg (y - va)). lra.
  - assert (H0 : (0 <= y + va)%Q) by lra.
    pose proof (Qsquare_le _ _ H0 Hu) as Hsq.
    assert (Hne : ~ (y - va == 0)%Q) by (intros E0; apply E; lra).
    pose proof (Qsquare_pos _ Hne). lra.
Qed.

(** The invariant holds again at the float that is half the sum. *)
Lemma step_invariant (YF eF : Z) :
  normal_pair YF eF -> (pval YF eF == (1 # 2) * S)%Q -> Inv x YF eF.
Proof using All.
  intros NF EF.
  destruct step_values as (Hg & Hx & Hy & H4 & Ea & Ha & Hay & HA0).
  destruct step_exponents_le as [HeA HeS].
  destruct step_sum_bounds as (HAu & HyS & HSu).
  pose proof step_mean as Hm.
  split; [exact NF|]. split.
  - (* the step of the result is at least half the step of the sum *)
    assert (HeF : eS - 1 <= eF).
    { destruct (Z.le_gt_cases (eS - 1) eF) as [H | H]; [exact H | exfalso].
      destruct (normal_pval_bounds prec emax prec_two YF eF NF) as [_ HFu].
      rewrite pval_succ in HFu. pose proof (Q2_pos eF).
      destruct (RNE_range prec emax prec_pos _ _ _ HS) as (_ & _ & HnS).
      destruct HInv as ([_ He] & _).
      assert (HmS : 2 ^ (prec - 1) <= mS) by (apply HnS; lia).
      assert (Q2 (prec - 1 + eS) <= S)%Q.
      { rewrite Q2_add, <- (Q2_inject (prec - 1)) by lia.
        apply Qmult_le_compat_r; [rewrite <- Zle_Qle; lia | apply Qlt_le_weak, Q2_pos]. }
      assert (Q2 (prec + eF + 1) <= Q2 (prec - 1 + eS))%Q by (apply Q2_le; lia).
      rewrite Q2_succ in H2. lra. }
    assert (HsF : (Q2 eS <= 2 * Q2 eF)%Q).
    { rewrite <- Q2_succ. apply Q2_le. lia. }
    rewrite pval_succ, EF.
    assert (H0 : (0 <= (1 # 2) * (S + Q2 eS))%Q) by (pose proof (Q2_pos eS); lra).
    assert (Hle : ((1 # 2) * (S + Q2 eS) <= (1 # 2) * S + Q2 eF)%Q) by lra.
    pose proof (Qsquare_le _ _ H0 Hle) as Hsq.
    assert (Eq : ((1 # 2) * (S + Q2 eS) * ((1 # 2) * (S + Q2 eS))
                  == (1 # 4) * ((S + Q2 eS) * (S + Q2 eS)))%Q) by ring.
    lra.
  - rewrite EF. replace (hc + 2) with (hc + 1 + 1) in HSu by lia. rewrite Q2_succ in HSu. lra.
Qed.

End Step.
End Invariant.

(** ** The Babylonian step on floats *)

Section StepFloat.
Variables prec emax hc : Z.
Hypothesis prec_big : 3 <= prec.
Hypothesis emax_even : emax = 2 * hc.
Hypothesis emax_room : prec + 5 <= emax.

Local Abbreviation emin := (SpecFloat.emin prec emax).
Local Abbreviation RNE := (RNE prec emax).
Local Abbreviation on_grid := (on_grid prec emax).
Local Abbreviation normal_pair := (normal_pair prec emax).
Local Abbreviation StepV := (StepV prec emax).
Local Abbreviation Inv := (sqrt_invariant prec emax hc).
Local Abbreviation canonf := (canonf prec emax).
Local Abbreviation mk_float := (mk_float prec emax).
Local Abbreviation half := (SFdiv prec emax (S754_finite false 1 0) (S754_finite false 2 0)).

Local Abbreviation prec_two := (prec_three_two prec prec_big).
Local Abbreviation prec_pos := (prec_two_pos prec prec_two).
Local Abbreviation emax_big := (emax_room_big prec emax emax_room).

(** A canonical float of value at least [2^(prec - 1 + k)], with [k] above
    [emin], is a positive normal float of exponent at least [k]. *)
Lemma canon_normal (f : spec_float) (k : Z) :
  canonf f -> (Q2 (prec - 1 + k) <= F2Q f)%Q -> emin < k ->
  exists m e, f = S754_finite false m e /\ bounded prec emax m e = true /\
              Zpos (digits2_pos m) = prec /\ k <= e.
Proof using prec_big emax_room emax_even.
  intros Hc Hv Hk. pose proof (Q2_pos (prec - 1 + k)) as Hp.
  destruct (canonf_cases prec emax f Hc) as [[s ->] | (s & m & e & -> & Hb)].
  - change (F2Q (S754_zero s)) with 0%Q in Hv. lra.
  - rewrite F2Q_finite in Hv. pose proof (mantissa_Q_pos m e) as Hm.
    destruct s; [lra|].
    exists m, e. split; [reflexivity|]. split; [exact Hb|].
    destruct (bounded_Q prec emax m e Hb) as (He & Hu & _ & _).
    assert (Hke : k <= e).
    { assert (Q2 (prec - 1 + k) < Q2 (prec + e))%Q by lra.
      apply Q2_lt_inv in H. lia. }
    split; [|exact Hke].
    apply bounded_iff in Hb. destruct Hb as [[[E _] | [_ E]] _]; [lia | exact E].
Qed.

(** The rounded sum [y + A] as a float, for a quotient [A] that is a
    float. *)
Lemma add_quotient (my : positive) (ey mA eA : Z) :
  bounded prec emax my ey = true ->
  0 <= mA <= 2 ^ prec -> emin <= eA -> (emin < eA -> 2 ^ (prec - 1) <= mA) ->
  (inject_Z mA * Q2 eA < Q2 emax)%Q ->
  exists mS eS,
    RNE (pval (Zpos my) ey + inject_Z mA * Q2 eA) mS eS /\
    ((inject_Z mS * Q2 eS < Q2 emax)%Q ->
     canonf (SFadd prec emax (S754_finite false my ey) (mk_float false mA eA)) /\
     (F2Q (SFadd prec emax (S754_finite false my ey) (mk_float false mA eA))
      == inject_Z mS * Q2 eS)%Q).
Proof using prec_big emax_room emax_even.
  intros Hb Hm He Hn Hlt.
  destruct (mk_float_value prec emax prec_pos emax_big mA eA Hm He Hn Hlt) as [Hc Hv].
  pose proof (bounded_on_grid prec emax my ey Hb) as GY.
  destruct (canonf_cases prec emax _ Hc) as [[s Ez] | (s & m2 & e2 & Ef & Hb2)].
  - rewrite Ez in *. change (F2Q (S754_zero s)) with 0%Q in Hv.
    exists (Zpos my), ey. split.
    + apply RNE_ext with (inject_Z (Zpos my) * Q2 ey)%Q; [unfold pval; lra|].
      apply (RNE_self prec emax prec_two emax_big). exact GY.
    + intros _. cbn [SFadd]. split; [split; [exact Hb | reflexivity]|].
      rewrite F2Q_finite. reflexivity.
  - rewrite Ef in *. rewrite F2Q_finite in Hv.
    pose proof (mantissa_Q_pos m2 e2) as P2.
    assert (HA0 : (0 <= inject_Z mA * Q2 eA)%Q).
    { apply Qmult_le_0_compat; [|apply Qlt_le_weak, Q2_pos].
      change 0%Q with (inject_Z 0). rewrite <- Zle_Qle. lia. }
    destruct s; [lra|].
    destruct (add_RNE prec emax prec_pos my m2 ey e2) as (mS & eS & Ea & HS).
    exists mS, eS.
    assert (HS' : RNE (pval (Zpos my) ey + inject_Z mA * Q2 eA) mS eS).
    { apply RNE_ext with (2 := HS). unfold pval. rewrite Hv. reflexivity. }
    split; [exact HS'|].
    intros HSlt. rewrite Ea.
    destruct (RNE_range prec emax prec_pos _ _ _ HS) as (R1 & R2 & R3).
    apply (mk_float_value prec emax prec_pos emax_big mS eS R1 R2 R3 HSlt).
Qed.

(** One iteration [0.5 * (y + x / y)] from a float [y] that satisfies the
    invariant: the result is a positive normal float, it satisfies the
    invariant, and its value is the value of the step. *)
Theorem step_float (mx my : positive) (ex ey : Z) :
  bounded prec emax mx ex = true -> bounded prec emax my ey = true ->
  Inv (pval (Zpos mx) ex) (Zpos my) ey ->
  exists mF eF,
    SFmul prec emax half
      (SFadd prec emax (S754_finite false my ey)
         (SFdiv prec emax (S754_finite false mx ex) (S754_finite false my ey)))
    = S754_finite false mF eF /\
    bounded prec emax mF eF = true /\
    Inv (pval (Zpos mx) ex) (Zpos mF) eF /\
    StepV (pval (Zpos mx) ex) (pval (Zpos my) ey) (pval (Zpos mF) eF).
Proof using prec_big emax_room emax_even.
  intros Hbx Hby HI.
  pose proof (bounded_on_grid prec emax mx ex Hbx) as GX.
  destruct (bounded_Q prec emax mx ex Hbx) as (_ & _ & Hmax & _).
  assert (HX : 0 < Zpos mx) by lia.
  destruct (div_RNE prec emax prec_pos mx my ex ey) as (mA & eA & Ed & HA).
  destruct (RNE_range prec emax prec_pos _ _ _ HA) as (R1 & R2 & R3).
  assert (Hhc : hc + 2 < emax) by lia.
  (* the quotient does not overflow *)
  assert (HAlt : (inject_Z mA * Q2 eA < Q2 emax)%Q).
  { destruct (RNE_sum_exists prec emax prec_two (Zpos my) ey mA eA ltac:(lia) ltac:(lia))
      as (mS0 & eS0 & HS0).
    destruct (step_sum_bounds prec emax hc prec_big emax_even emax_room
                (Zpos mx) ex (Zpos my) ey mA eA mS0 eS0 GX HX Hmax HI HA HS0) as (H1 & _).
    apply Qle_lt_trans with (1 := H1). apply Q2_lt. lia. }
  destruct (add_quotient my ey mA eA Hby R1 R2 R3 HAlt) as (mS & eS & HS & Hsum).
  destruct (step_sum_bounds prec emax hc prec_big emax_even emax_room
              (Zpos mx) ex (Zpos my) ey mA eA mS eS GX HX Hmax HI HA HS) as (_ & HyS & HSu).
  destruct Hsum as [Hc Hv]; [apply Qle_lt_trans with (1 := HSu); apply Q2_lt; lia|].
  rewrite <- Ed in Hc, Hv.
  pose proof HI as ([HY He] & Hlt & _).
  pose proof (Inv_exp_lower prec emax hc prec_big emax_even emax_room
                (Zpos mx) ex (Zpos my) ey GX HX (conj HY He) Hlt) as He2.
  destruct (normal_pval_bounds prec emax prec_two (Zpos my) ey (conj HY He)) as [Hyl _].
  destruct (canon_normal _ ey Hc ltac:(rewrite Hv; lra) He) as (m3 & e3 & E3 & Hb3 & Hd3 & He3).
  destruct (half_value prec emax prec_pos emax_big ltac:(lia)) as [Hhc' Hhv].
  rewrite E3.
  rewrite (halve_exact prec emax prec_pos emax_big _ m3 e3 Hhc' Hhv Hb3 Hd3 ltac:(lia)).
  exists m3, (e3 - 1). split; [reflexivity|].
  assert (Hb : bounded prec emax m3 (e3 - 1) = true).
  { apply bounded_iff. apply bounded_iff in Hb3. destruct Hb3 as [_ Hb3]. split; [right|]; lia. }
  assert (NF : normal_pair (Zpos m3) (e3 - 1)).
  { pose proof (digits2_bounds m3) as Hdb. rewrite Hd3 in Hdb. split; [exact Hdb | lia]. }
  assert (EF : (pval (Zpos m3) (e3 - 1) == (1 # 2) * (inject_Z mS * Q2 eS))%Q).
  { rewrite <- Hv, E3, F2Q_finite. unfold pval.
    replace e3 with ((e3 - 1) + 1) at 2 by lia. rewrite Q2_succ. ring. }
  split; [exact Hb|]. split.
  - apply (step_invariant prec emax hc prec_big emax_even emax_room
             (Zpos mx) ex (Zpos my) ey mA eA mS eS GX HX Hmax HI HA HS _ _ NF EF).
  - exists mA, eA, mS, eS. split; [exact HA|]. split; [exact HS | exact EF].
Qed.

End StepFloat.

(** ** Bit patterns of positive floats *)

Lemma land_shifted_low (a r k : Z) :
  0 <= k -> 0 <= r < 2 ^ k -> Z.land (a * 2 ^ k) r = 0.
Proof.
  intros Hk Hr. apply Z.bits_inj'. intros n Hn.
  rewrite Z.land_spec, Z.bits_0.
  destruct (Z.lt_ge_cases n k) as [H | H].
  - rewrite Z.mul_pow2_bits_low by lia. reflexivity.
  - replace (Z.testbit r n) with false; [apply andb_false_r|].
    symmetry. destruct (Z.eq_dec r 0) as [-> | Hr0]; [apply Z.bits_0|].
    apply Z.bits_above_log2; [lia|].
    apply Z.log2_lt_pow2; [lia|].
    apply Z.lt_le_trans with (2 ^ k); [lia|]. apply Z.pow_le_mono_r; lia.
Qed.

Lemma lor_shifted_low (a r k : Z) :
  0 <= k -> 0 <= r < 2 ^ k -> Z.lor (Z.shiftl a k) r = a * 2 ^ k + r.
Proof.
  intros Hk Hr. rewrite Z.shiftl_mul_pow2 by exact Hk.
  pose proof (land_shifted_low a r k Hk Hr) as H.
  rewrite <- (Z.lxor_lor _ _ H). symmetry. apply Z.add_nocarry_lxor. exact H.
Qed.

Lemma width_facts (w : Width) :
  3 <= prec w /\ emax w = 2 * half_emax w /\ prec w + 5 <= emax w /\
  mant_bits w = prec w - 1 /\ exp_bias w = emax w - 1 /\
  exp_field_max w = Z.ones (nbits w - prec w) /\
  2 ^ (nbits w - prec w) = 2 * emax w /\
  nbits w - 1 = (nbits w - prec w) + mant_bits w /\
  sqrt_magic w = (emax w - 1) * 2 ^ (prec w - 2) /\
  0 < nbits w - prec w.
Proof. destruct w; repeat split; try reflexivity; cbn; lia. Qed.

(** The bit pattern of a positive float is its position among the floats. *)
Lemma to_bits_pos (w : Width) (m : positive) (e : Z) :
  bounded (prec w) (emax w) m e = true ->
  to_bits w (S754_finite false m e)
  = (e - emin (prec w) (emax w)) * 2 ^ (prec w - 1) + Zpos m.
Proof.
  intros Hb. destruct (width_facts w) as (Hp & _ & _ & Hmb & Hbias & _).
  unfold to_bits. change (sign_bit w false) with 0. rewrite !Z.lor_0_l.
  apply bounded_iff in Hb. destruct Hb as [Hc He].
  pose proof (digits2_bounds m) as [Hl Hu].
  destruct (Z.eqb_spec (Zpos (digits2_pos m)) (prec w)) as [E | E].
  - rewrite E in Hl, Hu. rewrite Hmb, Hbias.
    assert (P : 2 ^ prec w = 2 * 2 ^ (prec w - 1)).
    { replace (prec w) with ((prec w - 1) + 1) at 1 by lia. rewrite Z.pow_add_r; lia. }
    rewrite (Z.shiftl_mul_pow2 1) by lia. rewrite Z.mul_1_l.
    rewrite lor_shifted_low by lia.
    unfold SpecFloat.emin. lia.
  - destruct Hc as [[-> _] | [_ Hd]]; [lia | contradiction].
Qed.

(** Decoding the bit pattern of a positive normal float. *)
Lemma of_bits_normal (w : Width) (q f : Z) :
  0 < q < 2 * emax w - 1 -> 0 <= f < 2 ^ (prec w - 1) ->
  of_bits w (q * 2 ^ (prec w - 1) + f)
  = S754_finite false (Z.to_pos (f + 2 ^ (prec w - 1))) (q + emin (prec w) (emax w) - 1).
Proof.
  intros Hq Hf.
  destruct (width_facts w) as (Hp & _ & _ & Hmb & Hbias & Hfm & Hpe & Hnb & _ & Heb).
  set (b := q * 2 ^ (prec w - 1) + f).
  assert (P0 : 0 < 2 ^ (prec w - 1)) by (apply Z.pow_pos_nonneg; lia).
  assert (Hb0 : 0 <= b) by (unfold b; nia).
  unfold of_bits. rewrite Hfm, Hbias, Hnb, Hmb.
  assert (Hs : Z.testbit b (nbits w - prec w + (prec w - 1)) = false).
  { destruct (Z.eq_dec b 0) as [E | E]; [rewrite E; apply Z.bits_0|].
    apply Z.bits_above_log2; [lia|]. apply Z.log2_lt_pow2; [lia|].
    rewrite Z.pow_add_r, Hpe by lia. unfold b. nia. }
  assert (HE : Z.land (Z.shiftr b (prec w - 1)) (Z.ones (nbits w - prec w)) = q).
  { rewrite Z.shiftr_div_pow2 by lia. unfold b.
    rewrite Z.div_add_l by lia. rewrite (Z.div_small f) by lia. rewrite Z.add_0_r.
    rewrite Z.land_ones by lia. apply Z.mod_small. lia. }
  assert (HF : Z.land b (Z.ones (prec w - 1)) = f).
  { rewrite Z.land_ones by lia. unfold b.
    rewrite Z.add_comm, Z.mod_add by lia. apply Z.mod_small. lia. }
  rewrite Hs, HE, HF. cbv zeta.
  destruct (Z.eqb_spec q 0) as [E | _]; [lia|].
  destruct (Z.eqb_spec q (Z.ones (nbits w - prec w))) as [E | _].
  { rewrite Z.ones_equiv, Hpe in E. lia. }
  rewrite Z.lor_comm, lor_shifted_low by lia. rewrite Z.mul_1_l.
  destruct (2 ^ (prec w - 1) + f) as [|p|p] eqn:E; [lia | | lia].
  f_equal.
  - rewrite Z.add_comm, E. reflexivity.
  - unfold SpecFloat.emin. lia.
Qed.

Lemma digits_of_bounds (m : positive) (p : Z) :
  2 ^ (p - 1) <= Zpos m < 2 ^ p -> Zpos (digits2_pos m) = p.
Proof.
  intros [Hl Hu]. pose proof (digits2_bounds m) as [Dl Du].
  set (d := Zpos (digits2_pos m)) in *. assert (Hd : 0 < d) by (unfold d; lia).
  assert (Hp : 0 < p).
  { destruct (Z.lt_ge_cases 0 p) as [H | H]; [exact H | exfalso].
    destruct (Z.eq_dec p 0) as [-> | Hn]; [cbn in Hu; lia|].
    rewrite Z.pow_neg_r in Hu by lia. lia. }
  destruct (Z.lt_trichotomy d p) as [H | [H | H]]; [exfalso | exact H | exfalso].
  - assert (2 ^ d <= 2 ^ (p - 1)) by (apply Z.pow_le_mono_r; lia). lia.
  - assert (2 ^ p <= 2 ^ (d - 1)) by (apply Z.pow_le_mono_r; lia). lia.
Qed.

Lemma pval_sq_lt (m ex Y1 e0 K : Z) :
  0 <= K -> ex = 2 * e0 + K -> m * 2 ^ K < Y1 * Y1 ->
  (pval m ex < pval Y1 e0 * pval Y1 e0)%Q.
Proof.
  intros HK -> Hlt. unfold pval.
  rewrite (grid_multiple m (2 * e0 + K) (2 * e0)) by lia.
  replace (2 * e0 + K - 2 * e0) with K by lia.
  setoid_replace (inject_Z Y1 * Q2 e0 * (inject_Z Y1 * Q2 e0))%Q
    with (inject_Z (Y1 * Y1) * Q2 (2 * e0))%Q.
  - apply Qmult_lt_compat_r; [apply Q2_pos | rewrite <- Zlt_Qlt; exact Hlt].
  - replace (2 * e0) with (e0 + e0) by lia. rewrite Q2_add, inject_Z_mult. ring.
Qed.

Lemma sqrtInitialGuess_bits (w : Width) (x : float) :
  sqrtInitialGuess w x = of_bits w (wrap w (Z.shiftr (to_bits w x) 1 + sqrt_magic w)).
Proof. destruct w; reflexivity. Qed.

(** The initial guess of a positive float is a normal float that satisfies
    the invariant, at the position given by the halved bit pattern. *)
Theorem initial_guess (w : Width) (mx : positive) (ex : Z) :
  bounded (prec w) (emax w) mx ex = true ->
  exists Y0 e0,
    sqrtInitialGuess w (S754_finite false mx ex) = S754_finite false (Z.to_pos Y0) e0 /\
    bounded (prec w) (emax w) (Z.to_pos Y0) e0 = true /\
    sqrt_invariant (prec w) (emax w) (half_emax w) (pval (Zpos mx) ex) Y0 e0 /\
    pidx (prec w) Y0 e0
    = to_bits w (S754_finite false mx ex) / 2 + sqrt_magic w
      + emin (prec w) (emax w) * 2 ^ (prec w - 1).
Proof.
  intros Hb.
  destruct (width_facts w) as (Hp & Hemax & Hroom & Hmb & Hbias & Hfm & Hpe & Hnb & Hmagic & Heb).
  rewrite sqrtInitialGuess_bits, (to_bits_pos w mx ex Hb), Hmagic.
  set (p := prec w) in *. set (hc := half_emax w) in *.
  set (emin := SpecFloat.emin p (emax w)).
  assert (Emin : emin = 3 - 2 * hc - p) by (unfold emin, SpecFloat.emin; lia).
  set (h := 2 ^ (p - 2)).
  assert (Hh : 2 <= h).
  { unfold h. change 2 with (2 ^ 1) at 1. apply Z.pow_le_mono_r; lia. }
  assert (EH : 2 ^ (p - 1) = 2 * h).
  { unfold h. replace (p - 1) with ((p - 2) + 1) by lia. rewrite Z.pow_add_r; lia. }
  assert (EP : 2 ^ p = 4 * h).
  { replace p with ((p - 1) + 1) at 1 by lia. rewrite Z.pow_add_r, EH; lia. }
  assert (EN : 2 ^ nbits w = 16 * hc * h).
  { replace (nbits w) with ((nbits w - p) + p) by lia.
    rewrite Z.pow_add_r, Hpe, EP by lia. lia. }
  pose proof Hb as Hb'. apply bounded_iff in Hb'. fold p in Hb'. fold emin in Hb'.
  destruct Hb' as [Hcan Hex].
  pose proof (digits2_bounds mx) as [Dl Du].
  set (m := Zpos mx) in *. set (t := ex - emin).
  assert (Ht : 0 <= t <= 4 * hc - 3) by (unfold t; lia).
  assert (Hm : 0 < m < 4 * h).
  { split; [unfold m; lia|]. rewrite <- EP.
    apply Z.lt_le_trans with (1 := Du). apply Z.pow_le_mono_r; lia. }
  rewrite EH. rewrite Z.shiftr_div_pow2 by lia. change (2 ^ 1) with 2.
  assert (Ediv : (t * (2 * h) + m) / 2 = h * t + m / 2).
  { replace (t * (2 * h) + m) with (m + (h * t) * 2) by lia.
    rewrite Z.div_add by lia. lia. }
  rewrite Ediv.
  assert (Hm2 : 0 <= m / 2 < 2 * h) by (split; [apply Z.div_pos; lia | apply Z.div_lt_upper_bound; lia]).
  assert (Hs2 : m + 1 <= 2 * (m / 2 + 1)) by (pose proof (Z.mod_pos_bound m 2); pose proof (Z.div_mod m 2); lia).
  (* the sum does not wrap *)
  assert (Hht : 0 <= h * t <= h * (4 * hc - 3)) by (split; [nia | apply Z.mul_le_mono_nonneg_l; lia]).
  assert (Hhhc : 4 * h <= h * hc) by nia.
  unfold wrap. rewrite Z.mod_small by (rewrite EN; nia).
  (* the three shapes of the halved pattern *)
  assert (Hcase : exists q f K,
             h * t + m / 2 + (2 * hc - 1) * h = q * (2 * h) + f /\
             hc - 1 <= q <= 3 * hc - 2 /\ 0 <= f < 2 * h /\
             0 <= K /\ ex = 2 * (q + emin - 1) + K /\
             m * 2 ^ K < (f + 2 * h + 1) * (f + 2 * h + 1)).
  { destruct (Z.lt_ge_cases m (2 * h)) as [Hsub | Hnorm].
    - (* subnormal *)
      assert (t = 0).
      { destruct Hcan as [[E _] | [_ E]]; [unfold t; lia|].
        rewrite E in Dl. fold m in Dl. lia. }
      exists (hc - 1), (h + m / 2), (p + 1).
      assert (m / 2 < h) by (apply Z.div_lt_upper_bound; lia).
      split; [nia|]. split; [lia|]. split; [lia|]. split; [lia|]. split; [unfold t in *; lia|].
      replace (p + 1) with (1 + p) by lia. rewrite Z.pow_add_r, EP by lia. change (2 ^ 1) with 2.
      set (s := m / 2 + 1) in *.
      assert (0 <= (9 * h - s) * (h - s)) by (apply Z.mul_nonneg_nonneg; lia).
      nia.
    - destruct (Z.eq_dec (t mod 2) 0) as [Hev | Hodd].
      + (* normal, even exponent *)
        exists (t / 2 + hc), (m / 2 - h), (p - 1).
        assert (h <= m / 2) by (apply Z.div_le_lower_bound; lia).
        pose proof (Z.div_mod t 2 ltac:(lia)) as Et.
        split; [nia|]. split; [lia|]. split; [lia|]. split; [lia|]. split; [unfold t in *; lia|].
        rewrite EH. set (s := m / 2 + 1) in *.
        replace (m / 2 - h + 2 * h + 1) with (h + s) by (unfold s; lia).
        assert (0 <= (h - s) * (h - s)) by apply Z.square_nonneg.
        nia.
      + (* normal, odd exponent *)
        exists (t / 2 + hc), (m / 2), p.
        assert (h <= m / 2) by (apply Z.div_le_lower_bound; lia).
        pose proof (Z.div_mod t 2 ltac:(lia)) as Et.
        pose proof (Z.mod_pos_bound t 2 ltac:(lia)).
        split; [nia|]. split; [lia|]. split; [lia|]. split; [lia|]. split; [unfold t in *; lia|].
        rewrite EP. set (s := m / 2 + 1) in *.
        replace (m / 2 + 2 * h + 1) with (2 * h + s) by (unfold s; lia).
        assert (0 <= (2 * h - s) * (2 * h - s)) by apply Z.square_nonneg.
        nia. }
  destruct Hcase as (q & f & K & En & Hq & Hf & HK & EK & Hsq).
  replace ((emax w - 1) * h) with ((2 * hc - 1) * h) by (rewrite Hemax; reflexivity).
  rewrite En, <- EH.
  pose proof (of_bits_normal w q f ltac:(fold p; lia) ltac:(fold p; lia)) as Hob.
  fold p in Hob. fold emin in Hob. rewrite Hob.
  exists (f + 2 ^ (p - 1)), (q + emin - 1).
  assert (NY : normal_pair p (emax w) (f + 2 ^ (p - 1)) (q + emin - 1)).
  { split; [lia | fold emin; lia]. }
  split; [reflexivity|]. split; [|split].
  - apply bounded_iff. fold emin. split; [right; split; [lia|] | lia].
    apply digits_of_bounds. rewrite Z2Pos.id by lia. lia.
  - split; [exact NY|]. split.
    + apply (pval_sq_lt m ex _ (q + emin - 1) K HK EK). rewrite EH. 
      replace (f + 2 * h + 1) with (f + 2 * h + 1) by lia. exact Hsq.
    + destruct (normal_pval_bounds p (emax w) ltac:(lia) _ _ NY) as [_ HU].
      rewrite pval_succ in HU. pose proof (Q2_pos (q + emin - 1)).
      assert (Q2 (p + (q + emin - 1)) <= Q2 (hc + 1))%Q by (apply Q2_le; lia).
      lra.
  - unfold pidx. rewrite EH in *. lia.
Qed.

(** ** The iteration is monotone *)

Section Iterate.
Variables prec emax hc : Z.
Hypothesis prec_big : 3 <= prec.
Hypothesis emax_even : emax = 2 * hc.
Hypothesis emax_room : prec + 5 <= emax.

Local Abbreviation emin := (SpecFloat.emin prec emax).
Local Abbreviation on_grid := (on_grid prec emax).
Local Abbreviation normal_pair := (normal_pair prec emax).
Local Abbreviation StepV := (StepV prec emax).
Local Abbreviation Inv := (sqrt_invariant prec emax hc).
Local Abbreviation bounded := (bounded prec emax).
Local Abbreviation half := (SFdiv prec emax (S754_finite false 1 0) (S754_finite false 2 0)).
Local Abbreviation bstep x := (fun y => SFmul prec emax half (SFadd prec emax y (SFdiv prec emax x y))).

Local Abbreviation prec_two := (prec_three_two prec prec_big).
Local Abbreviation emax_big := (emax_room_big prec emax emax_room).

(** The order of the floats is the order of their positions. *)
Lemma grid_position_le (m e m' e' : Z) :
  on_grid m e -> on_grid m' e' -> (pval m e <= pval m' e')%Q ->
  (e - emin) * 2 ^ (prec - 1) + m <= (e' - emin) * 2 ^ (prec - 1) + m'.
Proof using prec_big.
  intros G G' H.
  pose proof (pow2_prec prec prec_two) as PP. pose proof (pow2_prec_pos prec prec_two) as P1.
  pose proof G as (He & Hm & Hn). pose proof G' as (He' & Hm' & Hn').
  set (H2 := 2 ^ (prec - 1)) in *.
  destruct (Z.lt_trichotomy e e') as [Hlt | [Heq | Hgt]].
  - assert ((e - emin + 1) * H2 <= (e' - emin) * H2) by (apply Z.mul_le_mono_nonneg_r; lia).
    specialize (Hn' ltac:(lia)). lia.
  - subst e'. assert (m <= m') by (apply (Zle_Q_mult _ _ e); exact H). lia.
  - exfalso.
    pose proof (on_grid_lower prec emax ltac:(lia) m e G ltac:(lia)) as Hl.
    pose proof (on_grid_upper prec emax ltac:(lia) m' e' G') as Hu.
    rewrite inject_Z_plus in Hu. change (inject_Z 1) with 1%Q in Hu.
    pose proof (Q2_pos e').
    assert (Q2 (prec + e') <= Q2 (prec - 1 + e))%Q by (apply Q2_le; lia).
    unfold pval in H. lra.
Qed.

Lemma pval_le_of_pidx (Y e Y' e' : Z) :
  normal_pair Y e -> normal_pair Y' e' -> pidx prec Y e <= pidx prec Y' e' ->
  (pval Y e <= pval Y' e')%Q.
Proof using prec_big.
  intros N N' H.
  destruct (Qlt_le_dec (pval Y' e') (pval Y e)) as [Hlt | Hle]; [exfalso | exact Hle].
  pose proof (pidx_le prec emax prec_two Y' e' Y e N' N (Qlt_le_weak _ _ Hlt)) as H'.
  destruct (pidx_inj prec emax prec_two Y e Y' e' N N' ltac:(lia)) as [-> ->]. lra.
Qed.

Theorem iterate_mono (n : nat) :
  forall (mx mx' my my' : positive) (ex ex' ey ey' : Z),
    bounded mx ex = true -> bounded mx' ex' = true ->
    bounded my ey = true -> bounded my' ey' = true ->
    Inv (pval (Zpos mx) ex) (Zpos my) ey -> Inv (pval (Zpos mx') ex') (Zpos my') ey' ->
    (pval (Zpos mx) ex <= pval (Zpos mx') ex')%Q ->
    (pval (Zpos my) ey <= pval (Zpos my') ey')%Q ->
    exists mF eF mF' eF',
      repeat_n n (bstep (S754_finite false mx ex)) (S754_finite false my ey)
      = S754_finite false mF eF /\
      repeat_n n (bstep (S754_finite false mx' ex')) (S754_finite false my' ey')
      = S754_finite false mF' eF' /\
      bounded mF eF = true /\ bounded mF' eF' = true /\
      (pval (Zpos mF) eF <= pval (Zpos mF') eF')%Q.
Proof using prec_big emax_room emax_even.
  induction n as [|n IH]; intros mx mx' my my' ex ex' ey ey' Bx Bx' By By' I I' Hx Hy.
  - exists my, ey, my', ey'. cbn [repeat_n]. repeat split; assumption.
  - cbn [repeat_n].
    destruct (step_float prec emax hc prec_big emax_even emax_room mx my ex ey Bx By I)
      as (mF & eF & -> & BF & IF & SF).
    destruct (step_float prec emax hc prec_big emax_even emax_room mx' my' ex' ey' Bx' By' I')
      as (mF' & eF' & -> & BF' & IF' & SF').
    apply IH; try assumption.
    (* through the step from [y'] at [x] *)
    destruct (StepV_exists prec emax prec_two (Zpos mx) ex (Zpos my') ey' ltac:(lia) ltac:(lia))
      as (f & Sf).
    destruct I as (N & Hlt & _). destruct I' as (N' & _).
    apply Qle_trans with f.
    + apply (StepV_mono_y prec emax prec_two emax_big (Zpos mx) ex (Zpos my) ey (Zpos my') ey'
               (pval (Zpos mF) eF) f); try assumption; [|lia].
      apply bounded_on_grid. exact Bx.
    + apply (StepV_mono_x prec emax prec_two (pval (Zpos mx) ex) (pval (Zpos mx') ex')
               (pval (Zpos my') ey') f (pval (Zpos mF') eF')); try assumption.
      apply pval_pos. lia.
Qed.

End Iterate.

(** ** [Sqrt] is monotone *)

Lemma Sqrt_kernel_all (w : Width) (prec : Precision) :
  exists n : nat, forall x, Sqrt w x prec = sqrtBabylonian w x n.
Proof.
  unfold Sqrt.
  destruct (selectImpl_cases (sqrtFast w) (sqrtBalanced w) (sqrtHigh w) prec)
    as [-> | [-> | ->]]; eexists; intros x; reflexivity.
Qed.

Lemma to_f64_finite (w : Width) (x : float) :
  valid w x = true -> is_finite x = true -> is_finite (to_f64 w x) = true.
Proof.
  intros Hv Hf. destruct w; [|exact Hf].
  destruct (widen_exact x Hv Hf) as [[_ H] _]. exact H.
Qed.

(** On a positive float the kernel is the iteration from the initial
    guess. *)
Lemma sqrtBabylonian_pos (w : Width) (mx : positive) (ex : Z) (n : nat) :
  bounded (prec w) (emax w) mx ex = true ->
  sqrtBabylonian w (S754_finite false mx ex) n
  = repeat_n n
      (fun y => SFmul (prec w) (emax w)
                  (SFdiv (prec w) (emax w) (S754_finite false 1 0) (S754_finite false 2 0))
                  (SFadd (prec w) (emax w) y
                     (SFdiv (prec w) (emax w) (S754_finite false mx ex) y)))
      (sqrtInitialGuess w (S754_finite false mx ex)).
Proof.
  intros Hb. unfold sqrtBabylonian.
  change (eqb (S754_finite false mx ex) pZero) with false.
  change (ltb (S754_finite false mx ex) pZero) with false.
  rewrite neb_refl_finite by reflexivity.
  rewrite IsInf_finite by (apply to_f64_finite; [exact Hb | reflexivity]).
  cbv iota zeta.
  destruct (initial_guess w mx ex Hb) as (Y0 & e0 & -> & _).
  change (eqb (S754_finite false (Z.to_pos Y0) e0) pZero) with false.
  reflexivity.
Qed.

Lemma sqrtBabylonian_zero (w : Width) (s : bool) (n : nat) :
  sqrtBabylonian w (S754_zero s) n = pZero.
Proof. reflexivity. Qed.

(** C7: for every precision tier and finite [a], [b] of the width with
    [0 <= a <= b], the approximate square roots are in the same order:
    [Sqrt a <= Sqrt b]. *)
Theorem Sqrt_monotone (w : Width) (prec : Precision) (a b : float) :
  valid w a = true -> valid w b = true ->
  is_finite a = true -> is_finite b = true ->
  leb pZero a = true -> leb a b = true ->
  leb (Sqrt w a prec) (Sqrt w b prec) = true.
Proof.
  intros Va Vb Fa Fb H0 Hab.
  destruct (Sqrt_kernel_all w prec) as [n Hn]. rewrite !Hn.
  destruct (width_facts w) as (Hp & Hemax & Hroom & _).
  destruct a as [sa | sa | | sa ma ea]; try discriminate;
    destruct b as [sb | sb | | sb mb eb]; try discriminate.
  - reflexivity.
  - destruct sb; [discriminate|].
    rewrite sqrtBabylonian_zero, (sqrtBabylonian_pos w mb eb n Vb).
    destruct (initial_guess w mb eb Vb) as (Y0 & e0 & -> & B0 & I0 & _).
    assert (HY0 : 0 < Y0) by (destruct I0 as ([HY _] & _); pose proof (pow2_prec_pos (GoFloat.prec w) ltac:(lia)); lia).
    rewrite <- (Z2Pos.id Y0 HY0) in I0.
    destruct (iterate_mono (GoFloat.prec w) (emax w) (half_emax w) Hp Hemax Hroom n
                mb mb (Z.to_pos Y0) (Z.to_pos Y0) eb eb e0 e0 Vb Vb B0 B0 I0 I0
                (Qle_refl _) (Qle_refl _)) as (mF & eF & _ & _ & -> & _).
    reflexivity.
  - destruct sa; discriminate.
  - destruct sa; [discriminate|]. destruct sb; [discriminate|].
    assert (Ca : canonf (GoFloat.prec w) (emax w) (S754_finite false ma ea)) by (split; [exact Va | reflexivity]).
    assert (Cb : canonf (GoFloat.prec w) (emax w) (S754_finite false mb eb)) by (split; [exact Vb | reflexivity]).
    apply (SFleb_Q _ _ _ _ Ca Cb) in Hab. rewrite !F2Q_finite in Hab.
    rewrite (sqrtBabylonian_pos w ma ea n Va), (sqrtBabylonian_pos w mb eb n Vb).
    destruct (initial_guess w ma ea Va) as (Y0 & e0 & -> & B0 & I0 & P0).
    destruct (initial_guess w mb eb Vb) as (Y1 & e1 & -> & B1 & I1 & P1).
    assert (HY0 : 0 < Y0) by (destruct I0 as ([HY _] & _); pose proof (pow2_prec_pos (GoFloat.prec w) ltac:(lia)); lia).
    assert (HY1 : 0 < Y1) by (destruct I1 as ([HY _] & _); pose proof (pow2_prec_pos (GoFloat.prec w) ltac:(lia)); lia).
    assert (Hy : (pval Y0 e0 <= pval Y1 e1)%Q).
    { destruct I0 as (N0 & _). destruct I1 as (N1 & _).
      apply (pval_le_of_pidx (GoFloat.prec w) (emax w) Hp); try assumption.
      rewrite P0, P1, !to_bits_pos by assumption.
      pose proof (grid_position_le (GoFloat.prec w) (emax w) Hp (Zpos ma) ea (Zpos mb) eb
                    (bounded_on_grid _ _ _ _ Va) (bounded_on_grid _ _ _ _ Vb) Hab) as Hpos.
      apply Z.add_le_mono_r. apply Z.add_le_mono_r. apply Z.div_le_mono; [lia | exact Hpos]. }
    rewrite <- (Z2Pos.id Y0 HY0) in I0, Hy. rewrite <- (Z2Pos.id Y1 HY1) in I1, Hy.
    destruct (iterate_mono (GoFloat.prec w) (emax w) (half_emax w) Hp Hemax Hroom n
                ma mb (Z.to_pos Y0) (Z.to_pos Y1) ea eb e0 e1 Va Vb B0 B1 I0 I1 Hab Hy)
      as (mF & eF & mF' & eF' & -> & -> & BF & BF' & HF).
    apply (SFleb_Q (GoFloat.prec w) (emax w)).
    + split; [exact BF | reflexivity].
    + split; [exact BF' | reflexivity].
    + rewrite !F2Q_finite. exact HF.
Qed.

Lemma Sqrt_monotone_witness :
  leb (Sqrt F32 (S754_finite false 8388608 (-22)) PrecisionFast)
      (Sqrt F32 (S754_finite false 12582912 (-22)) PrecisionFast) = true /\
  leb (Sqrt F64 (S754_finite false 4503599627370496 (-51)) PrecisionHigh)
      (Sqrt F64 (S754_finite false 6755399441055744 (-51)) PrecisionHigh) = true.
Proof.
  split.
  - apply (Sqrt_monotone F32 PrecisionFast
             (S754_finite false 8388608 (-22)) (S754_finite false 12582912 (-22)));
      reflexivity.
  - apply (Sqrt_monotone F64 PrecisionHigh
             (S754_finite false 4503599627370496 (-51)) (S754_finite false 6755399441055744 (-51)));
      reflexivity.
Defined.

(** * Further properties of the kernels *)

(** ** The square root of a positive float *)

Section IterateInv.
Variables prec emax hc : Z.
Hypothesis prec_big : 3 <= prec.
Hypothesis emax_even : emax = 2 * hc.
Hypothesis emax_room : prec + 5 <= emax.

Local Abbreviation Inv := (sqrt_invariant prec emax hc).
Local Abbreviation bounded := (bounded prec emax).
Local Abbreviation half := (SFdiv prec emax (S754_finite false 1 0) (S754_finite false 2 0)).
Local Abbreviation bstep x := (fun y => SFmul prec emax half (SFadd prec emax y (SFdiv prec emax x y))).

(** The invariant holds after every number of iterations. *)
Lemma iterate_invariant (n : nat) :
  forall (mx my : positive) (ex ey : Z),
    bounded mx ex = true -> bounded my ey = true ->
    Inv (pval (Zpos mx) ex) (Zpos my) ey ->
    exists mF eF,
      repeat_n n (bstep (S754_finite false mx ex)) (S754_finite false my ey)
      = S754_finite false mF eF /\
      bounded mF eF = true /\ Inv (pval (Zpos mx) ex) (Zpos mF) eF.
Proof using prec_big emax_room emax_even.
  induction n as [|n IH]; intros mx my ex ey Bx By I.
  - exists my, ey. cbn [repeat_n]. split; [reflexivity | split; assumption].
  - cbn [repeat_n].
    destruct (step_float prec emax hc prec_big emax_even emax_room mx my ex ey Bx By I)
      as (mF & eF & -> & BF & IF & _).
    apply IH; assumption.
Qed.

End IterateInv.

Lemma gtb_zero_positive (x : float) :
  is_finite x = true -> gtb x pZero = true -> exists m e, x = S754_finite false m e.
Proof.
  intros Hf Hp. destruct x as [s | s | | s m e]; try discriminate.
  destruct s; [discriminate|]. eauto.
Qed.

(** X1: for a positive finite [x], [Sqrt] returns a positive normal float [r]
    of the width, and [r] is not below the largest float under the square
    root of [x]: with [2^e] the unit in the last place of [r],
    [x < (r + 2^e)^2]. *)
Theorem Sqrt_positive_lower_bound (w : Width) (prec : Precision) (x : float) :
  valid w x = true -> is_finite x = true -> gtb x pZero = true ->
  exists m e,
    Sqrt w x prec = S754_finite false m e /\
    valid w (S754_finite false m e) = true /\
    Zpos (digits2_pos m) = GoFloat.prec w /\
    (F2Q x < (F2Q (S754_finite false m e) + Q2 e) * (F2Q (S754_finite false m e) + Q2 e))%Q.
Proof.
  intros Vx Fx Px.
  destruct (gtb_zero_positive x Fx Px) as (mx & ex & ->).
  destruct (Sqrt_kernel_all w prec) as [n Hn]. rewrite Hn.
  destruct (width_facts w) as (Hp & Hemax & Hroom & _).
  rewrite (sqrtBabylonian_pos w mx ex n Vx).
  destruct (initial_guess w mx ex Vx) as (Y0 & e0 & -> & B0 & I0 & _).
  assert (HY0 : 0 < Y0).
  { destruct I0 as ([HY _] & _). pose proof (pow2_prec_pos (GoFloat.prec w) ltac:(lia)). lia. }
  rewrite <- (Z2Pos.id Y0 HY0) in I0.
  destruct (iterate_invariant (GoFloat.prec w) (emax w) (half_emax w) Hp Hemax Hroom n
              mx (Z.to_pos Y0) ex e0 Vx B0 I0) as (mF & eF & -> & BF & ([HY He] & Hlt & _)).
  exists mF, eF. split; [reflexivity|]. split; [exact BF|]. split.
  - apply digits_of_bounds. exact HY.
  - rewrite !F2Q_finite. rewrite pval_succ in Hlt. exact Hlt.
Qed.

Lemma Sqrt_positive_lower_bound_witness :
  exists m e,
    Sqrt F32 (S754_finite false 8388608 (-22)) PrecisionFast = S754_finite false m e /\
    valid F32 (S754_finite false m e) = true /\
    Zpos (digits2_pos m) = GoFloat.prec F32 /\
    (F2Q (S754_finite false 8388608 (-22))
     < (F2Q (S754_finite false m e) + Q2 e) * (F2Q (S754_finite false m e) + Q2 e))%Q.
Proof.
  apply (Sqrt_positive_lower_bound F32 PrecisionFast (S754_finite false 8388608 (-22)));
    reflexivity.
Defined.

(** ** The initial guess *)

(** X2: whenever [sqrtBabylonian] computes the initial guess (its argument is
    positive and finite), the guess is a positive normal float of the width:
    it is never zero, so the fallback [y = x] is never taken. *)
Theorem sqrtInitialGuess_positive_normal (w : Width) (x : float) :
  valid w x = true -> is_finite x = true -> gtb x pZero = true ->
  exists m e,
    sqrtInitialGuess w x = S754_finite false m e /\
    valid w (S754_finite false m e) = true /\
    Zpos (digits2_pos m) = GoFloat.prec w /\
    eqb (sqrtInitialGuess w x) pZero = false.
Proof.
  intros Vx Fx Px.
  destruct (gtb_zero_positive x Fx Px) as (mx & ex & ->).
  destruct (initial_guess w mx ex Vx) as (Y0 & e0 & E & B0 & ([HY He] & _) & _).
  destruct (width_facts w) as (Hp & _).
  assert (HY0 : 0 < Y0) by (pose proof (pow2_prec_pos (GoFloat.prec w) ltac:(lia)); lia).
  exists (Z.to_pos Y0), e0. rewrite E. split; [reflexivity|]. split; [exact B0|]. split.
  - apply digits_of_bounds. rewrite Z2Pos.id by exact HY0. exact HY.
  - reflexivity.
Qed.

Lemma sqrtInitialGuess_positive_normal_witness :
  exists m e,
    sqrtInitialGuess F64 (S754_finite false 1 (-1074)) = S754_finite false m e /\
    valid F64 (S754_finite false m e) = true /\
    Zpos (digits2_pos m) = GoFloat.prec F64 /\
    eqb (sqrtInitialGuess F64 (S754_finite false 1 (-1074))) pZero = false.
Proof.
  apply (sqrtInitialGuess_positive_normal F64 (S754_finite false 1 (-1074))); reflexivity.
Defined.

(** X3: the initial guess is monotone: a larger positive finite argument gets
    a guess that is not smaller. *)
Theorem sqrtInitialGuess_monotone (w : Width) (a b : float) :
  valid w a = true -> valid w b = true ->
  is_finite a = true -> is_finite b = true ->
  gtb a pZero = true -> leb a b = true ->
  leb (sqrtInitialGuess w a) (sqrtInitialGuess w b) = true.
Proof.
  intros Va Vb Fa Fb Pa Hab.
  destruct (gtb_zero_positive a Fa Pa) as (ma & ea & ->).
  destruct (width_facts w) as (Hp & Hemax & Hroom & _).
  destruct b as [sb | sb | | sb mb eb]; try discriminate.
  destruct sb; [discriminate|].
  assert (Ca : canonf (GoFloat.prec w) (emax w) (S754_finite false ma ea)) by (split; [exact Va | reflexivity]).
  assert (Cb : canonf (GoFloat.prec w) (emax w) (S754_finite false mb eb)) by (split; [exact Vb | reflexivity]).
  apply (SFleb_Q _ _ _ _ Ca Cb) in Hab. rewrite !F2Q_finite in Hab.
  destruct (initial_guess w ma ea Va) as (Y0 & e0 & -> & B0 & (N0 & _) & P0).
  destruct (initial_guess w mb eb Vb) as (Y1 & e1 & -> & B1 & (N1 & _) & P1).
  assert (HY0 : 0 < Y0) by (destruct N0; pose proof (pow2_prec_pos (GoFloat.prec w) ltac:(lia)); lia).
  assert (HY1 : 0 < Y1) by (destruct N1; pose proof (pow2_prec_pos (GoFloat.prec w) ltac:(lia)); lia).
  apply (SFleb_Q (GoFloat.prec w) (emax w)).
  - split; [exact B0 | reflexivity].
  - split; [exact B1 | reflexivity].
  - rewrite !F2Q_finite, !Z2Pos.id by assumption.
    apply (pval_le_of_pidx (GoFloat.prec w) (emax w) Hp); try assumption.
    rewrite P0, P1, !to_bits_pos by assumption.
    pose proof (grid_position_le (GoFloat.prec w) (emax w) Hp (Zpos ma) ea (Zpos mb) eb
                  (bounded_on_grid _ _ _ _ Va) (bounded_on_grid _ _ _ _ Vb) Hab) as Hpos.
    apply Z.add_le_mono_r. apply Z.add_le_mono_r. apply Z.div_le_mono; [lia | exact Hpos].
Qed.

Lemma sqrtInitialGuess_monotone_witness :
  leb (sqrtInitialGuess F32 (S754_finite false 8388608 (-22)))
      (sqrtInitialGuess F32 (S754_finite false 12582912 (-22))) = true.
Proof.
  apply (sqrtInitialGuess_monotone F32 (S754_finite false 8388608 (-22))
           (S754_finite false 12582912 (-22))); reflexivity.
Defined.

(** ** The seed of the inverse square root *)

(** Decoding a bit pattern in the range of the positive normal floats above
    the lowest binade. *)
Lemma of_bits_position (w : Width) (i : Z) :
  2 * 2 ^ (prec w - 1) <= i < (2 * emax w - 1) * 2 ^ (prec w - 1) ->
  exists Y e,
    of_bits w i = S754_finite false (Z.to_pos Y) e /\
    bounded (prec w) (emax w) (Z.to_pos Y) e = true /\
    normal_pair (prec w) (emax w) Y e /\
    pidx (prec w) Y e = i + emin (prec w) (emax w) * 2 ^ (prec w - 1).
Proof.
  intros Hi. destruct (width_facts w) as (Hp & Hemax & Hroom & _).
  set (H := 2 ^ (prec w - 1)) in *.
  assert (HH : 0 < H) by (apply Z.pow_pos_nonneg; lia).
  pose proof (Z.div_mod i H ltac:(lia)) as Ed.
  pose proof (Z.mod_pos_bound i H HH) as Hf.
  assert (Hq1 : 2 <= i / H) by (apply Z.div_le_lower_bound; lia).
  assert (Hq2 : i / H < 2 * emax w - 1) by (apply Z.div_lt_upper_bound; lia).
  exists (i mod H + H), (i / H + emin (prec w) (emax w) - 1).
  assert (N : normal_pair (prec w) (emax w) (i mod H + H) (i / H + emin (prec w) (emax w) - 1)).
  { split; [|lia]. fold H. pose proof (pow2_prec (prec w) ltac:(lia)). fold H in H0. lia. }
  split; [|split; [|split; [exact N|]]].
  - rewrite Ed at 1. rewrite (Z.mul_comm H). apply of_bits_normal; [lia | exact Hf].
  - apply bounded_iff. split; [right; split; [lia|] | unfold SpecFloat.emin; lia].
    apply digits_of_bounds. rewrite Z2Pos.id by lia. destruct N as [N _]. exact N.
  - unfold pidx. fold H. lia.
Qed.

Lemma invSqrtQuake_bits (w : Width) (x : float) :
  invSqrtQuake w x = of_bits w (wrap w (invsqrt_magic w - Z.shiftr (to_bits w x) 1)).
Proof. destruct w; reflexivity. Qed.

Lemma invsqrt_magic_range (w : Width) :
  2 * 2 ^ (prec w - 1) + ((2 * emax w - 1) * 2 ^ (prec w - 1)) / 2 <= invsqrt_magic w /\
  invsqrt_magic w < (2 * emax w - 1) * 2 ^ (prec w - 1) /\
  (2 * emax w - 1) * 2 ^ (prec w - 1) <= 2 ^ nbits w.
Proof.
  destruct w; (split; [|split]);
    (apply Z.leb_le || apply Z.ltb_lt); vm_compute; reflexivity.
Qed.

(** The bit pattern that the seed decodes, for a positive float. *)
Lemma invSqrtQuake_pattern (w : Width) (m : positive) (e : Z) :
  bounded (prec w) (emax w) m e = true ->
  let b := (e - emin (prec w) (emax w)) * 2 ^ (prec w - 1) + Zpos m in
  invSqrtQuake w (S754_finite false m e) = of_bits w (invsqrt_magic w - b / 2) /\
  2 * 2 ^ (prec w - 1) <= invsqrt_magic w - b / 2 < (2 * emax w - 1) * 2 ^ (prec w - 1).
Proof.
  intros Hb b. rewrite invSqrtQuake_bits, (to_bits_pos w m e Hb). fold b.
  rewrite Z.shiftr_div_pow2 by lia. change (2 ^ 1) with 2.
  pose proof Hb as Hb'. apply bounded_iff in Hb'. destruct Hb' as [Hc He].
  pose proof (digits2_bounds m) as [_ Du].
  destruct (width_facts w) as (Hp & Hemax & Hroom & _).
  destruct (invsqrt_magic_range w) as (M1 & M2 & M3).
  set (H := 2 ^ (prec w - 1)) in *.
  assert (HH : 0 < H) by (apply Z.pow_pos_nonneg; lia).
  assert (Hm : Zpos m < 2 * H).
  { unfold H. rewrite <- (pow2_prec (prec w)) by lia.
    apply Z.lt_le_trans with (1 := Du). apply Z.pow_le_mono_r; lia. }
  assert (Ht : 0 <= e - emin (prec w) (emax w) <= 2 * emax w - 3)
    by (unfold SpecFloat.emin in *; lia).
  assert (Hb0 : 0 < b < (2 * emax w - 1) * H).
  { unfold b.
    assert (0 <= (e - emin (prec w) (emax w)) * H) by (apply Z.mul_nonneg_nonneg; lia).
    assert ((e - emin (prec w) (emax w)) * H <= (2 * emax w - 3) * H)
      by (apply Z.mul_le_mono_nonneg_r; lia).
    lia. }
  clearbody b.
  assert (Hb2 : 0 <= b / 2 <= ((2 * emax w - 1) * H) / 2).
  { split; [apply Z.div_pos; lia | apply Z.div_le_mono; lia]. }
  set (M := invsqrt_magic w) in *. set (U := (2 * emax w - 1) * H) in *.
  set (c := b / 2) in *. set (U2 := U / 2) in *.
  split; [|lia].
  unfold wrap. rewrite Z.mod_small by lia. reflexivity.
Qed.

(** X4: for a positive finite argument the seed of [invSqrtQuake] is a positive
    normal float of the width: the subtraction from the magic constant does
    not wrap around and never reaches the bit patterns of zero, of the
    subnormals, of the infinities or of NaN. *)
Theorem invSqrtQuake_positive_normal (w : Width) (x : float) :
  valid w x = true -> is_finite x = true -> gtb x pZero = true ->
  exists m e,
    invSqrtQuake w x = S754_finite false m e /\
    valid w (S754_finite false m e) = true /\
    Zpos (digits2_pos m) = prec w.
Proof.
  intros Vx Fx Px.
  destruct (gtb_zero_positive x Fx Px) as (mx & ex & ->).
  destruct (invSqrtQuake_pattern w mx ex Vx) as [E Hi].
  destruct (of_bits_position w _ Hi) as (Y & e & E' & B & [HY He] & _).
  exists (Z.to_pos Y), e. rewrite E, E'. split; [reflexivity|]. split; [exact B|].
  destruct (width_facts w) as (Hp & _).
  assert (0 < Y) by (pose proof (pow2_prec_pos (prec w) ltac:(lia)); lia).
  apply digits_of_bounds. rewrite Z2Pos.id by assumption. exact HY.
Qed.

Lemma invSqrtQuake_positive_normal_witness :
  exists m e,
    invSqrtQuake F32 (S754_finite false 1 (-149)) = S754_finite false m e /\
    valid F32 (S754_finite false m e) = true /\
    Zpos (digits2_pos m) = prec F32.
Proof.
  apply (invSqrtQuake_positive_normal F32 (S754_finite false 1 (-149))); reflexivity.
Defined.

(** X5: the seed is antitone: a larger positive finite argument gets a seed
    that is not larger. *)
Theorem invSqrtQuake_antitone (w : Width) (a b : float) :
  valid w a = true -> valid w b = true ->
  is_finite a = true -> is_finite b = true ->
  gtb a pZero = true -> leb a b = true ->
  leb (invSqrtQuake w b) (invSqrtQuake w a) = true.
Proof.
  intros Va Vb Fa Fb Pa Hab.
  destruct (gtb_zero_positive a Fa Pa) as (ma & ea & ->).
  destruct (width_facts w) as (Hp & Hemax & Hroom & _).
  destruct b as [sb | sb | | sb mb eb]; try discriminate.
  destruct sb; [discriminate|].
  assert (Ca : canonf (prec w) (emax w) (S754_finite false ma ea)) by (split; [exact Va | reflexivity]).
  assert (Cb : canonf (prec w) (emax w) (S754_finite false mb eb)) by (split; [exact Vb | reflexivity]).
  apply (SFleb_Q _ _ _ _ Ca Cb) in Hab. rewrite !F2Q_finite in Hab.
  destruct (invSqrtQuake_pattern w ma ea Va) as [Ea Hia].
  destruct (invSqrtQuake_pattern w mb eb Vb) as [Eb Hib].
  destruct (of_bits_position w _ Hia) as (Y0 & e0 & E0 & B0 & N0 & P0).
  destruct (of_bits_position w _ Hib) as (Y1 & e1 & E1 & B1 & N1 & P1).
  rewrite Ea, Eb, E0, E1.
  assert (HY0 : 0 < Y0) by (destruct N0; pose proof (pow2_prec_pos (prec w) ltac:(lia)); lia).
  assert (HY1 : 0 < Y1) by (destruct N1; pose proof (pow2_prec_pos (prec w) ltac:(lia)); lia).
  apply (SFleb_Q (prec w) (emax w)).
  - split; [exact B1 | reflexivity].
  - split; [exact B0 | reflexivity].
  - rewrite !F2Q_finite, !Z2Pos.id by assumption.
    apply (pval_le_of_pidx (prec w) (emax w) Hp); try assumption.
    rewrite P0, P1.
    pose proof (grid_position_le (prec w) (emax w) Hp (Zpos ma) ea (Zpos mb) eb
                  (bounded_on_grid _ _ _ _ Va) (bounded_on_grid _ _ _ _ Vb) Hab) as Hpos.
    apply Z.add_le_mono_r. apply Z.sub_le_mono_l. apply Z.div_le_mono; [lia | exact Hpos].
Qed.

Lemma invSqrtQuake_antitone_witness :
  leb (invSqrtQuake F64 (S754_finite false 6755399441055744 (-51)))
      (invSqrtQuake F64 (S754_finite false 4503599627370496 (-51))) = true.
Proof.
  apply (invSqrtQuake_antitone F64 (S754_finite false 4503599627370496 (-51))
           (S754_finite false 6755399441055744 (-51))); reflexivity.
Defined.

(** ** Edge cases of the logarithm *)

(** X6: for every precision value and both widths, [Log] returns [-Inf] at
    both zeros, NaN on every negative argument ([-Inf] included) and [+Inf]
    at [+Inf]. *)
Theorem Log_edge_cases (w : Width) (prec : Precision) :
  Log w pZero prec = nInf /\ Log w nZero prec = nInf /\ Log w pInf prec = pInf /\
  forall x : float, ltb x pZero = true -> Log w x prec = NaN.
Proof.
  split; [reflexivity|]. split; [reflexivity|]. split; [destruct w; reflexivity|].
  intros x Hx. unfold Log.
  assert (Hn : neb x x = false).
  { destruct x as [s | s | | s m e]; try discriminate.
    - destruct s; [reflexivity | discriminate].
    - apply neb_refl_finite. reflexivity. }
  rewrite Hn, (ltb_zero_not_eqb x Hx), Hx. reflexivity.
Qed.

(** ** Precision values *)

(** X7: [normalizePrecision] returns one of Fast, Balanced and High, never Auto
    or an unrecognised value; it is idempotent, it keeps Fast, Balanced and
    High, and [selectImpl] selects the same implementation for a precision
    and for its normal form. *)
Theorem normalizePrecision_normal (p : Precision) :
  (normalizePrecision p = PrecisionFast \/ normalizePrecision p = PrecisionBalanced \/
   normalizePrecision p = PrecisionHigh) /\
  normalizePrecision (normalizePrecision p) = normalizePrecision p /\
  (IsValid p = true -> p <> PrecisionAuto -> normalizePrecision p = p) /\
  forall (A : Type) (fast balanced high : A),
    selectImpl fast balanced high (normalizePrecision p) = selectImpl fast balanced high p.
Proof.
  assert (Hc : normalizePrecision p = PrecisionFast /\ p = PrecisionFast \/
               normalizePrecision p = PrecisionHigh /\ p = PrecisionHigh \/
               normalizePrecision p = PrecisionBalanced /\
               (p = PrecisionBalanced \/ p = PrecisionAuto \/ IsValid p = false)).
  { unfold normalizePrecision, IsValid, PrecisionAuto, PrecisionFast, PrecisionBalanced, PrecisionHigh.
    destruct (Z.eqb_spec p 0) as [-> | H0]; [right; right; auto|].
    destruct (Z.eqb_spec p 1) as [-> | H1]; [left; auto|].
    destruct (Z.eqb_spec p 2) as [-> | H2]; [right; right; auto|].
    destruct (Z.eqb_spec p 3) as [-> | H3]; [right; left; auto|].
    right; right; auto. }
  assert (Hi : normalizePrecision (normalizePrecision p) = normalizePrecision p).
  { destruct Hc as [[-> _] | [[-> _] | [-> _]]]; reflexivity. }
  split; [|split; [exact Hi|split]].
  - destruct Hc as [[-> _] | [[-> _] | [-> _]]]; auto.
  - intros Hv Hn. destruct Hc as [[-> ->] | [[-> ->] | [E [-> | [-> | Hi']]]]]; try reflexivity.
    + now elim Hn.
    + congruence.
  - intros A fast balanced high. unfold selectImpl. rewrite Hi. reflexivity.
Qed.

Lemma normalizePrecision_normal_witness :
  normalizePrecision PrecisionHigh = PrecisionHigh.
Proof.
  apply (proj1 (proj2 (proj2 (normalizePrecision_normal PrecisionHigh)))); [reflexivity|].
  intros H. discriminate H.
Defined.

(** ** Edge cases of [Power] and [Root] *)

Section PowerEdges.
Variable w : Width.
Variables (Exp1 Ln Sqrt2 : float -> float).

(** X8: with a positive base ([+Inf] included), [Power] returns 1 for an
    exponent equal to zero (of either sign) and the base itself for an
    exponent equal to 1, without calling [Exp] or [Ln]; every other exponent,
    NaN included, goes through [Exp(exponent * Ln(base))]. *)
Theorem Power_positive_base (base exponent : float) :
  gtb base pZero = true ->
  (eqb exponent pZero = true -> Power w Exp1 Ln base exponent = lit w 1 1) /\
  (eqb exponent (lit w 1 1) = true -> Power w Exp1 Ln base exponent = base) /\
  (eqb exponent pZero = false -> eqb exponent (lit w 1 1) = false ->
   Power w Exp1 Ln base exponent = Exp1 (mul w exponent (Ln base))).
Proof.
  intros Hb.
  assert (Hle : leb base pZero = false).
  { destruct base as [s | s | | s m e]; try discriminate; destruct s; try discriminate; reflexivity. }
  unfold Power. rewrite Hle.
  split; [intros ->; reflexivity|]. split.
  - intros H1. assert (H0 : eqb exponent pZero = false).
    { destruct exponent as [s | s | | s m e]; try reflexivity; try (destruct s; reflexivity).
      destruct w; discriminate. }
    rewrite H0, H1. reflexivity.
  - intros -> ->. reflexivity.
Qed.

(** X9: [Root] returns NaN for [n = 0], and for a negative value with every
    [n] other than 0 and 1 (odd [n] included); at a zero value of either sign
    it returns [+0] for every [n] other than 0 and 1, negative [n] included;
    for a positive value or NaN, [n = 2] is [Sqrt2] and every other [n] is
    [Power(value, 1/n)]. *)
Theorem Root_edge_cases (value : float) (n : Z) :
  Root w Exp1 Ln Sqrt2 value 0 = NaN /\
  (n <> 0 -> n <> 1 -> ltb value pZero = true -> Root w Exp1 Ln Sqrt2 value n = NaN) /\
  (n <> 0 -> n <> 1 -> eqb value pZero = true -> Root w Exp1 Ln Sqrt2 value n = pZero) /\
  (ltb value pZero = false -> eqb value pZero = false ->
   Root w Exp1 Ln Sqrt2 value 2 = Sqrt2 value /\
   (n <> 0 -> n <> 1 -> n <> 2 ->
    Root w Exp1 Ln Sqrt2 value n
    = Power w Exp1 Ln value (div w (lit w 1 1) (of_int w n)))).
Proof.
  split; [reflexivity|]. unfold Root.
  split; [|split].
  - intros H0 H1 Hv. destruct (Z.eqb_spec n 0); [contradiction|].
    destruct (Z.eqb_spec n 1); [contradiction|]. rewrite Hv. reflexivity.
  - intros H0 H1 Hv. destruct (Z.eqb_spec n 0); [contradiction|].
    destruct (Z.eqb_spec n 1); [contradiction|].
    assert (Hl : ltb value pZero = false).
    { destruct value as [s | s | | s m e]; try discriminate;
        try (destruct s; discriminate); reflexivity. }
    rewrite Hl, Hv. reflexivity.
  - intros Hl He. split.
    + cbn [Z.eqb]. rewrite Hl, He. reflexivity.
    + intros H0 H1 H2. destruct (Z.eqb_spec n 0); [contradiction|].
      destruct (Z.eqb_spec n 1); [contradiction|].
      destruct (Z.eqb_spec n 2); [contradiction|]. rewrite Hl, He. reflexivity.
Qed.

End PowerEdges.

Lemma Power_positive_base_witness :
  Power F64 (fun x => x) (fun x => x) (2 // 1) nZero = lit F64 1 1.
Proof.
  apply (proj1 (Power_positive_base F64 (fun x => x) (fun x => x) (2 // 1) nZero eq_refl)).
  reflexivity.
Defined.

Lemma Root_edge_cases_witness :
  Root F64 (fun x => x) (fun x => x) (fun x => x) nZero (-3) = pZero.
Proof.
  apply (proj1 (proj2 (proj2 (Root_edge_cases F64 (fun x => x) (fun x => x) (fun x => x) nZero (-3)))));
    [discriminate | discriminate | reflexivity].
Defined.

(** ** Integer power: termination and sign *)

(** The loop of [IntPower] ends within as many rounds as the exponent has
    bits: further rounds change nothing. *)
Lemma intPowerLoop_fuel (w : Width) (rounds k : nat) :
  forall (n : Z) (result currentBase : float),
    0 <= n < 2 ^ Z.of_nat rounds ->
    intPowerLoop w (rounds + k) n result currentBase
    = intPowerLoop w rounds n result currentBase.
Proof.
  induction rounds as [|rounds IH]; intros n result currentBase Hn.
  - cbn in Hn. assert (n = 0) by lia. subst n. destruct k; reflexivity.
  - cbn [Nat.add intPowerLoop]. destruct (n >? 0) eqn:E; [|reflexivity].
    apply IH. rewrite Nat2Z.inj_succ, Z.pow_succ_r in Hn by lia.
    split; [apply Z.quot_pos; lia | apply Z.quot_lt_upper_bound; lia].
Qed.

(** X10: [IntPower] returns for every exponent of the range of [int] except
    [math.MinInt64]: one nested call at most is made, whatever the depth
    allowed, and the loop ends within its 64 rounds.  On [math.MinInt64] with
    a non-zero (or NaN) base the call never returns, because [-exponent]
    wraps around to [math.MinInt64] again. *)
Theorem IntPower_termination (w : Width) (base : float) (exponent : Z) (d k : nat) :
  min_int64 <= exponent <= max_int64 ->
  (exponent <> min_int64 ->
   exists r, IntPower 2 w base exponent = Some r /\
             IntPower (2 + d) w base exponent = Some r) /\
  (exponent = min_int64 -> eqb base pZero = false -> IntPower d w base exponent = None) /\
  (forall result currentBase,
     0 <= exponent ->
     intPowerLoop w (64 + k) exponent result currentBase
     = intPowerLoop w 64 exponent result currentBase).
Proof.
  intros Hr. unfold min_int64, max_int64 in Hr. split; [|split].
  - intros Hne. unfold min_int64 in Hne.
    destruct (Z.lt_trichotomy exponent 0) as [Hlt | [-> | Hgt]].
    + replace exponent with (- (- exponent)) by lia.
      exists (if eqb base pZero then pInf
              else div w (lit w 1 1) (IntPower_positive w base (- exponent))).
      split.
      * apply (IntPower_of_negative 0). unfold max_int64. lia.
      * apply (IntPower_of_negative d). unfold max_int64. lia.
    + exists (lit w 1 1). split; reflexivity.
    + exists (IntPower_positive w base exponent). split.
      * apply (IntPower_of_positive 1). exact Hgt.
      * apply (IntPower_of_positive (S d)). exact Hgt.
  - intros -> Hb. apply IntPower_min_int_diverges. exact Hb.
  - intros result currentBase H0. apply intPowerLoop_fuel.
    change (Z.of_nat 64) with 64. lia.
Qed.

Lemma IntPower_termination_witness :
  (exists r, IntPower 2 F64 (2 // 1) (-3) = Some r /\
             IntPower (2 + 5) F64 (2 // 1) (-3) = Some r) /\
  IntPower 9 F64 (2 // 1) min_int64 = None.
Proof.
  split.
  - apply (proj1 (IntPower_termination F64 (2 // 1) (-3) 5 0 ltac:(unfold min_int64, max_int64; lia))).
    discriminate.
  - apply (proj1 (proj2 (IntPower_termination F64 (2 // 1) min_int64 9 0
                           ltac:(unfold min_int64, max_int64; lia)))); reflexivity.
Defined.

(** The sign of a rounded result is the sign given to the rounding. *)
Lemma round_aux_sign (prec emax : Z) (s : bool) (m e : Z) (l : location) :
  sign_of (binary_round_aux prec emax s m e l) = s \/
  binary_round_aux prec emax s m e l = S754_nan.
Proof.
  unfold binary_round_aux.
  destruct (shr_fexp prec emax m e l) as [mrs e'].
  destruct (shr_fexp prec emax _ e' loc_Exact) as [mrs' e''].
  destruct (shr_m mrs') as [|p|p]; [left; reflexivity | | right; reflexivity].
  destruct (e'' <=? emax - prec); left; reflexivity.
Qed.

(** A product or a quotient of two floats without sign bit has no sign
    bit, and neither has a square. *)
Lemma mul_sign_false (w : Width) (x y : float) :
  sign_of x = false -> sign_of y = false -> sign_of (mul w x y) = false.
Proof.
  intros Hx Hy. unfold mul.
  destruct x as [sx | sx | | sx mx ex], y as [sy | sy | | sy my ey];
    cbn [sign_of] in Hx, Hy; subst; try reflexivity.
  cbn [SFmul xorb].
  destruct (round_aux_sign (prec w) (emax w) false (Zpos (mx * my)) (ex + ey) loc_Exact)
    as [H | H]; [exact H | rewrite H; reflexivity].
Qed.

Lemma square_sign_false (w : Width) (x : float) : sign_of (mul w x x) = false.
Proof.
  unfold mul. destruct x as [sx | sx | | sx mx ex]; try (destruct sx; reflexivity); try reflexivity.
  cbn [SFmul]. replace (xorb sx sx) with false by (destruct sx; reflexivity).
  destruct (round_aux_sign (prec w) (emax w) false (Zpos (mx * mx)) (ex + ex) loc_Exact)
    as [H | H]; [exact H | rewrite H; reflexivity].
Qed.

Lemma div_sign_false (w : Width) (x y : float) :
  sign_of x = false -> sign_of y = false -> sign_of (div w x y) = false.
Proof.
  intros Hx Hy. unfold div.
  destruct x as [sx | sx | | sx mx ex], y as [sy | sy | | sy my ey];
    cbn [sign_of] in Hx, Hy; subst; try reflexivity.
  cbn [SFdiv xorb].
  destruct (SFdiv_core_binary (prec w) (emax w) (Zpos mx) ex (Zpos my) ey) as [[mz ez] lz].
  destruct (round_aux_sign (prec w) (emax w) false mz ez lz)
    as [H | H]; [exact H | rewrite H; reflexivity].
Qed.

Lemma lit_one_sign (w : Width) : sign_of (lit w 1 1) = false.
Proof. destruct w; reflexivity. Qed.

Lemma intPowerLoop_step (w : Width) (rounds : nat) (n : Z) (result currentBase : float) :
  intPowerLoop w (S rounds) n result currentBase
  = if n >? 0 then
      intPowerLoop w rounds (Z.quot n 2)
        (if Z.rem n 2 =? 1 then mul w result currentBase else result)
        (mul w currentBase currentBase)
    else result.
Proof. reflexivity. Qed.

Lemma intPowerLoop_sign_false (w : Width) (rounds : nat) :
  forall (n : Z) (result currentBase : float),
    sign_of result = false -> sign_of currentBase = false ->
    sign_of (intPowerLoop w rounds n result currentBase) = false.
Proof.
  induction rounds as [|rounds IH]; intros n result currentBase Hr Hc; [exact Hr|].
  cbn [intPowerLoop]. destruct (n >? 0); [|exact Hr].
  apply IH; [|apply square_sign_false].
  destruct (Z.rem n 2 =? 1); [apply mul_sign_false; assumption | exact Hr].
Qed.

Lemma sign_false_not_negative (r : float) : sign_of r = false -> ltb r pZero = false.
Proof. destruct r as [s | s | | s m e]; cbn [sign_of]; intros H; try subst s; reflexivity. Qed.

Lemma some_eq {A : Type} (a b : A) : Some a = Some b -> a = b.
Proof. intros H. injection H as H. exact H. Qed.

Lemma even_rem2 (n : Z) : Z.even n = true -> Z.rem n 2 = 0.
Proof.
  intros H. apply Z.even_spec in H. destruct H as [k ->].
  rewrite Z.mul_comm. apply Z.rem_mul. lia.
Qed.

Lemma int_neg_even (n : Z) : Z.even n = true -> n <> 0 ->
  Z.even (int_neg n) = true /\ int_neg n <> 0.
Proof.
  intros He H0. unfold int_neg. destruct (n =? min_int64) eqn:E.
  - split; [reflexivity | discriminate].
  - split; [rewrite Z.even_opp; exact He | lia].
Qed.

(** X11: for an even, non-zero exponent the result of [IntPower] is never
    negative, whatever the base: it has no sign bit (it is [+0], a positive
    number, [+Inf] or NaN). *)
Theorem IntPower_even_exponent_sign (depth : nat) (w : Width) (base r : float) (exponent : Z) :
  Z.even exponent = true -> exponent <> 0 ->
  IntPower depth w base exponent = Some r ->
  sign_of r = false /\ ltb r pZero = false.
Proof.
  intros He H0 Hr.
  assert (Hs : sign_of r = false); [|split; [exact Hs | apply sign_false_not_negative, Hs]].
  revert exponent r He H0 Hr.
  induction depth as [|depth IH]; intros exponent r He H0 Hr; [discriminate|].
  cbn [IntPower] in Hr.
  destruct (Z.eqb_spec exponent 0) as [|_]; [contradiction|].
  destruct (Z.eqb_spec exponent 1) as [-> | _]; [discriminate|].
  destruct (eqb base pZero).
  { destruct (exponent >? 0); injection Hr as <-; reflexivity. }
  destruct (exponent <? 0) eqn:En.
  - destruct (IntPower depth w base (int_neg exponent)) as [r'|] eqn:E'; [|discriminate].
    injection Hr as <-.
    destruct (int_neg_even exponent He H0) as [He' H0'].
    apply div_sign_false; [apply lit_one_sign | apply (IH _ _ He' H0' E')].
  - apply some_eq in Hr. rewrite <- Hr.
    rewrite (intPowerLoop_step w 63).
    destruct (exponent >? 0); [|apply lit_one_sign].
    rewrite (even_rem2 exponent He). change (0 =? 1) with false. cbv iota.
    apply intPowerLoop_sign_false; [apply lit_one_sign | apply square_sign_false].
Qed.

Lemma IntPower_even_exponent_sign_witness :
  sign_of (div F64 (1 // 1) (IntPower_positive F64 (- (3 // 1))%f64 2)) = false /\
  ltb (div F64 (1 // 1) (IntPower_positive F64 (- (3 // 1))%f64 2)) pZero = false.
Proof.
  apply (IntPower_even_exponent_sign 2 F64 (- (3 // 1))%f64 _ (-2) eq_refl ltac:(discriminate)).
  reflexivity.
Defined.

(** ** The range reduction of the logarithm on normal arguments *)

(** Two canonical floats of the same positive value are the same float. *)
Lemma canonf_unique_pos (prec emax : Z) (a b : spec_float) :
  0 < prec -> prec < emax ->
  canonf prec emax a -> canonf prec emax b -> (F2Q a == F2Q b)%Q -> (0 < F2Q a)%Q -> a = b.
Proof.
  intros Hp He Ca Cb E Ha.
  destruct (canonf_cases prec emax a Ca) as [[s Hz] | (s & m & e & Hf & Hb)].
  { rewrite Hz in Ha. change (F2Q (S754_zero s)) with 0%Q in Ha. lra. }
  destruct (canonf_cases prec emax b Cb) as [[s2 Hz] | (s2 & m2 & e2 & Hf2 & Hb2)].
  { rewrite Hz in E. change (F2Q (S754_zero s2)) with 0%Q in E. lra. }
  subst a b. rewrite !F2Q_finite in *.
  pose proof (mantissa_Q_pos m e) as P1. pose proof (mantissa_Q_pos m2 e2) as P2.
  destruct s; [lra|]. destruct s2; [lra|].
  pose proof (bounded_on_grid prec emax m e Hb) as G1.
  pose proof (bounded_on_grid prec emax m2 e2 Hb2) as G2.
  assert (E2 : e2 = e).
  { apply Z.le_antisymm.
    - apply (bracket_exponent_mono prec emax Hp
               (inject_Z (Zpos m2) * Q2 e2) (inject_Z (Zpos m) * Q2 e) _ _ _ _ G2 G1);
        [lra | | lra].
      apply Qmult_lt_compat_r; [apply Q2_pos | rewrite <- Zlt_Qlt; lia].
    - apply (bracket_exponent_mono prec emax Hp
               (inject_Z (Zpos m) * Q2 e) (inject_Z (Zpos m2) * Q2 e2) _ _ _ _ G1 G2);
        [lra | | lra].
      apply Qmult_lt_compat_r; [apply Q2_pos | rewrite <- Zlt_Qlt; lia]. }
  subst e2. f_equal.
  assert (Zpos m = Zpos m2); [|congruence].
  apply inj_Z_eq. apply Qmult_inj_r with (Q2 e); [|exact E].
  pose proof (Q2_pos e). lra.
Qed.

(** A canonical float of value at least [2^(prec - 1 + emin)] is a
    positive float with a mantissa of full precision. *)
Lemma canon_full_precision (prec emax : Z) (f : spec_float) :
  canonf prec emax f -> (Q2 (prec - 1 + emin prec emax) <= F2Q f)%Q ->
  exists m e, f = S754_finite false m e /\ bounded prec emax m e = true /\
              Zpos (digits2_pos m) = prec.
Proof.
  intros Hc Hv. pose proof (Q2_pos (prec - 1 + emin prec emax)) as Hp.
  destruct (canonf_cases prec emax f Hc) as [[s ->] | (s & m & e & -> & Hb)].
  - change (F2Q (S754_zero s)) with 0%Q in Hv. lra.
  - rewrite F2Q_finite in Hv. pose proof (mantissa_Q_pos m e) as Hm.
    destruct s; [lra|].
    exists m, e. split; [reflexivity|]. split; [exact Hb|].
    apply bounded_iff in Hb. destruct Hb as [[[E Hd] | [_ E]] _]; [|exact E].
    subst e. pose proof (digits_Q m (emin prec emax)) as [_ Hu].
    assert (Q2 (prec - 1 + emin prec emax) < Q2 (Zpos (digits2_pos m) + emin prec emax))%Q by lra.
    apply Q2_lt_inv in H. lia.
Qed.

Lemma pow2_m52_c :
  c64 (1 // 4503599627370496) /\ (F2Q (1 // 4503599627370496) == Q2 (-52))%Q.
Proof. split; [split; reflexivity | vm_compute; reflexivity]. Qed.

(** On a normal positive float64 the bit extraction of [Log] gives the
    mantissa in [[0.5, 1)] and the exponent without rounding. *)
Lemma logReduce_normal (m : positive) (e : Z) :
  bounded 53 1024 m e = true -> Zpos (digits2_pos m) = 53 ->
  logReduce (S754_finite false m e) = (S754_finite false m (-53), e + 53).
Proof.
  intros Hb Hd. unfold logReduce.
  rewrite (to_bits_pos F64 m e Hb).
  change (prec F64) with 53. change (emax F64) with 1024.
  change (SpecFloat.emin 53 1024) with (-1074). change (53 - 1) with 52.
  pose proof (digits2_bounds m) as [Dl Du]. rewrite Hd in Dl, Du.
  change (53 - 1) with 52 in Dl.
  assert (P52 : 2 ^ 52 = 4503599627370496) by reflexivity.
  assert (P53 : 2 ^ 53 = 9007199254740992) by reflexivity.
  pose proof Hb as Hb'. apply bounded_iff in Hb'.
  change (SpecFloat.emin 53 1024) with (-1074) in Hb'. destruct Hb' as [_ He].
  assert (He' : -1074 <= e) by (apply (bounded_on_grid 53 1024 m e) in Hb; destruct Hb; exact H).
  set (r := Zpos m - 2 ^ 52).
  assert (Hr : 0 <= r < 2 ^ 52) by (unfold r; lia).
  replace ((e - -1074) * 2 ^ 52 + Zpos m) with ((e + 1075) * 2 ^ 52 + r) by (unfold r; lia).
  assert (E1 : Z.land (Z.shiftr ((e + 1075) * 2 ^ 52 + r) 52) 2047 = e + 1075).
  { rewrite Z.shiftr_div_pow2 by lia. rewrite Z.div_add_l by lia.
    rewrite (Z.div_small r) by lia. rewrite Z.add_0_r.
    change 2047 with (Z.ones 11). rewrite Z.land_ones by lia.
    apply Z.mod_small. change (2 ^ 11) with 2048. lia. }
  assert (E2 : Z.land ((e + 1075) * 2 ^ 52 + r) (Z.shiftl 1 52 - 1) = r).
  { change (Z.shiftl 1 52 - 1) with (Z.ones 52). rewrite Z.land_ones by lia.
    rewrite Z.add_comm, Z.mod_add by lia. apply Z.mod_small. exact Hr. }
  rewrite E1, E2. cbv zeta. f_equal; [|lia].
  (* the mantissa: every operation is exact *)
  destruct (of_int_exact r ltac:(lia)) as [Cr Vr].
  destruct pow2_m52_c as [Cp Vp]. destruct one_c as [C1 V1]. destruct half_c as [Ch Vh].
  assert (Cm : c64 (S754_finite false m (-52))).
  { split; [|reflexivity]. apply bounded_iff.
    change (SpecFloat.emin 53 1024) with (-1074). split; [right|]; lia. }
  assert (Vm : (F2Q (S754_finite false m (-52)) == 1 + inject_Z r * Q2 (-52))%Q).
  { rewrite F2Q_finite. unfold r. unfold Z.sub. rewrite inject_Z_plus, inject_Z_opp.
    rewrite P52. change (inject_Z 4503599627370496) with (4503599627370496 # 1)%Q.
    setoid_replace (Q2 (-52)) with (1 # 4503599627370496)%Q by (vm_compute; reflexivity).
    field. }
  (* of_int r * 2^-52 *)
  assert (Ht : c64 (of_int F64 r * (1 // 4503599627370496))%f64 /\
               (F2Q (of_int F64 r * (1 // 4503599627370496))%f64 == inject_Z r * Q2 (-52))%Q).
  { destruct (Z.eq_dec r 0) as [R0 | R0].
    - rewrite R0. split; [split; reflexivity | vm_compute; reflexivity].
    - destruct (finite_representable 53 1024 false (Z.to_pos r) (-52) p64 e64) as (c & Hc & Ec).
      + pose proof (digits2_bounds (Z.to_pos r)) as [Dl' _]. rewrite Z2Pos.id in Dl' by lia.
        destruct (Z.le_gt_cases (Zpos (digits2_pos (Z.to_pos r))) 53) as [H | H]; [exact H|].
        assert (2 ^ 53 <= 2 ^ (Zpos (digits2_pos (Z.to_pos r)) - 1)) by (apply Z.pow_le_mono_r; lia).
        lia.
      + change (SpecFloat.emin 53 1024) with (-1074).
        pose proof (digits2_bounds (Z.to_pos r)) as [Dl' _]. rewrite Z2Pos.id in Dl' by lia.
        assert (Zpos (digits2_pos (Z.to_pos r)) <= 53).
        { destruct (Z.le_gt_cases (Zpos (digits2_pos (Z.to_pos r))) 53) as [H | H]; [exact H|].
          assert (2 ^ 53 <= 2 ^ (Zpos (digits2_pos (Z.to_pos r)) - 1)) by (apply Z.pow_le_mono_r; lia).
          lia. }
        lia.
      + rewrite F2Q_finite, Z2Pos.id in Ec by lia.
        destruct (rounds_representable 53 1024 _ _ c (mul64 _ _ Cr Cp) Hc) as [H1 H2];
          [rewrite Ec, Vr, Vp; reflexivity|].
        split; [exact H1 | rewrite H2, Vr, Vp; reflexivity]. }
  destruct Ht as [Ct Vt].
  assert (Hs : c64 (1 // 1 + of_int F64 r * (1 // 4503599627370496))%f64 /\
               (F2Q (1 // 1 + of_int F64 r * (1 // 4503599627370496))%f64
                == F2Q (S754_finite false m (-52)))%Q).
  { destruct (rounds_representable 53 1024 _ _ _ (add64 _ _ C1 Ct) Cm) as [H1 H2];
      [rewrite Vm, V1, Vt; reflexivity|].
    split; [exact H1 | rewrite H2, Vm, V1, Vt; reflexivity]. }
  destruct Hs as [Cs Vs].
  assert (Es : (1 // 1 + of_int F64 r * (1 // 4503599627370496))%f64 = S754_finite false m (-52)).
  { apply (canonf_unique_pos 53 1024 _ _ p64 e64 Cs Cm Vs).
    rewrite Vs, F2Q_finite. apply mantissa_Q_pos. }
  rewrite Es.
  assert (Cm' : c64 (S754_finite false m (-53))).
  { split; [|reflexivity]. apply bounded_iff.
    change (SpecFloat.emin 53 1024) with (-1074). split; [right|]; lia. }
  assert (Hh : c64 (S754_finite false m (-52) * (1 // 2))%f64 /\
               (F2Q (S754_finite false m (-52) * (1 // 2))%f64
                == F2Q (S754_finite false m (-53)))%Q).
  { assert (Ev : (F2Q (S754_finite false m (-53))
                  == F2Q (S754_finite false m (-52)) * F2Q (1 // 2))%Q).
    { rewrite !F2Q_finite, Vh. change (-52) with (-53 + 1). rewrite Q2_succ. ring. }
    destruct (rounds_representable 53 1024 _ _ _ (mul64 _ _ Cm Ch) Cm') as [H1 H2];
      [exact Ev|].
    split; [exact H1 | rewrite H2, Ev; reflexivity]. }
  destruct Hh as [Chh Vhh].
  apply (canonf_unique_pos 53 1024 _ _ p64 e64 Chh Cm' Vhh).
  rewrite Vhh, F2Q_finite. apply mantissa_Q_pos.
Qed.

(** X12: the range reduction of [Log] is exactly [math.Frexp] on the float64
    value of every positive finite float32 (subnormals included) and of
    every positive normal float64: it returns a mantissa [m] in [[0.5, 1)] and
    an exponent [e] with [x = m * 2^e], without rounding. *)
Theorem logReduce_exact_on_normals (w : Width) (x : float) :
  valid w x = true -> is_finite x = true -> gtb x pZero = true ->
  (w = F64 -> (Q2 (-1022) <= F2Q x)%Q) ->
  logReduce (to_f64 w x) = frexp64 (to_f64 w x) /\
  (1 # 2 <= F2Q (fst (logReduce (to_f64 w x))) < 1)%Q /\
  (F2Q x == F2Q (fst (logReduce (to_f64 w x))) * Q2 (snd (logReduce (to_f64 w x))))%Q.
Proof.
  intros Vx Fx Px Hn.
  assert (Hx : c64 (to_f64 w x) /\ (F2Q (to_f64 w x) == F2Q x)%Q /\ (Q2 (-1022) <= F2Q x)%Q).
  { destruct w.
    - destruct (widen_exact x Vx Fx) as [H1 H2]. split; [exact H1|]. split; [exact H2|].
      destruct (gtb_zero_positive x Fx Px) as (mx & ex & ->).
      destruct (bounded_Q 24 128 mx ex Vx) as (_ & _ & _ & Hmin).
      rewrite F2Q_finite. apply Qle_trans with (2 := Hmin). apply Q2_le.
      unfold SpecFloat.emin. lia.
    - split; [split; [exact Vx | exact Fx]|]. split; [reflexivity | apply Hn; reflexivity]. }
  destruct Hx as (Cx & Vx' & Hmin).
  destruct (canon_full_precision 53 1024 (to_f64 w x) Cx ltac:(rewrite Vx'; exact Hmin))
    as (m & e & E & Hb & Hd).
  rewrite E in *. rewrite (logReduce_normal m e Hb Hd). cbn [fst snd].
  split; [|split].
  - unfold frexp64. cbn [SFfrexp]. change (prec F64) with 53.
    rewrite Hd. reflexivity.
  - rewrite F2Q_finite. pose proof (digits_Q m (-53)) as [Hl Hu]. rewrite Hd in Hl, Hu.
    change (53 - 1 + -53) with (-1) in Hl. change (53 + -53) with 0 in Hu.
    rewrite Q2_0 in Hu. change (Q2 (-1)) with (1 # 2)%Q in Hl. split; assumption.
  - rewrite <- Vx', !F2Q_finite. rewrite Q2_add.
    setoid_replace (Q2 53) with (/ Q2 (-53))%Q by (vm_compute; reflexivity).
    field. pose proof (Q2_pos (-53)). lra.
Qed.

Lemma logReduce_exact_on_normals_witness :
  logReduce (to_f64 F32 (S754_finite false 1 (-149)))
  = frexp64 (to_f64 F32 (S754_finite false 1 (-149))).
Proof.
  apply (proj1 (logReduce_exact_on_normals F32 (S754_finite false 1 (-149))
                  eq_refl eq_refl eq_refl ltac:(discriminate))).
Defined.

(** ** The public entry points *)

Lemma precision_cases (p : Z) :
  p = 0 \/ p = 1 \/ p = 2 \/ p = 3 \/
  ((p =? 0) = false /\ (p =? 1) = false /\ (p =? 2) = false /\ (p =? 3) = false).
Proof.
  destruct (Z.eqb_spec p 0) as [H0|H0]; [auto|].
  destruct (Z.eqb_spec p 1) as [H1|H1]; [auto|].
  destruct (Z.eqb_spec p 2) as [H2|H2]; [auto|].
  destruct (Z.eqb_spec p 3) as [H3|H3]; [auto 6|].
  do 4 right. repeat split; reflexivity.
Qed.

Ltac unfold_precision :=
  unfold Public.normalizePrecision, Public.IsValid,
    Public.PrecisionAuto, Public.PrecisionFast, Public.PrecisionBalanced, Public.PrecisionHigh,
    selectImpl, normalizePrecision, IsValid,
    PrecisionAuto, PrecisionFast, PrecisionBalanced, PrecisionHigh.

Ltac precision_dispatch p :=
  let H0 := fresh "H0" in let H1 := fresh "H1" in
  let H2 := fresh "H2" in let H3 := fresh "H3" in
  destruct (precision_cases p) as [-> | [-> | [-> | [-> | (H0 & H1 & H2 & H3)]]]];
  [reflexivity | reflexivity | reflexivity | reflexivity |];
  unfold_precision; rewrite ?H0, ?H1, ?H2, ?H3; cbn [orb negb Z.eqb];
  rewrite ?H0, ?H1, ?H2, ?H3; reflexivity.

Lemma Sqrt_normalized (w : Width) (x : float) (p : Z) :
  Sqrt w x (Public.normalizePrecision p) = Sqrt w x p.
Proof. unfold Sqrt. precision_dispatch p. Qed.

Lemma InvSqrt_normalized (w : Width) (x : float) (p : Z) :
  InvSqrt w x (Public.normalizePrecision p) = InvSqrt w x p.
Proof. unfold InvSqrt. precision_dispatch p. Qed.

Lemma logSeries_normalized (y : float) (p : Z) :
  logSeries y (Public.normalizePrecision p) = logSeries y p.
Proof. unfold logSeries. precision_dispatch p. Qed.

Lemma Log_normalized (w : Width) (x : float) (p : Z) :
  Log w x (Public.normalizePrecision p) = Log w x p.
Proof.
  unfold Log. destruct (logReduce (to_f64 w x)) as [m e].
  rewrite logSeries_normalized. reflexivity.
Qed.

Lemma normalize_normalized (p : Z) :
  normalizePrecision (Public.normalizePrecision p) = normalizePrecision p.
Proof. precision_dispatch p. Qed.

Lemma Exp_normalized (w : Width) (x : float) (p : Z) :
  Exp w x (Public.normalizePrecision p) = Exp w x p.
Proof. unfold Exp. rewrite normalize_normalized. reflexivity. Qed.

Lemma Sin_normalized (w : Width) (x : float) (p : Z) :
  Sin w x (Public.normalizePrecision p) = Sin w x p.
Proof. unfold Sin. precision_dispatch p. Qed.

Lemma Cos_normalized (w : Width) (x : float) (p : Z) :
  Cos w x (Public.normalizePrecision p) = Cos w x p.
Proof. unfold Cos. precision_dispatch p. Qed.

Lemma Sec_normalized (w : Width) (x : float) (p : Z) :
  Sec w x (Public.normalizePrecision p) = Sec w x p.
Proof. unfold Sec. precision_dispatch p. Qed.

Lemma Csc_normalized (w : Width) (x : float) (p : Z) :
  Csc w x (Public.normalizePrecision p) = Csc w x p.
Proof. unfold Csc. precision_dispatch p. Qed.

Lemma Tan_normalized (w : Width) (x : float) (p : Z) :
  Tan w x (Public.normalizePrecision p) = Tan w x p.
Proof. unfold Tan. precision_dispatch p. Qed.

Lemma Cotan_normalized (w : Width) (x : float) (p : Z) :
  Cotan w x (Public.normalizePrecision p) = Cotan w x p.
Proof. unfold Cotan. precision_dispatch p. Qed.

Lemma Arctan_normalized (w : Width) (x : float) (p : Z) :
  Arctan w x (Public.normalizePrecision p) = Arctan w x p.
Proof. unfold Arctan. precision_dispatch p. Qed.

Lemma Arccotan_normalized (w : Width) (x : float) (p : Z) :
  Arccotan w x (Public.normalizePrecision p) = Arccotan w x p.
Proof. unfold Arccotan. precision_dispatch p. Qed.

Lemma Arccos_normalized (w : Width) (x : float) (p : Z) :
  Arccos w x (Public.normalizePrecision p) = Arccos w x p.
Proof. unfold Arccos. precision_dispatch p. Qed.

(** X13: the precision normalisation of the public wrappers changes no result:
    for every precision value, recognised or not, each [Fast...Prec] function
    returns what the internal kernel dispatcher returns for that same value,
    and each [Fast...] function returns what the dispatcher returns for
    [PrecisionBalanced]. *)
Theorem Public_wrappers_agree (w : Width) (x : float) (p : Public.Precision) :
  (Public.FastSqrtPrec w x p = Sqrt w x p /\ Public.FastSqrt w x = Sqrt w x PrecisionBalanced) /\
  (Public.FastInvSqrtPrec w x p = InvSqrt w x p
   /\ Public.FastInvSqrt w x = InvSqrt w x PrecisionBalanced) /\
  (Public.FastLogPrec w x p = Log w x p /\ Public.FastLog w x = Log w x PrecisionBalanced) /\
  (Public.FastExpPrec w x p = Exp w x p /\ Public.FastExp w x = Exp w x PrecisionBalanced) /\
  (Public.FastSinPrec w x p = Sin w x p /\ Public.FastSin w x = Sin w x PrecisionBalanced) /\
  (Public.FastCosPrec w x p = Cos w x p /\ Public.FastCos w x = Cos w x PrecisionBalanced) /\
  (Public.FastSecPrec w x p = Sec w x p /\ Public.FastSec w x = Sec w x PrecisionBalanced) /\
  (Public.FastCscPrec w x p = Csc w x p /\ Public.FastCsc w x = Csc w x PrecisionBalanced) /\
  (Public.FastTanPrec w x p = Tan w x p /\ Public.FastTan w x = Tan w x PrecisionBalanced) /\
  (Public.FastCotanPrec w x p = Cotan w x p
   /\ Public.FastCotan w x = Cotan w x PrecisionBalanced) /\
  (Public.FastArctanPrec w x p = Arctan w x p
   /\ Public.FastArctan w x = Arctan w x PrecisionBalanced) /\
  (Public.FastArccotanPrec w x p = Arccotan w x p
   /\ Public.FastArccotan w x = Arccotan w x PrecisionBalanced) /\
  (Public.FastArccosPrec w x p = Arccos w x p
   /\ Public.FastArccos w x = Arccos w x PrecisionBalanced).
Proof.
  repeat split.
  - exact (Sqrt_normalized w x p).
  - exact (InvSqrt_normalized w x p).
  - exact (Log_normalized w x p).
  - exact (Exp_normalized w x p).
  - exact (Sin_normalized w x p).
  - exact (Cos_normalized w x p).
  - exact (Sec_normalized w x p).
  - exact (Csc_normalized w x p).
  - exact (Tan_normalized w x p).
  - exact (Cotan_normalized w x p).
  - exact (Arctan_normalized w x p).
  - exact (Arccotan_normalized w x p).
  - exact (Arccos_normalized w x p).
Qed.

Section PrecisionNames.
Import String.

Lemma String_cases (p : Public.Precision) :
  (p = 0 /\ Public.String p = "auto"%string) \/
  (p = 1 /\ Public.String p = "fast"%string) \/
  (p = 2 /\ Public.String p = "balanced"%string) \/
  (p = 3 /\ Public.String p = "high"%string) \/
  (Public.IsValid p = false /\ Public.String p = "unknown"%string).
Proof.
  destruct (precision_cases p) as [-> | [-> | [-> | [-> | (H0 & H1 & H2 & H3)]]]];
    [auto | auto | auto | auto 6 |].
  do 4 right.
  unfold Public.IsValid, Public.String,
    Public.PrecisionAuto, Public.PrecisionFast, Public.PrecisionBalanced, Public.PrecisionHigh.
  rewrite H0, H1, H2, H3. split; reflexivity.
Qed.

(** X14: [String] names exactly the recognised precision values: it returns
    "unknown" for the others and for no recognised one, and two values with
    the same name, one of them recognised, are equal. *)
Theorem Precision_String_faithful (p q : Public.Precision) :
  (Public.IsValid p = true <-> Public.String p <> "unknown"%string) /\
  (Public.IsValid p = true -> Public.String p = Public.String q -> p = q).
Proof.
  split.
  - destruct (String_cases p) as [[-> _] | [[-> _] | [[-> _] | [[-> _] | [Hv Hs]]]]];
      try (split; [intros _; discriminate | intros _; reflexivity]).
    rewrite Hv, Hs. split; [discriminate | intros H; exfalso; apply H; reflexivity].
  - intros Hp Hpq.
    destruct (String_cases p) as [[-> Sp] | [[-> Sp] | [[-> Sp] | [[-> Sp] | [Hv _]]]]];
      [| | | | rewrite Hv in Hp; discriminate Hp];
      clear Sp; cbn in Hpq;
      destruct (String_cases q) as [[-> Sq] | [[-> Sq] | [[-> Sq] | [[-> Sq] | [_ Sq]]]]];
      try reflexivity; rewrite Sq in Hpq; discriminate Hpq.
Qed.

End PrecisionNames.

(** ** Accuracy measurement *)

(** The order of the floats that are not NaN. *)

Ltac order_cases :=
  repeat match goal with
  | H : context [Pos.compare_cont Eq ?a ?b] |- _ =>
      change (Pos.compare_cont Eq a b) with (Pos.compare a b) in H
  | |- context [Pos.compare_cont Eq ?a ?b] =>
      change (Pos.compare_cont Eq a b) with (Pos.compare a b)
  end;
  repeat match goal with
  | H : context [(?a ?= ?b)%Z] |- _ => destruct (Z.compare_spec a b)
  | |- context [(?a ?= ?b)%Z] => destruct (Z.compare_spec a b)
  | H : context [(?a ?= ?b)%positive] |- _ => destruct (Pos.compare_spec a b)
  | |- context [(?a ?= ?b)%positive] => destruct (Pos.compare_spec a b)
  end;
  cbn [CompOpp] in *; try discriminate; try reflexivity; try lia.

Lemma leb_refl_not_nan (a : float) : is_nan a = false -> leb a a = true.
Proof.
  destruct a as [s | s | | s m e]; intros H; try discriminate H;
    unfold leb, SFleb, SFcompare; destruct s; try reflexivity; order_cases.
Qed.

Lemma leb_trans (a b c : float) : leb a b = true -> leb b c = true -> leb a c = true.
Proof.
  unfold leb, SFleb, SFcompare.
  destruct a as [sa | sa | | sa ma ea], b as [sb | sb | | sb mb eb],
    c as [sc | sc | | sc mc ec]; intros H1 H2; try discriminate; try reflexivity;
    try destruct sa; try destruct sb; try destruct sc;
    try discriminate; try reflexivity; order_cases.
Qed.

Lemma gtb_leb (a m : float) : gtb a m = true -> is_nan a = false /\ leb m a = true.
Proof.
  unfold gtb, leb, SFltb, SFleb. destruct (SFcompare m a) as [[| |]|] eqn:E; try discriminate.
  intros _. split; [|reflexivity].
  destruct a; try reflexivity. destruct m; discriminate E.
Qed.

Lemma not_gtb_leb (a m : float) :
  is_nan a = false -> is_nan m = false -> gtb a m = false -> leb a m = true.
Proof.
  unfold gtb, leb, SFltb, SFleb, SFcompare.
  destruct a as [sa | sa | | sa ma ea], m as [sm | sm | | sm mm em]; intros H1 H2 H3;
    try discriminate; try reflexivity;
    try destruct sa; try destruct sm; try discriminate; try reflexivity; order_cases.
Qed.

Lemma leb_not_nan (a b : float) : leb a b = true -> is_nan b = false.
Proof. destruct a, b; try reflexivity; discriminate. Qed.

(** A maximum kept by the comparison [if g x > m then m = g x]. *)
Lemma running_max {S A : Type} (g : A -> float) (pr : S -> float) (step : S -> A -> S) :
  (forall s x, pr (step s x) = if gtb (g x) (pr s) then g x else pr s) ->
  forall (l : list A) (s : S),
  is_nan (pr s) = false ->
  leb (pr s) (pr (fold_left step l s)) = true /\
  (forall x, In x l -> is_nan (g x) = false -> leb (g x) (pr (fold_left step l s)) = true) /\
  (pr (fold_left step l s) = pr s \/ exists x, In x l /\ pr (fold_left step l s) = g x).
Proof.
  intros Hstep l. induction l as [|y l IH]; intros s Hs.
  - cbn [fold_left]. split; [apply leb_refl_not_nan; exact Hs|].
    split; [intros x []| left; reflexivity].
  - cbn [fold_left].
    assert (Hy : is_nan (pr (step s y)) = false /\ leb (pr s) (pr (step s y)) = true /\
                 (is_nan (g y) = false -> leb (g y) (pr (step s y)) = true) /\
                 (pr (step s y) = pr s \/ pr (step s y) = g y)).
    { rewrite Hstep. destruct (gtb (g y) (pr s)) eqn:G.
      - destruct (gtb_leb _ _ G) as [N L].
        split; [exact N|]. split; [exact L|].
        split; [intros _; apply leb_refl_not_nan; exact N | right; reflexivity].
      - split; [exact Hs|]. split; [apply leb_refl_not_nan; exact Hs|].
        split; [intros N; apply not_gtb_leb; assumption | left; reflexivity]. }
    destruct Hy as (N1 & L1 & B1 & A1).
    destruct (IH (step s y) N1) as (L2 & B2 & A2).
    split; [exact (leb_trans _ _ _ L1 L2)|]. split.
    + intros x [<- | Hx] Nx.
      * exact (leb_trans _ _ _ (B1 Nx) L2).
      * exact (B2 x Hx Nx).
    + destruct A2 as [A2 | (x & Hx & A2)].
      * rewrite A2. destruct A1 as [A1 | A1]; [left; exact A1|].
        right. exists y. split; [left; reflexivity | exact A1].
      * right. exists x. split; [right; exact Hx | exact A2].
Qed.

Lemma MeasureAccuracy_nonempty (Log10 : float -> float) (w : Width) (samples : list float)
    (refFn approxFn : float -> float) :
  samples <> [] ->
  Reference.MeasureAccuracy Log10 w samples refFn approxFn
  = let '(maxAbs, maxRel, sumAbs, sumSq) :=
      fold_left (Reference.accuracyStep w refFn approxFn) samples (pZero, pZero, pZero, pZero) in
    let n := of_int F64 (Z.of_nat (length samples)) in
    {| Reference.MaxAbsError := maxAbs;
       Reference.MaxRelError := maxRel;
       Reference.MeanAbsError := (sumAbs / n)%f64;
       Reference.RMSError := Sqrt64 (sumSq / n)%f64;
       Reference.DecimalDigits := if gtb maxRel pZero then neg (Log10 maxRel) else pInf |}.
Proof. destruct samples as [|x l]; [intros H; exfalso; apply H; reflexivity | reflexivity]. Qed.

Lemma MeasureAccuracy_maxima_of_fold (Log10 : float -> float) (w : Width)
    (samples : list float) (refFn approxFn : float -> float) :
  samples <> [] ->
  Reference.MaxAbsError (Reference.MeasureAccuracy Log10 w samples refFn approxFn)
    = fst (fst (fst (fold_left (Reference.accuracyStep w refFn approxFn) samples
                       (pZero, pZero, pZero, pZero)))) /\
  Reference.MaxRelError (Reference.MeasureAccuracy Log10 w samples refFn approxFn)
    = snd (fst (fst (fold_left (Reference.accuracyStep w refFn approxFn) samples
                       (pZero, pZero, pZero, pZero)))).
Proof.
  intros Hne. rewrite (MeasureAccuracy_nonempty Log10 w samples refFn approxFn Hne).
  destruct (fold_left _ samples _) as [[[a b] c] d]. split; reflexivity.
Qed.

(** X15: [MaxAbsError] and [MaxRelError] are maxima over the samples, whatever the
    two functions return: neither is NaN or negative; each is at least the
    error of every sample whose error is not NaN; and each is [+0] or the
    error of one of the samples.  The relative error of a sample is its
    absolute error over [|ref|], or the absolute error itself where the
    reference is zero. *)
Theorem MeasureAccuracy_maxima (Log10 : float -> float) (w : Width) (samples : list float)
    (refFn approxFn : float -> float) :
  let absErr x := Reference.Abs (to_f64 w (approxFn x) - to_f64 w (refFn x))%f64 in
  let relErr x :=
    if neb (Reference.Abs (to_f64 w (refFn x))) pZero
    then (absErr x / Reference.Abs (to_f64 w (refFn x)))%f64 else absErr x in
  let r := Reference.MeasureAccuracy Log10 w samples refFn approxFn in
  (leb pZero (Reference.MaxAbsError r) = true /\
   (forall x, In x samples -> is_nan (absErr x) = false ->
      leb (absErr x) (Reference.MaxAbsError r) = true) /\
   (Reference.MaxAbsError r = pZero \/
    exists x, In x samples /\ Reference.MaxAbsError r = absErr x)) /\
  (leb pZero (Reference.MaxRelError r) = true /\
   (forall x, In x samples -> is_nan (relErr x) = false ->
      leb (relErr x) (Reference.MaxRelError r) = true) /\
   (Reference.MaxRelError r = pZero \/
    exists x, In x samples /\ Reference.MaxRelError r = relErr x)).
Proof.
  intros absErr relErr r. subst r.
  destruct samples as [|x0 l].
  { split; (split; [reflexivity | split; [intros x [] | left; reflexivity]]). }
  assert (Hne : x0 :: l <> []) by discriminate.
  destruct (MeasureAccuracy_maxima_of_fold Log10 w (x0 :: l) refFn approxFn Hne) as [HA HR].
  rewrite HA, HR. clear HA HR. split.
  - refine (running_max absErr (fun s : float * float * float * float => fst (fst (fst s)))
              (Reference.accuracyStep w refFn approxFn) _ (x0 :: l)
              (pZero, pZero, pZero, pZero) eq_refl).
    intros [[[a b] c] d] x. reflexivity.
  - refine (running_max relErr (fun s : float * float * float * float => snd (fst (fst s)))
              (Reference.accuracyStep w refFn approxFn) _ (x0 :: l)
              (pZero, pZero, pZero, pZero) eq_refl).
    intros [[[a b] c] d] x. reflexivity.
Qed.

Lemma sub_self_finite (c : float) : is_finite c = true -> (c - c)%f64 = pZero.
Proof.
  destruct c as [s | s | | s m e]; intros H; try discriminate H.
  - destruct s; reflexivity.
  - unfold sub, SFsub. cbv zeta. rewrite Z.sub_diag. reflexivity.
Qed.

Lemma accuracyStep_exact (w : Width) (refFn approxFn : float -> float) (x : float) :
  approxFn x = refFn x -> is_finite (to_f64 w (refFn x)) = true ->
  Reference.accuracyStep w refFn approxFn (pZero, pZero, pZero, pZero) x
  = (pZero, pZero, pZero, pZero).
Proof.
  intros E F. unfold Reference.accuracyStep. rewrite E.
  generalize dependent (to_f64 w (refFn x)). intros c F.
  rewrite (sub_self_finite c F).
  destruct c as [s | s | | s m e]; try discriminate F; reflexivity.
Qed.

Lemma of_int_pos_finite (w : Width) (n : Z) :
  0 < n <= max_int64 -> exists m e, of_int w n = S754_finite false m e.
Proof.
  intros Hn.
  destruct (of_int_finite w n) as (s & m & e & E & _);
    [lia | unfold min_int64, max_int64 in *; lia |].
  assert (H : sign_of (of_int w n) = false \/ of_int w n = S754_nan).
  { unfold of_int. destruct n as [|p|p]; try lia.
    cbn [binary_normalize]. unfold binary_round.
    destruct (shl_align p 0 _) as [mz ez]. apply round_aux_sign. }
  rewrite E in H. destruct H as [H | H]; [|discriminate H].
  cbn [sign_of] in H. subst s. exists m, e. exact E.
Qed.

(** X16: an approximation that returns the reference value on every sample is
    measured as exact: where those values are finite, every error statistic is
    [+0] and [DecimalDigits] is [+Inf]. *)
Theorem MeasureAccuracy_exact (Log10 : float -> float) (w : Width) (samples : list float)
    (refFn approxFn : float -> float) :
  Z.of_nat (length samples) <= max_int64 ->
  (forall x, In x samples ->
     approxFn x = refFn x /\ valid w (refFn x) = true /\ is_finite (refFn x) = true) ->
  Reference.MeasureAccuracy Log10 w samples refFn approxFn
  = {| Reference.MaxAbsError := pZero;
       Reference.MaxRelError := pZero;
       Reference.MeanAbsError := pZero;
       Reference.RMSError := pZero;
       Reference.DecimalDigits := pInf |}.
Proof.
  intros Hlen Hs.
  destruct samples as [|x0 l] eqn:E; [reflexivity|]. rewrite <- E in *.
  assert (Hne : samples <> []) by (rewrite E; discriminate).
  rewrite (MeasureAccuracy_nonempty Log10 w samples refFn approxFn Hne).
  assert (Hfold : fold_left (Reference.accuracyStep w refFn approxFn) samples
                    (pZero, pZero, pZero, pZero) = (pZero, pZero, pZero, pZero)).
  { clear E Hne Hlen. induction samples as [|y t IH]; [reflexivity|].
    cbn [fold_left]. destruct (Hs y (or_introl eq_refl)) as (Ey & Vy & Fy).
    rewrite (accuracyStep_exact w refFn approxFn y Ey (to_f64_finite w _ Vy Fy)).
    apply IH. intros x Hx. apply Hs. right. exact Hx. }
  rewrite Hfold.
  destruct (of_int_pos_finite F64 (Z.of_nat (length samples))) as (m & e & En).
  { split; [|exact Hlen]. rewrite E. cbn [length]. lia. }
  cbv zeta iota beta. rewrite En. reflexivity.
Qed.

Lemma accuracyStep_nan (w : Width) (refFn approxFn : float -> float)
    (sumAbs sumSq x : float) :
  approxFn x = NaN ->
  Reference.accuracyStep w refFn approxFn (pZero, pZero, sumAbs, sumSq) x
  = (pZero, pZero, NaN, NaN).
Proof.
  intros E. unfold Reference.accuracyStep. rewrite E.
  replace (to_f64 w NaN) with NaN by (destruct w; reflexivity).
  destruct (neb (Reference.Abs (to_f64 w (refFn x))) pZero);
    destruct sumAbs, sumSq; reflexivity.
Qed.

(** X17: an approximation that returns NaN on every sample is not seen by the
    maxima: [MaxAbsError] and [MaxRelError] stay [+0] and [DecimalDigits] is
    [+Inf], as for an exact approximation; only [MeanAbsError] and [RMSError]
    are NaN. *)
Theorem MeasureAccuracy_nan_approximation (Log10 : float -> float) (w : Width)
    (samples : list float) (refFn approxFn : float -> float) :
  samples <> [] ->
  (forall x, In x samples -> approxFn x = NaN) ->
  Reference.MeasureAccuracy Log10 w samples refFn approxFn
  = {| Reference.MaxAbsError := pZero;
       Reference.MaxRelError := pZero;
       Reference.MeanAbsError := NaN;
       Reference.RMSError := NaN;
       Reference.DecimalDigits := pInf |}.
Proof.
  intros Hne Hs.
  rewrite (MeasureAccuracy_nonempty Log10 w samples refFn approxFn Hne).
  assert (Hfold : forall l sa sq, l <> [] -> (forall x, In x l -> approxFn x = NaN) ->
            fold_left (Reference.accuracyStep w refFn approxFn) l (pZero, pZero, sa, sq)
            = (pZero, pZero, NaN, NaN)).
  { clear. induction l as [|y t IH]; intros sa sq Hne Hs; [exfalso; apply Hne; reflexivity|].
    cbn [fold_left]. rewrite (accuracyStep_nan w refFn approxFn sa sq y (Hs y (or_introl eq_refl))).
    destruct t as [|z t']; [reflexivity|].
    apply IH; [discriminate | intros x Hx; apply Hs; right; exact Hx]. }
  rewrite (Hfold samples pZero pZero Hne Hs).
  reflexivity.
Qed.

Lemma MeasureAccuracy_exact_witness :
  Reference.MeasureAccuracy (fun y => y) F32
    [S754_finite false 8388608 (-22); S754_zero true; S754_finite true 12582912 (-23)]
    (fun x => mul F32 x x) (fun x => mul F32 x x)
  = {| Reference.MaxAbsError := pZero;
       Reference.MaxRelError := pZero;
       Reference.MeanAbsError := pZero;
       Reference.RMSError := pZero;
       Reference.DecimalDigits := pInf |}.
Proof.
  apply MeasureAccuracy_exact.
  - vm_compute. discriminate.
  - intros x [<- | [<- | [<- | []]]]; vm_compute; repeat split; reflexivity.
Defined.

Lemma MeasureAccuracy_nan_approximation_witness :
  Reference.MeasureAccuracy (fun y => y) F64
    [S754_finite false 4503599627370496 (-51); S754_zero false]
    (fun x => x) (fun x => (x / pZero * pZero)%f64)
  = {| Reference.MaxAbsError := pZero;
       Reference.MaxRelError := pZero;
       Reference.MeanAbsError := NaN;
       Reference.RMSError := NaN;
       Reference.DecimalDigits := pInf |}.
Proof.
  apply MeasureAccuracy_nan_approximation.
  - discriminate.
  - intros x [<- | [<- | []]]; vm_compute; reflexivity.
Defined.

(** ** Odd symmetry *)

Lemma neg_involutive (x : float) : neg (neg x) = x.
Proof. destruct x as [s | s | | s m e]; cbn; rewrite ?negb_involutive; reflexivity. Qed.

Lemma opposite_neg_l (a : float) : opposite (neg a) a.
Proof. left. reflexivity. Qed.

Lemma opposite_neg_r (a : float) : opposite a (neg a).
Proof. left. symmetry. apply neg_involutive. Qed.

Lemma opposite_zeros (s s' : bool) : opposite (S754_zero s) (S754_zero s').
Proof. right. split; reflexivity. Qed.

Lemma opposite_cases (a' a : float) :
  opposite a' a -> a' = neg a \/ exists s' s, a' = S754_zero s' /\ a = S754_zero s.
Proof.
  intros [H | [H1 H2]]; [left; exact H|]. right.
  destruct (eqb_zero_inv _ H1) as [s' ->]. destruct (eqb_zero_inv _ H2) as [s ->].
  exists s', s. split; reflexivity.
Qed.

Lemma round_aux_opp (prec emax : Z) (s : bool) (m e : Z) (l : location) :
  binary_round_aux prec emax (negb s) m e l = SFopp (binary_round_aux prec emax s m e l).
Proof.
  unfold binary_round_aux.
  destruct (shr_fexp prec emax m e l) as [mrs e'].
  destruct (shr_fexp prec emax _ e' loc_Exact) as [mrs' e''].
  destruct (shr_m mrs') as [|p|p]; try reflexivity.
  destruct (e'' <=? emax - prec); reflexivity.
Qed.

Lemma binary_round_opp (prec emax : Z) (s : bool) (m : positive) (e : Z) :
  binary_round prec emax (negb s) m e = SFopp (binary_round prec emax s m e).
Proof.
  unfold binary_round. destruct (shl_align m e _) as [mz ez]. apply round_aux_opp.
Qed.

Lemma binary_normalize_opp (prec emax n e : Z) (sz sz' : bool) :
  n <> 0 ->
  binary_normalize prec emax (- n) e sz' = SFopp (binary_normalize prec emax n e sz).
Proof.
  intros Hn. destruct n as [|p|p]; [contradiction Hn; reflexivity | |]; cbn [Z.opp binary_normalize].
  - apply (binary_round_opp prec emax false).
  - apply (binary_round_opp prec emax true).
Qed.

Lemma negb_xorb_left (a b : bool) : xorb (negb a) b = negb (xorb a b).
Proof. destruct a, b; reflexivity. Qed.

Lemma negb_xorb_right (a b : bool) : xorb a (negb b) = negb (xorb a b).
Proof. destruct a, b; reflexivity. Qed.

Lemma mul_opp_l (w : Width) (a b : float) : mul w (neg a) b = neg (mul w a b).
Proof.
  unfold mul, neg.
  destruct a as [sa | sa | | sa ma ea], b as [sb | sb | | sb mb eb];
    cbn [SFopp SFmul]; rewrite ?negb_xorb_left; try reflexivity.
  apply round_aux_opp.
Qed.

Lemma mul_opp_r (w : Width) (a b : float) : mul w a (neg b) = neg (mul w a b).
Proof.
  unfold mul, neg.
  destruct a as [sa | sa | | sa ma ea], b as [sb | sb | | sb mb eb];
    cbn [SFopp SFmul]; rewrite ?negb_xorb_right; try reflexivity.
  apply round_aux_opp.
Qed.

Lemma div_opp_l (w : Width) (a b : float) : div w (neg a) b = neg (div w a b).
Proof.
  unfold div, neg.
  destruct a as [sa | sa | | sa ma ea], b as [sb | sb | | sb mb eb];
    cbn [SFopp SFdiv]; rewrite ?negb_xorb_left; try reflexivity.
  destruct (SFdiv_core_binary _ _ _ _ _ _) as [[mz ez] lz]. apply round_aux_opp.
Qed.

Lemma sub_as_add (w : Width) (a b : float) : sub w a b = add w a (neg b).
Proof.
  unfold sub, add, neg.
  destruct a as [sa | sa | | sa ma ea], b as [sb | sb | | sb mb eb];
    cbn [SFopp SFsub SFadd]; try reflexivity;
    try (destruct sa, sb; reflexivity).
Qed.

Lemma add_opp (w : Width) (a b : float) : opposite (add w (neg a) (neg b)) (add w a b).
Proof.
  unfold add, neg.
  destruct a as [sa | sa | | sa ma ea], b as [sb | sb | | sb mb eb];
    cbn [SFopp SFadd];
    try (left; reflexivity);
    try (destruct sa, sb; ((left; reflexivity) || (right; split; reflexivity))).
  cbv zeta.
  set (A := Zpos (fst (shl_align ma ea (Z.min ea eb)))).
  set (B := Zpos (fst (shl_align mb eb (Z.min ea eb)))).
  replace (cond_Zopp (negb sa) A + cond_Zopp (negb sb) B)
    with (- (cond_Zopp sa A + cond_Zopp sb B))
    by (destruct sa, sb; cbn [negb cond_Zopp]; lia).
  destruct (Z.eq_dec (cond_Zopp sa A + cond_Zopp sb B) 0) as [E | E].
  - rewrite E. right. split; reflexivity.
  - left. apply binary_normalize_opp. exact E.
Qed.

Lemma opposite_neg (a' a : float) : opposite a' a -> opposite (neg a') (neg a).
Proof.
  intros H. destruct (opposite_cases _ _ H) as [-> | (s' & s & -> & ->)].
  - left. reflexivity.
  - apply opposite_zeros.
Qed.

Lemma opposite_add (w : Width) (a' a b' b : float) :
  opposite a' a -> opposite b' b -> opposite (add w a' b') (add w a b).
Proof.
  intros Ha Hb.
  destruct (opposite_cases _ _ Ha) as [-> | (sa' & sa & -> & ->)];
    destruct (opposite_cases _ _ Hb) as [-> | (sb' & sb & -> & ->)].
  - apply add_opp.
  - unfold add, neg. destruct a as [s | s | | s m e]; cbn [SFopp SFadd];
      try (left; reflexivity).
    destruct s, sb', sb; right; split; reflexivity.
  - unfold add, neg. destruct b as [s | s | | s m e]; cbn [SFopp SFadd];
      try (left; reflexivity).
    destruct s, sa', sa; right; split; reflexivity.
  - unfold add. destruct sa', sa, sb', sb; right; split; reflexivity.
Qed.

Lemma opposite_sub (w : Width) (a' a b' b : float) :
  opposite a' a -> opposite b' b -> opposite (sub w a' b') (sub w a b).
Proof.
  intros Ha Hb. rewrite !sub_as_add. apply opposite_add; [exact Ha|].
  apply opposite_neg. exact Hb.
Qed.

Lemma opposite_mul_l (w : Width) (a' a c : float) :
  opposite a' a -> opposite (mul w a' c) (mul w a c).
Proof.
  intros H. destruct (opposite_cases _ _ H) as [-> | (s' & s & -> & ->)].
  - left. apply mul_opp_l.
  - unfold mul. destruct c as [sc | sc | | sc mc ec]; cbn [SFmul];
      try (left; reflexivity); right; split; reflexivity.
Qed.

Lemma opposite_mul_r (w : Width) (a c' c : float) :
  opposite c' c -> opposite (mul w a c') (mul w a c).
Proof.
  intros H. destruct (opposite_cases _ _ H) as [-> | (s' & s & -> & ->)].
  - left. apply mul_opp_r.
  - unfold mul. destruct a as [sa | sa | | sa ma ea]; cbn [SFmul];
      try (left; reflexivity); right; split; reflexivity.
Qed.

Lemma mul_self_opposite (w : Width) (a' a : float) :
  opposite a' a -> mul w a' a' = mul w a a.
Proof.
  intros H. destruct (opposite_cases _ _ H) as [-> | (s' & s & -> & ->)].
  - rewrite mul_opp_l, mul_opp_r. apply neg_involutive.
  - unfold mul. destruct s', s; reflexivity.
Qed.

Lemma opposite_div_l (w : Width) (a' a c : float) :
  opposite a' a -> opposite (div w a' c) (div w a c).
Proof.
  intros H. destruct (opposite_cases _ _ H) as [-> | (s' & s & -> & ->)].
  - left. apply div_opp_l.
  - unfold div. destruct c as [sc | sc | | sc mc ec]; cbn [SFdiv];
      try (left; reflexivity); right; split; reflexivity.
Qed.

Lemma opposite_round (w : Width) (a' a : float) :
  opposite a' a -> opposite (round w a') (round w a).
Proof.
  intros H. destruct (opposite_cases _ _ H) as [-> | (s' & s & -> & ->)].
  - left. destruct a as [s | s | | s m e]; try reflexivity.
    apply binary_round_opp.
  - apply opposite_zeros.
Qed.

Lemma opposite_to_f64 (w : Width) (a' a : float) :
  opposite a' a -> opposite (to_f64 w a') (to_f64 w a).
Proof. destruct w; [apply opposite_round | exact (fun H => H)]. Qed.

Lemma opposite_of_f64 (w : Width) (a' a : float) :
  opposite a' a -> opposite (of_f64 w a') (of_f64 w a).
Proof. destruct w; [apply opposite_round | exact (fun H => H)]. Qed.

Lemma Mod_opp (x y : float) : Mod (neg x) y = neg (Mod x y).
Proof.
  unfold Mod, neg.
  destruct x as [sx | sx | | sx mx ex], y as [sy | sy | | sy my ey];
    cbn [SFopp]; try reflexivity.
  cbv zeta.
  set (r := Z.rem _ _).
  destruct (Z.eq_dec r 0) as [E | E].
  - rewrite E. destruct sx; reflexivity.
  - replace (if negb sx then - r else r) with (- (if sx then - r else r))
      by (destruct sx; cbn [negb]; lia).
    apply binary_normalize_opp. destruct sx; lia.
Qed.

Lemma opposite_Mod (a' a c : float) : opposite a' a -> opposite (Mod a' c) (Mod a c).
Proof.
  intros H. destruct (opposite_cases _ _ H) as [-> | (s' & s & -> & ->)].
  - left. apply Mod_opp.
  - unfold Mod. destruct c as [sc | sc | | sc mc ec];
      try (left; reflexivity); apply opposite_zeros.
Qed.

Lemma SFcompare_opp (a b : float) : SFcompare (SFopp a) (SFopp b) = SFcompare b a.
Proof.
  unfold SFcompare.
  destruct a as [sa | sa | | sa ma ea], b as [sb | sb | | sb mb eb];
    cbn [SFopp]; try reflexivity;
    try (destruct sa; reflexivity); try (destruct sb; reflexivity);
    try (destruct sa, sb; reflexivity).
  change (Pos.compare_cont Eq ma mb) with (Pos.compare ma mb).
  change (Pos.compare_cont Eq mb ma) with (Pos.compare mb ma).
  rewrite (Z.compare_antisym ea eb), (Pos.compare_antisym ma mb).
  destruct sa, sb; cbn [negb]; try reflexivity;
    destruct (ea ?= eb); cbn [CompOpp]; try reflexivity;
    destruct (ma ?= mb)%positive; reflexivity.
Qed.

Lemma SFcompare_zero_l (s s' : bool) (c : float) :
  SFcompare (S754_zero s) c = SFcompare (S754_zero s') c.
Proof. destruct c; reflexivity. Qed.

Lemma SFcompare_zero_r (s s' : bool) (c : float) :
  SFcompare c (S754_zero s) = SFcompare c (S754_zero s').
Proof. destruct c; reflexivity. Qed.

Lemma SFopp_involutive (x : float) : SFopp (SFopp x) = x.
Proof. exact (neg_involutive x). Qed.

Lemma opposite_gtb (a' a c : float) : opposite a' a -> gtb a' c = ltb a (neg c).
Proof.
  intros H. unfold gtb, ltb, SFltb, neg.
  destruct (opposite_cases _ _ H) as [-> | (s' & s & -> & ->)]; unfold neg.
  - pose proof (SFcompare_opp (SFopp c) a) as E. rewrite SFopp_involutive in E.
    rewrite E. reflexivity.
  - destruct c as [sc | sc | | sc mc ec]; try reflexivity; destruct sc; reflexivity.
Qed.

Lemma opposite_ltb (a' a c : float) : opposite a' a -> ltb a' c = gtb a (neg c).
Proof.
  intros H. unfold gtb, ltb, SFltb, neg.
  destruct (opposite_cases _ _ H) as [-> | (s' & s & -> & ->)]; unfold neg.
  - pose proof (SFcompare_opp a (SFopp c)) as E. rewrite SFopp_involutive in E.
    rewrite E. reflexivity.
  - destruct c as [sc | sc | | sc mc ec]; try reflexivity; destruct sc; reflexivity.
Qed.

Lemma ltb_leb_true (a b : float) : ltb a b = true -> leb a b = true.
Proof.
  unfold ltb, leb, SFltb, SFleb. destruct (SFcompare a b) as [[| |]|]; congruence.
Qed.

Lemma not_both_sides (m c : float) :
  leb c (neg c) = false -> gtb m c = true -> ltb m (neg c) = true -> False.
Proof.
  intros Hc H1 H2.
  pose proof (leb_trans c m (neg c) (ltb_leb_true _ _ H1) (ltb_leb_true _ _ H2)) as H.
  rewrite H in Hc. discriminate Hc.
Qed.

Lemma twoPi_opposite : opposite twoPi (neg twoPi).
Proof. apply opposite_neg_r. Qed.

(** A symmetric fold: above [c] apply [up], below [-c] apply [down]. *)
Lemma opposite_fold (c : float) (up down up' down' : float) (m' m : float) :
  leb c (neg c) = false ->
  opposite m' m ->
  opposite down' up -> opposite up' down ->
  opposite (if gtb m' c then up' else if ltb m' (neg c) then down' else m')
           (if gtb m c then up else if ltb m (neg c) then down else m).
Proof.
  intros Hc Hm Hdu Hud.
  rewrite (opposite_gtb m' m c Hm), (opposite_ltb m' m (neg c) Hm), neg_involutive.
  destruct (gtb m c) eqn:G, (ltb m (neg c)) eqn:L.
  - exfalso. exact (not_both_sides m c Hc G L).
  - exact Hdu.
  - exact Hud.
  - exact Hm.
Qed.

Lemma opposite_sinReduce (x' x : float) :
  opposite x' x -> opposite (sinReduce x') (sinReduce x).
Proof.
  intros H. unfold sinReduce.
  pose proof (opposite_Mod x' x twoPi H) as Hm.
  set (m' := Mod x' twoPi) in *. set (m := Mod x twoPi) in *.
  assert (Ha : opposite
            (if gtb m' Pi then (m' - twoPi)%f64
             else if ltb m' (- Pi)%f64 then (m' + twoPi)%f64 else m')
            (if gtb m Pi then (m - twoPi)%f64
             else if ltb m (- Pi)%f64 then (m + twoPi)%f64 else m)).
  { apply opposite_fold; [vm_compute; reflexivity | exact Hm | |].
    - rewrite sub_as_add. apply opposite_add; [exact Hm | apply opposite_neg_r].
    - rewrite sub_as_add. apply opposite_add; [exact Hm | apply opposite_neg_l]. }
  set (a' := if gtb m' Pi then _ else _) in *.
  set (a := if gtb m Pi then _ else _) in *.
  apply opposite_fold; [vm_compute; reflexivity | exact Ha | |].
  - apply opposite_sub; [apply opposite_neg_l | exact Ha].
  - apply opposite_sub; [apply opposite_neg_r | exact Ha].
Qed.

Ltac opposite_chain :=
  repeat match goal with
  | H : opposite ?a ?b |- opposite ?a ?b => exact H
  | |- opposite (add _ _ _) (add _ _ _) => apply opposite_add
  | |- opposite (sub _ _ _) (sub _ _ _) => apply opposite_sub
  | |- opposite (div _ _ ?c) (div _ _ ?c) => apply opposite_div_l
  | |- opposite (mul _ _ ?c) (mul _ _ ?c) => apply opposite_mul_l
  | |- opposite (mul _ ?a _) (mul _ ?a _) => apply opposite_mul_r
  | |- opposite (of_f64 _ _) (of_f64 _ _) => apply opposite_of_f64
  end.

Lemma opposite_sin3Term (w : Width) (x : float) :
  opposite (sin3Term w (neg x)) (sin3Term w x).
Proof.
  unfold sin3Term.
  pose proof (opposite_sinReduce _ _ (opposite_to_f64 w _ _ (opposite_neg_l x))) as H.
  set (xf' := sinReduce (to_f64 w (neg x))) in *. set (xf := sinReduce (to_f64 w x)) in *.
  clearbody xf' xf. cbv zeta. rewrite (mul_self_opposite F64 xf' xf H). opposite_chain.
Qed.

Lemma opposite_sin5Term (w : Width) (x : float) :
  opposite (sin5Term w (neg x)) (sin5Term w x).
Proof.
  unfold sin5Term.
  pose proof (opposite_sinReduce _ _ (opposite_to_f64 w _ _ (opposite_neg_l x))) as H.
  set (xf' := sinReduce (to_f64 w (neg x))) in *. set (xf := sinReduce (to_f64 w x)) in *.
  clearbody xf' xf. cbv zeta. rewrite (mul_self_opposite F64 xf' xf H). opposite_chain.
Qed.

Lemma opposite_sin7Term (w : Width) (x : float) :
  opposite (sin7Term w (neg x)) (sin7Term w x).
Proof.
  unfold sin7Term.
  pose proof (opposite_sinReduce _ _ (opposite_to_f64 w _ _ (opposite_neg_l x))) as H.
  set (xf' := sinReduce (to_f64 w (neg x))) in *. set (xf := sinReduce (to_f64 w x)) in *.
  clearbody xf' xf. cbv zeta. rewrite (mul_self_opposite F64 xf' xf H). opposite_chain.
Qed.

(** X18: [Sin] is odd up to the sign of a zero: for both widths, every precision
    value and every argument (the infinities and NaN included),
    [Sin(-x) == -Sin(x)], or both are NaN. *)
Theorem Sin_odd (w : Width) (x : float) (prec : Precision) :
  opposite (Sin w (neg x) prec) (Sin w x prec).
Proof.
  unfold Sin.
  destruct ((prec =? PrecisionAuto) || (prec =? PrecisionBalanced));
    [apply opposite_sin5Term|].
  destruct (prec =? PrecisionFast); [apply opposite_sin3Term|].
  destruct (prec =? PrecisionHigh); [apply opposite_sin7Term | apply opposite_sin5Term].
Qed.

Lemma opposite_arctan3Term (w : Width) (x : float) :
  opposite (arctan3Term w (neg x)) (arctan3Term w x).
Proof.
  unfold arctan3Term. pose proof (opposite_neg_l x) as H.
  set (x' := neg x) in *. clearbody x'.
  cbv zeta. rewrite (mul_self_opposite w x' x H). opposite_chain.
Qed.

Lemma opposite_arctan6Term (w : Width) (x : float) :
  opposite (arctan6Term w (neg x)) (arctan6Term w x).
Proof.
  unfold arctan6Term. pose proof (opposite_neg_l x) as H.
  set (x' := neg x) in *. clearbody x'.
  cbv zeta. rewrite (mul_self_opposite w x' x H). opposite_chain.
Qed.

(** X19: [Arctan] is odd up to the sign of a zero: for both widths, every
    precision value and every argument (the infinities and NaN included),
    [Arctan(-x) == -Arctan(x)], or both are NaN. *)
Theorem Arctan_odd (w : Width) (x : float) (prec : Precision) :
  opposite (Arctan w (neg x) prec) (Arctan w x prec).
Proof.
  unfold Arctan.
  destruct ((prec =? PrecisionAuto) || (prec =? PrecisionFast) || (prec =? PrecisionBalanced));
    [apply opposite_arctan3Term|].
  destruct (prec =? PrecisionHigh); [apply opposite_arctan6Term | apply opposite_arctan3Term].
Qed.

(** ** Arccos above its domain *)

Lemma width_prec_emax (w : Width) : 2 <= prec w /\ prec w < emax w /\ 0 < prec w.
Proof. destruct w; repeat split; cbn; lia. Qed.

Lemma mk_float_positive (prec emax m e : Z) :
  0 < m ->
  mk_float prec emax false m e = S754_infinity false \/
  exists m' e', mk_float prec emax false m e = S754_finite false m' e' /\ e <= e'.
Proof.
  intros Hm. unfold mk_float.
  destruct (Z.eqb_spec m 0) as [E | _]; [lia|].
  destruct (m =? 2 ^ prec).
  - destruct (e + 1 <=? emax - prec); [right | left; reflexivity].
    eexists _, _. split; [reflexivity | lia].
  - destruct (e <=? emax - prec); [right | left; reflexivity].
    eexists _, _. split; [reflexivity | lia].
Qed.

Lemma RNE_positive (prec emax : Z) (v : Q) (m' e1 : Z) :
  2 <= prec -> prec < emax ->
  RNE prec emax v m' e1 -> (Q2 (emin prec emax) <= v)%Q ->
  0 < m' /\ emin prec emax <= e1.
Proof.
  intros Hp He R Hv.
  assert (G : on_grid prec emax 1 (emin prec emax)).
  { split; [lia|]. split; [|intros; lia].
    split; [lia|]. apply Z.pow_gt_1; lia. }
  pose proof (RNE_ge_grid prec emax Hp He v m' e1 1 (emin prec emax) R G) as H.
  change (inject_Z 1) with 1%Q in H. rewrite Qmult_1_l in H. specialize (H Hv).
  destruct R as (m1 & (Ge & _) & _). split; [|exact Ge].
  destruct (Z.lt_ge_cases 0 m') as [Hm | Hm]; [exact Hm | exfalso].
  pose proof (Q2_pos e1) as P1. pose proof (Q2_pos (emin prec emax)) as P2.
  assert (Hq : (inject_Z m' <= 0)%Q) by (change 0%Q with (inject_Z 0); rewrite <- Zle_Qle; exact Hm).
  assert (Hz : (inject_Z m' * Q2 e1 <= 0)%Q) by nra.
  lra.
Qed.

(** A negative float over a positive one of a quotient that is not tiny:
    a negative float or [-Inf]. *)
Lemma div_negative (w : Width) (m mc : positive) (e ec : Z) :
  (Q2 (emin (prec w) (emax w)) <= inject_Z (Zpos m) * Q2 e / (inject_Z (Zpos mc) * Q2 ec))%Q ->
  div w (S754_finite true m e) (S754_finite false mc ec) = S754_infinity true \/
  exists m' e', div w (S754_finite true m e) (S754_finite false mc ec) = S754_finite true m' e'
                /\ emin (prec w) (emax w) <= e'.
Proof.
  intros Hv. destruct (width_prec_emax w) as (Hp & He & Hp0).
  change (S754_finite true m e) with (neg (S754_finite false m e)).
  rewrite div_opp_l. unfold div.
  destruct (div_RNE (prec w) (emax w) Hp0 m mc e ec) as (m' & e1 & -> & R).
  destruct (RNE_positive _ _ _ _ _ Hp He R Hv) as [Hm He1].
  destruct (mk_float_positive (prec w) (emax w) m' e1 Hm) as [-> | (m2 & e2 & -> & Hle)].
  - left. reflexivity.
  - right. exists m2, e2. split; [reflexivity | lia].
Qed.

Lemma widen_negative (w : Width) (m : positive) (e : Z) :
  emin (prec w) (emax w) <= e ->
  to_f64 w (S754_finite true m e) = S754_infinity true \/
  exists m' e', to_f64 w (S754_finite true m e) = S754_finite true m' e'.
Proof.
  intros He. destruct w; [|right; exists m, e; reflexivity].
  cbn [to_f64 round]. change (prec F64) with 53. change (emax F64) with 1024.
  change (binary_round 53 1024 true m e) with (binary_round 53 1024 (negb false) m e).
  rewrite (binary_round_opp 53 1024 false m e).
  destruct (binary_round_RNE 53 1024 p64 m e) as (m' & e1 & -> & R).
  assert (Hv : (Q2 (emin 53 1024) <= inject_Z (Zpos m) * Q2 e)%Q).
  { apply Qle_trans with (Q2 e).
    - apply Q2_le. change (emin (prec F32) (emax F32)) with (-149) in He.
      change (emin 53 1024) with (-1074). lia.
    - pose proof (Q2_pos e) as P.
      assert (1 <= inject_Z (Zpos m))%Q
        by (change 1%Q with (inject_Z 1); rewrite <- Zle_Qle; lia).
      nra. }
  destruct (RNE_positive 53 1024 _ _ _ ltac:(lia) ltac:(lia) R Hv) as [Hm _].
  destruct (mk_float_positive 53 1024 m' e1 Hm) as [-> | (m2 & e2 & -> & _)].
  - left. reflexivity.
  - right. exists m2, e2. reflexivity.
Qed.

(** A float of the width above 1 is at least the successor of 1. *)
Lemma above_one_bound (w : Width) (m : positive) (e : Z) :
  bounded (prec w) (emax w) m e = true ->
  (1 < inject_Z (Zpos m) * Q2 e)%Q ->
  (1 + Q2 (1 - prec w) <= inject_Z (Zpos m) * Q2 e)%Q.
Proof.
  intros Hb H1. destruct (width_prec_emax w) as (Hp & _ & _).
  destruct (bounded_Q _ _ _ _ Hb) as (_ & Hu & _ & _).
  assert (He : 1 - prec w <= e).
  { assert (H0 : (Q2 0 < Q2 (prec w + e))%Q) by (rewrite Q2_0; lra).
    apply Q2_lt_inv in H0. lia. }
  rewrite (grid_multiple (Zpos m) e (1 - prec w) He) in *.
  set (K := Zpos m * 2 ^ (e - (1 - prec w))) in *.
  pose proof (Q2_pos (1 - prec w)) as Pg.
  assert (E1 : (inject_Z (2 ^ (prec w - 1)) * Q2 (1 - prec w) == 1)%Q).
  { rewrite Q2_inject by lia. rewrite <- Q2_add.
    replace (prec w - 1 + (1 - prec w)) with 0 by lia. apply Q2_0. }
  assert (HK : 2 ^ (prec w - 1) < K).
  { rewrite <- E1 in H1. apply Qmult_lt_r in H1; [|exact Pg].
    rewrite <- Zlt_Qlt in H1. exact H1. }
  assert (H2 : (inject_Z (2 ^ (prec w - 1) + 1) * Q2 (1 - prec w)
                <= inject_Z K * Q2 (1 - prec w))%Q).
  { apply Qmult_le_compat_r; [rewrite <- Zle_Qle; lia | lra]. }
  rewrite inject_Z_plus in H2. change (inject_Z 1) with 1%Q in H2.
  rewrite Qmult_plus_distr_l, E1, Qmult_1_l in H2. exact H2.
Qed.

Lemma two_is_finite (w : Width) :
  exists m e, lit w 2 1 = S754_finite false m e /\ (inject_Z (Zpos m) * Q2 e == 2)%Q.
Proof.
  destruct w; eexists _, _; (split; [reflexivity | vm_compute; reflexivity]).
Qed.

Lemma one_canonical (w : Width) :
  canonf (prec w) (emax w) (lit w 1 1) /\ (F2Q (lit w 1 1) == 1)%Q.
Proof. destruct w; (split; [split; reflexivity | vm_compute; reflexivity]). Qed.

Lemma below_one_canonical (w : Width) :
  exists c, canonf (prec w) (emax w) c /\ (F2Q c == - Q2 (1 - prec w))%Q.
Proof.
  destruct w.
  - exists (S754_finite true 8388608 (-46)). split; [split; reflexivity | vm_compute; reflexivity].
  - exists (S754_finite true 4503599627370496 (-104)).
    split; [split; reflexivity | vm_compute; reflexivity].
Qed.

Lemma sqrt_of_negative (w : Width) (h : float) :
  h = S754_infinity true \/
  (exists m e, h = S754_finite true m e /\ emin (prec w) (emax w) <= e) ->
  Sqrt64 (to_f64 w h) = NaN.
Proof.
  intros [-> | (m & e & -> & He)].
  - destruct w; reflexivity.
  - destruct (widen_negative w m e He) as [-> | (m' & e' & ->)]; reflexivity.
Qed.

Lemma arccos_arg_above_one (w : Width) (x : float) :
  valid w x = true -> gtb x (lit w 1 1) = true ->
  Sqrt64 (to_f64 w (div w (sub w (lit w 1 1) x) (lit w 2 1))) = NaN.
Proof.
  intros Hv Hgt. destruct (width_prec_emax w) as (Hp & He & Hp0).
  destruct (two_is_finite w) as (m2 & e2 & E2 & V2).
  destruct (one_canonical w) as [C1 V1].
  apply sqrt_of_negative.
  assert (Hx : x = S754_infinity false \/
               exists m e, x = S754_finite false m e /\ bounded (prec w) (emax w) m e = true).
  { unfold gtb in Hgt. rewrite one_is_finite in Hgt.
    destruct x as [s | s | | s m e]; try discriminate Hgt.
    - destruct s; [discriminate Hgt | left; reflexivity].
    - destruct s; [discriminate Hgt|]. right. exists m, e. split; [reflexivity | exact Hv]. }
  destruct Hx as [-> | (m & e & -> & Hb)].
  { left. rewrite one_is_finite, E2. reflexivity. }
  assert (Cx : canonf (prec w) (emax w) (S754_finite false m e)) by (split; [exact Hv | reflexivity]).
  assert (H1 : (1 < inject_Z (Zpos m) * Q2 e)%Q).
  { unfold gtb in Hgt. apply (SFltb_Q (prec w) (emax w) _ _ C1 Cx) in Hgt.
    rewrite V1, F2Q_finite in Hgt. exact Hgt. }
  pose proof (above_one_bound w m e Hb H1) as Hlow.
  pose proof (sub_rounds (prec w) (emax w) Hp0 He _ _ C1 Cx) as HR.
  fold (sub w (lit w 1 1) (S754_finite false m e)) in HR.
  destruct (below_one_canonical w) as (c & Cc & Vc).
  pose proof (Q2_pos (1 - prec w)) as Pg.
  destruct (r_upper _ _ _ _ HR c Cc) as [-> | [Hf Hd]].
  { rewrite V1, F2Q_finite, Vc. lra. }
  { left. rewrite E2. reflexivity. }
  rewrite Vc in Hd.
  destruct (sub w (lit w 1 1) (S754_finite false m e)) as [sd | sd | | sd md ed];
    try discriminate Hf.
  { cbn [F2Q] in Hd. lra. }
  rewrite F2Q_finite in Hd.
  assert (Pd : (0 < inject_Z (Zpos md) * Q2 ed)%Q).
  { apply Qmult_lt_0_compat; [|apply Q2_pos].
    change 0%Q with (inject_Z 0). rewrite <- Zlt_Qlt. lia. }
  destruct sd; [|lra].
  rewrite E2.
  destruct (div_negative w md m2 ed e2) as [-> | (m' & e' & -> & He')].
  - rewrite V2.
    apply Qle_trans with (Q2 (- prec w)).
    + apply Q2_le. unfold emin. lia.
    + assert (Eg : (Q2 (1 - prec w) == 2 * Q2 (- prec w))%Q)
        by (replace (1 - prec w) with (- prec w + 1) by lia; apply Q2_succ).
      apply Qle_shift_div_l; [lra|]. lra.
  - left. reflexivity.
  - right. exists m', e'. split; [reflexivity | exact He'].
Qed.

Lemma not_between_above_one (w : Width) (x : float) :
  gtb x (lit w 1 1) = true ->
  gtb x (neg (lit w 1 2)) && ltb x (lit w 1 2) = false.
Proof.
  intros Hgt. apply andb_false_iff. right.
  destruct (ltb x (lit w 1 2)) eqn:L; [exfalso | reflexivity].
  pose proof (leb_trans _ _ _ (ltb_leb_true _ _ Hgt) (ltb_leb_true _ _ L)) as H.
  destruct w; vm_compute in H; discriminate H.
Qed.

(** X20: [Arccos] returns NaN on every argument above 1, [+Inf] included, for
    both widths and every precision value: the half-angle branch takes the
    square root of a negative number. *)
Theorem Arccos_above_one (w : Width) (x : float) (prec : Precision) :
  valid w x = true -> gtb x (lit w 1 1) = true -> Arccos w x prec = NaN.
Proof.
  intros Hv Hgt.
  assert (H3 : arccos3Term w x = NaN).
  { unfold arccos3Term. rewrite (not_between_above_one w x Hgt).
    rewrite (arccos_arg_above_one w x Hv Hgt). destruct w; reflexivity. }
  assert (H6 : arccos6Term w x = NaN).
  { unfold arccos6Term. rewrite (not_between_above_one w x Hgt).
    rewrite (arccos_arg_above_one w x Hv Hgt). destruct w; reflexivity. }
  unfold Arccos.
  destruct ((prec =? PrecisionAuto) || (prec =? PrecisionFast) || (prec =? PrecisionBalanced));
    [exact H3|].
  destruct (prec =? PrecisionHigh); [exact H6 | exact H3].
Qed.

Lemma Arccos_above_one_witness :
  Arccos F32 (S754_finite false 12582912 (-23)) PrecisionHigh = NaN /\
  Arccos F64 pInf PrecisionFast = NaN.
Proof.
  split; apply Arccos_above_one; reflexivity.
Defined.

(** ** The trigonometric family at the infinities *)

Ltac at_infinity w s := destruct w, s; vm_compute; reflexivity.

Lemma sin_kernels_infinity (w : Width) (s : bool) :
  sin3Term w (S754_infinity s) = NaN /\ sin5Term w (S754_infinity s) = NaN /\
  sin7Term w (S754_infinity s) = NaN.
Proof. repeat split; at_infinity w s. Qed.

Lemma cos_kernels_infinity (w : Width) (s : bool) :
  cos3Term w (S754_infinity s) = NaN /\ cos5Term w (S754_infinity s) = NaN /\
  cos7Term w (S754_infinity s) = NaN.
Proof. repeat split; at_infinity w s. Qed.

Lemma sec_kernels_infinity (w : Width) (s : bool) :
  sec3Term w (S754_infinity s) = NaN /\ sec5Term w (S754_infinity s) = NaN /\
  sec7Term w (S754_infinity s) = NaN.
Proof. repeat split; at_infinity w s. Qed.

Lemma csc_kernels_infinity (w : Width) (s : bool) :
  csc3Term w (S754_infinity s) = NaN /\ csc5Term w (S754_infinity s) = NaN /\
  csc7Term w (S754_infinity s) = NaN.
Proof. repeat split; at_infinity w s. Qed.

Lemma tan_kernels_infinity (w : Width) (s : bool) :
  tan2Term w (S754_infinity s) = NaN /\ tan3Term w (S754_infinity s) = NaN /\
  tan6Term w (S754_infinity s) = NaN.
Proof. repeat split; at_infinity w s. Qed.

Lemma cotan_kernels_infinity (w : Width) (s : bool) :
  cotan2Term w (S754_infinity s) = NaN /\ cotan3Term w (S754_infinity s) = NaN /\
  cotan6Term w (S754_infinity s) = NaN.
Proof. repeat split; at_infinity w s. Qed.

Lemma arctan_kernels_infinity (w : Width) (s : bool) :
  arctan3Term w (S754_infinity s) = NaN /\ arctan6Term w (S754_infinity s) = NaN /\
  arccotan3Term w (S754_infinity s) = NaN /\ arccotan6Term w (S754_infinity s) = NaN.
Proof. repeat split; at_infinity w s. Qed.

Lemma arccos_kernels_infinity (w : Width) :
  arccos3Term w nInf = pInf /\ arccos6Term w nInf = pInf.
Proof. split; destruct w; vm_compute; reflexivity. Qed.

(** X21: at an infinite argument of either sign, for both widths and every
    precision value, [Sin], [Cos], [Sec], [Csc], [Tan] and [Cotan] return NaN
    (the reduction modulo the period is NaN), and so do [Arctan] and
    [Arccotan] (the series subtracts infinities); [Arccos] returns [+Inf] at
    [-Inf]. *)
Theorem Trig_infinite_argument (w : Width) (s : bool) (prec : Precision) :
  Sin w (S754_infinity s) prec = NaN /\
  Cos w (S754_infinity s) prec = NaN /\
  Sec w (S754_infinity s) prec = NaN /\
  Csc w (S754_infinity s) prec = NaN /\
  Tan w (S754_infinity s) prec = NaN /\
  Cotan w (S754_infinity s) prec = NaN /\
  Arctan w (S754_infinity s) prec = NaN /\
  Arccotan w (S754_infinity s) prec = NaN /\
  Arccos w nInf prec = pInf.
Proof.
  destruct (sin_kernels_infinity w s) as (S3 & S5 & S7).
  destruct (cos_kernels_infinity w s) as (C3 & C5 & C7).
  destruct (sec_kernels_infinity w s) as (E3 & E5 & E7).
  destruct (csc_kernels_infinity w s) as (K3 & K5 & K7).
  destruct (tan_kernels_infinity w s) as (T2 & T3 & T6).
  destruct (cotan_kernels_infinity w s) as (O2 & O3 & O6).
  destruct (arctan_kernels_infinity w s) as (A3 & A6 & B3 & B6).
  destruct (arccos_kernels_infinity w) as (R3 & R6).
  unfold Sin, Cos, Sec, Csc, Tan, Cotan, Arctan, Arccotan, Arccos.
  destruct ((prec =? PrecisionAuto) || (prec =? PrecisionBalanced));
    destruct ((prec =? PrecisionAuto) || (prec =? PrecisionFast) || (prec =? PrecisionBalanced));
    destruct (prec =? PrecisionFast); destruct (prec =? PrecisionBalanced);
    destruct (prec =? PrecisionHigh);
    repeat split; assumption.
Qed.

(** ** The exponential is never negative *)

Lemma tiny64 : (0 < Q2 (-1021) <= 1 # 1152921504606846976)%Q.
Proof.
  split; [apply Q2_pos|].
  apply Qle_trans with (Q2 (-60)); [apply Q2_le; lia | vm_compute; discriminate].
Qed.

(** The error of a rounding to float64 of a value of magnitude at most [B]. *)
Lemma abs_err64 (u B : Q) (R : float) :
  r64 u R -> c64 R -> (- B <= u <= B)%Q ->
  (u - (B * eps64 + Q2 (-1021)) <= F2Q R <= u + (B * eps64 + Q2 (-1021)))%Q.
Proof.
  intros HR Hc HB.
  assert (E21 : (Q2 (-1021) == 2 * Q2 (-1022))%Q) by (apply (Q2_succ (-1022))).
  pose proof (Q2_pos (-1022)) as P22.
  assert (HBpos : (0 <= B)%Q) by lra.
  destruct (Qlt_le_dec (Qabs u) (Q2 (-1022))) as [Ht | Hn].
  - assert (Hu : (- Q2 (-1022) <= u <= Q2 (-1022))%Q)
      by (apply Qabs_Qle_condition, Qlt_le_weak; exact Ht).
    assert (Clo : c64 (S754_finite true 4503599627370496 (-1074))) by (split; reflexivity).
    assert (Chi : c64 (S754_finite false 4503599627370496 (-1074))) by (split; reflexivity).
    assert (Elo : (F2Q (S754_finite true 4503599627370496 (-1074)) == - Q2 (-1022))%Q)
      by (vm_compute; reflexivity).
    assert (Ehi : (F2Q (S754_finite false 4503599627370496 (-1074)) == Q2 (-1022))%Q)
      by (vm_compute; reflexivity).
    destruct (rounds_between 53 1024 _ _ _ _ HR Clo Chi) as [_ Hb].
    { rewrite Elo. lra. }
    { rewrite Ehi. lra. }
    rewrite Elo, Ehi in Hb.
    assert (0 <= B * eps64)%Q by (apply Qmult_le_0_compat; [exact HBpos | discriminate]).
    lra.
  - destruct Hc as [_ Hf].
    pose proof (r_rel _ _ _ _ HR Hf Hn) as He.
    change (Q2 (1 - 53)) with (Q2 (-52)) in He.
    assert (E52 : (Q2 (-52) == eps64)%Q) by (vm_compute; reflexivity).
    rewrite E52 in He.
    assert (Ha : (Qabs u <= B)%Q) by (apply Qabs_Qle_condition; exact HB).
    assert (Hm : (Qabs u * eps64 <= B * eps64)%Q)
      by (apply Qmult_le_compat_r; [exact Ha | discriminate]).
    assert (Hd : (Qabs (F2Q R - u) <= B * eps64)%Q) by lra.
    apply Qabs_Qle_condition in Hd. lra.
Qed.

(** The reduced argument of [Exp] is within [[-1/2, 1/2]] on the whole range
    between the float64 thresholds. *)
Lemma reduce_general (xf : float) :
  c64 xf -> (minLog_Q <= F2Q xf <= maxLog_Q)%Q ->
  let k := to_int (Floor (xf * invLn2 + 1 // 2)%f64) in
  let r := (xf - of_int F64 k * ln2)%f64 in
  c64 r /\ (- (1 # 2) <= F2Q r <= 1 # 2)%Q.
Proof.
  intros Hx HX. destruct invLn2_c as [HcC EC]. destruct ln2_c as [HcL EL].
  destruct half_c as [HcH EH]. destruct tiny64 as [T0 T1'].
  set (tiny := Q2 (-1021)) in *.
  set (X := F2Q xf) in *.
  (* t1 = xf * invLn2 *)
  pose proof (mul64 xf invLn2 Hx HcC) as R1.
  fold X in R1. rewrite EC in R1.
  destruct (halves_c (-2152) ltac:(reflexivity)) as [Hclo Elo].
  destruct (halves_c 2152 ltac:(reflexivity)) as [Hchi Ehi].
  unfold inject_Z in Elo, Ehi.
  assert (B1u : (- (1076 # 1) <= X * invLn2_Q <= 1076 # 1)%Q)
    by (unfold minLog_Q, maxLog_Q, invLn2_Q in *; lra).
  destruct (rounds_between 53 1024 _ _ _ _ R1 Hclo Hchi) as [Hct1 _].
  { rewrite Elo. lra. }
  { rewrite Ehi. lra. }
  pose proof (abs_err64 _ (1076 # 1) _ R1 Hct1 B1u) as Q1. fold tiny in Q1.
  set (t1 := (xf * invLn2)%f64) in *. set (T1 := F2Q t1) in *.
  (* t2 = t1 + 1/2 *)
  pose proof (add64 t1 (1 // 2) Hct1 HcH) as R2.
  fold T1 in R2. rewrite EH in R2.
  destruct (halves_c (-2154) ltac:(reflexivity)) as [Hclo2 Elo2].
  destruct (halves_c 2154 ltac:(reflexivity)) as [Hchi2 Ehi2].
  unfold inject_Z in Elo2, Ehi2.
  assert (B2u : (- (1077 # 1) <= T1 + (1 # 2) <= 1077 # 1)%Q)
    by (unfold eps64 in *; lra).
  destruct (rounds_between 53 1024 _ _ _ _ R2 Hclo2 Hchi2) as [Hct2 B2].
  { rewrite Elo2. lra. }
  { rewrite Ehi2. lra. }
  rewrite Elo2, Ehi2 in B2.
  pose proof (abs_err64 _ (1077 # 1) _ R2 Hct2 B2u) as Q2'. fold tiny in Q2'.
  set (t2 := (t1 + 1 // 2)%f64) in *. set (T2 := F2Q t2) in *.
  (* k = int(floor t2) *)
  destruct (floor_to_int t2 1077 Hct2 ltac:(split; [discriminate | reflexivity])) as [HK Hkr].
  { fold T2. unfold inject_Z. lra. }
  set (k := to_int (Floor t2)) in *. cbv zeta. fold T2 in HK.
  destruct (of_int_exact k) as [Hckf Ekf].
  { assert (2 ^ 53 = 8192 * 2 ^ 40) by reflexivity. lia. }
  assert (HKq : (- (1078 # 1) <= inject_Z k <= 1077 # 1)%Q).
  { split; [change (- (1078 # 1))%Q with (inject_Z (-1078))
           | change (1077 # 1)%Q with (inject_Z 1077)];
      rewrite <- Zle_Qle; lia. }
  (* kl = k * ln2 *)
  pose proof (mul64 (of_int F64 k) ln2 Hckf HcL) as R3.
  rewrite Ekf, EL in R3.
  destruct (halves_c (-1500) ltac:(reflexivity)) as [Hclo3 Elo3].
  destruct (halves_c 1500 ltac:(reflexivity)) as [Hchi3 Ehi3].
  unfold inject_Z in Elo3, Ehi3.
  assert (B3u : (- (750 # 1) <= inject_Z k * ln2_Q <= 750 # 1)%Q)
    by (unfold ln2_Q; lra).
  destruct (rounds_between 53 1024 _ _ _ _ R3 Hclo3 Hchi3) as [Hckl _].
  { rewrite Elo3. lra. }
  { rewrite Ehi3. lra. }
  pose proof (abs_err64 _ (750 # 1) _ R3 Hckl B3u) as Q3. fold tiny in Q3.
  set (kl := (of_int F64 k * ln2)%f64) in *. set (KL := F2Q kl) in *.
  (* r = xf - kl *)
  pose proof (sub64 xf kl Hx Hckl) as R4.
  fold X KL in R4.
  destruct (halves_c (-1) ltac:(reflexivity)) as [Hcmh Emh].
  destruct (halves_c 1 ltac:(reflexivity)) as [Hcph Eph].
  unfold inject_Z in Emh, Eph.
  unfold eps64, invLn2_Q, ln2_Q in *.
  destruct (rounds_between 53 1024 _ _ _ _ R4 Hcmh Hcph) as [Hcr B4].
  { rewrite Emh. lra. }
  { rewrite Eph. lra. }
  rewrite Emh, Eph in B4.
  split; [exact Hcr | lra].
Qed.

Lemma nonneg_of_sign (r : float) :
  is_nan r = false -> sign_of r = false -> leb pZero r = true.
Proof.
  destruct r as [s | s | | s m e]; cbn [is_nan sign_of]; intros Hn Hs;
    try discriminate Hn; subst s; reflexivity.
Qed.

Lemma narrow_nonneg (w : Width) (res : float) :
  valid F64 res = true -> is_nan res = false -> sign_of res = false ->
  is_nan (of_f64 w res) = false /\ sign_of (of_f64 w res) = false.
Proof.
  intros Hv Hn Hs. destruct w; [|split; assumption].
  destruct res as [s | s | | s m e]; try discriminate Hn; cbn [sign_of] in Hs; subst s;
    try (split; reflexivity).
  assert (Hc : c64 (S754_finite false m e)) by (split; [exact Hv | reflexivity]).
  pose proof (narrow_rounds F32 _ Hc) as HR.
  assert (Hp : (0 < F2Q (S754_finite false m e))%Q).
  { rewrite F2Q_finite. apply Qmult_lt_0_compat; [|apply Q2_pos].
    change 0%Q with (inject_Z 0). rewrite <- Zlt_Qlt. lia. }
  split.
  - destruct (r_class _ _ _ _ HR) as [Hnn _].
    destruct (of_f64 F32 (S754_finite false m e)); try reflexivity.
    contradiction Hnn. reflexivity.
  - exact (r_pos _ _ _ _ HR Hp).
Qed.

Lemma not_ltb_le64 (x y : float) : c64 x -> c64 y -> ltb x y = false -> (F2Q y <= F2Q x)%Q.
Proof.
  intros Hx Hy H. apply Qnot_lt_le. intros Hlt.
  apply (ltb_Q64 _ _ Hx Hy) in Hlt. rewrite Hlt in H. discriminate H.
Qed.

Lemma to_f64_c64 (w : Width) (x : float) :
  valid w x = true -> is_finite x = true -> c64 (to_f64 w x).
Proof.
  intros Hv Hf. destruct w.
  - exact (proj1 (widen_exact x Hv Hf)).
  - split; [exact Hv | exact Hf].
Qed.

Lemma Exp_sign (w : Width) (x : float) (prec : Precision) :
  valid w x = true -> is_nan x = false ->
  is_nan (Exp w x prec) = false /\ sign_of (Exp w x prec) = false.
Proof.
  intros Hv Hn.
  destruct (is_finite x) eqn:Hf.
  2:{ destruct x as [s | s | | s m e]; try discriminate.
      destruct (Exp_special w prec) as (_ & Hp & Hm). unfold pInf, nInf in Hp, Hm.
      destruct s; [rewrite Hm | rewrite Hp]; split; reflexivity. }
  pose proof (to_f64_c64 w x Hv Hf) as Hxf.
  destruct maxLog_c as [HcM EM]. destruct minLog_c as [Hcm Em].
  unfold Exp. rewrite (neb_refl_finite x Hf).
  set (xf := to_f64 w x) in *.
  rewrite !IsInf_finite by apply Hxf.
  destruct (gtb xf maxLogFloat64) eqn:Hg; [split; reflexivity|].
  destruct (ltb xf minLogFloat64) eqn:Hl; [split; reflexivity|].
  assert (HX : (minLog_Q <= F2Q xf <= maxLog_Q)%Q).
  { split.
    - rewrite <- Em. exact (not_ltb_le64 _ _ Hxf Hcm Hl).
    - rewrite <- EM. exact (not_ltb_le64 _ _ HcM Hxf Hg). }
  destruct (reduce_general xf Hxf HX) as (Hr & Br).
  set (k := to_int (Floor (xf * invLn2 + 1 // 2)%f64)) in *.
  set (r := (xf - of_int F64 k * ln2)%f64) in *.
  destruct (expPoly_bounds r (normalizePrecision prec) Hr Br) as (He & Be & _ & _).
  set (expr := expPoly r (normalizePrecision prec)) in *.
  cbv zeta. pose proof (scale_rounds expr k He) as HR.
  set (res := if (k >? -1023) && (k <? 1024) then _ else _) in *.
  assert (Hu : (0 < F2Q expr * Q2 k)%Q).
  { apply Qmult_lt_0_compat; [lra | apply Q2_pos]. }
  destruct (r_class _ _ _ _ HR) as [Hnn Hvr].
  apply narrow_nonneg.
  - exact Hvr.
  - destruct res; try reflexivity. contradiction Hnn. reflexivity.
  - exact (r_pos _ _ _ _ HR Hu).
Qed.

(** X22: [Exp] never returns a negative number or NaN on an argument that is not
    NaN: for both widths and every precision value the result is [+0], a
    positive number or [+Inf], so [Exp(x) >= 0] always holds and the result
    has no sign bit. *)
Theorem Exp_never_negative (w : Width) (x : float) (prec : Precision) :
  valid w x = true -> is_nan x = false ->
  leb pZero (Exp w x prec) = true /\ sign_of (Exp w x prec) = false.
Proof.
  intros Hv Hn. destruct (Exp_sign w x prec Hv Hn) as [H1 H2].
  split; [apply nonneg_of_sign; assumption | exact H2].
Qed.

Lemma Exp_never_negative_witness :
  (leb pZero (Exp F32 (S754_finite true 12582912 (-20)) PrecisionFast) = true /\
   sign_of (Exp F32 (S754_finite true 12582912 (-20)) PrecisionFast) = false) /\
  (leb pZero (Exp F64 nInf PrecisionHigh) = true /\
   sign_of (Exp F64 nInf PrecisionHigh) = false).
Proof.
  split; apply Exp_never_negative; reflexivity.
Defined.

(** ** The range reductions of the trigonometric kernels *)

Lemma pi_constants :
  c64 Pi /\ c64 twoPi /\ c64 halfPi /\ c64 quarterPi /\
  (0 < F2Q Pi)%Q /\ (F2Q twoPi == 2 * F2Q Pi)%Q /\
  (F2Q Pi == 2 * F2Q halfPi)%Q /\ (F2Q Pi == 4 * F2Q quarterPi)%Q.
Proof.
  repeat split; try (vm_compute; reflexivity).
Qed.

Lemma neg_c64 (c : float) : c64 c -> c64 (neg c) /\ (F2Q (neg c) == - F2Q c)%Q.
Proof.
  intros [Hv Hf]. destruct c as [s | s | | s m e]; try discriminate Hf.
  - split; [split; reflexivity | reflexivity].
  - split; [split; [exact Hv | reflexivity]|].
    cbn [neg SFopp]. rewrite !F2Q_finite. destruct s; cbn [negb]; ring.
Qed.

Lemma zero_c64 : c64 pZero /\ (F2Q pZero == 0)%Q.
Proof. split; [split; reflexivity | reflexivity]. Qed.

(** [math.Mod(x, y)] is finite and not above [|y|] in magnitude. *)
Lemma Mod_range (x : float) (my : positive) (ey : Z) :
  c64 x -> c64 (S754_finite false my ey) ->
  c64 (Mod x (S754_finite false my ey)) /\
  (- F2Q (S754_finite false my ey) <= F2Q (Mod x (S754_finite false my ey))
   <= F2Q (S754_finite false my ey))%Q.
Proof.
  intros Hx Hy. pose proof (neg_c64 _ Hy) as [Hny Eny].
  assert (Py : (0 < F2Q (S754_finite false my ey))%Q).
  { rewrite F2Q_finite. apply Qmult_lt_0_compat; [|apply Q2_pos].
    change 0%Q with (inject_Z 0). rewrite <- Zlt_Qlt. lia. }
  destruct x as [sx | sx | | sx mx ex]; try (destruct Hx as [_ Hf]; discriminate Hf).
  { cbn [Mod]. split; [exact Hx | change (F2Q (S754_zero sx)) with 0%Q; lra]. }
  unfold Mod. cbv zeta. change (prec F64) with 53. change (emax F64) with 1024.
  set (ez := Z.min ex ey).
  set (a := Z.shiftl (Zpos mx) (ex - ez)). set (b := Z.shiftl (Zpos my) (ey - ez)).
  assert (Hb : b = Zpos my * 2 ^ (ey - ez))
    by (unfold b; rewrite Z.shiftl_mul_pow2 by (unfold ez; lia); reflexivity).
  assert (Ha : a = Zpos mx * 2 ^ (ex - ez))
    by (unfold a; rewrite Z.shiftl_mul_pow2 by (unfold ez; lia); reflexivity).
  assert (Hbpos : 0 < b).
  { rewrite Hb. apply Z.mul_pos_pos; [lia | apply Z.pow_pos_nonneg; unfold ez; lia]. }
  assert (Hapos : 0 <= a).
  { rewrite Ha. apply Z.mul_nonneg_nonneg; [lia | apply Z.pow_nonneg; lia]. }
  pose proof (Z.rem_bound_pos a b Hapos Hbpos) as Hr.
  set (r := Z.rem a b) in *.
  set (n := if sx then - r else r).
  pose proof (binary_normalize_rounds 53 1024 p64 e64 n ez sx) as HR.
  assert (Ey : (F2Q (S754_finite false my ey) == inject_Z b * Q2 ez)%Q).
  { rewrite F2Q_finite, Hb. apply grid_multiple. unfold ez. lia. }
  pose proof (Q2_pos ez) as Pz.
  assert (Hn : (- (inject_Z b * Q2 ez) <= inject_Z n * Q2 ez <= inject_Z b * Q2 ez)%Q).
  { assert (Hn1 : (- inject_Z b <= inject_Z n <= inject_Z b)%Q).
    { rewrite <- inject_Z_opp, <- !Zle_Qle. unfold n. destruct sx; lia. }
    split; [|apply Qmult_le_compat_r; [apply Hn1 | lra]].
    setoid_replace (- (inject_Z b * Q2 ez))%Q with ((- inject_Z b) * Q2 ez)%Q by ring.
    apply Qmult_le_compat_r; [apply Hn1 | lra]. }
  destruct (rounds_between 53 1024 _ _ _ _ HR Hny Hy) as [Hc Hbnd].
  { rewrite Eny, Ey. apply Hn. }
  { rewrite Ey. apply Hn. }
  split; [exact Hc|]. rewrite Eny in Hbnd. exact Hbnd.
Qed.

Lemma gtb_Q64 (x y : float) : c64 x -> c64 y -> gtb x y = true <-> (F2Q y < F2Q x)%Q.
Proof. intros Hx Hy. unfold gtb. apply (SFltb_Q 53 1024 _ _ Hy Hx). Qed.

Lemma not_gtb_le64 (x y : float) : c64 x -> c64 y -> gtb x y = false -> (F2Q x <= F2Q y)%Q.
Proof.
  intros Hx Hy H. apply Qnot_lt_le. intros Hlt.
  apply (gtb_Q64 _ _ Hx Hy) in Hlt. rewrite Hlt in H. discriminate H.
Qed.

Lemma is_finite_twoPi :
  exists m e, twoPi = S754_finite false m e.
Proof. eexists _, _. vm_compute. reflexivity. Qed.

Lemma is_finite_Pi :
  exists m e, Pi = S754_finite false m e.
Proof. eexists _, _. vm_compute. reflexivity. Qed.

(** A sum or difference whose exact value lies between two floats. *)
Lemma add_between (x y lo hi : float) :
  c64 x -> c64 y -> c64 lo -> c64 hi ->
  (F2Q lo <= F2Q x + F2Q y <= F2Q hi)%Q ->
  c64 (x + y)%f64 /\ (F2Q lo <= F2Q (x + y)%f64 <= F2Q hi)%Q.
Proof.
  intros Hx Hy Hlo Hhi [H1 H2].
  exact (rounds_between 53 1024 _ _ _ _ (add64 x y Hx Hy) Hlo Hhi H1 H2).
Qed.

Lemma sub_between (x y lo hi : float) :
  c64 x -> c64 y -> c64 lo -> c64 hi ->
  (F2Q lo <= F2Q x - F2Q y <= F2Q hi)%Q ->
  c64 (x - y)%f64 /\ (F2Q lo <= F2Q (x - y)%f64 <= F2Q hi)%Q.
Proof.
  intros Hx Hy Hlo Hhi [H1 H2].
  exact (rounds_between 53 1024 _ _ _ _ (sub64 x y Hx Hy) Hlo Hhi H1 H2).
Qed.

Lemma sinReduce_bounds (xf : float) :
  c64 xf -> c64 (sinReduce xf) /\ (- F2Q halfPi <= F2Q (sinReduce xf) <= F2Q halfPi)%Q.
Proof.
  intros Hx.
  destruct pi_constants as (CP & C2 & CH & _ & PP & E2 & EH & _).
  destruct (neg_c64 Pi CP) as [CnP EnP]. destruct (neg_c64 halfPi CH) as [CnH EnH].
  destruct zero_c64 as [CZ EZ].
  destruct is_finite_twoPi as (m2 & e2 & T2).
  unfold sinReduce. cbv zeta.
  assert (Hm : c64 (Mod xf twoPi) /\ (- F2Q twoPi <= F2Q (Mod xf twoPi) <= F2Q twoPi)%Q).
  { rewrite T2. apply Mod_range; [exact Hx | rewrite <- T2; exact C2]. }
  destruct Hm as [Cm Bm]. set (m := Mod xf twoPi) in *.
  assert (Ha : c64 (if gtb m Pi then (m - twoPi)%f64
                    else if ltb m (- Pi)%f64 then (m + twoPi)%f64 else m) /\
               (- F2Q Pi <= F2Q (if gtb m Pi then (m - twoPi)%f64
                                 else if ltb m (- Pi)%f64 then (m + twoPi)%f64 else m)
                <= F2Q Pi)%Q).
  { destruct (gtb m Pi) eqn:G.
    - apply (gtb_Q64 _ _ Cm CP) in G.
      destruct (sub_between m twoPi (neg Pi) Pi Cm C2 CnP CP) as [H1 H2]; [rewrite EnP; lra|].
      split; [exact H1 | rewrite EnP in H2; exact H2].
    - apply (not_gtb_le64 _ _ Cm CP) in G.
      destruct (ltb m (- Pi)%f64) eqn:L.
      + apply (ltb_Q64 _ _ Cm CnP) in L. rewrite EnP in L.
        destruct (add_between m twoPi (neg Pi) Pi Cm C2 CnP CP) as [H1 H2]; [rewrite EnP; lra|].
        split; [exact H1 | rewrite EnP in H2; exact H2].
      + apply (not_ltb_le64 _ _ Cm CnP) in L. rewrite EnP in L.
        split; [exact Cm | lra]. }
  destruct Ha as [Ca Ba].
  set (a := if gtb m Pi then _ else _) in *.
  destruct (gtb a halfPi) eqn:G.
  - apply (gtb_Q64 _ _ Ca CH) in G.
    destruct (sub_between Pi a (neg halfPi) halfPi CP Ca CnH CH) as [H1 H2]; [rewrite EnH; lra|].
    split; [exact H1 | rewrite EnH in H2; exact H2].
  - apply (not_gtb_le64 _ _ Ca CH) in G.
    destruct (ltb a (- halfPi)%f64) eqn:L.
    + apply (ltb_Q64 _ _ Ca CnH) in L. rewrite EnH in L.
      destruct (sub_between (neg Pi) a (neg halfPi) halfPi CnP Ca CnH CH) as [H1 H2];
        [rewrite EnH, EnP; lra|].
      split; [exact H1 | rewrite EnH in H2; exact H2].
    + apply (not_ltb_le64 _ _ Ca CnH) in L. rewrite EnH in L.
      split; [exact Ca | lra].
Qed.

Lemma cosReduce_bounds (xf : float) :
  c64 xf -> c64 (cosReduce xf) /\ (0 <= F2Q (cosReduce xf) <= F2Q Pi)%Q.
Proof.
  intros Hx.
  destruct pi_constants as (CP & C2 & CH & _ & PP & E2 & EH & _).
  destruct zero_c64 as [CZ EZ].
  destruct is_finite_twoPi as (m2 & e2 & T2).
  unfold cosReduce. cbv zeta.
  assert (Hm : c64 (Mod xf twoPi) /\ (- F2Q twoPi <= F2Q (Mod xf twoPi) <= F2Q twoPi)%Q).
  { rewrite T2. apply Mod_range; [exact Hx | rewrite <- T2; exact C2]. }
  destruct Hm as [Cm Bm]. set (m := Mod xf twoPi) in *.
  assert (Ha : c64 (if ltb m pZero then (m + twoPi)%f64 else m) /\
               (0 <= F2Q (if ltb m pZero then (m + twoPi)%f64 else m) <= F2Q twoPi)%Q).
  { destruct (ltb m pZero) eqn:L.
    - apply (ltb_Q64 _ _ Cm CZ) in L. rewrite EZ in L.
      destruct (add_between m twoPi pZero twoPi Cm C2 CZ C2) as [H1 H2]; [rewrite EZ; lra|].
      split; [exact H1 | rewrite EZ in H2; exact H2].
    - apply (not_ltb_le64 _ _ Cm CZ) in L. rewrite EZ in L.
      split; [exact Cm | lra]. }
  destruct Ha as [Ca Ba].
  set (a := if ltb m pZero then _ else _) in *.
  destruct (gtb a Pi) eqn:G.
  - apply (gtb_Q64 _ _ Ca CP) in G.
    destruct (sub_between twoPi a pZero Pi C2 Ca CZ CP) as [H1 H2]; [rewrite EZ; lra|].
    split; [exact H1 | rewrite EZ in H2; exact H2].
  - apply (not_gtb_le64 _ _ Ca CP) in G. split; [exact Ca | lra].
Qed.

Lemma tanReduce_bounds (xf : float) :
  c64 xf ->
  c64 (fst (fst (tanReduce xf))) /\
  (0 <= F2Q (fst (fst (tanReduce xf))) <= F2Q quarterPi)%Q.
Proof.
  intros Hx.
  destruct pi_constants as (CP & C2 & CH & CQ & PP & E2 & EH & EQ).
  destruct zero_c64 as [CZ EZ].
  destruct is_finite_Pi as (mp & ep & TP).
  unfold tanReduce. cbv zeta.
  assert (Hm : c64 (Mod xf Pi) /\ (- F2Q Pi <= F2Q (Mod xf Pi) <= F2Q Pi)%Q).
  { rewrite TP. apply Mod_range; [exact Hx | rewrite <- TP; exact CP]. }
  destruct Hm as [Cm Bm]. set (m := Mod xf Pi) in *.
  assert (Ha : c64 (if ltb m pZero then (m + Pi)%f64 else m) /\
               (0 <= F2Q (if ltb m pZero then (m + Pi)%f64 else m) <= F2Q Pi)%Q).
  { destruct (ltb m pZero) eqn:L.
    - apply (ltb_Q64 _ _ Cm CZ) in L. rewrite EZ in L.
      destruct (add_between m Pi pZero Pi Cm CP CZ CP) as [H1 H2]; [rewrite EZ; lra|].
      split; [exact H1 | rewrite EZ in H2; exact H2].
    - apply (not_ltb_le64 _ _ Cm CZ) in L. rewrite EZ in L.
      split; [exact Cm | lra]. }
  destruct Ha as [Ca Ba].
  set (a := if ltb m pZero then _ else _) in *.
  assert (Hb : forall sg, c64 (fst (if gtb a halfPi
                           then ((halfPi - (a - halfPi))%f64, (- (1 // 1))%f64)
                           else (a, sg))) /\
               (0 <= F2Q (fst (if gtb a halfPi
                                then ((halfPi - (a - halfPi))%f64, (- (1 // 1))%f64)
                                else (a, sg)))
                <= F2Q halfPi)%Q).
  { intros sg. destruct (gtb a halfPi) eqn:G; cbn [fst].
    - apply (gtb_Q64 _ _ Ca CH) in G.
      destruct (sub_between a halfPi pZero halfPi Ca CH CZ CH) as [H1 H2]; [rewrite EZ; lra|].
      rewrite EZ in H2.
      destruct (sub_between halfPi (a - halfPi)%f64 pZero halfPi CH H1 CZ CH) as [H3 H4];
        [rewrite EZ; lra|].
      split; [exact H3 | rewrite EZ in H4; exact H4].
    - apply (not_gtb_le64 _ _ Ca CH) in G. split; [exact Ca | lra]. }
  specialize (Hb (1 // 1)).
  destruct (if gtb a halfPi then _ else _) as [b sign]. cbn [fst] in Hb.
  destruct Hb as [Cb Bb].
  destruct (gtb b quarterPi) eqn:G; cbn [fst].
  - apply (gtb_Q64 _ _ Cb CQ) in G.
    destruct (sub_between halfPi b pZero quarterPi CH Cb CZ CQ) as [H1 H2]; [rewrite EZ; lra|].
    split; [exact H1 | rewrite EZ in H2; exact H2].
  - apply (not_gtb_le64 _ _ Cb CQ) in G. split; [exact Cb | lra].
Qed.

Lemma leb_Q64 (x y : float) : c64 x -> c64 y -> (F2Q x <= F2Q y)%Q -> leb x y = true.
Proof. intros Hx Hy H. unfold leb. apply (SFleb_Q 53 1024 _ _ Hx Hy). exact H. Qed.

(** X23: the reduced argument of every [sinNTerm] is finite and within
    [[-π/2, π/2]] (the float64 constants), for every finite argument of
    either width. *)
Theorem sinReduce_range (w : Width) (x : float) :
  valid w x = true -> is_finite x = true ->
  is_finite (sinReduce (to_f64 w x)) = true /\
  leb (- halfPi)%f64 (sinReduce (to_f64 w x)) = true /\
  leb (sinReduce (to_f64 w x)) halfPi = true.
Proof.
  intros Hv Hf. destruct (sinReduce_bounds _ (to_f64_c64 w x Hv Hf)) as [Hc [Hl Hu]].
  destruct pi_constants as (_ & _ & CH & _).
  destruct (neg_c64 halfPi CH) as [CnH EnH].
  split; [apply Hc|]. split.
  - apply leb_Q64; [exact CnH | exact Hc | rewrite EnH; exact Hl].
  - apply leb_Q64; assumption.
Qed.

(** X24: the reduced argument of every [cosNTerm] is finite and within
    [[0, π]], for every finite argument of either width. *)
Theorem cosReduce_range (w : Width) (x : float) :
  valid w x = true -> is_finite x = true ->
  is_finite (cosReduce (to_f64 w x)) = true /\
  leb pZero (cosReduce (to_f64 w x)) = true /\
  leb (cosReduce (to_f64 w x)) Pi = true.
Proof.
  intros Hv Hf. destruct (cosReduce_bounds _ (to_f64_c64 w x Hv Hf)) as [Hc [Hl Hu]].
  destruct pi_constants as (CP & _).
  destruct zero_c64 as [CZ EZ].
  split; [apply Hc|]. split.
  - apply leb_Q64; [exact CZ | exact Hc | rewrite EZ; exact Hl].
  - apply leb_Q64; assumption.
Qed.

(** X25: the reduced argument of every [tanNTerm] is finite and within
    [[0, π/4]], for every finite argument of either width. *)
Theorem tanReduce_range (w : Width) (x : float) :
  valid w x = true -> is_finite x = true ->
  is_finite (fst (fst (tanReduce (to_f64 w x)))) = true /\
  leb pZero (fst (fst (tanReduce (to_f64 w x)))) = true /\
  leb (fst (fst (tanReduce (to_f64 w x)))) quarterPi = true.
Proof.
  intros Hv Hf. destruct (tanReduce_bounds _ (to_f64_c64 w x Hv Hf)) as [Hc [Hl Hu]].
  destruct pi_constants as (_ & _ & _ & CQ & _).
  destruct zero_c64 as [CZ EZ].
  split; [apply Hc|]. split.
  - apply leb_Q64; [exact CZ | exact Hc | rewrite EZ; exact Hl].
  - apply leb_Q64; assumption.
Qed.

Lemma sinReduce_range_witness :
  is_finite (sinReduce (to_f64 F32 (S754_finite false 10485760 (-20)))) = true /\
  leb (- halfPi)%f64 (sinReduce (to_f64 F32 (S754_finite false 10485760 (-20)))) = true /\
  leb (sinReduce (to_f64 F32 (S754_finite false 10485760 (-20)))) halfPi = true.
Proof. apply sinReduce_range; reflexivity. Defined.

Lemma cosReduce_range_witness :
  is_finite (cosReduce (to_f64 F64 (S754_finite true 5629499534213120 (-49)))) = true /\
  leb pZero (cosReduce (to_f64 F64 (S754_finite true 5629499534213120 (-49)))) = true /\
  leb (cosReduce (to_f64 F64 (S754_finite true 5629499534213120 (-49)))) Pi = true.
Proof. apply cosReduce_range; reflexivity. Defined.

Lemma tanReduce_range_witness :
  is_finite (fst (fst (tanReduce (to_f64 F32 (S754_finite true 10485760 (-20)))))) = true /\
  leb pZero (fst (fst (tanReduce (to_f64 F32 (S754_finite true 10485760 (-20)))))) = true /\
  leb (fst (fst (tanReduce (to_f64 F32 (S754_finite true 10485760 (-20)))))) quarterPi = true.
Proof. apply tanReduce_range; reflexivity. Defined.
